(* ===== verification/_CoqProject ===== *)
-Q . S2P
Prelude.v
BTree.v
Diagnostics.v
DiagnosticsThms.v
Counting.v
Io.v
Stream.v
Message.v
ChunkRead.v
Gelf.v
GelfInv.v
Reassembly.v
ReceiveTypes.v
ReceiveThms.v
Received.v
Framed.v
TcpDecode.v
TcpFraming.v
Connection.v
Json.v
Utf8.v
Str.v
Clef.v
Process.v
Fixtures.v
MessageThms.v
ReceiveTests.v
ProcessTests.v
Conversion.v
Members.v
ConversionThms.v
Processing.v
ProcessThms.v
ServerConfig.v
AppConfig.v
ConfigThms.v
Server.v
ServerThms.v
TcpListen.v
ListenThms.v
Interleaving.v
Listener.v
Pipeline.v
UdpListen.v
Serve.v
Main.v
App.v
AppThms.v
Failures.v
Program.v
TcpApp.v
TcpText.v
UdpApp.v
Sqelf.v
