(* ===== verification/Prelude.v ===== *)
(** * A verified model of the GELF input for Seq ([sqelf])

    The program (under [src/sqelf/src/]) receives GELF messages over UDP or TCP,
    reassembles the chunked ones, decompresses and parses them, converts each to
    a CLEF event and prints it as a line of JSON on stdout, where Seq reads it.
    A message goes through these parts, and the state of each is a record here:

    - [server/udp.rs], [server/tcp.rs]: a datagram, or a null-terminated frame of
      a TCP stream, is a payload for the [receive] closure;
    - [receive.rs]: the receiver [Gelf] returns a payload that is a whole message
      at once, and keeps a chunk of a message until the others have arrived;
    - [server/mod.rs]: the main loop takes what the decoders yield ([Received])
      and hands complete messages to the [process] closure;
    - [process/]: the processor decompresses and parses the message
      ([gelf::Message]), converts it ([to_clef]) and prints it;
    - [diagnostics.rs]: process-wide counters and a self-log that every part
      writes; [config.rs] and [main.rs] read the environment and start it all.

    ** Files, in the order they build on each other

    - [Prelude]: integers at their width, bytes, [res] (a value, an error, or a
      panic), the state monad [M] and its [wp], build profiles, time, automation.
    - [BTree]: [std::collections::BTreeMap]; the order of [UniqueTimestamp].
    - [Diagnostics], [DiagnosticsThms]: [diagnostics.rs]. [Globals] holds the
      statics [MIN_LEVEL], [METRICS] and [DIAGNOSTICS] and what went to stderr.
      [Counting]: the counters one atomic access at a time, between threads.
    - [Io]: the [bytes] crate, [std::io::Read] with its contract, [io.rs].
      [Stream]: streams that are polled, [AsyncRead].
    - [Message], [ChunkRead], [MessageThms]: the second half of [receive.rs]:
      headers, compression, messages and the readers over them.
    - [Gelf]: the receiver of [receive.rs]: [decode], [chunked], [gc], [push].
      [GelfInv] has its invariant, [Reassembly] the specification with one table
      ([Spec]) and the simulation, [ReceiveTypes] the ranges of its data,
      [ReceiveThms] the properties, [ReceiveTests] the unit tests of the file.
    - [Received]: [Received], [into_received] and the UDP decoder; [UdpListen]:
      the stream that [server/udp.rs] builds of it under [UdpFramed].
    - [TcpDecode], [TcpFraming]: [Decode] of [server/tcp.rs] and the framing it
      implements ([Framing]). [Framed] is [FramedRead], which calls it, and
      [Connection] a socket under the two: what a connection gives.
    - [Json], [Utf8], [Str], [Clef], [Process]: the data and operations of
      [process/]. [Conversion], [ConversionThms]: the laws and properties of
      [to_clef], [Members] the names of what an event is written with;
      [Processing], [ProcessThms]: those of [with_clef]; [ProcessTests]: the unit
      tests of [process/mod.rs] and [process/clef.rs]. [Fixtures] has the
      instances of the interfaces that examples are evaluated on.
    - [ServerConfig], [AppConfig], [ConfigThms]: configurations, [config.rs].
    - [Server], [ServerThms]: [server/mod.rs]: start-up, and the main loop on the
      events that [select!] picks; [Serve]: the loop on the stream it polls.
    - [TcpListen]: the rest of [server/tcp.rs], stream by stream as [build]
      stacks them: accepting ([TcpIncoming], [FilterMap] with [accept] and
      [accept_tls]), [QuietClose], [TimeoutStream], and [Listen], the active set.
      [ListenThms] and [Interleaving] are the laws of [Listen] over any streams,
      [Listener] those of the server's connections, [Pipeline] what comes out of
      the stack for what the peers send.
    - [Main]: [main.rs] around the loop of the server; [App], [AppThms]: its two
      closures in one state, from a datagram to a line, and [Failures] what becomes
      of a message whose event cannot be written; [TcpApp], [UdpApp]: the closures
      apart, from the sockets to the lines, and [TcpText] for peers that send no
      chunks.
      [Program]: the turns of the main thread, the thread on stdin and the metrics
      thread; [Sqelf]: the whole program, from its environment to its output.

    ** What the theorems show

    - The program: what it prints is, in order, a line for each message that the
      stream of its configuration gives, however its threads take their turns; it
      exits with code 0 when it is told to stop, and also when its start fails,
      which the self-log tells ([Sqelf.program_prints]). Over UDP the stream gives
      what one receiver makes of the first of the datagrams that arrive
      ([UdpApp.udp_server_prints]), so that the chunks of a message, in any order
      and retransmitted or not, print its event once
      ([AppThms.server_prints_reassembled]); over TCP, an interleaving of what the
      connections give, each on a socket of its own that was offered in the run
      ([TcpApp.tcp_server_prints]), which is that of the frames of the text on the
      sockets when they are not chunked ([TcpText.tcp_text_printed]). The polls of
      the stream in a run ([Serve.serve_polls], [Program.threads_polls]) tell what
      the listener was asked for in it ([Interleaving.asked]), so that the
      connections in these theorems are those that the run accepted. The exit code
      and the self-log report a failure ([main_reports]). What becomes of a message
      whose time has no text is up to [serde_json], and may be a panic, which ends
      the program ([Failures.unprintable_timestamp]).
    - The receiver: it refines the one-table specification
      ([ReceiveThms.receiver_refines]), from which the reassembly of a message
      among other traffic follows ([reassembly_any_order]); its indexes agree
      and stay within their limits; what it holds and returns keeps the ranges
      of its types ([ReceiveTypes.receiver_well_typed]); what garbage collection
      drops; what an error leaves.
    - TCP: the frames handed over are those of the stream however it is cut
      into reads ([TcpFraming.framing_any_schedule], [framing_at_eof]), and no
      complete frame that was read is held back
      ([Connection.no_frame_kept_back]); the set of connections stays within its
      limit and the counters account for it ([Listener.listen_bounded]); a
      connection is ended by its timeout exactly when it was silent for the
      period ([connection_timeout]), and a TLS handshake that is not completed
      keeps every other connection from being accepted
      ([stalled_handshake_blocks]).
    - The main loop: no error stops it, only a panic of [process] ([ServerThms]),
      what does, and what its counters say.
    - The processor: the layers of fields and what a displaced field becomes
      ([ConversionThms.to_clef_layers] and after), when the names of the members
      of an event are distinct ([Members.event_members_distinct]), timestamps with
      their overflows, and that how a payload was stored, sent or compressed does not
      matter ([ProcessThms.with_clef_content]).
    - Readers, headers and compression ([MessageThms]), the environment
      ([ConfigThms]), levels, counters and life cycle ([DiagnosticsThms]), and
      that no count is lost or reported twice when the metrics thread reports
      while others count ([Counting.metrics_accounted]).

    ** Integers, fuel, and inputs

    Integers are [Z] with their width written out; [Profile] tells a debug build,
    where an overflow panics, from a release build, where it wraps. [usize] has
    64 bits.

    Recursion that is not structural has fuel, and each has a theorem that the
    fuel is enough: a turn of [ChunkRead.read_chunks] passes a chunk or fills the
    buffer, so the number of chunks and two is above the turns it takes
    ([read_chunks_spec]); a turn of [TcpDecode.read_frame] that goes on consumes
    input or starts to discard, so [2 * length + 2] is ([read_frame_decoded]);
    a turn of [TcpListen.poll_conns] that goes on uses an element of its script,
    so their number and one is ([ListenThms.poll_conns_ok]);
    [Diagnostics.successors] follows a chain as long as the error is deep
    ([successors_sources]).
    [Io.read_to_end] and the readers given to [serde_json] take the sizes of the
    buffers, which the standard library chooses: more of them than the content
    has bytes are enough ([read_to_end_yields]).

    What the program does not choose is an input: the readings of the clock
    ([App.Clock]), what a poll finds at the sockets, the timers and the
    handshakes, and in which order the active set offers its connections (the
    input of [poll_next] in [Stream], the wakes of [Serve]), the events that
    [select!] picks ([Server.LoopEvent]), the cuts of a TCP stream into reads, the
    order in which threads take turns ([Program.turn]) and access the counters
    ([Counting.access]). A turn of a thread in [Program] is not interrupted;
    [Counting] is where the accesses within such turns interleave, and its
    [steps_increment] and [steps_emit_metrics] show that turns are sequences of
    them.

    ** Code that is not the program's

    A third-party crate is a class whose fields are the operations that are
    called, with the documented behaviour that is relied on as laws: [bytes]
    ([Io.BytesApi]), [libflate] ([ChunkRead.Libflate]), [rust_decimal]
    ([Clef.DecimalApi]), [humantime] ([Clef.Humantime]), [serde_json]
    ([Clef.ClefJson], [Process.GelfJson], [Json.JsonNumber]), [tokio]
    ([Stream.AsyncRead], [Framed.FramedReadApi], [UdpListen.UdpRecv],
    [UdpListen.UdpFramedApi], [TcpListen.Timeouts]), and the files, sockets and
    certificates of the operating system ([Server.ServerIo]).
    Within the program, the decoders know the [receive] closure through
    [Received.Receiver], the loop knows [process] through [Server.Processor], with
    the laws [Received.ReceiverStatics] and [Serve.ProcessorStatics] (the statics
    have no part in them) and [Received.ReceiverSteady] (when [receive] does not
    panic: in a release build, on a clock from which garbage collection can
    subtract its timeout), all discharged by the closures of [App] and [TcpApp]; [Listen]
    knows its connections through [ListenThms.ListenLaws].

    ** What is not modelled

    Binding sockets, the [tokio] runtime and its wakers, TLS records, and memory;
    threads but for the order of their turns and of their accesses to the
    counters; the JSON grammar; the timestamp and the JSON text of a self-log
    event; [lib.rs], which only declares modules; the integration tests, which
    drive a running server. *)

From stdpp Require Export base tactics option list list_numbers numbers.
From stdpp Require Export gmap strings.
From Stdlib Require Export Strings.Ascii.
From Stdlib Require Export ZArith Lia.
From Stdlib Require Import Strings.Byte.

(** ** Machine integers

    The integer types of the source are [Z] with their range written out. *)

Declare Scope sqelf_scope.
Delimit Scope sqelf_scope with sqelf.
Open Scope sqelf_scope.

Definition u8_modulus : Z := 2 ^ 8.
Definition u16_modulus : Z := 2 ^ 16.
Definition u32_modulus : Z := 2 ^ 32.
Definition u64_modulus : Z := 2 ^ 64.
(** The published targets (x86_64 and aarch64) have a 64-bit [usize]. *)
Definition usize_max : Z := 2 ^ 64 - 1.

(** [wrapping_add] of an unsigned type with the given modulus. *)
Definition wrapping_add (modulus a b : Z) : Z := (a + b) mod modulus.
(** [saturating_add] of [usize]. *)
Definition usize_saturating_add (a b : Z) : Z := Z.min usize_max (a + b).

(** ** Bytes *)

Abbreviation byte := Init.Byte.byte.
Abbreviation Bytes := (list Init.Byte.byte).

#[export] Instance byte_eq_decision : EqDecision byte := Byte.byte_eq_dec.

(** A byte read as a [u8]. *)
Definition u8 (b : byte) : Z := Z.of_N (Byte.to_N b).
(** A [u8] written as a byte (its low eight bits). *)
Definition byte_of_u8 (z : Z) : byte :=
  default Byte.x00 (Byte.of_N (Z.to_N (z mod u8_modulus))).

Lemma u8_range b : (0 <= u8 b < 256)%Z.
Proof.
  unfold u8. pose proof (Byte.to_N_bounded b). lia.
Qed.

Lemma byte_of_u8_u8 b : byte_of_u8 (u8 b) = b.
Proof.
  unfold byte_of_u8. pose proof (u8_range b).
  rewrite Z.mod_small by (unfold u8_modulus; lia).
  unfold u8. rewrite N2Z.id, Byte.of_to_N. reflexivity.
Qed.

Lemma u8_byte_of_u8 z : u8 (byte_of_u8 z) = (z mod u8_modulus)%Z.
Proof.
  unfold byte_of_u8, u8.
  pose proof (Z.mod_pos_bound z u8_modulus eq_refl) as Hz.
  destruct (Byte.of_N (Z.to_N (z mod u8_modulus))) as [b|] eqn:E; simpl.
  - apply Byte.to_of_N in E. lia.
  - apply Byte.of_N_None_iff in E. unfold u8_modulus in *. lia.
Qed.

Lemma u8_byte_of_u8_small z : (0 <= z < 256)%Z -> u8 (byte_of_u8 z) = z.
Proof.
  intros. rewrite u8_byte_of_u8. apply Z.mod_small. unfold u8_modulus. lia.
Qed.

(** ** Results

    A computation of the source returns a value, returns an [Error], or
    panics. [error] is [anyhow::Error]: a format string with its arguments for
    [bail!], [anyhow!] and [Error::msg], the errors of the standard library the
    source propagates with [?], the errors of third-party crates (their message
    and the messages of their chain of causes) and an error with a [context]. *)

Inductive fmt_arg := ANum (n : Z) | AStr (s : string).

#[export] Instance fmt_arg_eq_decision : EqDecision fmt_arg.
Proof. solve_decision. Defined.

Inductive error :=
| Bail (fmt : string) (args : list fmt_arg)
| SystemTimeError
| VarNotUnicode
| External (what : string) (causes : list string)
| ErrorContext (context : string) (source : error).

#[export] Instance error_eq_decision : EqDecision error.
Proof. solve_decision. Defined.

Inductive res (A : Type) :=
| Ok (a : A)
| Err (e : error)
| Panic (why : string).
Arguments Ok {A} a.
Arguments Err {A} e.
Arguments Panic {A} why.

#[export] Instance res_eq_decision `{EqDecision A} : EqDecision (res A).
Proof. solve_decision. Defined.

#[export] Instance res_ret : MRet res := @Ok.
#[export] Instance res_bind : MBind res := fun A B f r =>
  match r with
  | Ok a => f a
  | Err e => Err e
  | Panic w => Panic w
  end.
#[export] Instance res_fmap : FMap res := fun A B f r =>
  match r with
  | Ok a => Ok (f a)
  | Err e => Err e
  | Panic w => Panic w
  end.

Definition is_ok {A} (r : res A) : bool :=
  match r with Ok _ => true | _ => false end.
Definition is_panic {A} (r : res A) : bool :=
  match r with Panic _ => true | _ => false end.

(** The value of a result that has one. *)
Definition ok_or {A} (d : A) (r : res A) : A :=
  match r with Ok a => a | _ => d end.

Lemma ok_or_eq {A} (d : A) r : is_ok r = true -> r = Ok (ok_or d r).
Proof. by destruct r. Qed.

(** ** Stateful computations

    [M S A] is a method on [&mut S]: it returns a result and leaves a state,
    also when it returns an error (the writes made before a [?] stay). *)

Definition M (S A : Type) : Type := S -> res A * S.

Definition m_ret {S A} (a : A) : M S A := fun s => (Ok a, s).
Definition m_throw {S A} (e : error) : M S A := fun s => (Err e, s).
Definition m_panic {S A} (w : string) : M S A := fun s => (Panic w, s).
Definition m_bind {S A B} (m : M S A) (f : A -> M S B) : M S B := fun s =>
  match m s with
  | (Ok a, s') => f a s'
  | (Err e, s') => (Err e, s')
  | (Panic w, s') => (Panic w, s')
  end.
Definition m_get {S} : M S S := fun s => (Ok s, s).
Definition m_put {S} (s : S) : M S unit := fun _ => (Ok tt, s).
Definition m_modify {S} (f : S -> S) : M S unit := fun s => (Ok tt, f s).
Definition m_lift {S A} (r : res A) : M S A := fun s => (r, s).

(** A method of a field: [get] projects the field, [set] writes it back. *)
Definition m_zoom {S T A} (get : S -> T) (set : T -> S -> S) (m : M T A) : M S A :=
  fun s => let '(r, t) := m (get s) in (r, set t s).

(** A [for] loop. *)
Fixpoint m_for {S A} (body : A -> M S unit) (l : list A) : M S unit :=
  match l with
  | [] => m_ret tt
  | x :: l' => m_bind (body x) (fun _ => m_for body l')
  end.

Notation "'let!' x := m 'in' k" := (m_bind m (fun x => k))
  (at level 10, x binder, m at level 100, k at level 200) : sqelf_scope.
Notation "'let!' ' p := m 'in' k" := (m_bind m (fun x => match x with p => k end))
  (at level 10, p pattern, m at level 100, k at level 200) : sqelf_scope.
Notation "m ;;; k" := (m_bind m (fun _ => k))
  (at level 199, right associativity) : sqelf_scope.

(** [wp m Q E s]: from [s], the computation returns a value and a state that
    satisfy [Q], or ends in a state that satisfies [E] of the error, or of
    [None] when it panics. *)
Definition wp {S A} (m : M S A) (Q : A -> S -> Prop) (E : option error -> S -> Prop) (s : S) :
    Prop :=
  match m s with
  | (Ok a, s') => Q a s'
  | (Err e, s') => E (Some e) s'
  | (Panic _, s') => E None s'
  end.

(** No error, and a panic only if [P]. *)
Definition panics {S} (P : Prop) (o : option error) (s : S) : Prop := o = None /\ P.

Section WeakestPre.
Context {S : Type}.
Implicit Types s : S.

Lemma wp_ret {A} (a : A) Q E s : Q a s -> wp (m_ret a) Q E s.
Proof. done. Qed.
Lemma wp_get (Q : S -> S -> Prop) E s : Q s s -> wp m_get Q E s.
Proof. done. Qed.
Lemma wp_modify f (Q : unit -> S -> Prop) E s : Q tt (f s) -> wp (m_modify f) Q E s.
Proof. done. Qed.
Lemma wp_panic {A} w (Q : A -> S -> Prop) (E : option error -> S -> Prop) s :
  E None s -> wp (m_panic w) Q E s.
Proof. done. Qed.

Lemma wp_bind {A B} (m : M S A) (f : A -> M S B) Q E s :
  wp m (fun a s' => wp (f a) Q E s') E s -> wp (m_bind m f) Q E s.
Proof. unfold wp, m_bind. by destruct (m s) as [[] ?]. Qed.

Lemma wp_mono {A} (m : M S A) (Q Q' : A -> S -> Prop) (E E' : option error -> S -> Prop) s :
  wp m Q E s -> (forall a s', Q a s' -> Q' a s') -> (forall o s', E o s' -> E' o s') ->
  wp m Q' E' s.
Proof. unfold wp. destruct (m s) as [[] ?]; auto. Qed.

(** What is known of a run that returned. *)
Lemma wp_ok {A} (m : M S A) Q E s a s' : wp m Q E s -> m s = (Ok a, s') -> Q a s'.
Proof. unfold wp. intros Hm Em. by rewrite Em in Hm. Qed.
End WeakestPre.

Lemma wp_zoom {S T A} (get : S -> T) (set : T -> S -> S) (m : M T A) Q E s :
  wp m (fun a t => Q a (set t s)) (fun o t => E o (set t s)) (get s) ->
  wp (m_zoom get set m) Q E s.
Proof. unfold wp, m_zoom. by destruct (m (get s)) as [[] ?]. Qed.

(** ** Build profile

    A debug build checks integer overflow and [debug_assert]; a release build
    (the one [ci/build-deps.ps1] publishes) does neither. *)

Class Profile := { debug_assertions : bool }.
Definition Debug : Profile := {| debug_assertions := true |}.
Definition Release : Profile := {| debug_assertions := false |}.

(** [a + b] on an unsigned type: a panic in a debug build, wrapping otherwise. *)
Definition checked_add `{Profile} (modulus a b : Z) : res Z :=
  if (a + b <? modulus)%Z then Ok (a + b)%Z
  else if debug_assertions then Panic "attempt to add with overflow"
  else Ok (wrapping_add modulus a b).

(** [a - b] on an unsigned type. *)
Definition checked_sub `{Profile} (modulus a b : Z) : res Z :=
  if (b <=? a)%Z then Ok (a - b)%Z
  else if debug_assertions then Panic "attempt to subtract with overflow"
  else Ok ((a - b) mod modulus)%Z.

(** [a * b] on an unsigned type. *)
Definition checked_mul `{Profile} (modulus a b : Z) : res Z :=
  if (a * b <? modulus)%Z then Ok (a * b)%Z
  else if debug_assertions then Panic "attempt to multiply with overflow"
  else Ok ((a * b) mod modulus)%Z.

(** ** Time

    A [SystemTime] is nanoseconds since the epoch (negative before it), a
    [Duration] is nanoseconds. On the published targets the seconds are an
    [i64]. The clock is not monotonic: each reading is an input. *)

Definition SystemTime : Type := Z.
Definition Duration : Type := Z.
Definition UNIX_EPOCH : SystemTime := 0%Z.
Definition nanos_per_sec : Z := 10 ^ 9.
Definition systime_min : Z := - (2 ^ 63) * nanos_per_sec.
Definition systime_max : Z := 2 ^ 63 * nanos_per_sec - 1.

Definition Duration_from_millis (ms : Z) : Duration := (ms * 10 ^ 6)%Z.
Definition Duration_from_secs (s : Z) : Duration := (s * nanos_per_sec)%Z.

(** [SystemTime::duration_since]. *)
Definition duration_since (t earlier : SystemTime) : res Duration :=
  if (earlier <=? t)%Z then Ok (t - earlier)%Z else Err SystemTimeError.

(** [SystemTime - Duration], which panics when the result is out of range. *)
Definition systime_sub (t : SystemTime) (d : Duration) : res SystemTime :=
  if (systime_min <=? t - d)%Z then Ok (t - d)%Z
  else Panic "overflow when subtracting duration from instant".

(** [SystemTime::checked_add]. *)
Definition systime_checked_add (t : SystemTime) (d : Duration) : option SystemTime :=
  if (t + d <=? systime_max)%Z then Some (t + d)%Z else None.

(** ** Automation *)

Create HintDb sqelf.

(** Turn boolean tests in the context into propositions. *)
Ltac bool_to_prop :=
  repeat match goal with
  | H : _ && _ = true |- _ => apply andb_true_iff in H as [? ?]
  | H : _ || _ = false |- _ => apply orb_false_iff in H as [? ?]
  | H : negb _ = true |- _ => apply negb_true_iff in H
  | H : negb _ = false |- _ => apply negb_false_iff in H
  | H : (_ <? _)%Z = true |- _ => apply Z.ltb_lt in H
  | H : (_ <? _)%Z = false |- _ => apply Z.ltb_ge in H
  | H : (_ <=? _)%Z = true |- _ => apply Z.leb_le in H
  | H : (_ <=? _)%Z = false |- _ => apply Z.leb_gt in H
  | H : (_ =? _)%Z = true |- _ => apply Z.eqb_eq in H
  | H : (_ =? _)%Z = false |- _ => apply Z.eqb_neq in H
  | H : bool_decide _ = true |- _ => apply bool_decide_eq_true_1 in H
  | H : bool_decide _ = false |- _ => apply bool_decide_eq_false_1 in H
  end.

(** ** Lemmas on lists *)

Lemma concat_drop_S {A} (ls : list (list A)) i l :
  ls !! i = Some l -> concat (drop i ls) = l ++ concat (drop (S i) ls).
Proof.
  intros H. rewrite (drop_S _ _ _ H). reflexivity.
Qed.

Lemma take_min_length {A} n (l : list A) : take (Nat.min (length l) n) l = take n l.
Proof.
  destruct (decide (n <= length l)).
  - by rewrite Nat.min_r.
  - rewrite Nat.min_l, firstn_all by lia. by rewrite take_ge by lia.
Qed.

Lemma drop_min_length {A} n (l : list A) : drop (Nat.min (length l) n) l = drop n l.
Proof.
  destruct (decide (n <= length l)).
  - by rewrite Nat.min_r.
  - rewrite Nat.min_l, !drop_ge by lia. done.
Qed.

Lemma Forall2_impl_Forall_l {A B} (P : A -> Prop) (Q Q' : A -> B -> Prop) l k :
  Forall2 Q l k -> Forall P l -> (forall x y, P x -> Q x y -> Q' x y) -> Forall2 Q' l k.
Proof. induction 1; intros Hp Himp; [done|]. inversion_clear Hp. constructor; auto. Qed.

Lemma sublist_omap {A B} (f : A -> option B) l l' :
  l `sublist_of` l' -> omap f l `sublist_of` omap f l'.
Proof.
  induction 1 as [|x l l' _ IH|x l l' _ IH]; cbn; [done|..]; destruct (f x); [|done| |done].
  - by apply sublist_skip.
  - by apply sublist_cons.
Qed.

Lemma omap_cons_subseteq {A B} (f : A -> option B) x l : omap f l ⊆ omap f (x :: l).
Proof. apply sublist_subseteq, sublist_omap. by apply sublist_cons. Qed.

Lemma sublist_snoc_elem {A} (l1 l2 l3 : list A) x :
  l1 `sublist_of` l2 -> x ∈ l3 -> l1 ++ [x] `sublist_of` l2 ++ l3.
Proof.
  intros Hl (k1 & k2 & ->)%list_elem_of_split. apply sublist_app; [done|].
  apply sublist_inserts_l. by apply sublist_skip, sublist_nil_l.
Qed.
