(* ===== verification/BTree.v ===== *)
(** [std::collections::BTreeMap]: an association list in strictly increasing
    key order, with the operations the program calls ([insert], [get],
    [remove], [range(..k)], iteration) and their laws. The receiver keeps its
    arrival index and the chunks of a message in one, and [serde_json]'s object
    map is one. *)

From S2P Require Import Prelude.
From Stdlib Require Import Sorting.Sorted.

(** The order of a key type, as a boolean test with its laws. *)
Class KeyOrder (K : Type) := {
  key_ltb : K -> K -> bool;
  key_ltb_irrefl a : key_ltb a a = false;
  key_ltb_trans a b c : key_ltb a b = true -> key_ltb b c = true -> key_ltb a c = true;
  key_ltb_total a b : key_ltb a b = false -> key_ltb b a = false -> a = b
}.

Abbreviation BTreeMap K V := (list (K * V)).

Section Operations.
Context {K V : Type} `{KeyOrder K}.
Implicit Types (m : BTreeMap K V) (k : K) (v : V).

Fixpoint bt_get k m : option V :=
  match m with
  | [] => None
  | (k', v') :: m' =>
      if key_ltb k k' then None
      else if key_ltb k' k then bt_get k m'
      else Some v'
  end.

Fixpoint bt_insert k v m : BTreeMap K V :=
  match m with
  | [] => [(k, v)]
  | (k', v') :: m' =>
      if key_ltb k k' then (k, v) :: m
      else if key_ltb k' k then (k', v') :: bt_insert k v m'
      else (k', v) :: m'
  end.

Fixpoint bt_remove k m : BTreeMap K V :=
  match m with
  | [] => []
  | (k', v') :: m' =>
      if key_ltb k k' then m
      else if key_ltb k' k then (k', v') :: bt_remove k m'
      else m'
  end.

(** [range(..k)]: the entries whose key is below [k], in key order. *)
Definition bt_range_to k m : BTreeMap K V := filter (fun kv => key_ltb kv.1 k = true) m.

Definition bt_keys m : list K := m.*1.
Definition bt_values m : list V := m.*2.

Definition bt_lt (a b : K * V) : Prop := key_ltb a.1 b.1 = true.
(** The representation invariant: keys strictly increase. *)
Definition bt_wf m : Prop := StronglySorted bt_lt m.
End Operations.

Section Laws.
Context {K V : Type} `{KeyOrder K}.
Implicit Types (m : BTreeMap K V) (k : K) (v : V).

Lemma key_ltb_asym (a b : K) : key_ltb a b = true -> key_ltb b a = false.
Proof.
  intros Hab. destruct (key_ltb b a) eqn:Hba; [|done].
  pose proof (key_ltb_trans _ _ _ Hab Hba) as Haa.
  by rewrite key_ltb_irrefl in Haa.
Qed.

(** Three-way comparison of two keys, for case analysis. *)
Lemma key_compare (a b : K) :
  (key_ltb a b = true /\ key_ltb b a = false /\ a <> b)
  \/ (key_ltb a b = false /\ key_ltb b a = true /\ a <> b)
  \/ (key_ltb a b = false /\ key_ltb b a = false /\ a = b).
Proof.
  destruct (key_ltb a b) eqn:Hab.
  - left. split; [done|]. split; [by apply key_ltb_asym|].
    intros ->. by rewrite key_ltb_irrefl in Hab.
  - right. destruct (key_ltb b a) eqn:Hba.
    + left. repeat split; auto. intros ->. by rewrite key_ltb_irrefl in Hba.
    + right. repeat split; auto. by apply key_ltb_total.
Qed.

Local Ltac compare_keys a b :=
  let H1 := fresh "Hlt" in let H2 := fresh "Hgt" in let H3 := fresh "Hkey" in
  destruct (key_compare a b) as [(H1 & H2 & H3)|[(H1 & H2 & H3)|(H1 & H2 & H3)]];
  rewrite ?H1, ?H2; simpl.

Lemma bt_wf_nil : bt_wf ([] : BTreeMap K V).
Proof. constructor. Qed.

Lemma bt_wf_cons k v m :
  bt_wf ((k, v) :: m) <-> bt_wf m /\ (forall kv, kv ∈ m -> key_ltb k kv.1 = true).
Proof.
  unfold bt_wf. split.
  - intros Hs. inversion Hs as [|? ? Hm Hall]; subst. split; [done|].
    intros kv Hin. rewrite Forall_forall in Hall.
    by apply (Hall kv).
  - intros [Hm Hall]. constructor; [done|].
    apply Forall_forall. intros kv Hin. by apply Hall.
Qed.

Lemma elem_of_bt_insert k v m kv :
  kv ∈ bt_insert k v m -> kv = (k, v) \/ kv ∈ m.
Proof.
  induction m as [|[k' v'] m IH]; simpl; [rewrite !elem_of_cons; naive_solver|].
  compare_keys k k'; rewrite !elem_of_cons; naive_solver.
Qed.

Lemma bt_wf_insert k v m : bt_wf m -> bt_wf (bt_insert k v m).
Proof.
  induction m as [|[k' v'] m IH]; simpl; intros Hwf.
  - apply bt_wf_cons. split; [done|]. intros kv Hkv. by apply elem_of_nil in Hkv.
  - pose proof Hwf as Hwf0. apply bt_wf_cons in Hwf as [Hm Hall].
    compare_keys k k'.
    + apply bt_wf_cons. split; [done|]. intros kv [->|Hin]%elem_of_cons; [done|].
      eapply key_ltb_trans; eauto.
    + apply bt_wf_cons. split; [auto|].
      intros kv [->|Hin]%elem_of_bt_insert; auto.
    + by apply bt_wf_cons.
Qed.

Lemma elem_of_bt_remove k m kv : kv ∈ bt_remove k m -> kv ∈ m.
Proof.
  induction m as [|[k' v'] m IH]; simpl; [done|].
  compare_keys k k'; rewrite ?elem_of_cons; naive_solver.
Qed.

Lemma bt_wf_remove k m : bt_wf m -> bt_wf (bt_remove k m).
Proof.
  induction m as [|[k' v'] m IH]; simpl; [done|]. intros Hwf.
  pose proof Hwf as Hwf0. apply bt_wf_cons in Hwf as [Hm Hall].
  compare_keys k k'; [done| |done].
  apply bt_wf_cons. split; [auto|]. intros kv Hin%elem_of_bt_remove. auto.
Qed.

Lemma bt_get_insert_eq k v m : bt_get k (bt_insert k v m) = Some v.
Proof.
  induction m as [|[k' v'] m IH]; simpl.
  - by rewrite key_ltb_irrefl.
  - compare_keys k k'; rewrite ?key_ltb_irrefl, ?Hlt, ?Hgt; auto.
Qed.

(** A key below every key of the map is not in it. *)
Lemma bt_get_below k m :
  (forall kv, kv ∈ m -> key_ltb k kv.1 = true) -> bt_get k m = None.
Proof.
  destruct m as [|[k' v'] m]; simpl; [done|]. intros Hall.
  pose proof (Hall (k', v') (list_elem_of_here _ _)) as Hk. simpl in Hk. by rewrite Hk.
Qed.

Lemma bt_get_insert_ne k k2 v m :
  bt_wf m -> k <> k2 -> bt_get k2 (bt_insert k v m) = bt_get k2 m.
Proof.
  intros Hwf Hne. induction m as [|[k' v'] m IH]; simpl.
  - compare_keys k2 k; congruence.
  - apply bt_wf_cons in Hwf as [Hm Hall].
    compare_keys k k'.
    + compare_keys k2 k; [|compare_keys k2 k'; done|congruence].
      by rewrite (key_ltb_trans _ _ _ Hlt0 Hlt).
    + compare_keys k2 k'; auto.
    + subst k'. compare_keys k2 k; congruence.
Qed.

Lemma bt_get_remove_eq k m : bt_wf m -> bt_get k (bt_remove k m) = None.
Proof.
  induction m as [|[k' v'] m IH]; simpl; [done|].
  intros [Hm Hall]%bt_wf_cons. compare_keys k k'.
  - by rewrite Hlt.
  - rewrite Hlt, Hgt. auto.
  - subst k'. by apply bt_get_below.
Qed.

Lemma bt_get_remove_ne k k2 m :
  bt_wf m -> k <> k2 -> bt_get k2 (bt_remove k m) = bt_get k2 m.
Proof.
  intros Hwf Hne. induction m as [|[k' v'] m IH]; simpl; [done|].
  apply bt_wf_cons in Hwf as [Hm Hall]. compare_keys k k'; [done| |].
  - compare_keys k2 k'; auto.
  - subst k'. compare_keys k2 k; [|done|congruence].
    apply bt_get_below. intros kv Hin. eapply key_ltb_trans; eauto.
Qed.

Lemma bt_get_elem k v m : bt_wf m -> bt_get k m = Some v <-> (k, v) ∈ m.
Proof.
  induction m as [|[k' v'] m IH]; simpl.
  - split; [done|]. intros Hin. by apply elem_of_nil in Hin.
  - intros [Hm Hall]%bt_wf_cons. specialize (IH Hm). rewrite elem_of_cons.
    compare_keys k k'.
    + split; [done|]. intros [?|Hin]; [congruence|].
      specialize (Hall _ Hin). simpl in Hall. pose proof (key_ltb_asym _ _ Hall). congruence.
    + rewrite IH. split; [auto|]. intros [?|?]; [congruence|done].
    + subst k'. split; [intros [= ->]; auto|]. intros [[= ->]|Hin]; [done|].
      specialize (Hall _ Hin). simpl in Hall. by rewrite key_ltb_irrefl in Hall.
Qed.

(** An entry splits the map into the smaller and the greater keys. *)
Lemma bt_wf_split k v m :
  bt_wf m -> (k, v) ∈ m ->
  exists m1 m2, m = m1 ++ (k, v) :: m2 /\ Forall (fun kv => key_ltb k kv.1 = true) m2.
Proof.
  intros Hwf (m1 & m2 & ->)%list_elem_of_split. exists m1, m2. split; [done|].
  induction m1 as [|e m1 IH]; apply StronglySorted_inv in Hwf as [Hwf Hf]; [|by apply IH].
  apply Hf.
Qed.

Lemma length_bt_insert_None k v m :
  bt_get k m = None -> length (bt_insert k v m) = S (length m).
Proof.
  induction m as [|[k' v'] m IH]; simpl; [done|].
  compare_keys k k'; intros; simpl; auto; congruence.
Qed.

Lemma length_bt_insert_Some k v v0 m :
  bt_get k m = Some v0 -> length (bt_insert k v m) = length m.
Proof.
  induction m as [|[k' v'] m IH]; simpl; [done|].
  compare_keys k k'; intros; simpl; auto; congruence.
Qed.

Lemma bt_ext m1 m2 :
  bt_wf m1 -> bt_wf m2 -> (forall k, bt_get k m1 = bt_get k m2) -> m1 = m2.
Proof.
  revert m2. induction m1 as [|[k1 v1] m1 IH]; intros [|[k2 v2] m2] Hwf1 Hwf2 Hget.
  - done.
  - specialize (Hget k2). simpl in Hget. by rewrite key_ltb_irrefl in Hget.
  - specialize (Hget k1). simpl in Hget. by rewrite key_ltb_irrefl in Hget.
  - apply bt_wf_cons in Hwf1 as [Hm1 Hall1]. apply bt_wf_cons in Hwf2 as [Hm2 Hall2].
    assert (k1 = k2) as ->.
    { pose proof (Hget k1) as H1. pose proof (Hget k2) as H2. simpl in H1, H2.
      rewrite key_ltb_irrefl in H1, H2. compare_keys k1 k2; [| |done].
      - by rewrite Hlt in H1.
      - by rewrite Hgt in H2. }
    pose proof (Hget k2) as Hv. simpl in Hv. rewrite key_ltb_irrefl in Hv.
    injection Hv as ->. f_equal. apply IH; auto.
    intros k. specialize (Hget k). simpl in Hget. compare_keys k k2.
    + rewrite !bt_get_below; [done| |]; intros kv Hin; eapply key_ltb_trans; eauto.
    + by rewrite Hlt, Hgt in Hget.
    + subst k. rewrite !bt_get_below; auto.
Qed.

Lemma elem_of_bt_range_to k m kv :
  kv ∈ bt_range_to k m <-> kv ∈ m /\ key_ltb kv.1 k = true.
Proof. unfold bt_range_to. rewrite list_elem_of_filter. tauto. Qed.

Lemma bt_wf_filter (P : K * V -> Prop) `{!forall kv, Decision (P kv)} m :
  bt_wf m -> bt_wf (filter P m).
Proof.
  induction m as [|[k v] m IH]; intros Hwf; [done|].
  apply bt_wf_cons in Hwf as [Hm Hall].
  rewrite filter_cons. case_decide; [|auto].
  apply bt_wf_cons. split; [auto|].
  intros kv [_ Hin]%list_elem_of_filter. auto.
Qed.

Lemma bt_keys_NoDup m : bt_wf m -> NoDup (bt_keys m).
Proof.
  induction m as [|[k v] m IH]; intros Hwf; [constructor|].
  apply bt_wf_cons in Hwf as [Hm Hall]. constructor; [|auto].
  intros (kv & Hk & Hin)%list_elem_of_fmap. simpl in Hk. subst k.
  specialize (Hall _ Hin). by rewrite key_ltb_irrefl in Hall.
Qed.
End Laws.

#[export] Hint Resolve bt_wf_nil bt_wf_insert bt_wf_remove bt_wf_filter : sqelf.

(** ** The key orders the program uses *)

#[export, refine] Instance Z_key_order : KeyOrder Z := {| key_ltb := Z.ltb |}.
Proof.
  - apply Z.ltb_irrefl.
  - intros a b c. rewrite !Z.ltb_lt. lia.
  - intros a b. rewrite !Z.ltb_ge. lia.
Defined.

(** The derived [Ord] of a tuple struct: lexicographic. *)
Definition pair_ltb {A B} `{KeyOrder A, KeyOrder B} (x y : A * B) : bool :=
  key_ltb x.1 y.1 || (negb (key_ltb y.1 x.1) && key_ltb x.2 y.2).

Lemma pair_ltb_spec {A B} `{KeyOrder A, KeyOrder B} (x y : A * B) :
  pair_ltb x y = true <->
  key_ltb x.1 y.1 = true \/ (x.1 = y.1 /\ key_ltb x.2 y.2 = true).
Proof.
  unfold pair_ltb.
  destruct (key_compare x.1 y.1) as [(->&->&?)|[(->&->&?)|(->&->&->)]]; naive_solver.
Qed.

#[export, refine] Instance pair_key_order {A B} `{KeyOrder A, KeyOrder B} :
  KeyOrder (A * B) := {| key_ltb := pair_ltb |}.
Proof.
  - intros [a b]. unfold pair_ltb. simpl. by rewrite !key_ltb_irrefl.
  - intros [a1 b1] [a2 b2] [a3 b3]. rewrite !pair_ltb_spec. simpl.
    intros [?|[-> ?]] [?|[-> ?]]; eauto using key_ltb_trans.
  - intros [a1 b1] [a2 b2]. unfold pair_ltb. simpl.
    destruct (key_compare a1 a2) as [(->&->&?)|[(->&->&?)|(->&->&->)]]; simpl; [done..|].
    intros. f_equal. by apply key_ltb_total.
Defined.
