(* ===== verification/Diagnostics.v ===== *)
(** The process-wide diagnostics ([sqelf/src/diagnostics.rs]): the minimum
    level, the metrics counters of the [metrics!] and [increment!] macros, the
    self-log written to stderr, and the life cycle of the metrics thread.

    [Globals] is the static state of the process ([MIN_LEVEL], [METRICS],
    [DIAGNOSTICS]) with the self-log events written so far, newest last. The
    timestamp of an event and its JSON text are left out. *)

From S2P Require Import Prelude.
From stdpp Require Import pretty.

Section Levels.
Inductive Level := LDebug | LError.

#[export] Instance Level_eq_decision : EqDecision Level.
Proof. solve_decision. Defined.

Definition Level_from_str (s : string) : res Level :=
  if decide (s = "DEBUG"%string) then Ok LDebug
  else if decide (s = "ERROR"%string) then Ok LError
  else Err (Bail "expected `DEBUG` or `ERROR`" []).

Definition Level_to_usize (l : Level) : Z :=
  match l with LDebug => 0 | LError => 1 end.

Definition Level_from_usize (v : Z) : Level :=
  if (v =? 0)%Z then LDebug else LError.
End Levels.

(** ** Errors as text *)

Section Errors.
(** [format!]: each [{}] of the format string takes the next argument. *)
Definition format_arg (a : fmt_arg) : string :=
  match a with ANum n => pretty n | AStr s => s end.

Fixpoint format (fmt : string) (args : list fmt_arg) : string :=
  match fmt with
  | String "{"%char (String "}"%char rest) =>
      match args with
      | a :: args' => (format_arg a +:+ format rest args')%string
      | [] => format rest []
      end
  | String c rest => String c (format rest args)
  | EmptyString => EmptyString
  end.

(** [Display] of an error. *)
Definition error_display (e : error) : string :=
  match e with
  | Bail fmt args => format fmt args
  | SystemTimeError => "second time provided was later than self"
  | VarNotUnicode => "environment variable was not valid unicode"
  | External what _ => what
  | ErrorContext context _ => context
  end.

(** [std::error::Error::source]. *)
Definition error_source (e : error) : option error :=
  match e with
  | External _ (c :: cs) => Some (External c cs)
  | ErrorContext _ source => Some source
  | _ => None
  end.

(** The length of an error's chain of sources: the fuel of [successors]. *)
Fixpoint error_depth (e : error) : nat :=
  match e with
  | External _ cs => length cs
  | ErrorContext _ source => S (error_depth source)
  | _ => 0
  end.

(** [std::iter::successors(first, |source| source.source())]. *)
Fixpoint successors (fuel : nat) (first : option error) : list error :=
  match fuel, first with
  | S fuel', Some e => e :: successors fuel' (error_source e)
  | _, _ => []
  end.

Definition format_error (e : error) : string :=
  foldl (fun s source => s +:+ ": " +:+ error_display source)%string
    (error_display e)
    (successors (error_depth e) (error_source e)).
End Errors.

(** ** Metrics

    [metrics!] declares a struct of atomic counters, one per identifier; an
    instance is the list of its fields in declaration order. *)

Section Metrics.
Definition Metrics : Type := list (string * Z).

Definition Metrics_new (fields : list string) : Metrics := (fun f => (f, 0%Z)) <$> fields.

(** [take]: the values of the fields, each swapped with 0. *)
Definition Metrics_take (m : Metrics) : list (string * Z) * Metrics :=
  (m, prod_map id (fun _ => 0%Z) <$> m).

(** [fetch_add(1)] of one field. *)
Definition Metrics_fetch_add (field : string) (m : Metrics) : Metrics :=
  (fun '(f, n) => (f, if decide (f = field) then wrapping_add u64_modulus n 1 else n)) <$> m.

(** The value of a field. *)
Fixpoint Metrics_load (field : string) (m : Metrics) : option Z :=
  match m with
  | [] => None
  | (f, n) :: m' => if decide (f = field) then Some n else Metrics_load field m'
  end.
End Metrics.

(** ** The process-wide state *)

(** The modules that declare metrics, as named in [METRICS]. *)
Inductive group := GReceive | GProcess | GServer.

(** The [DiagnosticEvent]s written to stderr. [additional] is the flattened
    metrics object of [emit_metrics]: the three maps it carries. *)
Record DiagnosticEvent := mkEvent {
  event_level : string;
  event_error : option string;
  event_template : string;
  event_additional : option (gmap string Z * gmap string Z * gmap string Z)
}.

(** The metrics thread as its owner sees it: the thread either still waits on
    its channel or has ended (its receiver is then dropped). *)
Record Diagnostics := mkDiagnostics { diag_metrics : option bool }.

Record Globals := mkGlobals {
  MIN_LEVEL : Z;
  METRICS_receive : Metrics;
  METRICS_process : Metrics;
  METRICS_server : Metrics;
  DIAGNOSTICS : option Diagnostics;
  stderr : list DiagnosticEvent
}.

Definition receive_metrics : list string :=
  ["chunk"; "msg_chunked"; "msg_unchunked"; "msg_incomplete_chunk_overflow"]%string.
Definition process_metrics : list string := ["msg"]%string.
Definition server_metrics : list string :=
  ["receive_ok"; "receive_err"; "process_ok"; "process_err"; "tcp_conn_accept";
   "tcp_conn_close"; "tcp_conn_timeout"; "tcp_msg_overflow"]%string.

(** The initial values of the statics. *)
Definition Globals_initial : Globals := {|
  MIN_LEVEL := 0;
  METRICS_receive := Metrics_new receive_metrics;
  METRICS_process := Metrics_new process_metrics;
  METRICS_server := Metrics_new server_metrics;
  DIAGNOSTICS := None;
  stderr := []
|}.

Section State.
Implicit Types g : Globals.

Definition set_min_level (v : Z) g : Globals :=
  mkGlobals v (METRICS_receive g) (METRICS_process g) (METRICS_server g)
    (DIAGNOSTICS g) (stderr g).

Definition metrics_of (grp : group) g : Metrics :=
  match grp with
  | GReceive => METRICS_receive g
  | GProcess => METRICS_process g
  | GServer => METRICS_server g
  end.

Definition set_metrics (grp : group) (m : Metrics) g : Globals :=
  match grp with
  | GReceive => mkGlobals (MIN_LEVEL g) m (METRICS_process g) (METRICS_server g)
                  (DIAGNOSTICS g) (stderr g)
  | GProcess => mkGlobals (MIN_LEVEL g) (METRICS_receive g) m (METRICS_server g)
                  (DIAGNOSTICS g) (stderr g)
  | GServer => mkGlobals (MIN_LEVEL g) (METRICS_receive g) (METRICS_process g) m
                 (DIAGNOSTICS g) (stderr g)
  end.

Definition set_diagnostics (d : option Diagnostics) g : Globals :=
  mkGlobals (MIN_LEVEL g) (METRICS_receive g) (METRICS_process g) (METRICS_server g)
    d (stderr g).

(** [eprintln!] of an event. *)
Definition eprintln (evt : DiagnosticEvent) g : Globals :=
  mkGlobals (MIN_LEVEL g) (METRICS_receive g) (METRICS_process g) (METRICS_server g)
    (DIAGNOSTICS g) (stderr g ++ [evt]).

(** [MinLevel::get] and [MinLevel::set]. *)
Definition MinLevel_get g : Level := Level_from_usize (MIN_LEVEL g).
Definition MinLevel_set (min : Level) g : Globals := set_min_level (Level_to_usize min) g.

(** [MinLevel::includes]. *)
Definition MinLevel_includes (level : Level) g : bool :=
  (Level_to_usize (MinLevel_get g) <=? Level_to_usize level)%Z.

(** [increment!(group.field)]. *)
Definition increment (grp : group) (field : string) g : Globals :=
  if MinLevel_includes LDebug g
  then set_metrics grp (Metrics_fetch_add field (metrics_of grp g)) g
  else g.

Definition emit (message_template : string) g : Globals :=
  if MinLevel_includes LDebug g
  then eprintln (mkEvent "DEBUG" None message_template None) g
  else g.

Definition emit_debug_err (err : error) (message_template : string) g : Globals :=
  if MinLevel_includes LDebug g
  then eprintln (mkEvent "DEBUG" (Some (format_error err)) message_template None) g
  else g.

Definition emit_err (err : error) (message_template : string) g : Globals :=
  if MinLevel_includes LError g
  then eprintln (mkEvent "ERROR" (Some (format_error err)) message_template None) g
  else g.

(** [emit_metrics]: the counters are taken and written as one event. *)
Definition emit_metrics g : Globals :=
  if MinLevel_includes LDebug g then
    let '(receive, receive') := Metrics_take (METRICS_receive g) in
    let '(process, process') := Metrics_take (METRICS_process g) in
    let '(server, server') := Metrics_take (METRICS_server g) in
    let g := set_metrics GServer server'
               (set_metrics GProcess process' (set_metrics GReceive receive' g)) in
    eprintln (mkEvent "DEBUG" None "Collected GELF server metrics"
                (Some (list_to_map receive, list_to_map process, list_to_map server))) g
  else g.
End State.

(** ** The life cycle of the metrics thread *)

Section Lifecycle.
Record Config := mkConfig {
  metrics_interval_ms : Z;
  min_level : Level
}.

Definition Config_default : Config := {|
  metrics_interval_ms := 1 * 1000 * 60;
  min_level := LError
|}.

(** What [recv_timeout] gives the metrics thread. *)
Inductive RecvTimeout := RecvOk | RecvDisconnected | RecvElapsed.

(** One turn of the metrics thread: [true] when the thread goes on. *)
Definition metrics_thread_turn (r : RecvTimeout) (g : Globals) : bool * Globals :=
  match r with
  | RecvOk | RecvDisconnected => (false, emit_metrics g)
  | RecvElapsed => (true, emit_metrics g)
  end.

(** [init]: the [Drop] of the lock guard before the panic leaves no trace. *)
Definition init (config : Config) : M Globals unit :=
  let! g := m_get in
  match DIAGNOSTICS g with
  | Some _ => m_panic "GELF diagnostics have already been initialized"
  | None =>
      m_modify (MinLevel_set (min_level config)) ;;;
      let! g := m_get in
      let metrics := if MinLevel_includes LDebug g then Some true else None in
      m_modify (set_diagnostics (Some (mkDiagnostics metrics)))
  end.

(** [Diagnostics::stop_metrics]: the send fails when the thread has ended;
    otherwise the thread takes its last turn before [join] returns. *)
Definition stop_metrics (d : Diagnostics) : M Globals unit :=
  match diag_metrics d with
  | Some true => m_modify (fun g => (metrics_thread_turn RecvOk g).2)
  | Some false => m_throw (External "sending on a closed channel" [])
  | None => m_ret tt
  end.

(** [Drop for Diagnostics]: the thread, which nobody waits for, takes its last
    turn. *)
Definition Diagnostics_drop (d : Diagnostics) (g : Globals) : Globals :=
  match diag_metrics d with
  | Some true => (metrics_thread_turn RecvOk g).2
  | _ => g
  end.

(** [stop]. The diagnostics are dropped once their metrics have been taken. *)
Definition stop : M Globals unit :=
  let! g := m_get in
  match DIAGNOSTICS g with
  | Some d =>
      m_put (set_diagnostics None g) ;;;
      stop_metrics d ;;;
      m_modify (Diagnostics_drop (mkDiagnostics None))
  | None => m_ret tt
  end.
End Lifecycle.

(** ** Laws of the counters *)

Definition counter_of (grp : group) (field : string) (g : Globals) : option Z :=
  Metrics_load field (metrics_of grp g).

(** [n] further counts. *)
Definition count_up (n : nat) (c : Z) : Z := ((c + Z.of_nat n) mod u64_modulus)%Z.

#[export] Instance group_eq_decision : EqDecision group.
Proof. solve_decision. Defined.

Section Counters.
Lemma Metrics_load_fetch_add f f' m :
  Metrics_load f (Metrics_fetch_add f' m) =
    if decide (f = f') then (fun c => wrapping_add u64_modulus c 1) <$> Metrics_load f m
    else Metrics_load f m.
Proof.
  unfold Metrics_fetch_add. induction m as [|[k n] m IH]; simpl; [by case_decide|].
  destruct (decide (k = f)) as [->|Hk]; [by case_decide|]. exact IH.
Qed.

(** The map of a report has the value of each field. *)
Lemma lookup_metrics (m : Metrics) f : (list_to_map m : gmap string Z) !! f = Metrics_load f m.
Proof.
  induction m as [|[k n] m IH]; simpl; [apply lookup_empty|].
  case_decide as Hk; [subst; apply lookup_insert_eq|]. by rewrite lookup_insert_ne.
Qed.

Lemma Metrics_load_reset f (m : Metrics) :
  Metrics_load f (prod_map id (fun _ => 0%Z) <$> m) = (fun _ => 0%Z) <$> Metrics_load f m.
Proof. induction m as [|[k n] m IH]; simpl; [done|]. by case_decide. Qed.

Lemma MinLevel_includes_increment l grp f g :
  MinLevel_includes l (increment grp f g) = MinLevel_includes l g.
Proof. unfold increment. destruct (MinLevel_includes LDebug g); [|done]. by destruct grp. Qed.

Lemma DIAGNOSTICS_increment grp f g : DIAGNOSTICS (increment grp f g) = DIAGNOSTICS g.
Proof. unfold increment. destruct (MinLevel_includes LDebug g); [|done]. by destruct grp. Qed.

Lemma DIAGNOSTICS_emit msg g : DIAGNOSTICS (emit msg g) = DIAGNOSTICS g.
Proof. unfold emit. by destruct (MinLevel_includes LDebug g). Qed.

Lemma DIAGNOSTICS_emit_err err msg g : DIAGNOSTICS (emit_err err msg g) = DIAGNOSTICS g.
Proof. unfold emit_err. by destruct (MinLevel_includes LError g). Qed.

Lemma DIAGNOSTICS_emit_debug_err err msg g :
  DIAGNOSTICS (emit_debug_err err msg g) = DIAGNOSTICS g.
Proof. unfold emit_debug_err. by destruct (MinLevel_includes LDebug g). Qed.

Lemma DIAGNOSTICS_emit_metrics g : DIAGNOSTICS (emit_metrics g) = DIAGNOSTICS g.
Proof. unfold emit_metrics. by destruct (MinLevel_includes LDebug g). Qed.

Lemma counter_of_increment grp f grp' f' g :
  counter_of grp f (increment grp' f' g) =
    if MinLevel_includes LDebug g && bool_decide (grp = grp') && bool_decide (f = f')
    then (fun c => wrapping_add u64_modulus c 1) <$> counter_of grp f g
    else counter_of grp f g.
Proof.
  unfold increment, counter_of. destruct (MinLevel_includes LDebug g); [|done]. simpl.
  destruct (decide (grp = grp')) as [->|Hne].
  - rewrite bool_decide_true by done. simpl.
    assert (E : forall m, metrics_of grp' (set_metrics grp' m g) = m) by by destruct grp'.
    rewrite E, Metrics_load_fetch_add. repeat case_decide; done.
  - rewrite bool_decide_false by done. by destruct grp, grp'.
Qed.

(** Events of the self-log touch no counter. *)
Lemma counter_of_emit_err grp f err msg g :
  counter_of grp f (emit_err err msg g) = counter_of grp f g.
Proof. unfold emit_err. destruct (MinLevel_includes _ _); [|done]. by destruct grp. Qed.

Lemma counter_of_emit_debug_err grp f err msg g :
  counter_of grp f (emit_debug_err err msg g) = counter_of grp f g.
Proof. unfold emit_debug_err. destruct (MinLevel_includes _ _); [|done]. by destruct grp. Qed.

Lemma counter_of_emit grp f msg g : counter_of grp f (emit msg g) = counter_of grp f g.
Proof. unfold emit. destruct (MinLevel_includes _ _); [|done]. by destruct grp. Qed.

Lemma MinLevel_includes_emit_err l err msg g :
  MinLevel_includes l (emit_err err msg g) = MinLevel_includes l g.
Proof. unfold emit_err. by destruct (MinLevel_includes LError g). Qed.

Lemma MinLevel_includes_emit_debug_err l err msg g :
  MinLevel_includes l (emit_debug_err err msg g) = MinLevel_includes l g.
Proof. unfold emit_debug_err. by destruct (MinLevel_includes LDebug g). Qed.

Lemma count_up_S n c : wrapping_add u64_modulus (count_up n c) 1 = count_up (S n) c.
Proof.
  unfold wrapping_add, count_up. rewrite Zplus_mod_idemp_l. f_equal. lia.
Qed.

Lemma count_up_range n c : (0 <= count_up n c < u64_modulus)%Z.
Proof. by apply Z.mod_pos_bound. Qed.

Lemma count_up_0 c : (0 <= c < u64_modulus)%Z -> count_up 0 c = c.
Proof. intros Hc. unfold count_up. rewrite Z.add_0_r. by apply Z.mod_small. Qed.

Lemma count_up_1 c : wrapping_add u64_modulus c 1 = count_up 1 c.
Proof. done. Qed.

Lemma count_up_add n k c : count_up n (count_up k c) = count_up (k + n) c.
Proof. unfold count_up. rewrite Zplus_mod_idemp_l. f_equal. lia. Qed.
End Counters.
