(* ===== verification/DiagnosticsThms.v ===== *)
(** The properties of the diagnostics: levels, counters, the text of an error,
    and the life cycle. *)

From S2P Require Import Prelude Diagnostics.

(** ** The chain of sources *)

(** The errors below an error, outermost first. *)
Fixpoint causes_of (what : string) (cs : list string) : list error :=
  match cs with
  | [] => []
  | c :: cs' => External c cs' :: causes_of c cs'
  end.
Fixpoint sources (e : error) : list error :=
  match e with
  | External what cs => causes_of what cs
  | ErrorContext _ source => source :: sources source
  | _ => []
  end.

Lemma successors_external fuel what cs :
  (length cs <= fuel)%nat ->
  successors fuel (error_source (External what cs)) = causes_of what cs.
Proof.
  revert fuel what. induction cs as [|c cs IH]; intros fuel what Hf; [by destruct fuel|].
  destruct fuel as [|fuel]; simpl in Hf; [lia|]. cbn [error_source successors causes_of].
  f_equal. apply IH. lia.
Qed.

(** The fuel is enough for the whole chain. *)
Lemma successors_sources fuel e :
  (error_depth e <= fuel)%nat -> successors fuel (error_source e) = sources e.
Proof.
  revert fuel. induction e as [fmt args| | |what cs|context e IH]; intros fuel Hf;
    try (by destruct fuel).
  - by apply successors_external.
  - destruct fuel as [|fuel]; simpl in Hf; [lia|]. cbn [error_source successors sources].
    f_equal. apply IH. lia.
Qed.

Section Properties.
(** The text of an error names the error and every error below it, in
    order. *)
Lemma format_error_chain (e : error) :
  format_error e =
    foldl (fun s source => s +:+ ": " +:+ error_display source)%string
      (error_display e) (sources e).
Proof. unfold format_error. by rewrite successors_sources. Qed.

(** A level survives its integer encoding, and an event is written exactly
    when its level is at least the minimum: with the minimum at [ERROR], debug
    events and counters cost nothing and change nothing; errors are always
    written. *)
Lemma levels_filter (l : Level) (g : Globals) (err : error) (msg field : string)
    (grp : group) :
  Level_from_usize (Level_to_usize l) = l /\
  let g := MinLevel_set l g in
  MinLevel_get g = l /\
  (l = LError -> emit msg g = g /\ emit_debug_err err msg g = g /\
     increment grp field g = g /\ emit_metrics g = g) /\
  (l = LDebug ->
     stderr (emit msg g) = stderr g ++ [mkEvent "DEBUG" None msg None] /\
     stderr (emit_debug_err err msg g)
       = stderr g ++ [mkEvent "DEBUG" (Some (format_error err)) msg None]) /\
  stderr (emit_err err msg g)
    = stderr g ++ [mkEvent "ERROR" (Some (format_error err)) msg None].
Proof. by destruct l. Qed.

(** C35: no count is lost between two reports: a report carries the counts
    since the last one and starts again from zero, and a counter grows by one
    for each increment of its own field and is left alone by any other. *)
Theorem metrics_report (g : Globals) :
  MinLevel_includes LDebug g = true ->
  (forall grp f grp' f' c, counter_of grp f g = Some c ->
     counter_of grp f (increment grp' f' g) =
       Some (if bool_decide (grp = grp') && bool_decide (f = f')
             then wrapping_add u64_modulus c 1 else c)) /\
  (exists r p s,
     stderr (emit_metrics g) =
       stderr g ++ [mkEvent "DEBUG" None "Collected GELF server metrics" (Some (r, p, s))] /\
     (forall f, r !! f = counter_of GReceive f g /\ p !! f = counter_of GProcess f g /\
        s !! f = counter_of GServer f g)) /\
  (forall grp f c, counter_of grp f g = Some c ->
     counter_of grp f (emit_metrics g) = Some 0%Z).
Proof.
  intros Hd. split; [|split].
  - intros grp f grp' f' c Hc. rewrite counter_of_increment, Hd, Hc. simpl.
    by destruct (bool_decide _ && bool_decide _).
  - unfold emit_metrics. rewrite Hd. eexists _, _, _. split; [done|].
    intros f. unfold counter_of. simpl. by rewrite !lookup_metrics.
  - intros grp f c. unfold emit_metrics, counter_of. rewrite Hd.
    destruct grp; simpl; intros Hc; by rewrite Metrics_load_reset, Hc.
Qed.

(** C36: diagnostics are initialised at most once until they are stopped;
    stopping them takes the last report exactly when there is a metrics
    thread, that is when debug events are on. *)
Theorem diagnostics_lifecycle (config : Config) (g : Globals) :
  DIAGNOSTICS g = None ->
  exists g1,
    init config g = (Ok tt, g1) /\
    MinLevel_get g1 = min_level config /\
    (exists w, init config g1 = (Panic w, g1)) /\
    stop g1 =
      (Ok tt, set_diagnostics None (if decide (min_level config = LDebug)
                                    then emit_metrics g1 else g1)) /\
    stop (set_diagnostics None g1) = (Ok tt, set_diagnostics None g1).
Proof.
  intros Hd. unfold init, m_bind, m_get. rewrite Hd. destruct config as [ms []];
    (eexists; split; [reflexivity|]; split; [done|]; split; [by eexists|]; split; done).
Qed.
End Properties.

Section Witnesses.
Lemma metrics_report_witness :
  counter_of GServer "receive_ok" (increment GServer "receive_ok" Globals_initial) = Some 1%Z.
Proof. apply (proj1 (metrics_report Globals_initial eq_refl) GServer "receive_ok"%string
  GServer "receive_ok"%string 0%Z eq_refl). Defined.

Lemma diagnostics_lifecycle_witness :
  exists g1, init Config_default Globals_initial = (Ok tt, g1) /\
    exists w, init Config_default g1 = (Panic w, g1).
Proof.
  destruct (diagnostics_lifecycle Config_default Globals_initial eq_refl)
    as (g1 & E & _ & E2 & _). by exists g1.
Defined.
End Witnesses.
