(* ===== verification/Counting.v ===== *)
(** The counters under concurrency ([sqelf/src/diagnostics.rs]). The counters are
    atomics that any thread increments while the metrics thread takes them one
    by one; here every access is a step of its own and the steps of the threads
    interleave in any order. The other files use the operations whole, which is
    the interleaving in which nothing comes between. *)

From S2P Require Import Prelude Diagnostics.

Section Threads.

(** The counters in the order [emit_metrics] takes them. *)
Definition names (grp : group) : list string :=
  match grp with
  | GReceive => receive_metrics
  | GProcess => process_metrics
  | GServer => server_metrics
  end.
Definition counters : list (group * string) :=
  flat_map (fun grp => pair grp <$> names grp) [GReceive; GProcess; GServer].

(** The metrics thread: in [recv_timeout], within [emit_metrics] with the
    counters it has taken and those it has not, or returned. [last] is set when
    it was told to stop. *)
Inductive reporter :=
| Waiting
| Taking (taken : list (group * string * Z)) (todo : list (group * string)) (last : bool)
| Ended.

(** [th_counting]: the threads that are within [increment!], between the test of
    the level and the addition, and what they count. *)
Record Threads := mkThreads {
  th_globals : Globals;
  th_counting : gmap nat (group * string);
  th_reporter : reporter
}.

(** The accesses: the test of the level and [fetch_add] of [increment!], the
    return of [recv_timeout], [swap], the [eprintln!] of the report, and an event
    that any thread writes. *)
Inductive access :=
| Test (tid : nat) (grp : group) (field : string)
| FetchAdd (tid : nat) (grp : group) (field : string)
| Wake (r : RecvTimeout)
| Swap
| Report
| Log (level : string) (err : option string) (message_template : string).

Definition is_last (r : RecvTimeout) : bool := negb (metrics_thread_turn r Globals_initial).1.

(** [swap(0)] of one field. *)
Definition Metrics_swap (field : string) (m : Metrics) : Z * Metrics :=
  (default 0%Z (Metrics_load field m),
   (fun '(f, n) => (f, if decide (f = field) then 0%Z else n)) <$> m).

(** The map of a group in the report. *)
Definition taken_of (grp : group) (taken : list (group * string * Z)) : gmap string Z :=
  list_to_map (omap (fun '(grp', f, n) => if decide (grp' = grp) then Some (f, n) else None) taken).

Definition report_of (taken : list (group * string * Z)) : DiagnosticEvent :=
  mkEvent "DEBUG" None "Collected GELF server metrics"
    (Some (taken_of GReceive taken, taken_of GProcess taken, taken_of GServer taken)).

Definition next (last : bool) : reporter := if last then Ended else Waiting.

(** One access; [None] when the thread is not there. *)
Definition step (a : access) (s : Threads) : option Threads :=
  let '(mkThreads g counting rep) := s in
  match a with
  | Test tid grp field =>
      if decide (counting !! tid = None) then
        Some (mkThreads g
                (if MinLevel_includes LDebug g then <[tid := (grp, field)]> counting else counting)
                rep)
      else None
  | FetchAdd tid grp field =>
      if decide (counting !! tid = Some (grp, field)) then
        Some (mkThreads (set_metrics grp (Metrics_fetch_add field (metrics_of grp g)) g)
                (delete tid counting) rep)
      else None
  | Wake r =>
      match rep with
      | Waiting =>
          Some (mkThreads g counting
                  (if MinLevel_includes LDebug g then Taking [] counters (is_last r)
                   else next (is_last r)))
      | _ => None
      end
  | Swap =>
      match rep with
      | Taking taken ((grp, field) :: todo) last =>
          let '(n, m) := Metrics_swap field (metrics_of grp g) in
          Some (mkThreads (set_metrics grp m g) counting
                  (Taking (taken ++ [(grp, field, n)]) todo last))
      | _ => None
      end
  | Report =>
      match rep with
      | Taking taken [] last =>
          Some (mkThreads (eprintln (report_of taken) g) counting (next last))
      | _ => None
      end
  | Log level err message_template =>
      Some (mkThreads (eprintln (mkEvent level err message_template None) g) counting rep)
  end.

Fixpoint steps (l : list access) (s : Threads) : option Threads :=
  match l with
  | [] => Some s
  | a :: l' => step a s ≫= steps l'
  end.
End Threads.

(** ** The operations, uninterrupted *)

Section Atomic.
(** The statics hold the counters the modules declare. *)
Definition declared (g : Globals) : Prop := forall grp, (metrics_of grp g).*1 = names grp.

Lemma declared_set grp m g : declared g -> m.*1 = names grp -> declared (set_metrics grp m g).
Proof. intros Hg Hm grp'. specialize (Hg grp'). by destruct grp, grp'. Qed.

(** [increment] is a test followed by its addition. *)
Lemma steps_increment tid grp field g counting rep :
  counting !! tid = None ->
  steps (Test tid grp field ::
           if MinLevel_includes LDebug g then [FetchAdd tid grp field] else [])
    (mkThreads g counting rep) = Some (mkThreads (increment grp field g) counting rep).
Proof.
  intros Ht. unfold increment. cbn [steps step]. rewrite decide_True by done.
  cbn [mbind option_bind]. destruct (MinLevel_includes LDebug g); [|done].
  cbn [steps step]. rewrite decide_True by by rewrite lookup_insert_eq.
  cbn. by rewrite delete_insert_id.
Qed.

Lemma fields_of (m : Metrics) fs :
  m.*1 = fs -> exists vs, length vs = length fs /\ m = zip fs vs.
Proof.
  revert m. induction fs as [|f fs IH]; intros [|[k v] m]; try done; [by exists []|].
  intros [= -> (vs & Hl & ->)%IH]. exists (v :: vs). simpl. by rewrite Hl.
Qed.

(** [emit_metrics], in a turn of the metrics thread, is the accesses of the
    thread with nothing in between. *)
Lemma steps_emit_metrics r g counting :
  declared g ->
  steps (Wake r :: if MinLevel_includes LDebug g
                   then replicate (length counters) Swap ++ [Report] else [])
    (mkThreads g counting Waiting) =
  Some (mkThreads (emit_metrics g) counting (next (is_last r))).
Proof.
  intros Hg. unfold emit_metrics. cbn [steps step]. cbn [mbind option_bind].
  destruct (MinLevel_includes LDebug g) eqn:Hl; [|done].
  destruct (fields_of _ _ (Hg GReceive)) as (vr & Hr & Er).
  destruct (fields_of _ _ (Hg GProcess)) as (vp & Hp & Ep).
  destruct (fields_of _ _ (Hg GServer)) as (vs & Hs & Es).
  destruct g as [lvl mr mp ms d log]. cbn in *. subst mr mp ms.
  repeat (destruct vr as [|? vr]; try done). repeat (destruct vp as [|? vp]; try done).
  repeat (destruct vs as [|? vs]; try done).
Qed.
End Atomic.

(** ** Accounts *)

Section Accounts.
Implicit Types (grp : group) (f : string).

(** The additions to a counter. *)
Definition adds_to grp f (a : access) : bool :=
  match a with
  | FetchAdd _ grp' f' => bool_decide (grp' = grp /\ f' = f)
  | _ => false
  end.
Definition added grp f (l : list access) : nat := length (filter (adds_to grp f) l).

(** What the reports say of a counter. *)
Definition reported_by grp f (evt : DiagnosticEvent) : Z :=
  match event_additional evt with
  | Some (receive, process, server) =>
      default 0%Z (match grp with GReceive => receive | GProcess => process | GServer => server end !! f)
  | None => 0
  end.
Definition reported grp f (evts : list DiagnosticEvent) : Z :=
  foldr (fun evt n => reported_by grp f evt + n)%Z 0%Z evts.

(** What the metrics thread has taken and not yet reported. *)
Definition in_hand grp f (rep : reporter) : Z :=
  match rep with Taking taken _ _ => default 0%Z (taken_of grp taken !! f) | _ => 0 end.

Definition current grp f (g : Globals) : Z := default 0%Z (counter_of grp f g).

(** A count is in a report, with the metrics thread, or in the counter. *)
Definition account grp f (s : Threads) : Z :=
  (reported grp f (stderr (th_globals s)) + in_hand grp f (th_reporter s)
   + current grp f (th_globals s))%Z.

Record accounts_ok (s : Threads) : Prop := {
  ok_declared : declared (th_globals s);
  ok_taking taken todo last :
    th_reporter s = Taking taken todo last -> taken.*1 ++ todo = counters;
  ok_current grp f : (0 <= current grp f (th_globals s) < u64_modulus)%Z;
  ok_in_hand grp f : (0 <= in_hand grp f (th_reporter s))%Z;
  ok_reported grp f : (0 <= reported grp f (stderr (th_globals s)))%Z
}.

Lemma reported_snoc grp f evts evt :
  reported grp f (evts ++ [evt]) = (reported grp f evts + reported_by grp f evt)%Z.
Proof. induction evts as [|e evts IH]; simpl; lia. Qed.

Lemma metrics_of_set grp grp' m g :
  metrics_of grp (set_metrics grp' m g) = if decide (grp = grp') then m else metrics_of grp g.
Proof. by destruct grp, grp'. Qed.

Lemma stderr_set grp m g : stderr (set_metrics grp m g) = stderr g.
Proof. by destruct grp. Qed.

Lemma current_eprintln grp f evt g : current grp f (eprintln evt g) = current grp f g.
Proof. by destruct grp. Qed.

Lemma declared_eprintln evt g : declared g -> declared (eprintln evt g).
Proof. intros Hg []; [apply (Hg GReceive)|apply (Hg GProcess)|apply (Hg GServer)]. Qed.

(** A report says what was taken. *)
Lemma reported_by_report grp f taken last :
  reported_by grp f (report_of taken) = in_hand grp f (Taking taken [] last).
Proof. by destruct grp. Qed.

Lemma counters_NoDup : NoDup counters.
Proof. apply (bool_decide_unpack _). by vm_compute. Qed.

Lemma load_declared grp f (g : Globals) :
  declared g -> (grp, f) ∈ counters -> is_Some (counter_of grp f g).
Proof.
  intros Hg Hin. assert (Hf : f ∈ (metrics_of grp g).*1).
  { rewrite (Hg grp). unfold counters in Hin. apply list_elem_of_In, in_flat_map in Hin.
    destruct Hin as (grp' & _ & Hin%list_elem_of_In). by apply list_elem_of_fmap in Hin as (? & [= -> ->] & ?). }
  unfold counter_of. clear -Hf. induction (metrics_of grp g) as [|[k n] m IH]; simpl in *; [set_solver|].
  case_decide; [by eexists|]. apply IH. set_solver.
Qed.

Lemma taken_of_fresh grp f taken : (grp, f) ∉ taken.*1 -> taken_of grp taken !! f = None.
Proof.
  intros Hn. apply not_elem_of_list_to_map. intros ([k n] & -> & Hin)%list_elem_of_fmap.
  apply Hn. apply list_elem_of_omap in Hin as ([[grp' f'] n'] & Hin & E). case_decide; simplify_eq.
  by apply (list_elem_of_fmap_2 fst) in Hin.
Qed.

Lemma in_hand_snoc grp f grp' f' n taken todo todo' last :
  (grp', f') ∉ taken.*1 ->
  in_hand grp f (Taking (taken ++ [(grp', f', n)]) todo last) =
  if decide ((grp, f) = (grp', f')) then n else in_hand grp f (Taking taken todo' last).
Proof.
  intros Hn. unfold in_hand.
  assert (Happ : taken_of grp (taken ++ [(grp', f', n)]) =
    taken_of grp taken ∪ if decide (grp' = grp) then {[f' := n]} else ∅).
  { unfold taken_of. rewrite omap_app, list_to_map_app. f_equal. simpl. by case_decide. }
  rewrite Happ. destruct (decide ((grp, f) = (grp', f'))) as [[= <- <-]|Hne].
  - rewrite decide_True, lookup_union_r by (done || by apply taken_of_fresh).
    by rewrite lookup_singleton_eq.
  - destruct (decide (grp' = grp)) as [->|]; [|by rewrite (right_id_L ∅ (∪))].
    rewrite lookup_union, lookup_singleton_ne by congruence. by rewrite (right_id None _).
Qed.

Lemma current_set grp f grp' m g :
  current grp f (set_metrics grp' m g) =
  if decide (grp = grp') then default 0%Z (Metrics_load f m) else current grp f g.
Proof. unfold current, counter_of. rewrite metrics_of_set. by case_decide. Qed.

Lemma Metrics_load_swap f field m :
  Metrics_load f (Metrics_swap field m).2 =
  if decide (f = field) then (fun _ => 0%Z) <$> Metrics_load f m else Metrics_load f m.
Proof.
  simpl. induction m as [|[k n] m IH]; simpl; [by case_decide|].
  destruct (decide (k = f)) as [->|]; [|done]. by case_decide.
Qed.

Lemma current_fetch_add grp f grp' f' g :
  declared g -> (grp, f) ∈ counters ->
  current grp f (set_metrics grp' (Metrics_fetch_add f' (metrics_of grp' g)) g) =
  if bool_decide (grp' = grp /\ f' = f)
  then wrapping_add u64_modulus (current grp f g) 1 else current grp f g.
Proof.
  intros Hg Hin. rewrite current_set, Metrics_load_fetch_add. unfold current.
  destruct (decide (grp = grp')) as [<-|Hne].
  - fold (counter_of grp f g). destruct (load_declared grp f g Hg Hin) as [c ->].
    destruct (decide (f = f')) as [<-|Hf]; [by rewrite bool_decide_true|].
    by rewrite bool_decide_false by (intros [? ?]; congruence).
  - by rewrite bool_decide_false by (intros [? ?]; congruence).
Qed.

Lemma current_fetch_add_range grp f grp' f' g :
  (0 <= current grp f g < u64_modulus)%Z ->
  (0 <= current grp f (set_metrics grp' (Metrics_fetch_add f' (metrics_of grp' g)) g)
     < u64_modulus)%Z.
Proof.
  intros Hr. rewrite current_set, Metrics_load_fetch_add. unfold current, counter_of in *.
  destruct (decide (grp = grp')) as [<-|]; [|done]. case_decide; [|done].
  destruct (Metrics_load f _); simpl; [|done]. by apply Z.mod_pos_bound.
Qed.

Lemma declared_fetch_add grp f g :
  declared g -> declared (set_metrics grp (Metrics_fetch_add f (metrics_of grp g)) g).
Proof.
  intros Hg. apply declared_set; [done|]. rewrite <- (Hg grp). unfold Metrics_fetch_add.
  rewrite <- list_fmap_compose. apply list_fmap_ext. by intros ? [].
Qed.

Lemma declared_swap grp f g :
  declared g -> declared (set_metrics grp (Metrics_swap f (metrics_of grp g)).2 g).
Proof.
  intros Hg. apply declared_set; [done|]. rewrite <- (Hg grp). simpl.
  rewrite <- list_fmap_compose. apply list_fmap_ext. by intros ? [].
Qed.

(** The counter that is swapped goes from the statics to the metrics thread. *)
Lemma current_swap grp f grp' f' g :
  current grp f (set_metrics grp' (Metrics_swap f' (metrics_of grp' g)).2 g) =
  if decide ((grp, f) = (grp', f')) then 0%Z else current grp f g.
Proof.
  rewrite current_set, Metrics_load_swap. unfold current, counter_of.
  destruct (decide (grp = grp')) as [<-|]; [|by rewrite decide_False by congruence].
  destruct (decide (f = f')) as [<-|]; [|by rewrite decide_False by congruence].
  rewrite decide_True by done. by destruct (Metrics_load f _).
Qed.

Lemma Metrics_swap_value grp f g : (Metrics_swap f (metrics_of grp g)).1 = current grp f g.
Proof. done. Qed.

(** What an access does to the account of a counter: an addition adds one, up to
    a wrap of the counter, and nothing else changes it. *)
Definition accounted grp f (n : Z) (s s' : Threads) : Prop :=
  exists wraps : Z, (account grp f s' + wraps * u64_modulus = account grp f s + n)%Z /\
    (account grp f s + n < u64_modulus -> wraps = 0)%Z.

Lemma accounted_same grp f s s' : account grp f s' = account grp f s -> accounted grp f 0 s s'.
Proof. intros E. exists 0%Z. lia. Qed.

(** What every access has to keep: the invariant and the accounts. *)
Definition accounts_step (a : access) (s s' : Threads) : Prop :=
  accounts_ok s' /\
  forall grp f, (grp, f) ∈ counters -> accounted grp f (if adds_to grp f a then 1 else 0) s s'.

Lemma fetch_add_accounts tid grp' f' g counting counting' rep :
  accounts_ok (mkThreads g counting rep) ->
  accounts_step (FetchAdd tid grp' f') (mkThreads g counting rep)
    (mkThreads (set_metrics grp' (Metrics_fetch_add f' (metrics_of grp' g)) g) counting' rep).
Proof.
  intros [Hd Ht Hc Hh Hr]. cbn [th_globals th_reporter] in *. split.
  - split; cbn [th_globals th_reporter]; [by apply declared_fetch_add|exact Ht| |done|].
    + intros grp f. by apply current_fetch_add_range.
    + intros grp f. by rewrite stderr_set.
  - intros grp f Hin. unfold accounted, account. cbn [th_globals th_reporter adds_to].
    rewrite stderr_set, current_fetch_add by done. specialize (Hc grp f).
    case_bool_decide; [|exists 0%Z; lia]. unfold wrapping_add.
    destruct (decide (current grp f g + 1 < u64_modulus)%Z) as [Hlt|Hge].
    + exists 0%Z. rewrite Z.mod_small by lia. lia.
    + exists 1%Z. specialize (Hh grp f). specialize (Hr grp f).
      replace (current grp f g) with (u64_modulus - 1)%Z by lia.
      rewrite Z.sub_add, Z.mod_same by done. lia.
Qed.

Lemma wake_accounts r g counting :
  accounts_ok (mkThreads g counting Waiting) ->
  accounts_step (Wake r) (mkThreads g counting Waiting)
    (mkThreads g counting (if MinLevel_includes LDebug g then Taking [] counters (is_last r)
                           else next (is_last r))).
Proof.
  intros [Hd Ht Hc Hh Hr]. cbn [th_globals th_reporter] in *.
  assert (Hsame : forall grp f, in_hand grp f
    (if MinLevel_includes LDebug g then Taking [] counters (is_last r) else next (is_last r)) = 0%Z).
  { intros. destruct (MinLevel_includes _ _), (is_last r); done. }
  split.
  - split; cbn [th_globals th_reporter]; [done| |done| |done].
    + intros taken todo last E. destruct (MinLevel_includes _ _); [by simplify_eq|].
      by destruct (is_last r).
    + intros grp f. by rewrite Hsame.
  - intros grp f _. apply accounted_same. unfold account. cbn [th_globals th_reporter].
    by rewrite Hsame.
Qed.

Lemma swap_accounts grp' f' taken todo last g counting :
  let s := mkThreads g counting (Taking taken ((grp', f') :: todo) last) in
  accounts_ok s ->
  accounts_step Swap s
    (mkThreads (set_metrics grp' (Metrics_swap f' (metrics_of grp' g)).2 g) counting
       (Taking (taken ++ [(grp', f', (Metrics_swap f' (metrics_of grp' g)).1)]) todo last)).
Proof.
  intros s [Hd Ht Hc Hh Hr]. rewrite Metrics_swap_value. cbn [s th_globals th_reporter] in *.
  assert (Hfresh : (grp', f') ∉ taken.*1).
  { pose proof counters_NoDup as Hnd. rewrite <- (Ht _ _ _ eq_refl) in Hnd.
    apply NoDup_app in Hnd as (_ & Hnd & _). intros Hin. apply (Hnd _ Hin). by left. }
  pose proof (fun grp f => in_hand_snoc grp f grp' f' (current grp' f' g) taken todo
    ((grp', f') :: todo) last Hfresh) as Hhs.
  split.
  - split; cbn [th_globals th_reporter]; [by apply declared_swap| | | |].
    + intros ? ? ? [= <- <- <-]. rewrite fmap_app, <- app_assoc. by eapply Ht.
    + intros grp f. rewrite current_swap. case_decide; [done|apply Hc].
    + intros grp f. rewrite Hhs. case_decide; [apply Hc|apply Hh].
    + intros grp f. by rewrite stderr_set.
  - intros grp f Hin. apply accounted_same. unfold account. cbn [s th_globals th_reporter].
    rewrite stderr_set, current_swap, Hhs.
    case_decide as Hk; [|done]. injection Hk as -> ->.
    assert (in_hand grp' f' (Taking taken ((grp', f') :: todo) last) = 0%Z) as ->; [|lia].
    unfold in_hand. by rewrite taken_of_fresh.
Qed.

(** An event that reports [n] of each counter, [n] of which was in hand. *)
Lemma event_accounts a evt g counting rep rep' :
  accounts_ok (mkThreads g counting rep) -> (forall grp f, adds_to grp f a = false) ->
  (forall grp f, reported_by grp f evt + in_hand grp f rep' = in_hand grp f rep)%Z ->
  (forall grp f, 0 <= in_hand grp f rep' <= in_hand grp f rep)%Z ->
  (rep' = rep \/ forall taken todo last, rep' <> Taking taken todo last) ->
  accounts_step a (mkThreads g counting rep) (mkThreads (eprintln evt g) counting rep').
Proof.
  intros [Hd Ht Hc Hh Hr] Ha Hrep Hle Hrep'. cbn [th_globals th_reporter] in *.
  assert (Hrs : forall grp f, reported grp f (stderr (eprintln evt g)) =
    (reported grp f (stderr g) + reported_by grp f evt)%Z) by (intros; apply reported_snoc).
  split.
  - split; cbn [th_globals th_reporter]; [by apply declared_eprintln| | | |].
    + intros taken todo last E. destruct Hrep' as [->|Hn]; [by eapply Ht|by apply Hn in E].
    + intros. rewrite current_eprintln. apply Hc.
    + intros grp f. specialize (Hle grp f). lia.
    + intros grp f. rewrite Hrs. specialize (Hle grp f). specialize (Hrep grp f).
      specialize (Hr grp f). lia.
  - intros grp f _. rewrite Ha. apply accounted_same. unfold account. cbn [th_globals th_reporter].
    rewrite Hrs, current_eprintln. specialize (Hrep grp f). lia.
Qed.

Lemma step_accounts a s s' : accounts_ok s -> step a s = Some s' -> accounts_step a s s'.
Proof.
  intros Hok. destruct s as [g counting rep].
  destruct a as [tid grp f|tid grp f|r| | |level err msg]; cbn [step].
  - case_decide; [|done]. intros [= <-]. destruct Hok. by split; [|intros; apply accounted_same].
  - case_decide; [|done]. intros [= <-]. by apply fetch_add_accounts.
  - destruct rep; [|done..]. intros [= <-]. by apply wake_accounts.
  - destruct rep as [|taken [|[grp f] todo] last|]; try done. intros [= <-].
    by apply (swap_accounts grp f).
  - destruct rep as [|taken [|] last|]; try done. intros [= <-].
    assert (Hn : forall grp f, in_hand grp f (next last) = 0%Z) by by destruct last.
    apply event_accounts; [done|done| | |right; by destruct last]; intros grp f; rewrite Hn.
    + by rewrite (reported_by_report grp f taken last), Z.add_0_r.
    + destruct Hok as [_ _ _ Hh _]. specialize (Hh grp f). simpl in Hh |- *. lia.
  - intros [= <-]. apply event_accounts; [done|done|done| |by left].
    intros grp f. destruct Hok as [_ _ _ Hh _]. specialize (Hh grp f). simpl in Hh |- *. lia.
Qed.

Lemma steps_accounts l s s' :
  accounts_ok s -> steps l s = Some s' ->
  accounts_ok s' /\
  forall grp f, (grp, f) ∈ counters -> accounted grp f (Z.of_nat (added grp f l)) s s'.
Proof.
  revert s. induction l as [|a l IH]; intros s Hok; cbn [steps].
  { intros [= <-]. split; [done|]. intros. by apply accounted_same. }
  destruct (step a s) as [s1|] eqn:E; [|done]. cbn [mbind option_bind]. intros Hs.
  destruct (step_accounts a s s1 Hok E) as [Hok1 Ha]. destruct (IH s1 Hok1 Hs) as [Hok' Hl].
  split; [done|]. intros grp f Hin.
  destruct (Ha grp f Hin) as (w1 & E1 & Hw1). destruct (Hl grp f Hin) as (w2 & E2 & Hw2).
  assert (Hn : (Z.of_nat (added grp f (a :: l)) =
    (if adds_to grp f a then 1 else 0) + Z.of_nat (added grp f l))%Z).
  { unfold added. rewrite filter_cons. destruct (adds_to grp f a); simpl; lia. }
  exists (w1 + w2)%Z. rewrite Hn. destruct (adds_to grp f a); split; lia.
Qed.
End Accounts.

Section Properties.
(** C10: no count is lost and none is reported twice, however the threads
    interleave: what the reports say of a counter, what the metrics thread has
    taken and not yet reported, and what the counter holds, add up to what they
    were and the additions made since, up to the wrap of a 64-bit counter; and
    exactly, as long as that sum is below 2^64. A counter that is incremented
    while a report is being made is in that report or in the next. *)
Theorem metrics_accounted (l : list access) (s s' : Threads) (grp : group) (f : string) :
  accounts_ok s -> steps l s = Some s' -> (grp, f) ∈ counters ->
  let total := (account grp f s + Z.of_nat (added grp f l))%Z in
  (account grp f s' mod u64_modulus = total mod u64_modulus)%Z /\
  ((total < u64_modulus)%Z -> account grp f s' = total) /\
  ((forall taken todo last, th_reporter s' <> Taking taken todo last) ->
   account grp f s' =
     (reported grp f (stderr (th_globals s')) + current grp f (th_globals s'))%Z).
Proof.
  intros Hok Hs Hin total. destruct (steps_accounts l s s' Hok Hs) as [_ Ha].
  destruct (Ha grp f Hin) as (w & E & Hw). split; [|split].
  - replace (account grp f s') with (total + - w * u64_modulus)%Z by lia.
    by rewrite Z.mod_add.
  - intros Ht. specialize (Hw Ht). lia.
  - intros Hn. unfold account, in_hand. destruct (th_reporter s') as [|taken todo last|]; [lia| |lia].
    by destruct (Hn taken todo last).
Qed.

(** The threads at the start of the process. *)
Definition started : Threads := mkThreads Globals_initial ∅ Waiting.

Lemma started_ok : accounts_ok started.
Proof.
  split; [by intros []|done| |done|done].
  intros grp f. unfold current, counter_of. cbn [started th_globals].
  assert (E : forall fs, default 0%Z (Metrics_load f (Metrics_new fs)) = 0%Z).
  { induction fs as [|k fs IH]; [done|]. simpl. by case_decide. }
  destruct grp; cbn [Globals_initial metrics_of METRICS_receive METRICS_process METRICS_server];
    by rewrite E.
Qed.
End Properties.

(** ** A witness *)

Section Witnesses.
(** Two threads count a message while the counters are taken: one of them before
    the counter is, one after. *)
Definition race : list access :=
  [Test 1 GProcess "msg"; Wake RecvElapsed; Test 2 GProcess "msg"]%string
  ++ replicate 4 Swap ++ [FetchAdd 1 GProcess "msg"]%string ++ replicate 1 Swap
  ++ [FetchAdd 2 GProcess "msg"]%string ++ replicate 8 Swap ++ [Report].

Lemma metrics_accounted_witness :
  exists s', steps race started = Some s' /\
    reported GProcess "msg" (stderr (th_globals s')) = 1%Z /\
    (reported GProcess "msg" (stderr (th_globals s')) + current GProcess "msg" (th_globals s') = 2)%Z.
Proof.
  destruct (steps race started) as [s'|] eqn:E; [|by vm_compute in E].
  exists s'. split; [reflexivity|]. vm_compute in E. injection E as <-. split; [reflexivity|].
  destruct (metrics_accounted race started _ GProcess "msg" started_ok
    ltac:(vm_compute; reflexivity)) as (_ & Heq & Hrest).
  { apply list_elem_of_In. vm_compute. tauto. }
  rewrite <- Hrest by done. apply Heq. done.
Defined.
End Witnesses.
