(* ===== verification/Io.v ===== *)
(** Reading bytes: the third-party [bytes] crate as an interface, the
    [std::io::Read] trait with the contract a reader keeps, and the [MemRead]
    trait of [sqelf/src/io.rs] with its instance for a slice. *)

From S2P Require Import Prelude.

(** ** The [bytes] crate

    [Bytes] and [BytesMut] dereference to their content, which is how the model
    represents them. The methods the program calls are an interface with the
    behaviour their documentation states; [None] is a panic. *)

(** The value of a big-endian byte string. *)
Definition be_combine (bs : Bytes) : Z := foldl (fun acc b => acc * 256 + u8 b)%Z 0%Z bs.

Class BytesApi := {
  Bytes_split_to : nat -> Bytes -> option (Bytes * Bytes);
  Buf_get_u8 : Bytes -> option (Z * Bytes);
  Buf_get_u64 : Bytes -> option (Z * Bytes);
  Buf_advance : nat -> Bytes -> option Bytes;
  (** "Afterwards self contains elements [at, len), and the returned Bytes
      contains elements [0, at). Panics if at > len." *)
  Bytes_split_to_spec at_ bs :
    Bytes_split_to at_ bs =
      if (at_ <=? length bs)%nat then Some (take at_ bs, drop at_ bs) else None;
  (** "The current position is advanced by 1. Panics if there is no more
      remaining data in self." *)
  Buf_get_u8_spec bs :
    Buf_get_u8 bs = match bs with [] => None | b :: bs' => Some (u8 b, bs') end;
  (** "Gets an unsigned 64 bit integer from self in big-endian byte order. The
      current position is advanced by 8. Panics if there is not enough
      remaining data in self." *)
  Buf_get_u64_spec bs :
    Buf_get_u64 bs =
      if (8 <=? length bs)%nat then Some (be_combine (take 8 bs), drop 8 bs) else None;
  (** "Advance the internal cursor of the Buf. This function may panic if
      cnt > self.remaining()." *)
  Buf_advance_spec cnt bs :
    (cnt <= length bs)%nat -> Buf_advance cnt bs = Some (drop cnt bs)
}.

Section BytesMethods.
Context `{BytesApi}.

Definition bytes_op {A} (op : Bytes -> option (A * Bytes)) : M Bytes A := fun bs =>
  match op bs with
  | Some (a, bs') => (Ok a, bs')
  | None => (Panic "bytes: out of range", bs)
  end.

Definition split_to (n : nat) : M Bytes Bytes := bytes_op (Bytes_split_to n).
Definition get_u8 : M Bytes Z := bytes_op Buf_get_u8.
Definition get_u64 : M Bytes Z := bytes_op Buf_get_u64.
Definition advance (n : nat) : M Bytes unit :=
  bytes_op (fun bs => pair tt <$> Buf_advance n bs).

Lemma split_to_ok n bs :
  (n <= length bs)%nat -> split_to n bs = (Ok (take n bs), drop n bs).
Proof.
  intros Hn. unfold split_to, bytes_op. rewrite Bytes_split_to_spec.
  by rewrite (proj2 (Nat.leb_le _ _) Hn).
Qed.

Lemma get_u8_cons b bs : get_u8 (b :: bs) = (Ok (u8 b), bs).
Proof. unfold get_u8, bytes_op. by rewrite Buf_get_u8_spec. Qed.

Lemma get_u64_app b8 bs :
  length b8 = 8%nat -> get_u64 (b8 ++ bs) = (Ok (be_combine b8), bs).
Proof.
  intros Hlen. unfold get_u64, bytes_op.
  rewrite Buf_get_u64_spec, length_app, Hlen. simpl Nat.leb. cbv iota.
  by rewrite take_app_length', drop_app_length' by done.
Qed.

Lemma advance_ok n bs : (n <= length bs)%nat -> advance n bs = (Ok tt, drop n bs).
Proof.
  intros Hn. unfold advance, bytes_op. by rewrite Buf_advance_spec by done.
Qed.
End BytesMethods.

(** An implementation of the interface, for evaluation on concrete inputs. *)
Definition bytes_model : BytesApi.
Proof.
  refine {|
    Bytes_split_to at_ bs :=
      if (at_ <=? length bs)%nat then Some (take at_ bs, drop at_ bs) else None;
    Buf_get_u8 bs := match bs with [] => None | b :: bs' => Some (u8 b, bs') end;
    Buf_get_u64 bs :=
      if (8 <=? length bs)%nat then Some (be_combine (take 8 bs), drop 8 bs) else None;
    Buf_advance cnt bs := if (cnt <=? length bs)%nat then Some (drop cnt bs) else None
  |}; [done..|].
  intros cnt bs Hle. by rewrite (proj2 (Nat.leb_le _ _) Hle).
Defined.

(** ** Big-endian integers *)

Section BigEndian.
(** The [n] low bytes of [z], most significant first
    ([BigEndian::write_u64] for [n = 8]). *)
Fixpoint be_split (n : nat) (z : Z) : Bytes :=
  match n with
  | O => []
  | S n' => be_split n' (z / 256) ++ [byte_of_u8 (z mod 256)]
  end.

Lemma length_be_split n z : length (be_split n z) = n.
Proof.
  revert z; induction n as [|n IH]; intros z; simpl; [done|].
  rewrite length_app, IH. simpl. lia.
Qed.

Lemma be_combine_snoc bs b : be_combine (bs ++ [b]) = (be_combine bs * 256 + u8 b)%Z.
Proof. unfold be_combine. by rewrite foldl_app. Qed.

Lemma be_combine_split n z :
  be_combine (be_split n z) = (z mod 256 ^ Z.of_nat n)%Z.
Proof.
  revert z; induction n as [|n IH]; intros z.
  - by rewrite Z.mod_1_r.
  - cbn [be_split]. rewrite be_combine_snoc, IH.
    rewrite u8_byte_of_u8_small by (apply Z.mod_pos_bound; lia).
    rewrite Nat2Z.inj_succ, Z.pow_succ_r by lia.
    rewrite Z.rem_mul_r by lia. lia.
Qed.

Lemma be_split_combine n bs : length bs = n -> be_split n (be_combine bs) = bs.
Proof.
  revert n. induction bs as [|b bs IH] using rev_ind; intros n <-; [done|].
  rewrite length_app, Nat.add_1_r, be_combine_snoc. simpl.
  pose proof (u8_range b). rewrite Z.div_add_l, Z.div_small, Z.add_0_r by lia.
  rewrite IH, Z.add_comm, Z_mod_plus_full, Z.mod_small by (done || lia).
  by rewrite byte_of_u8_u8.
Qed.

Lemma be_combine_range bs : (0 <= be_combine bs < 256 ^ Z.of_nat (length bs))%Z.
Proof.
  induction bs as [|b bs IH] using rev_ind; [done|].
  rewrite be_combine_snoc, length_app, Nat2Z.inj_add, Z.pow_add_r by lia.
  simpl (256 ^ Z.of_nat (length [b]))%Z. pose proof (u8_range b). lia.
Qed.
End BigEndian.

(** ** [std::io::Read]

    [read n] fills a buffer of [n] bytes: it returns the bytes it wrote at the
    front of the buffer (so their number is the returned count). *)

Class Read (R : Type) := { read : nat -> M R Bytes }.

(** The contract of a reader: [yields r c] holds of a reader that still
    delivers [c]; a read with room returns a prefix of it, empty only at the
    end. *)
Class ReadSpec (R : Type) `{Read R} := {
  yields : R -> Bytes -> Prop;
  yields_read r c n : (0 < n)%nat -> yields r c ->
    exists b c' r', read n r = (Ok b, r') /\ c = b ++ c' /\ yields r' c'
      /\ (length b <= n)%nat /\ (b = [] -> c = [])
}.

Section ReadToEnd.
Context {R : Type} `{ReadSpec R}.

(** [Read::read_to_end]: read until a read returns nothing. The buffer sizes
    are the standard library's choice, so they are an input; [None] when the
    list of sizes ends first. *)
Fixpoint read_to_end (sizes : list nat) : M R (option Bytes) :=
  match sizes with
  | [] => m_ret None
  | n :: sizes' =>
      let! b := read n in
      match b with
      | [] => m_ret (Some [])
      | _ :: _ =>
          let! rest := read_to_end sizes' in
          m_ret (app b <$> rest)
      end
  end.

Lemma read_to_end_yields sizes r c :
  yields r c -> Forall (lt 0) sizes -> (length c < length sizes)%nat ->
  exists r', read_to_end sizes r = (Ok (Some c), r').
Proof.
  revert r c. induction sizes as [|n sizes IH]; intros r c Hy Hpos Hlen; [simpl in *; lia|].
  apply Forall_cons in Hpos as [Hn Hpos].
  destruct (yields_read r c n Hn Hy) as (b & c' & r1 & Hr & -> & Hy' & _ & Hend).
  cbn [read_to_end]. unfold m_bind at 1. rewrite Hr.
  destruct b as [|x b].
  - specialize (Hend eq_refl). simpl in Hend. subst. by exists r1.
  - rewrite length_app in Hlen. simpl in Hlen.
    destruct (IH r1 c' Hy' Hpos) as [r2 E]; [lia|].
    exists r2. unfold m_bind. by rewrite E.
Qed.
End ReadToEnd.

(** A wrapper that forwards [read] to a reader keeps its contract. *)
Lemma yields_read_forward {R T} `{ReadSpec R} (wrap : R -> T)
    (read_T : nat -> M T Bytes) (yields_T : T -> Bytes -> Prop) r c n :
  read_T n (wrap r) = prod_map id wrap (read n r) ->
  (forall r c, yields r c -> yields_T (wrap r) c) ->
  (0 < n)%nat -> yields r c ->
  exists b c' t, read_T n (wrap r) = (Ok b, t) /\ c = b ++ c' /\ yields_T t c'
    /\ (length b <= n)%nat /\ (b = [] -> c = []).
Proof.
  intros E Hwrap Hn Hy.
  destruct (yields_read r c n Hn Hy) as (b & c' & r' & E' & ? & ? & ? & ?).
  rewrite E, E'. exists b, c', (wrap r'). simpl. auto 6.
Qed.

(** ** [MemRead] *)

(** A reader that may be a contiguous slice of bytes. *)
Class MemRead (T Reader : Type) `{Read Reader} := {
  mem_bytes : T -> option Bytes;
  into_reader : T -> res Reader
}.

(** [io::Cursor<&[u8]>]: a slice and a position in it. *)
Record Cursor := mkCursor { cursor_inner : Bytes; cursor_pos : nat }.

#[export] Instance cursor_read : Read Cursor := {|
  read n := fun c =>
    let readable := drop (cursor_pos c) (cursor_inner c) in
    let b := take n readable in
    (Ok b, mkCursor (cursor_inner c) (cursor_pos c + length b))
|}.

#[export, refine] Instance cursor_read_spec : ReadSpec Cursor := {|
  yields c content := drop (cursor_pos c) (cursor_inner c) = content
|}.
Proof.
  intros [bs pos] c n Hn <-. simpl.
  eexists _, _, _. split; [reflexivity|]. split; [symmetry; apply take_drop|].
  split; [|split].
  - simpl. rewrite <- drop_drop. rewrite length_take.
    destruct (decide (n <= length (drop pos bs))%nat).
    + by rewrite Nat.min_l by lia.
    + rewrite !drop_ge; [done|lia|rewrite Nat.min_r; lia].
  - rewrite length_take. lia.
  - intros E. apply (f_equal length) in E. rewrite length_take in E. simpl in E.
    apply nil_length_inv. lia.
Defined.

(** [impl MemRead for &[u8]]. *)
#[export] Instance slice_mem_read : MemRead Bytes Cursor := {|
  mem_bytes bs := Some bs;
  into_reader bs := Ok (mkCursor bs 0)
|}.
