(* ===== verification/Stream.v ===== *)
(** What is polled: the [Stream] trait of [futures] and the [AsyncRead] trait of
    [tokio] as interfaces, and what a stream gives over many polls.

    A poll depends on what the outside world does at that moment (bytes that
    have arrived, a timer that has fired), which is the input of the poll. The
    statics are shared by everything that is polled, so a poll is a method on
    them. *)

From S2P Require Import Prelude Diagnostics.

Inductive Poll (A : Type) := Ready (a : A) | Pending.
Arguments Ready {A} a.
Arguments Pending {A}.

(** [Stream]: [Ready None] is the end. *)
Class Stream (S Item : Type) := {
  poll_input : Type;
  poll_next : poll_input -> S -> M Globals (Poll (option Item) * S)
}.
Arguments poll_input S Item {_}.

(** What dropping a value does to the statics. *)
Class Drop (S : Type) := { drop_glue : S -> Globals -> Globals }.

(** ** What a stream gives *)

Section Gives.
Context {S Item : Type} `{Stream S Item}.

(** A poll: its input, and the stream and the statics that it found. *)
Definition poll : Type := poll_input S Item * S * Globals.

(** [polled s0 polls items o]: polled so, in order, whatever others did to the
    statics in between, the stream [s0] has given [items], and it is now [o], or has
    ended. *)
Inductive polled (s0 : S) : list poll -> list Item -> option S -> Prop :=
| polled_start : polled s0 [] [] (Some s0)
| polled_pending polls items s i g s' g' :
    polled s0 polls items (Some s) -> poll_next i s g = (Ok (Pending, s'), g') ->
    polled s0 (polls ++ [(i, s, g)]) items (Some s')
| polled_item polls items s i g x s' g' :
    polled s0 polls items (Some s) -> poll_next i s g = (Ok (Ready (Some x), s'), g') ->
    polled s0 (polls ++ [(i, s, g)]) (items ++ [x]) (Some s')
| polled_end polls items s i g s' g' :
    polled s0 polls items (Some s) -> poll_next i s g = (Ok (Ready None, s'), g') ->
    polled s0 (polls ++ [(i, s, g)]) items None.

(** ... on these inputs. *)
Definition polled_on (s0 : S) (inputs : list (poll_input S Item)) (items : list Item)
    (o : option S) : Prop :=
  exists polls : list poll, inputs = (fun p => p.1.1) <$> polls /\ polled s0 polls items o.

Lemma polled_on_start s0 : polled_on s0 [] [] (Some s0).
Proof. exists []. split; [done|apply polled_start]. Qed.

Lemma polled_on_pending s0 inputs items s i g s' g' :
  polled_on s0 inputs items (Some s) -> poll_next i s g = (Ok (Pending, s'), g') ->
  polled_on s0 (inputs ++ [i]) items (Some s').
Proof.
  intros (polls & -> & Hp) E. eexists. split; [|by eapply polled_pending]. by rewrite fmap_app.
Qed.

Lemma polled_on_item s0 inputs items s i g x s' g' :
  polled_on s0 inputs items (Some s) -> poll_next i s g = (Ok (Ready (Some x), s'), g') ->
  polled_on s0 (inputs ++ [i]) (items ++ [x]) (Some s').
Proof.
  intros (polls & -> & Hp) E. eexists. split; [|by eapply polled_item]. by rewrite fmap_app.
Qed.

Lemma polled_on_end s0 inputs items s i g s' g' :
  polled_on s0 inputs items (Some s) -> poll_next i s g = (Ok (Ready None, s'), g') ->
  polled_on s0 (inputs ++ [i]) items None.
Proof.
  intros (polls & -> & Hp) E. eexists. split; [|by eapply polled_end]. by rewrite fmap_app.
Qed.

(** ... however it is polled. *)
Definition gives (s0 : S) (items : list Item) (o : option S) : Prop :=
  exists polls, polled s0 polls items o.

Lemma polled_gives s0 polls items o : polled s0 polls items o -> gives s0 items o.
Proof. by exists polls. Qed.

Lemma gives_start s0 : gives s0 [] (Some s0).
Proof. eexists. apply polled_start. Qed.

Lemma gives_pending s0 items s i g s' g' :
  gives s0 items (Some s) -> poll_next i s g = (Ok (Pending, s'), g') ->
  gives s0 items (Some s').
Proof. intros [polls Hp] E. eexists. by eapply polled_pending. Qed.

Lemma gives_item s0 items s i g x s' g' :
  gives s0 items (Some s) -> poll_next i s g = (Ok (Ready (Some x), s'), g') ->
  gives s0 (items ++ [x]) (Some s').
Proof. intros [polls Hp] E. eexists. by eapply polled_item. Qed.

Lemma gives_end s0 items s i g s' g' :
  gives s0 items (Some s) -> poll_next i s g = (Ok (Ready None, s'), g') ->
  gives s0 items None.
Proof. intros [polls Hp] E. eexists. by eapply polled_end. Qed.
End Gives.
Arguments poll S Item {_}.

(** ** [AsyncRead] *)

(** The kinds of [io::Error] the program tells apart. *)
Inductive ErrorKind := UnexpectedEof | ConnectionReset | OtherKind.
Record io_error := mkIoError { io_kind : ErrorKind; io_message : string }.

(** [anyhow::Error::from]. *)
Definition from_io_error (e : io_error) : error := External (io_message e) [].

(** [poll_read]: the bytes that were put into the buffer, none at the end. *)
Class AsyncRead (So : Type) := {
  read_input : Type;
  poll_read : read_input -> So -> Poll (Bytes + io_error) * So
}.
Arguments read_input So {_}.

(** The contract of a reader: [delivers so c] holds of one that will have
    delivered no more than [c], in order. *)
Class AsyncReadSpec (So : Type) `{AsyncRead So} := {
  delivers : So -> Bytes -> Prop;
  poll_read_spec i so c : delivers so c ->
    match poll_read i so with
    | (Ready (inl b), so') => exists c', c = b ++ c' /\ delivers so' c'
    | (_, so') => delivers so' c
    end
}.

(** A socket, for evaluation: the bytes its peer sends. A read finds some of
    them, or none yet, or fails. *)
Record Socket := mkSocket { sock_content : Bytes }.
Inductive socket_input := Arrived (n : nat) | NotReady | Broken (e : io_error).

#[export] Instance Socket_AsyncRead : AsyncRead Socket := {|
  read_input := socket_input;
  poll_read i so :=
    match i with
    | Arrived n =>
        (Ready (inl (take (S n) (sock_content so))), mkSocket (drop (S n) (sock_content so)))
    | NotReady => (Pending, so)
    | Broken e => (Ready (inr e), so)
    end
|}.

#[export, refine] Instance Socket_AsyncReadSpec : AsyncReadSpec Socket := {|
  delivers so c := sock_content so = c
|}.
Proof.
  intros [n| |e] so c <-; [|done..].
  exists (drop (S n) (sock_content so)). split; [symmetry; apply (take_drop (S n))|done].
Defined.
