(* ===== verification/Message.v ===== *)
(** GELF messages ([sqelf/src/receive.rs]): compression detection, the chunk
    header, the [Message] type and its constructors. *)

From S2P Require Import Prelude Io.

Section Compression.
Inductive Compression := Gzip | Zlib.

#[export] Instance Compression_eq_decision : EqDecision Compression.
Proof. solve_decision. Defined.

Definition MAGIC_GZIP : byte * byte := (Byte.x1f, Byte.x8b).
Definition MAGIC_ZLIB : byte := Byte.x78.

(** [(u16::from(header[0]) << 8) + u16::from(header[1])]. *)
Definition zlib_header_u16 (header : byte * byte) : Z :=
  (Z.land (Z.shiftl (u8 header.1) 8) (u16_modulus - 1) + u8 header.2)%Z.

(** [Compression::detect]. *)
Definition Compression_detect (header : byte * byte) : option Compression :=
  if decide (header = MAGIC_GZIP) then Some Gzip
  else if bool_decide (header.1 = MAGIC_ZLIB) && (zlib_header_u16 header mod 31 =? 0)%Z
  then Some Zlib
  else None.
End Compression.

Section Message.
Inductive MessageInner :=
| Single (compression : option Compression) (bytes : Bytes)
| Chunked (chunks : list Bytes).

Record Message := mkMessage { message_inner : MessageInner }.

#[export] Instance MessageInner_eq_decision : EqDecision MessageInner.
Proof. solve_decision. Defined.
#[export] Instance Message_eq_decision : EqDecision Message.
Proof. solve_decision. Defined.

Definition MAGIC_CHUNKED : byte * byte := (Byte.x1e, Byte.x0f).

(** [Message::peek_magic_bytes]. *)
Definition peek_magic_bytes (src : Bytes) : option (byte * byte) :=
  match src with
  | b0 :: b1 :: _ => Some (b0, b1)
  | _ => None
  end.

(** [magic.and_then(Compression::detect)], for the bytes of [src]. *)
Definition detect_bytes (src : Bytes) : option Compression :=
  peek_magic_bytes src ≫= Compression_detect.

(** [Message::single], with its [debug_assert_eq!]. *)
Definition Message_single `{Profile} (compression : option Compression) (src : Bytes) :
    res (option Message) :=
  if (length src =? 0)%nat then Ok None
  else if debug_assertions && negb (bool_decide (detect_bytes src = compression))
  then Panic "assertion `left == right` failed"
  else Ok (Some (mkMessage (Single compression src))).

(** [Message::chunked]. *)
Definition Message_chunked (chunks : list Bytes) : option Message :=
  if (length chunks =? 0)%nat then None else Some (mkMessage (Chunked chunks)).

(** [Message::compression]. *)
Definition Message_compression (msg : Message) : option Compression :=
  match message_inner msg with
  | Single compression _ => compression
  | Chunked chunks => (head chunks ≫= peek_magic_bytes) ≫= Compression_detect
  end.

(** The payload of a message, as it arrived. *)
Definition message_payload (msg : Message) : Bytes :=
  match message_inner msg with
  | Single _ bytes => bytes
  | Chunked chunks => concat chunks
  end.
End Message.

Section ChunkHeader.
Record ChunkHeader := mkChunkHeader { header_id : Z; seq_num : Z; seq_count : Z }.

#[export] Instance ChunkHeader_eq_decision : EqDecision ChunkHeader.
Proof. solve_decision. Defined.

Definition ChunkHeader_SIZE : nat := 12.

Context `{Profile} `{BytesApi}.

(** The reads of [ChunkHeader::get] on the twelve bytes it split off. *)
Definition ChunkHeader_parse : M Bytes ChunkHeader :=
  let! _m0 := get_u8 in
  let! _m1 := get_u8 in
  let! id := get_u64 in
  let! seq_num := get_u8 in
  let! seq_count := get_u8 in
  if (seq_count <=? seq_num)%Z then
    let! got := m_lift (checked_add u8_modulus seq_num 1) in
    m_throw (Bail "expected {} chunks but got {}" [ANum seq_count; ANum got])
  else m_ret (mkChunkHeader id seq_num seq_count).

(** [ChunkHeader::get]: on success the header is gone from the buffer. *)
Definition ChunkHeader_get : M Bytes ChunkHeader :=
  let! buf := m_get in
  if (length buf <? ChunkHeader_SIZE)%nat then
    m_throw (Bail "buffer is too small to contain a valid chunk header" [])
  else
    let! buf := split_to ChunkHeader_SIZE in
    m_lift (ChunkHeader_parse buf).1.

(** A chunk as a sender writes it (the helper of [receive.rs]'s tests). *)
Definition chunk (id seq_num seq_total : Z) (bytes : Bytes) : Bytes :=
  [Byte.x1e; Byte.x0f] ++ be_split 8 id ++ [byte_of_u8 seq_num; byte_of_u8 seq_total]
    ++ bytes.
End ChunkHeader.

(** ** Laws of the header *)

Section HeaderLaws.
Context `{Profile} `{BytesApi}.

Lemma length_chunk i n t bs : length (chunk i n t bs) = (12 + length bs)%nat.
Proof.
  unfold chunk. rewrite !length_app, length_be_split. simpl. lia.
Qed.

(** A buffer of at least twelve bytes, by its fields. *)
Lemma header_view (buf : Bytes) :
  (12 <= length buf)%nat ->
  exists m0 m1 b8 s t rest,
    buf = m0 :: m1 :: b8 ++ s :: t :: rest /\ length b8 = 8%nat.
Proof.
  intros Hlen.
  destruct buf as [|m0 [|m1 buf]]; simpl in Hlen; [lia..|].
  destruct (drop 8 buf) as [|s [|t rest]] eqn:E;
    try (apply (f_equal length) in E; rewrite length_drop in E; simpl in E; lia).
  exists m0, m1, (take 8 buf), s, t, rest. split.
  - by rewrite <- E, take_drop.
  - rewrite length_take. lia.
Qed.

(** What [get] computes, on the fields of the buffer. *)
Lemma ChunkHeader_get_eq m0 m1 b8 s t rest :
  length b8 = 8%nat ->
  ChunkHeader_get (m0 :: m1 :: b8 ++ s :: t :: rest) =
    (if (u8 t <=? u8 s)%Z
     then match checked_add u8_modulus (u8 s) 1 with
          | Ok got => Err (Bail "expected {} chunks but got {}" [ANum (u8 t); ANum got])
          | Err e => Err e
          | Panic w => Panic w
          end
     else Ok (mkChunkHeader (be_combine b8) (u8 s) (u8 t)), rest).
Proof.
  intros Hlen. unfold ChunkHeader_get, m_bind at 1, m_get.
  assert (E : m0 :: m1 :: b8 ++ s :: t :: rest = (m0 :: m1 :: b8 ++ [s; t]) ++ rest)
    by (simpl; by rewrite <- app_assoc).
  assert (Hl : length (m0 :: m1 :: b8 ++ [s; t]) = 12%nat)
    by (simpl; rewrite length_app, Hlen; done).
  rewrite E, length_app, Hl. unfold ChunkHeader_SIZE.
  replace (12 + length rest <? 12)%nat with false by (symmetry; apply Nat.ltb_ge; lia).
  unfold m_bind at 1. rewrite split_to_ok by (rewrite length_app, Hl; lia).
  rewrite take_app_length', drop_app_length' by done.
  unfold m_lift at 1. f_equal.
  unfold ChunkHeader_parse, m_bind. rewrite !get_u8_cons, get_u64_app by done.
  rewrite !get_u8_cons. destruct (u8 t <=? u8 s)%Z; [|done].
  unfold m_lift. by destruct (checked_add u8_modulus (u8 s) 1).
Qed.
End HeaderLaws.

Section HeaderFacts.
Context `{Profile} `{BytesApi}.

Lemma peek_chunk i n t bs : peek_magic_bytes (chunk i n t bs) = Some MAGIC_CHUNKED.
Proof. done. Qed.

Lemma ChunkHeader_get_short buf :
  (length buf < 12)%nat ->
  ChunkHeader_get buf =
    (Err (Bail "buffer is too small to contain a valid chunk header" []), buf).
Proof.
  intros Hlen. unfold ChunkHeader_get, m_bind, m_get, ChunkHeader_SIZE.
  by rewrite (proj2 (Nat.ltb_lt _ _) Hlen).
Qed.

(** Parsing what a sender writes. *)
Lemma ChunkHeader_get_chunk i n t bs :
  (0 <= i < u64_modulus)%Z -> (0 <= n < t)%Z -> (t < 256)%Z ->
  ChunkHeader_get (chunk i n t bs) = (Ok (mkChunkHeader i n t), bs).
Proof.
  intros Hi Hn Ht.
  change (chunk i n t bs)
    with (Byte.x1e :: Byte.x0f :: be_split 8 i ++ byte_of_u8 n :: byte_of_u8 t :: bs).
  rewrite ChunkHeader_get_eq by apply length_be_split.
  rewrite !u8_byte_of_u8_small by lia.
  replace (t <=? n)%Z with false by (symmetry; apply Z.leb_gt; lia).
  rewrite be_combine_split. change (256 ^ Z.of_nat 8)%Z with u64_modulus.
  by rewrite Z.mod_small.
Qed.

(** A header that parses has its fields in range. *)
Lemma ChunkHeader_get_range buf h rest :
  ChunkHeader_get buf = (Ok h, rest) ->
  (0 <= header_id h < u64_modulus)%Z /\ (0 <= seq_num h < seq_count h)%Z
  /\ (seq_count h < 256)%Z /\ (length buf = 12 + length rest)%nat.
Proof.
  destruct (decide (12 <= length buf)%nat) as [Hlen|Hlen].
  - destruct (header_view buf Hlen) as (m0 & m1 & b8 & s & t & r & -> & Hb8).
    rewrite ChunkHeader_get_eq by done.
    destruct (u8 t <=? u8 s)%Z eqn:E; [by destruct (checked_add _ _ _)|].
    intros [= <- <-]. bool_to_prop. simpl.
    pose proof (be_combine_range b8) as Hr. rewrite Hb8 in Hr.
    pose proof (u8_range s). pose proof (u8_range t).
    repeat split; try lia; [apply Hr|]. rewrite length_app. simpl. lia.
  - by rewrite ChunkHeader_get_short by lia.
Qed.
End HeaderFacts.
