(* ===== verification/ChunkRead.v ===== *)
(** Reading a message ([sqelf/src/receive.rs]): the [ChunkRead] reader over the
    chunks of a message, the [Reader] that decompresses it, and the [MemRead]
    implementation of [Message]. The third-party decoders of [libflate] are an
    interface. *)

From S2P Require Import Prelude Io Message.

Section ChunkRead.
Record ChunkRead := mkChunkRead {
  cr_chunk : nat;
  cr_cursor : nat;
  cr_msg : MessageInner
}.

(** [&bytes[cursor..]]. *)
Definition slice_from (cursor : nat) (bytes : Bytes) : res Bytes :=
  if (cursor <=? length bytes)%nat then Ok (drop cursor bytes)
  else Panic "range start index out of range for slice".

(** The [while] loop of [read] over the chunks: [n] is what is left of the
    buffer, [st] the chunk index and cursor. A turn either moves to the next
    chunk or fills the buffer, so [fuel] above the number of chunks left is
    enough. *)
Fixpoint read_chunks (fuel : nat) (chunks : list Bytes) (n : nat) (st : nat * nat) :
    res Bytes * (nat * nat) :=
  match fuel with
  | O => (Panic "out of fuel", st)
  | S fuel' =>
      if (n =? 0)%nat then (Ok [], st) else
      match chunks !! st.1 with
      | None => (Ok [], st)
      | Some bytes =>
          match slice_from st.2 bytes with
          | Ok readable =>
              let read := Nat.min (length readable) n in
              let st' :=
                if (read =? length readable)%nat then (S st.1, 0%nat)
                else (st.1, (st.2 + read)%nat) in
              let '(rest, st'') := read_chunks fuel' chunks (n - read) st' in
              (app (take read readable) <$> rest, st'')
          | Err e => (Err e, st)
          | Panic w => (Panic w, st)
          end
      end
  end.

(** [ChunkRead::read]. *)
Definition ChunkRead_read (n : nat) : M ChunkRead Bytes := fun r =>
  match cr_msg r with
  | Single _ bytes =>
      if (n =? 0)%nat then (Ok [], r) else
      match slice_from (cr_cursor r) bytes with
      | Ok readable =>
          let read := Nat.min (length readable) n in
          (Ok (take read readable),
           mkChunkRead (cr_chunk r) (cr_cursor r + read) (cr_msg r))
      | Err e => (Err e, r)
      | Panic w => (Panic w, r)
      end
  | Chunked chunks =>
      let '(b, (chunk, cursor)) :=
        read_chunks (S (S (length chunks - cr_chunk r))) chunks n
          (cr_chunk r, cr_cursor r) in
      (b, mkChunkRead chunk cursor (cr_msg r))
  end.

#[export] Instance ChunkRead_Read : Read ChunkRead := {| read := ChunkRead_read |}.

(** The reader [into_reader] starts from. *)
Definition ChunkRead_new (msg : MessageInner) : ChunkRead := mkChunkRead 0 0 msg.
End ChunkRead.

Arguments read_chunks : simpl never.

(** ** The contract of [ChunkRead] *)

Section Contract.
(** The position is inside the message. *)
Definition position_wf (chunks : list Bytes) (st : nat * nat) : Prop :=
  match chunks !! st.1 with
  | Some bytes => (st.2 <= length bytes)%nat
  | None => st.2 = 0%nat
  end.

Definition chunk_read_wf (r : ChunkRead) : Prop :=
  match cr_msg r with
  | Single _ bytes => (cr_cursor r <= length bytes)%nat
  | Chunked chunks => position_wf chunks (cr_chunk r, cr_cursor r)
  end.

(** The bytes from a position to the end of the message. *)
Definition remaining_chunks (chunks : list Bytes) (st : nat * nat) : Bytes :=
  drop st.2 (concat (drop st.1 chunks)).

Definition remaining (r : ChunkRead) : Bytes :=
  match cr_msg r with
  | Single _ bytes => drop (cr_cursor r) bytes
  | Chunked chunks => remaining_chunks chunks (cr_chunk r, cr_cursor r)
  end.

Lemma slice_from_ok cursor bytes :
  (cursor <= length bytes)%nat -> slice_from cursor bytes = Ok (drop cursor bytes).
Proof. intros H. unfold slice_from. by rewrite (proj2 (Nat.leb_le _ _) H). Qed.

Lemma remaining_chunks_some chunks st bytes :
  chunks !! st.1 = Some bytes -> (st.2 <= length bytes)%nat ->
  remaining_chunks chunks st =
    drop st.2 bytes ++ remaining_chunks chunks (S st.1, 0%nat).
Proof.
  intros Hb Hc. unfold remaining_chunks. rewrite (concat_drop_S _ _ _ Hb).
  simpl. by rewrite drop_app_le.
Qed.

Lemma remaining_chunks_none chunks st :
  chunks !! st.1 = None -> remaining_chunks chunks st = [].
Proof.
  intros Hb%lookup_ge_None. unfold remaining_chunks.
  rewrite (drop_ge chunks) by done. simpl. apply drop_nil.
Qed.

Lemma read_chunks_full fuel chunks st :
  read_chunks (S fuel) chunks 0 st = (Ok [], st).
Proof. done. Qed.

(** The loop delivers exactly what fits of what is left. *)
Lemma read_chunks_spec fuel chunks n st :
  position_wf chunks st ->
  (length chunks - st.1 + 1 < fuel)%nat ->
  exists st',
    read_chunks fuel chunks n st = (Ok (take n (remaining_chunks chunks st)), st')
    /\ position_wf chunks st'
    /\ remaining_chunks chunks st' = drop n (remaining_chunks chunks st).
Proof.
  revert n st. induction fuel as [|fuel IH]; intros n st Hwf Hfuel; [lia|].
  unfold read_chunks; fold read_chunks. destruct (Nat.eqb_spec n 0) as [->|Hn].
  { exists st. by rewrite take_0, drop_0. }
  unfold position_wf in Hwf. destruct (chunks !! st.1) as [bytes|] eqn:Hb.
  2:{ exists st. rewrite remaining_chunks_none, take_nil, drop_nil by done.
      split; [done|]. unfold position_wf. by rewrite Hb. }
  rewrite slice_from_ok by done.
  rewrite (remaining_chunks_some _ _ _ Hb Hwf).
  set (readable := drop st.2 bytes).
  destruct (Nat.eqb_spec (Nat.min (length readable) n) (length readable)) as [Hall|Hpart].
  - assert (Hlt : (st.1 < length chunks)%nat) by (apply lookup_lt_is_Some; eauto).
    destruct (IH (n - length readable)%nat (S st.1, 0%nat)) as (st' & E & Hwf' & Hrem).
    { unfold position_wf. simpl. by case_match; [lia|]. }
    { simpl. lia. }
    exists st'. rewrite Hall, E, firstn_all, take_app, drop_app, (take_ge readable n) by lia.
    rewrite (drop_ge readable n) by lia. done.
  - assert (Hmin : Nat.min (length readable) n = n) by lia. rewrite Hmin.
    rewrite Nat.sub_diag. destruct fuel as [|fuel]; [lia|]. rewrite read_chunks_full. simpl.
    exists (st.1, (st.2 + n)%nat). rewrite app_nil_r, take_app_le, drop_app_le by lia.
    split; [done|].
    assert (Hle : (st.2 + n <= length bytes)%nat).
    { unfold readable in *. rewrite length_drop in *. lia. }
    split; [unfold position_wf; simpl; by rewrite Hb|].
    rewrite (remaining_chunks_some _ (st.1, (st.2 + n)%nat) _ Hb) by done. simpl.
    unfold readable. by rewrite drop_drop.
Qed.

(** [read] is exact: it fills the buffer unless the message ends first. *)
Lemma ChunkRead_read_spec n r :
  chunk_read_wf r ->
  exists r',
    ChunkRead_read n r = (Ok (take n (remaining r)), r')
    /\ chunk_read_wf r'
    /\ remaining r' = drop n (remaining r)
    /\ cr_msg r' = cr_msg r.
Proof.
  destruct r as [chunk cursor [compression bytes|chunks]];
    unfold chunk_read_wf, ChunkRead_read, remaining; simpl; intros Hwf.
  - destruct (Nat.eqb_spec n 0) as [->|Hn].
    { eexists. by rewrite take_0, drop_0. }
    rewrite slice_from_ok by done. eexists. split; [|split; [|split]]; simpl.
    + by rewrite take_min_length.
    + unfold chunk_read_wf. simpl. rewrite length_drop. lia.
    + simpl. by rewrite <- drop_drop, drop_min_length.
    + done.
  - destruct (read_chunks_spec (S (S (length chunks - chunk))) chunks n (chunk, cursor) Hwf)
      as ([chunk' cursor'] & E & Hwf' & Hrem); [simpl; lia|].
    rewrite E. by eexists.
Qed.

Lemma chunk_read_wf_new msg : chunk_read_wf (ChunkRead_new msg).
Proof.
  destruct msg as [compression bytes|chunks]; unfold chunk_read_wf; simpl; [lia|].
  unfold position_wf. simpl. by case_match; [lia|].
Qed.

Lemma remaining_new msg :
  remaining (ChunkRead_new msg) = message_payload (mkMessage msg).
Proof.
  destruct msg as [compression bytes|chunks]; unfold remaining, remaining_chunks; simpl;
    by rewrite ?drop_0.
Qed.
End Contract.

#[export, refine] Instance ChunkRead_ReadSpec : ReadSpec ChunkRead := {|
  yields r c := chunk_read_wf r /\ remaining r = c
|}.
Proof.
  intros r c n Hn [Hwf <-].
  destruct (ChunkRead_read_spec n r Hwf) as (r' & E & Hwf' & Hrem & _).
  exists (take n (remaining r)), (drop n (remaining r)), r'.
  split; [done|]. split; [by rewrite take_drop|]. split; [done|].
  split; [rewrite length_take; lia|].
  intros Hnil. apply (f_equal length) in Hnil. rewrite length_take in Hnil.
  simpl in Hnil. apply nil_length_inv. lia.
Defined.

Lemma yields_new msg : yields (ChunkRead_new msg) (message_payload (mkMessage msg)).
Proof. split; [apply chunk_read_wf_new|apply remaining_new]. Qed.

(** ** The decoders of [libflate]

    [gzip::Decoder::new] and [zlib::Decoder::new] read the header of their
    source and may fail; reading from a decoder delivers the decompressed
    content of the source. [gunzip] and [inflate_zlib] are the formats
    (RFC 1952 and RFC 1950). *)

Class Libflate := {
  gunzip : Bytes -> option Bytes;
  gzip_Decoder : Type;
  gzip_Decoder_new : ChunkRead -> res gzip_Decoder;
  gzip_Read :: Read gzip_Decoder;
  gzip_ReadSpec :: ReadSpec gzip_Decoder;
  gzip_Decoder_spec r c d :
    yields r c -> gunzip c = Some d ->
    exists dec, gzip_Decoder_new r = Ok dec /\ yields dec d;
  inflate_zlib : Bytes -> option Bytes;
  zlib_Decoder : Type;
  zlib_Decoder_new : ChunkRead -> res zlib_Decoder;
  zlib_Read :: Read zlib_Decoder;
  zlib_ReadSpec :: ReadSpec zlib_Decoder;
  zlib_Decoder_spec r c d :
    yields r c -> inflate_zlib c = Some d ->
    exists dec, zlib_Decoder_new r = Ok dec /\ yields dec d
}.

Section Reader.
Context `{Libflate}.

Inductive Reader :=
| Uncompressed (msg : ChunkRead)
| GzipReader (msg : gzip_Decoder)
| ZlibReader (msg : zlib_Decoder).

(** [impl Read for Reader]. *)
Definition Reader_read (n : nat) : M Reader Bytes := fun r =>
  match r with
  | Uncompressed msg => prod_map id Uncompressed (read n msg)
  | GzipReader msg => prod_map id GzipReader (read n msg)
  | ZlibReader msg => prod_map id ZlibReader (read n msg)
  end.

#[export] Instance Reader_Read : Read Reader := {| read := Reader_read |}.

Definition Reader_yields (r : Reader) (c : Bytes) : Prop :=
  match r with
  | Uncompressed msg => yields msg c
  | GzipReader msg => yields msg c
  | ZlibReader msg => yields msg c
  end.

#[export, refine] Instance Reader_ReadSpec : ReadSpec Reader := {|
  yields := Reader_yields
|}.
Proof.
  intros [msg|msg|msg] c n Hn Hy;
    (eapply yields_read_forward; [reflexivity|by intros|done|exact Hy]).
Defined.

(** [<Message as MemRead>::bytes]. *)
Definition Message_bytes (msg : Message) : option Bytes :=
  match message_inner msg with
  | Single None bytes => Some bytes
  | _ => None
  end.

(** [<Message as MemRead>::into_reader]. *)
Definition Message_into_reader (msg : Message) : res Reader :=
  let compression := Message_compression msg in
  let body := ChunkRead_new (message_inner msg) in
  match compression with
  | Some Gzip => GzipReader <$> gzip_Decoder_new body
  | Some Zlib => ZlibReader <$> zlib_Decoder_new body
  | None => Ok (Uncompressed body)
  end.

#[export] Instance Message_MemRead : MemRead Message Reader := {|
  mem_bytes := Message_bytes;
  into_reader := Message_into_reader
|}.

(** What reading a message is meant to deliver. *)
Definition message_content (msg : Message) : option Bytes :=
  match Message_compression msg with
  | Some Gzip => gunzip (message_payload msg)
  | Some Zlib => inflate_zlib (message_payload msg)
  | None => Some (message_payload msg)
  end.

Lemma Message_into_reader_yields msg c :
  message_content msg = Some c ->
  exists r, Message_into_reader msg = Ok r /\ yields r c.
Proof.
  destruct msg as [inner]. unfold message_content, Message_into_reader.
  pose proof (yields_new inner) as Hy. simpl message_inner.
  destruct (Message_compression _) as [[]|]; intros Hc.
  - destruct (gzip_Decoder_spec _ _ _ Hy Hc) as (dec & -> & Hd). by eexists.
  - destruct (zlib_Decoder_spec _ _ _ Hy Hc) as (dec & -> & Hd). by eexists.
  - injection Hc as <-. by eexists.
Qed.
End Reader.
