(* ===== verification/Gelf.v ===== *)
(** The GELF receiver ([Gelf] of [sqelf/src/receive.rs]): its configuration,
    the two indexes of incomplete messages, garbage collection, and [decode].

    The state of a method is the receiver with the process-wide statics its
    [increment!]s write. [SystemTime::now()] is read at most twice by a
    [decode]: once in [gc] and once in [ByArrival::ts]; the readings are the
    arguments [now_gc] and [now_ts]. *)

From S2P Require Import Prelude BTree Diagnostics Io Message.

Record Config := mkConfig {
  incomplete_capacity : Z;
  max_chunks_per_message : Z;
  incomplete_timeout_ms : Z
}.

Definition Config_default : Config := {|
  incomplete_capacity := 1024;
  max_chunks_per_message := 128;
  incomplete_timeout_ms := 5 * 1000
|}.

(** [struct UniqueTimestamp(Duration, u64)] with its derived order. *)
Abbreviation UniqueTimestamp := (Duration * Z)%type.

#[export] Instance UniqueTimestamp_order : KeyOrder UniqueTimestamp := pair_key_order.
#[export] Instance UniqueTimestamp_eq_decision : EqDecision UniqueTimestamp.
Proof. unfold Duration. apply _. Defined.

Section Chunks.
Record Chunk := mkChunk { seq : Z; bytes : Bytes }.

Record Chunks := mkChunks { expected_total : Z; inner : BTreeMap Z Bytes }.

Definition Chunks_insert (chunk : Chunk) (c : Chunks) : Chunks :=
  mkChunks (expected_total c) (bt_insert (seq chunk) (bytes chunk) (inner c)).

Definition Chunks_new (expected_total : Z) (chunk : Chunk) : Chunks :=
  mkChunks expected_total (bt_insert (seq chunk) (bytes chunk) []).

Definition Chunks_is_complete (c : Chunks) : bool :=
  (expected_total c =? Z.of_nat (length (inner c)))%Z.
End Chunks.

Section State.
Record ById := mkById { by_id_chunks : gmap Z (Chunks * UniqueTimestamp) }.

Definition ById_new : ById := mkById ∅.

Record ByArrival := mkByArrival {
  counter : Z;
  by_arrival_chunks : BTreeMap UniqueTimestamp Z
}.

Definition ByArrival_new : ByArrival := mkByArrival 0 [].

(** [ByArrival::ts]. *)
Definition ByArrival_ts (now_ts : SystemTime) : M ByArrival UniqueTimestamp :=
  let! now := m_lift (duration_since now_ts UNIX_EPOCH) in
  let! self := m_get in
  let counter := counter self in
  m_put (mkByArrival (wrapping_add u64_modulus counter 1) (by_arrival_chunks self)) ;;;
  m_ret (now, counter).

(** [UniqueTimestamp::since]. *)
Definition UniqueTimestamp_since (now_gc : SystemTime) (since : Duration) :
    res UniqueTimestamp :=
  match systime_sub now_gc since with
  | Ok t => (fun now => (now, 0%Z)) <$> duration_since t UNIX_EPOCH
  | Err e => Err e
  | Panic w => Panic w
  end.

Record Gelf := mkGelf { config : Config; by_id : ById; by_arrival : ByArrival }.

(** [Gelf::new]. *)
Definition Gelf_new (config : Config) : Gelf := mkGelf config ById_new ByArrival_new.

(** [build]. *)
Definition build (config : Config) : Gelf := Gelf_new config.

(** The state a receiver method runs on. *)
Record Rx := mkRx { rx_gelf : Gelf; rx_globals : Globals }.
End State.

Section Methods.
Context `{Profile} `{BytesApi}.

Definition get_gelf : M Rx Gelf := fun s => (Ok (rx_gelf s), s).
Definition modify_by_id (f : gmap Z (Chunks * UniqueTimestamp) -> gmap Z (Chunks * UniqueTimestamp)) :
    M Rx unit :=
  m_modify (fun s =>
    let g := rx_gelf s in
    mkRx (mkGelf (config g) (mkById (f (by_id_chunks (by_id g)))) (by_arrival g))
      (rx_globals s)).
Definition modify_by_arrival (f : BTreeMap UniqueTimestamp Z -> BTreeMap UniqueTimestamp Z) :
    M Rx unit :=
  m_modify (fun s =>
    let g := rx_gelf s in
    mkRx (mkGelf (config g) (by_id g)
            (mkByArrival (counter (by_arrival g)) (f (by_arrival_chunks (by_arrival g)))))
      (rx_globals s)).
(** A method of [self.by_arrival]. *)
Definition on_by_arrival {A} (m : M ByArrival A) : M Rx A :=
  m_zoom (fun s => by_arrival (rx_gelf s))
    (fun a s => mkRx (mkGelf (config (rx_gelf s)) (by_id (rx_gelf s)) a) (rx_globals s)) m.
Definition increment_receive (field : string) : M Rx unit :=
  m_modify (fun s => mkRx (rx_gelf s) (increment GReceive field (rx_globals s))).

(** [Gelf::gc]. *)
Definition gc (now_gc : SystemTime) : M Rx unit :=
  let! self := get_gelf in
  (if (incomplete_capacity (config self)
       <=? Z.of_nat (size (by_id_chunks (by_id self))))%Z then
     increment_receive "msg_incomplete_chunk_overflow" ;;;
     modify_by_id (fun _ => ∅) ;;;
     modify_by_arrival (fun _ => [])
   else m_ret tt) ;;;
  let! since :=
    m_lift (UniqueTimestamp_since now_gc
              (Duration_from_millis (incomplete_timeout_ms (config self)))) in
  let! self := get_gelf in
  let to_remove := bt_range_to since (by_arrival_chunks (by_arrival self)) in
  m_for (fun '(by_arrival, by_id) =>
    modify_by_id (delete by_id) ;;;
    modify_by_arrival (bt_remove by_arrival)) to_remove.

(** [Gelf::push]. *)
Definition push (now_ts : SystemTime) (header : ChunkHeader) (chunk : Chunk) :
    M Rx (option Message) :=
  let! self := get_gelf in
  match by_id_chunks (by_id self) !! header_id header with
  | None =>
      let! ts := on_by_arrival (ByArrival_ts now_ts) in
      modify_by_arrival (bt_insert ts (header_id header)) ;;;
      modify_by_id
        (insert (header_id header) (Chunks_new (seq_count header) chunk, ts)) ;;;
      m_ret None
  | Some (chunks, arrival) =>
      if negb (expected_total chunks =? seq_count header)%Z then
        m_throw (Bail "chunk expected total {} is not consistent with previous value {}"
                   [ANum (seq_count header); ANum (expected_total chunks)])
      else
        let chunks := Chunks_insert chunk chunks in
        modify_by_id (insert (header_id header) (chunks, arrival)) ;;;
        if Chunks_is_complete chunks then
          modify_by_id (delete (header_id header)) ;;;
          modify_by_arrival (bt_remove arrival) ;;;
          increment_receive "msg_chunked" ;;;
          m_ret (Message_chunked (bt_values (inner chunks)))
        else m_ret None
  end.

(** [Gelf::chunked]. *)
Definition chunked (now_gc now_ts : SystemTime) (src : Bytes) : M Rx (option Message) :=
  gc now_gc ;;;
  let '(header, src) := ChunkHeader_get src in
  let! header := m_lift header in
  let! self := get_gelf in
  if (seq_num header =? 0)%Z && (seq_count header =? 1)%Z then
    let magic := peek_magic_bytes src in
    m_lift (Message_single (magic ≫= Compression_detect) src)
  else if (max_chunks_per_message (config self) <? seq_count header)%Z then
    m_throw (Bail "message expects {} chunks but the max allowed is {}"
               [ANum (seq_count header); ANum (max_chunks_per_message (config self))])
  else push now_ts header (mkChunk (seq_num header) src).

(** [Gelf::decode]. *)
Definition decode (now_gc now_ts : SystemTime) (src : Bytes) : M Rx (option Message) :=
  let magic := peek_magic_bytes src in
  if decide (magic = Some MAGIC_CHUNKED) then
    increment_receive "chunk" ;;;
    chunked now_gc now_ts src
  else
    increment_receive "msg_unchunked" ;;;
    m_lift (Message_single (magic ≫= Compression_detect) src).
End Methods.
