(* ===== verification/GelfInv.v ===== *)
(** The receiver's representation invariant: the two indexes of incomplete
    messages are inverse to one another, the arrival counter keeps arrival
    stamps fresh, the stored chunks are incomplete and in range, and the number
    of incomplete messages is bounded. Every [decode] preserves it as long as
    the 64-bit arrival counter has not wrapped. *)

From S2P Require Import Prelude BTree Diagnostics Io Message Gelf.

Abbreviation pending g := (by_id_chunks (by_id g)).
Abbreviation arrivals g := (by_arrival_chunks (by_arrival g)).
Abbreviation next_stamp g := (counter (by_arrival g)).

(** ** The two indexes *)

Section Linked.
Implicit Types (m : gmap Z (Chunks * UniqueTimestamp)) (a : BTreeMap UniqueTimestamp Z).
Implicit Types (id : Z) (ts : UniqueTimestamp) (c : Chunks).

(** [by_arrival] is the inverse of the arrival column of [by_id]. *)
Definition linked m a : Prop :=
  forall id ts, bt_get ts a = Some id <-> exists c, m !! id = Some (c, ts).

Lemma linked_empty : linked ∅ [].
Proof.
  intros id ts. split; [done|]. intros [c Hc]. by rewrite lookup_empty in Hc.
Qed.

Lemma linked_insert m a id c ts :
  bt_wf a -> linked m a -> m !! id = None -> bt_get ts a = None ->
  linked (<[id := (c, ts)]> m) (bt_insert ts id a).
Proof.
  intros Hwf Hl Hid Hts id' ts'.
  destruct (decide (ts' = ts)) as [->|Hne].
  - rewrite bt_get_insert_eq. destruct (decide (id' = id)) as [->|Hne'].
    + rewrite lookup_insert_eq. naive_solver.
    + rewrite lookup_insert_ne by done. split; [naive_solver|].
      intros Hc. apply Hl in Hc. congruence.
  - rewrite bt_get_insert_ne by done.
    destruct (decide (id' = id)) as [->|Hne'].
    + rewrite lookup_insert_eq, (Hl id ts'). rewrite Hid. naive_solver.
    + rewrite lookup_insert_ne by done. apply Hl.
Qed.

Lemma linked_delete m a id c ts :
  bt_wf a -> linked m a -> m !! id = Some (c, ts) ->
  linked (delete id m) (bt_remove ts a).
Proof.
  intros Hwf Hl Hid id' ts'.
  assert (Hts : bt_get ts a = Some id) by (apply Hl; eauto).
  destruct (decide (ts' = ts)) as [->|Hne].
  - rewrite bt_get_remove_eq by done. split; [done|].
    intros [c' Hc']. apply lookup_delete_Some in Hc' as [Hne Hc'].
    assert (bt_get ts a = Some id') by (apply Hl; eauto). congruence.
  - rewrite bt_get_remove_ne by done. rewrite (Hl id' ts').
    setoid_rewrite lookup_delete_Some. naive_solver.
Qed.

Lemma linked_update m a id c c' ts :
  linked m a -> m !! id = Some (c, ts) -> linked (<[id := (c', ts)]> m) a.
Proof.
  intros Hl Hid id' ts'. rewrite (Hl id' ts').
  destruct (decide (id' = id)) as [->|Hne].
  - rewrite lookup_insert_eq, Hid. naive_solver.
  - by rewrite lookup_insert_ne.
Qed.

(** Deleting a list of linked entries from both indexes. *)
Definition unlink_by_id (l : list (UniqueTimestamp * Z)) m :=
  foldl (fun m kv => delete kv.2 m) m l.
Definition unlink_by_arrival (l : list (UniqueTimestamp * Z)) a :=
  foldl (fun a kv => bt_remove kv.1 a) a l.

Lemma unlink_linked l m a :
  bt_wf a -> linked m a ->
  NoDup l.*1 -> (forall kv, kv ∈ l -> kv ∈ a) ->
  bt_wf (unlink_by_arrival l a) /\ linked (unlink_by_id l m) (unlink_by_arrival l a).
Proof.
  revert m a. induction l as [|[ts id] l IH]; intros m a Hwf Hl Hnd Hin; [done|].
  apply NoDup_cons in Hnd as [Hni Hnd].
  assert (Hget : bt_get ts a = Some id).
  { apply bt_get_elem; [done|]. apply Hin. left. }
  apply Hl in Hget as [c Hc]. simpl. apply IH; auto with sqelf.
  - by eapply linked_delete.
  - intros [ts' id'] Hin'. apply bt_get_elem; [auto with sqelf|].
    rewrite bt_get_remove_ne.
    + apply bt_get_elem; [done|]. apply Hin. by right.
    + done.
    + intros ->. apply Hni. apply list_elem_of_fmap. by exists (ts', id').
Qed.

Lemma lookup_unlink_by_id l m id :
  unlink_by_id l m !! id = if decide (id ∈ l.*2) then None else m !! id.
Proof.
  revert m. induction l as [|[ts id'] l IH]; intros m; simpl; [done|].
  rewrite IH. destruct (decide (id ∈ l.*2)) as [Hin|Hin].
  { by rewrite decide_True by (by right). }
  destruct (decide (id = id')) as [->|Hne].
  - rewrite decide_True by left. apply lookup_delete_eq.
  - rewrite decide_False by (rewrite elem_of_cons; naive_solver).
    by apply lookup_delete_ne.
Qed.

(** What is left after unlinking everything that arrived before [since]. *)
Lemma lookup_unlink_range m a since id :
  bt_wf a -> linked m a ->
  unlink_by_id (bt_range_to since a) m !! id =
    match m !! id with
    | Some (c, ts) => if key_ltb ts since then None else Some (c, ts)
    | None => None
    end.
Proof.
  intros Hwf Hl. rewrite lookup_unlink_by_id.
  assert (Hiff : id ∈ (bt_range_to since a).*2 <->
      exists c ts, m !! id = Some (c, ts) /\ key_ltb ts since = true).
  { rewrite list_elem_of_fmap. split.
    - intros ([ts id'] & -> & [Hin Hlt]%elem_of_bt_range_to). simpl in *.
      apply bt_get_elem in Hin; [|done]. apply Hl in Hin as [c Hc]. eauto.
    - intros (c & ts & Hc & Hlt). exists (ts, id). split; [done|].
      apply elem_of_bt_range_to. split; [|done].
      apply bt_get_elem; [done|]. apply Hl. eauto. }
  case_decide as Hin; rewrite Hiff in Hin.
  - destruct Hin as (c & ts & -> & ->). done.
  - destruct (m !! id) as [[c ts]|] eqn:E; [|done].
    destruct (key_ltb ts since) eqn:Hlt; [|done]. exfalso. eauto.
Qed.
End Linked.

(** ** The invariant *)

Section Invariant.
(** The chunks of an incomplete message. *)
Record chunks_inv (max : Z) (c : Chunks) : Prop := {
  ci_total : (2 <= expected_total c <= max)%Z;
  ci_wf : bt_wf (inner c);
  ci_incomplete : (0 < Z.of_nat (length (inner c)) < expected_total c)%Z;
  ci_range k b : bt_get k (inner c) = Some b -> (0 <= k < expected_total c)%Z
}.

Record gelf_inv (g : Gelf) : Prop := {
  gi_wf : bt_wf (arrivals g);
  gi_linked : linked (pending g) (arrivals g);
  gi_counter : (0 <= next_stamp g < u64_modulus)%Z;
  gi_fresh ts id : bt_get ts (arrivals g) = Some id -> (0 <= ts.2 < next_stamp g)%Z;
  gi_chunks id c ts : pending g !! id = Some (c, ts) ->
    chunks_inv (max_chunks_per_message (config g)) c;
  gi_size : (Z.of_nat (size (pending g)) <= Z.max 1 (incomplete_capacity (config g)))%Z
}.

Lemma gelf_inv_new config : gelf_inv (Gelf_new config).
Proof.
  constructor; simpl.
  - apply bt_wf_nil.
  - apply linked_empty.
  - done.
  - done.
  - intros id c ts Hc. by rewrite lookup_empty in Hc.
  - rewrite map_size_empty. lia.
Qed.
End Invariant.

(** ** [gc] as a function of the state *)

Section GcEq.
Context `{Profile} `{BytesApi}.

Definition with_indexes (g : Gelf) m (n : Z) a : Gelf :=
  mkGelf (config g) (mkById m) (mkByArrival n a).

Definition over_capacity (g : Gelf) : bool :=
  (incomplete_capacity (config g) <=? Z.of_nat (size (pending g)))%Z.

(** The receiver after the capacity check. *)
Definition gc_overflow (g : Gelf) : Gelf :=
  if over_capacity g then with_indexes g ∅ (next_stamp g) [] else g.

(** The receiver after the expiry sweep. *)
Definition gc_expire (since : UniqueTimestamp) (g : Gelf) : Gelf :=
  let l := bt_range_to since (arrivals g) in
  with_indexes g (unlink_by_id l (pending g)) (next_stamp g)
    (unlink_by_arrival l (arrivals g)).

Definition gc_globals (g : Gelf) (gl : Globals) : Globals :=
  if over_capacity g then increment GReceive "msg_incomplete_chunk_overflow" gl else gl.

Definition gc_since (now_gc : SystemTime) (g : Gelf) : res UniqueTimestamp :=
  UniqueTimestamp_since now_gc (Duration_from_millis (incomplete_timeout_ms (config g))).

Lemma gc_loop_eq l g gl :
  m_for (fun '(by_arrival, by_id) =>
    modify_by_id (delete by_id) ;;; modify_by_arrival (bt_remove by_arrival)) l (mkRx g gl)
  = (Ok tt, mkRx (with_indexes g (unlink_by_id l (pending g)) (next_stamp g)
              (unlink_by_arrival l (arrivals g))) gl).
Proof.
  revert g. induction l as [|[ts id] l IH]; intros g.
  - destruct g as [cfg [m] [n a]]. done.
  - cbn [m_for]. unfold m_bind at 1 2, modify_by_id, modify_by_arrival, m_modify.
    cbn -[m_for]. rewrite IH. done.
Qed.

Lemma gc_eq now_gc g gl :
  gc now_gc (mkRx g gl) =
    match gc_since now_gc g with
    | Ok since => (Ok tt, mkRx (gc_expire since (gc_overflow g)) (gc_globals g gl))
    | Err e => (Err e, mkRx (gc_overflow g) (gc_globals g gl))
    | Panic w => (Panic w, mkRx (gc_overflow g) (gc_globals g gl))
    end.
Proof.
  unfold gc, gc_overflow, gc_globals, over_capacity, gc_since.
  unfold m_bind at 1, get_gelf at 1. cbn [rx_gelf].
  destruct (incomplete_capacity (config g) <=? _)%Z;
    unfold m_bind, m_lift, m_ret, modify_by_id, modify_by_arrival, increment_receive,
      m_modify; cbn [rx_gelf rx_globals config by_id by_arrival by_id_chunks
      by_arrival_chunks counter];
    destruct (UniqueTimestamp_since _ _); try done;
    unfold get_gelf; cbn [rx_gelf]; rewrite gc_loop_eq; done.
Qed.
End GcEq.

(** ** Preservation *)

Section Preservation.
Context `{Profile} `{BytesApi}.

Lemma gelf_inv_with_indexes g m n a :
  bt_wf a -> linked m a -> (0 <= n < u64_modulus)%Z ->
  (forall ts id, bt_get ts a = Some id -> (0 <= ts.2 < n)%Z) ->
  (forall id c ts, m !! id = Some (c, ts) ->
     chunks_inv (max_chunks_per_message (config g)) c) ->
  (Z.of_nat (size m) <= Z.max 1 (incomplete_capacity (config g)))%Z ->
  gelf_inv (with_indexes g m n a).
Proof. intros. by constructor. Qed.

Lemma gc_overflow_inv g : gelf_inv g -> gelf_inv (gc_overflow g).
Proof.
  intros Hg. unfold gc_overflow. destruct (over_capacity g); [|done].
  apply gelf_inv_with_indexes.
  - apply bt_wf_nil.
  - apply linked_empty.
  - apply gi_counter, Hg.
  - done.
  - intros id c ts Hc. by rewrite lookup_empty in Hc.
  - rewrite map_size_empty. lia.
Qed.

(** After the capacity check there is room for one more message. *)
Lemma gc_overflow_room g :
  (Z.of_nat (size (pending (gc_overflow g))) < Z.max 1 (incomplete_capacity (config g)))%Z.
Proof.
  unfold gc_overflow, over_capacity. destruct (_ <=? _)%Z eqn:E; bool_to_prop.
  - simpl. rewrite map_size_empty. lia.
  - lia.
Qed.

Lemma elem_of_unlink_by_arrival l a kv : kv ∈ unlink_by_arrival l a -> kv ∈ a.
Proof.
  revert a. induction l as [|kv' l IH]; intros a; simpl; [done|].
  intros Hin%IH. by apply elem_of_bt_remove in Hin.
Qed.

Lemma unlink_range_wf g since :
  gelf_inv g ->
  let l := bt_range_to since (arrivals g) in
  bt_wf (unlink_by_arrival l (arrivals g))
  /\ linked (unlink_by_id l (pending g)) (unlink_by_arrival l (arrivals g)).
Proof.
  intros Hg l. apply unlink_linked; [apply Hg..| |].
  - apply bt_keys_NoDup. unfold l, bt_range_to. apply bt_wf_filter, Hg.
  - by intros kv [Hin _]%elem_of_bt_range_to.
Qed.

Lemma lookup_gc_expire g since id :
  gelf_inv g ->
  pending (gc_expire since g) !! id =
    match pending g !! id with
    | Some (c, ts) => if key_ltb ts since then None else Some (c, ts)
    | None => None
    end.
Proof. intros Hg. apply lookup_unlink_range; apply Hg. Qed.

Lemma gc_expire_sub g since : gelf_inv g -> pending (gc_expire since g) ⊆ pending g.
Proof.
  intros Hg. apply map_subseteq_spec. intros id x.
  rewrite lookup_gc_expire by done. destruct (pending g !! id) as [[c ts]|]; [|done].
  by destruct (key_ltb ts since).
Qed.

Lemma gc_expire_inv g since : gelf_inv g -> gelf_inv (gc_expire since g).
Proof.
  intros Hg. destruct (unlink_range_wf g since Hg) as [Hwf Hl].
  pose proof (gc_expire_sub g since Hg) as Hsub.
  apply gelf_inv_with_indexes; [done|done|..].
  - apply gi_counter, Hg.
  - intros ts id Hget. apply (gi_fresh g Hg ts id).
    apply bt_get_elem in Hget; [|done]. apply bt_get_elem; [apply Hg|].
    by eapply elem_of_unlink_by_arrival.
  - intros id c ts Hc. apply (gi_chunks g Hg id c ts).
    rewrite map_subseteq_spec in Hsub. by apply Hsub.
  - etrans; [|apply (gi_size g Hg)].
    apply Nat2Z.inj_le. by apply map_subseteq_size.
Qed.

(** The first chunk of a new message. *)
Lemma chunks_inv_new max total s b :
  (2 <= total <= max)%Z -> (0 <= s < total)%Z ->
  chunks_inv max (Chunks_new total (mkChunk s b)).
Proof.
  intros Ht Hs. constructor; simpl.
  { done. }
  { apply (bt_wf_insert s b []), bt_wf_nil. }
  { lia. }
  intros k b' Hget. destruct (decide (k = s)) as [->|Hne]; [done|].
  change (bt_get k (bt_insert s b []) = Some b') in Hget.
  rewrite bt_get_insert_ne in Hget; [done|apply bt_wf_nil|done].
Qed.

(** A further chunk that does not complete the message. *)
Lemma chunks_inv_insert max c s b :
  chunks_inv max c -> (0 <= s < expected_total c)%Z ->
  Chunks_is_complete (Chunks_insert (mkChunk s b) c) = false ->
  chunks_inv max (Chunks_insert (mkChunk s b) c).
Proof.
  intros [Ht Hwf Hinc Hr] Hs Hcomplete. unfold Chunks_is_complete in Hcomplete.
  simpl in Hcomplete. bool_to_prop.
  constructor; simpl; [done|auto with sqelf|..].
  - destruct (bt_get s (inner c)) eqn:E.
    + by rewrite (length_bt_insert_Some _ _ _ _ E).
    + rewrite (length_bt_insert_None _ _ _ E) in Hcomplete |- *. lia.
  - intros k b' Hget. destruct (decide (k = s)) as [->|Hne]; [done|].
    rewrite bt_get_insert_ne in Hget by done. eauto.
Qed.
End Preservation.

(** ** [push], [chunked] and [decode] as functions of the state *)

Section DecodeEq.
Context `{Profile} `{BytesApi}.

Lemma push_eq now_ts h c g gl :
  push now_ts h c (mkRx g gl) =
    match pending g !! header_id h with
    | None =>
        match duration_since now_ts UNIX_EPOCH with
        | Ok d =>
            (Ok None,
             mkRx (with_indexes g
                     (<[header_id h := (Chunks_new (seq_count h) c, (d, next_stamp g))]>
                        (pending g))
                     (wrapping_add u64_modulus (next_stamp g) 1)
                     (bt_insert (d, next_stamp g) (header_id h) (arrivals g))) gl)
        | Err e => (Err e, mkRx g gl)
        | Panic w => (Panic w, mkRx g gl)
        end
    | Some (chunks, arrival) =>
        if negb (expected_total chunks =? seq_count h)%Z then
          (Err (Bail "chunk expected total {} is not consistent with previous value {}"
                  [ANum (seq_count h); ANum (expected_total chunks)]), mkRx g gl)
        else if Chunks_is_complete (Chunks_insert c chunks) then
          (Ok (Message_chunked (bt_values (inner (Chunks_insert c chunks)))),
           mkRx (with_indexes g (delete (header_id h) (pending g)) (next_stamp g)
                   (bt_remove arrival (arrivals g)))
             (increment GReceive "msg_chunked" gl))
        else
          (Ok None,
           mkRx (with_indexes g
                   (<[header_id h := (Chunks_insert c chunks, arrival)]> (pending g))
                   (next_stamp g) (arrivals g)) gl)
    end.
Proof.
  destruct g as [cfg [m] [n a]]. unfold push, m_bind at 1, get_gelf. cbn [rx_gelf].
  cbn [by_id by_arrival by_id_chunks by_arrival_chunks counter].
  destruct (m !! header_id h) as [[chunks arrival]|] eqn:E.
  - destruct (negb _); [done|].
    unfold m_bind at 1, modify_by_id at 1, m_modify at 1. cbn.
    destruct (Chunks_is_complete _); [|done]. cbn.
    unfold m_bind, modify_by_id, modify_by_arrival, increment_receive, m_modify, m_ret.
    cbn. unfold with_indexes. cbn. by rewrite delete_insert_eq.
  - unfold on_by_arrival, m_zoom, ByArrival_ts, m_bind, m_lift.
    by destruct (duration_since now_ts UNIX_EPOCH).
Qed.

(** [chunked] once [gc] has run. *)
Definition dispatch (now_ts : SystemTime) (src : Bytes) : M Rx (option Message) := fun s =>
  match ChunkHeader_get src with
  | (Ok h, payload) =>
      if (seq_num h =? 0)%Z && (seq_count h =? 1)%Z then
        (Message_single (detect_bytes payload) payload, s)
      else if (max_chunks_per_message (config (rx_gelf s)) <? seq_count h)%Z then
        (Err (Bail "message expects {} chunks but the max allowed is {}"
                [ANum (seq_count h); ANum (max_chunks_per_message (config (rx_gelf s)))]), s)
      else push now_ts h (mkChunk (seq_num h) payload) s
  | (Err e, _) => (Err e, s)
  | (Panic w, _) => (Panic w, s)
  end.

Lemma chunked_eq now_gc now_ts src g gl :
  chunked now_gc now_ts src (mkRx g gl) =
    match gc_since now_gc g with
    | Ok since =>
        dispatch now_ts src (mkRx (gc_expire since (gc_overflow g)) (gc_globals g gl))
    | Err e => (Err e, mkRx (gc_overflow g) (gc_globals g gl))
    | Panic w => (Panic w, mkRx (gc_overflow g) (gc_globals g gl))
    end.
Proof.
  unfold chunked, m_bind at 1. rewrite gc_eq.
  destruct (gc_since now_gc g) as [since|e|w]; [|done..].
  unfold dispatch. destruct (ChunkHeader_get src) as [[h|e|w] payload]; [|done..].
  unfold m_bind, m_lift, get_gelf. cbn [rx_gelf].
  destruct (_ && _); [done|]. by destruct (_ <? _)%Z.
Qed.

Lemma decode_eq now_gc now_ts src g gl :
  decode now_gc now_ts src (mkRx g gl) =
    if decide (peek_magic_bytes src = Some MAGIC_CHUNKED)
    then chunked now_gc now_ts src (mkRx g (increment GReceive "chunk" gl))
    else (Message_single (detect_bytes src) src,
          mkRx g (increment GReceive "msg_unchunked" gl)).
Proof. unfold decode. by case_decide. Qed.

(** ** The invariant is preserved *)

Lemma push_inv now_ts h c g gl :
  gelf_inv g -> (next_stamp g < u64_modulus - 1)%Z ->
  (Z.of_nat (size (pending g)) < Z.max 1 (incomplete_capacity (config g)))%Z ->
  (2 <= seq_count h <= max_chunks_per_message (config g))%Z ->
  (0 <= seq c < seq_count h)%Z ->
  gelf_inv (rx_gelf (push now_ts h c (mkRx g gl)).2).
Proof.
  intros Hg Hstamp Hroom Htotal Hseq. destruct c as [s b]. simpl in Hseq.
  pose proof (gi_counter g Hg) as Hcounter. rewrite push_eq.
  destruct (pending g !! header_id h) as [[chunks arrival]|] eqn:E.
  - pose proof (gi_chunks g Hg _ _ _ E) as Hchunks.
    destruct (negb _) eqn:Hsame; [done|]. bool_to_prop.
    destruct (Chunks_is_complete _) eqn:Hcomplete; simpl.
    + apply gelf_inv_with_indexes.
      * apply bt_wf_remove, Hg.
      * eapply linked_delete; [apply Hg..|done].
      * done.
      * intros ts id Hget. apply (gi_fresh g Hg ts id).
        apply bt_get_elem in Hget; [|apply bt_wf_remove, Hg].
        apply bt_get_elem; [apply Hg|]. by eapply elem_of_bt_remove.
      * intros id c ts [_ Hc]%lookup_delete_Some. by apply (gi_chunks g Hg id c ts).
      * rewrite map_size_delete, E. simpl. lia.
    + apply gelf_inv_with_indexes.
      * apply Hg.
      * eapply linked_update; [apply Hg|done].
      * done.
      * apply (gi_fresh g Hg).
      * intros id c ts [[<- [= <- <-]]|[_ Hc]]%lookup_insert_Some.
        -- apply chunks_inv_insert; [done|lia|done].
        -- by apply (gi_chunks g Hg id c ts).
      * rewrite map_size_insert, E. simpl. lia.
  - unfold duration_since. destruct (_ <=? _)%Z; [|done]. simpl.
    assert (Hfresh : bt_get ((now_ts - UNIX_EPOCH)%Z, next_stamp g) (arrivals g) = None).
    { destruct (bt_get _ _) eqn:Hget; [|done].
      apply (gi_fresh g Hg) in Hget. simpl in Hget. lia. }
    assert (Hnext : wrapping_add u64_modulus (next_stamp g) 1 = (next_stamp g + 1)%Z).
    { unfold wrapping_add. apply Z.mod_small. lia. }
    rewrite Hnext. apply gelf_inv_with_indexes.
    + apply bt_wf_insert, Hg.
    + apply linked_insert; [apply Hg..|done|done].
    + lia.
    + intros ts id Hget. apply bt_get_elem in Hget; [|apply bt_wf_insert, Hg].
      apply elem_of_bt_insert in Hget as [[= -> ->]|Hin]; simpl; [lia|].
      apply bt_get_elem in Hin; [|apply Hg]. pose proof (gi_fresh g Hg ts id Hin). lia.
    + intros id c ts [[<- [= <- <-]]|[_ Hc]]%lookup_insert_Some.
      * by apply chunks_inv_new.
      * by apply (gi_chunks g Hg id c ts).
    + rewrite map_size_insert, E. simpl. lia.
Qed.
End DecodeEq.

Section DecodeInv.
Context `{Profile} `{BytesApi}.

(** [push] allocates at most one stamp and keeps the configuration. *)
Lemma push_frame now_ts h c g gl :
  (0 <= next_stamp g < u64_modulus)%Z ->
  let g' := rx_gelf (push now_ts h c (mkRx g gl)).2 in
  config g' = config g
  /\ (next_stamp g' = next_stamp g \/ next_stamp g' = wrapping_add u64_modulus (next_stamp g) 1).
Proof.
  intros Hn. rewrite push_eq. destruct (pending g !! header_id h) as [[chunks arrival]|].
  - destruct (negb _); [auto|]. destruct (Chunks_is_complete _); simpl; auto.
  - destruct (duration_since _ _); simpl; auto.
Qed.

Lemma gc_overflow_frame g :
  config (gc_overflow g) = config g /\ next_stamp (gc_overflow g) = next_stamp g.
Proof. unfold gc_overflow. by destruct (over_capacity g). Qed.

Lemma gc_room g since :
  gelf_inv g ->
  (Z.of_nat (size (pending (gc_expire since (gc_overflow g))))
     < Z.max 1 (incomplete_capacity (config g)))%Z.
Proof.
  intros Hg. pose proof (gc_overflow_room g) as Hroom.
  pose proof (gc_expire_sub _ since (gc_overflow_inv g Hg)) as Hsub.
  apply map_subseteq_size in Hsub. lia.
Qed.

Lemma decode_step now_gc now_ts src g gl :
  gelf_inv g -> (next_stamp g < u64_modulus - 1)%Z ->
  let g' := rx_gelf (decode now_gc now_ts src (mkRx g gl)).2 in
  gelf_inv g' /\ config g' = config g /\ (next_stamp g' <= next_stamp g + 1)%Z.
Proof.
  intros Hg Hstamp. cbv zeta. rewrite decode_eq. case_decide; [|simpl; auto with lia].
  rewrite chunked_eq. pose proof (gc_overflow_inv g Hg) as Hg1.
  destruct (gc_overflow_frame g) as [Hcfg Hnext].
  destruct (gc_since now_gc g) as [since|e|w];
    [|simpl; rewrite Hnext; auto with lia..].
  pose proof (gc_expire_inv _ since Hg1) as Hg2. pose proof (gc_room g since Hg) as Hroom.
  assert (Hcfg2 : config (gc_expire since (gc_overflow g)) = config g) by done.
  assert (Hnext2 : next_stamp (gc_expire since (gc_overflow g)) = next_stamp g) by done.
  revert Hg2 Hroom Hcfg2 Hnext2. generalize (gc_expire since (gc_overflow g)) as g2.
  intros g2 Hg2 Hroom Hcfg2 Hnext2. unfold dispatch.
  destruct (ChunkHeader_get src) as [[h|e|w] payload] eqn:Hh;
    [|simpl; rewrite Hnext2; auto with lia..].
  apply ChunkHeader_get_range in Hh as (_ & Hseq & _).
  destruct (_ && _) eqn:Hsingle; [simpl; rewrite Hnext2; auto with lia|].
  cbn [rx_gelf]. destruct (_ <? _)%Z eqn:Hmax; [simpl; rewrite Hnext2; auto with lia|].
  bool_to_prop. apply andb_false_iff in Hsingle.
  rewrite !Z.eqb_neq in Hsingle.
  destruct (push_frame now_ts h (mkChunk (seq_num h) payload) g2
    (gc_globals g (increment GReceive "chunk" gl))) as [Hc Hn]; [apply Hg2|].
  split; [|split].
  - apply push_inv; [done|lia|by rewrite Hcfg2|lia|simpl; lia].
  - by rewrite Hc.
  - destruct Hn as [->| ->]; [lia|]. unfold wrapping_add. rewrite Hnext2.
    pose proof (gi_counter g Hg). rewrite Z.mod_small by lia. lia.
Qed.

(** An error leaves what garbage collection leaves. *)
Lemma gc_kept since g :
  gelf_inv g ->
  let g' := gc_expire since (gc_overflow g) in
  gelf_inv g' /\ next_stamp g' = next_stamp g /\ pending g' ⊆ pending g.
Proof.
  intros Hg g'. pose proof (gc_overflow_inv g Hg) as Hg1.
  split; [by apply gc_expire_inv|]. split; [apply gc_overflow_frame|].
  etrans; [by apply gc_expire_sub|]. unfold gc_overflow.
  destruct (over_capacity g); [apply map_empty_subseteq|done].
Qed.

Lemma gc_overflow_kept g :
  gelf_inv g ->
  gelf_inv (gc_overflow g) /\ next_stamp (gc_overflow g) = next_stamp g
  /\ pending (gc_overflow g) ⊆ pending g.
Proof.
  intros Hg. split; [by apply gc_overflow_inv|]. split; [apply gc_overflow_frame|].
  unfold gc_overflow. destruct (over_capacity g); [apply map_empty_subseteq|done].
Qed.

Lemma push_err now_ts h c g gl e :
  (push now_ts h c (mkRx g gl)).1 = Err e -> rx_gelf (push now_ts h c (mkRx g gl)).2 = g.
Proof.
  rewrite push_eq. destruct (pending g !! header_id h) as [[chunks arrival]|].
  - destruct (negb _); [done|]. destruct (Chunks_is_complete _); [|done].
    unfold Message_chunked. by destruct (_ =? _)%nat.
  - by destruct (duration_since _ _).
Qed.

Lemma decode_err_kept now_gc now_ts src g gl e :
  gelf_inv g -> (decode now_gc now_ts src (mkRx g gl)).1 = Err e ->
  let g' := rx_gelf (decode now_gc now_ts src (mkRx g gl)).2 in
  gelf_inv g' /\ next_stamp g' = next_stamp g /\ pending g' ⊆ pending g.
Proof.
  intros Hg. cbv zeta. rewrite decode_eq. case_decide; [|done].
  rewrite chunked_eq. destruct (gc_since now_gc g) as [since|e'|w];
    [|intros _; by apply gc_overflow_kept..].
  pose proof (gc_kept since g Hg) as Hk. cbv zeta in Hk. unfold dispatch.
  destruct (ChunkHeader_get src) as [[h|e'|w] payload]; [|intros _; exact Hk..].
  destruct (_ && _); [intros _; exact Hk|]. destruct (_ <? _)%Z; [intros _; exact Hk|].
  intros Hp. by rewrite (push_err _ _ _ _ _ _ Hp).
Qed.

(** ** Reachable receivers *)

(** A datagram with the clock readings its [decode] makes. *)
Record datagram := mkDatagram { dg_gc : SystemTime; dg_ts : SystemTime; dg_src : Bytes }.

(** The receiver run over datagrams: the results, in order, and the end state. *)
Fixpoint decode_all (evs : list datagram) (s : Rx) : list (res (option Message)) * Rx :=
  match evs with
  | [] => ([], s)
  | ev :: evs' =>
      let '(r, s') := decode (dg_gc ev) (dg_ts ev) (dg_src ev) s in
      let '(rs, s'') := decode_all evs' s' in
      (r :: rs, s'')
  end.

Lemma decode_all_app evs1 evs2 s :
  decode_all (evs1 ++ evs2) s =
    let '(rs1, s1) := decode_all evs1 s in
    let '(rs2, s2) := decode_all evs2 s1 in
    (rs1 ++ rs2, s2).
Proof.
  revert s. induction evs1 as [|ev evs1 IH]; intros s; simpl.
  - by destruct (decode_all evs2 s).
  - destruct (decode _ _ _ s) as [r s1]. rewrite IH.
    destruct (decode_all evs1 s1) as [rs1 s2]. by destruct (decode_all evs2 s2).
Qed.

Lemma decode_all_step evs g gl :
  gelf_inv g -> (next_stamp g + Z.of_nat (length evs) < u64_modulus)%Z ->
  let g' := rx_gelf (decode_all evs (mkRx g gl)).2 in
  gelf_inv g' /\ config g' = config g
  /\ (next_stamp g' <= next_stamp g + Z.of_nat (length evs))%Z.
Proof.
  revert g gl. induction evs as [|ev evs IH]; intros g gl Hg Hn; simpl in *.
  - auto with lia.
  - destruct (decode_step (dg_gc ev) (dg_ts ev) (dg_src ev) g gl) as (Hg1 & Hc1 & Hn1);
      [done|lia|].
    destruct (decode _ _ _ _) as [r [g1 gl1]]. simpl in Hg1, Hc1, Hn1.
    destruct (IH g1 gl1) as (Hg2 & Hc2 & Hn2); [done|lia|].
    destruct (decode_all evs _) as [rs s2]. simpl in *.
    split; [done|]. split; [congruence|lia].
Qed.
End DecodeInv.
