(* ===== verification/Reassembly.v ===== *)
(** What the receiver promises: an abstract reassembler with one table of
    incomplete messages, the refinement of it by the two-index receiver, and
    the end-to-end reassembly of a chunked message. *)

From S2P Require Import Prelude BTree Diagnostics Io Message Gelf GelfInv.

(** ** The specification *)

Module Spec.
(** An incomplete message: the parts received so far, by sequence number. *)
Record Pending := mkPending {
  p_total : Z;
  p_parts : gmap Z Bytes;
  p_arrived : UniqueTimestamp
}.

(** The incomplete messages by id, and the next arrival number. *)
Record State := mkState { table : gmap Z Pending; next : Z }.

(** The parts in sequence order. *)
Definition in_order (total : Z) (parts : gmap Z Bytes) : list Bytes :=
  omap (fun i => parts !! i) (seqZ 0 total).

Definition add_part (s : Z) (b : Bytes) (p : Pending) : Pending :=
  mkPending (p_total p) (<[s := b]> (p_parts p)) (p_arrived p).

Definition complete (p : Pending) : bool :=
  (p_total p =? Z.of_nat (size (p_parts p)))%Z.

(** A datagram that is not a chunk: nothing when empty, itself otherwise. *)
Definition whole (src : Bytes) : option Message :=
  if decide (src = []) then None else Some (mkMessage (Single (detect_bytes src) src)).

(** Everything is dropped at capacity; then what arrived before the timeout. *)
Definition at_capacity (cfg : Config) (t : gmap Z Pending) : gmap Z Pending :=
  if (incomplete_capacity cfg <=? Z.of_nat (size t))%Z then ∅ else t.
Definition expire (since : UniqueTimestamp) (t : gmap Z Pending) : gmap Z Pending :=
  filter (fun kv => key_ltb (p_arrived kv.2) since = false) t.

(** A chunk that belongs to a message of several chunks. *)
Definition accept (now_ts : SystemTime) (h : ChunkHeader) (b : Bytes) (s : State) :
    res (option Message) * State :=
  match table s !! header_id h with
  | None =>
      match duration_since now_ts UNIX_EPOCH with
      | Ok d =>
          (Ok None,
           mkState (<[header_id h := mkPending (seq_count h) {[seq_num h := b]}
                                       (d, next s)]> (table s))
             (wrapping_add u64_modulus (next s) 1))
      | Err e => (Err e, s)
      | Panic w => (Panic w, s)
      end
  | Some p =>
      if (p_total p =? seq_count h)%Z then
        let p := add_part (seq_num h) b p in
        if complete p
        then (Ok (Some (mkMessage (Chunked (in_order (p_total p) (p_parts p))))),
              mkState (delete (header_id h) (table s)) (next s))
        else (Ok None, mkState (<[header_id h := p]> (table s)) (next s))
      else
        (Err (Bail "chunk expected total {} is not consistent with previous value {}"
                [ANum (seq_count h); ANum (p_total p)]), s)
  end.

Section Decode.
Context `{Profile} `{BytesApi}.

Definition decode_chunk (cfg : Config) (now_ts : SystemTime) (src : Bytes) (s : State) :
    res (option Message) * State :=
  match ChunkHeader_get src with
  | (Ok h, payload) =>
      if (seq_count h =? 1)%Z then (Ok (whole payload), s)
      else if (max_chunks_per_message cfg <? seq_count h)%Z then
        (Err (Bail "message expects {} chunks but the max allowed is {}"
                [ANum (seq_count h); ANum (max_chunks_per_message cfg)]), s)
      else accept now_ts h payload s
  | (Err e, _) => (Err e, s)
  | (Panic w, _) => (Panic w, s)
  end.

Definition decode (cfg : Config) (now_gc now_ts : SystemTime) (src : Bytes) (s : State) :
    res (option Message) * State :=
  if decide (peek_magic_bytes src = Some MAGIC_CHUNKED) then
    let t := at_capacity cfg (table s) in
    match UniqueTimestamp_since now_gc (Duration_from_millis (incomplete_timeout_ms cfg)) with
    | Ok since => decode_chunk cfg now_ts src (mkState (expire since t) (next s))
    | Err e => (Err e, mkState t (next s))
    | Panic w => (Panic w, mkState t (next s))
    end
  else (Ok (whole src), s).
End Decode.
End Spec.

(** ** The abstraction function *)

Section Abstraction.
Definition abs_pending (x : Chunks * UniqueTimestamp) : Spec.Pending :=
  Spec.mkPending (expected_total x.1) (list_to_map (inner x.1)) x.2.

(** The specification state a receiver stands for. *)
Definition abs (g : Gelf) : Spec.State :=
  Spec.mkState (abs_pending <$> pending g) (next_stamp g).

Lemma lookup_list_to_map_bt (m : BTreeMap Z Bytes) k :
  bt_wf m -> (list_to_map m : gmap Z Bytes) !! k = bt_get k m.
Proof.
  intros Hwf. destruct (bt_get k m) as [v|] eqn:E.
  - apply elem_of_list_to_map; [by apply bt_keys_NoDup|]. by apply bt_get_elem in E.
  - apply not_elem_of_list_to_map. intros ([k' v] & -> & Hin)%list_elem_of_fmap.
    apply bt_get_elem in Hin; [|done]. simpl in *. congruence.
Qed.

Lemma list_to_map_bt_insert (m : BTreeMap Z Bytes) k v :
  bt_wf m ->
  (list_to_map (bt_insert k v m) : gmap Z Bytes) = <[k := v]> (list_to_map m).
Proof.
  intros Hwf. apply map_eq. intros k'.
  rewrite lookup_list_to_map_bt by auto with sqelf.
  destruct (decide (k' = k)) as [->|Hne].
  - by rewrite bt_get_insert_eq, lookup_insert_eq.
  - by rewrite bt_get_insert_ne, lookup_insert_ne, lookup_list_to_map_bt.
Qed.

Lemma size_list_to_map_bt (m : BTreeMap Z Bytes) :
  bt_wf m -> size (list_to_map m : gmap Z Bytes) = length m.
Proof. intros Hwf. apply map_size_list_to_map. by apply bt_keys_NoDup. Qed.
End Abstraction.

(** ** A full set of chunks, in key order *)

Section InOrder.
(** Strictly increasing integers in [lo, hi) are at most [hi - lo]. *)
Lemma bt_length_le (m : BTreeMap Z Bytes) lo hi :
  bt_wf m -> (forall k b, (k, b) ∈ m -> (lo <= k < hi)%Z) ->
  (Z.of_nat (length m) <= Z.max 0 (hi - lo))%Z.
Proof.
  revert lo. induction m as [|[k b] m IH]; intros lo Hwf Hr; [simpl; lia|].
  apply bt_wf_cons in Hwf as [Hwf Hall].
  pose proof (Hr k b ltac:(left)) as Hk.
  enough (Z.of_nat (length m) <= Z.max 0 (hi - (k + 1)))%Z by (simpl; lia).
  apply IH; [done|]. intros k' b' Hin. specialize (Hall _ Hin). simpl in Hall.
  specialize (Hr k' b' ltac:(by right)). bool_to_prop. lia.
Qed.

(** As many of them as the range has are the range. *)
Lemma bt_keys_full (m : BTreeMap Z Bytes) lo :
  bt_wf m -> (forall k b, (k, b) ∈ m -> (lo <= k < lo + Z.of_nat (length m))%Z) ->
  bt_keys m = seqZ lo (Z.of_nat (length m)).
Proof.
  revert lo. induction m as [|[k b] m IH]; intros lo Hwf Hr; [done|].
  apply bt_wf_cons in Hwf as [Hwf Hall].
  assert (Hin : forall k' b', (k', b') ∈ m -> (k + 1 <= k' < lo + Z.of_nat (S (length m)))%Z).
  { intros k' b' Hin. specialize (Hall _ Hin). simpl in Hall.
    specialize (Hr k' b' ltac:(by right)). simpl in Hr. bool_to_prop. lia. }
  pose proof (Hr k b ltac:(left)) as Hk. cbn [length] in Hk |- *.
  pose proof (bt_length_le m (k + 1) _ Hwf Hin) as Hlen.
  assert (k = lo) as -> by lia.
  rewrite seqZ_cons by lia. cbn [bt_keys fmap list_fmap fst]. f_equal.
  rewrite Nat2Z.inj_succ, Z.pred_succ. apply (IH (Z.succ lo)); [done|].
  intros k' b' Hin'. specialize (Hin k' b' Hin'). lia.
Qed.

Lemma omap_keys (f : Z -> option Bytes) (m : BTreeMap Z Bytes) :
  (forall k b, (k, b) ∈ m -> f k = Some b) -> omap f (bt_keys m) = bt_values m.
Proof.
  induction m as [|[k b] m IH]; intros Hget; [done|].
  change (bt_keys ((k, b) :: m)) with (k :: bt_keys m).
  change (bt_values ((k, b) :: m)) with (b :: bt_values m).
  cbn [omap list_omap]. rewrite (Hget k b) by left.
  f_equal. apply IH. intros k' b' Hin. apply Hget. by right.
Qed.

Lemma bt_values_in_order (m : BTreeMap Z Bytes) total :
  bt_wf m -> (forall k b, bt_get k m = Some b -> (0 <= k < total)%Z) ->
  total = Z.of_nat (length m) ->
  bt_values m = Spec.in_order total (list_to_map m).
Proof.
  intros Hwf Hr ->. unfold Spec.in_order. rewrite <- (bt_keys_full m 0); [|done|].
  - symmetry. apply omap_keys. intros k b Hin.
    rewrite lookup_list_to_map_bt by done. by apply bt_get_elem.
  - intros k b Hin. apply bt_get_elem in Hin; [|done]. specialize (Hr _ _ Hin). lia.
Qed.
End InOrder.

(** ** The receiver refines the specification *)

Section Refinement.
Context `{Profile} `{BytesApi}.

Lemma Message_single_whole src :
  Message_single (detect_bytes src) src = Ok (Spec.whole src).
Proof.
  unfold Message_single, Spec.whole. destruct src as [|b src]; [done|].
  rewrite bool_decide_true by done. simpl. by rewrite andb_false_r.
Qed.

Lemma abs_gc_overflow g :
  abs (gc_overflow g) =
    Spec.mkState (Spec.at_capacity (config g) (abs_pending <$> pending g)) (next_stamp g).
Proof.
  unfold gc_overflow, Spec.at_capacity, over_capacity. rewrite map_size_fmap.
  destruct (_ <=? _)%Z; [|done]. unfold abs. simpl. by rewrite fmap_empty.
Qed.

Lemma abs_gc_expire since g :
  gelf_inv g ->
  abs (gc_expire since g) =
    Spec.mkState (Spec.expire since (abs_pending <$> pending g)) (next_stamp g).
Proof.
  intros Hg. unfold abs. f_equal. apply map_eq. intros id.
  rewrite lookup_fmap, lookup_gc_expire by done. unfold Spec.expire.
  rewrite map_lookup_filter, lookup_fmap.
  destruct (pending g !! id) as [[c ts]|]; [|done].
  destruct (key_ltb ts since) eqn:E; cbn [fmap option_fmap option_map mbind option_bind].
  - by rewrite option_guard_False by (change (key_ltb ts since <> false); congruence).
  - by rewrite option_guard_True.
Qed.

Lemma abs_with_insert g id x n a :
  abs (with_indexes g (<[id := x]> (pending g)) n a) =
    Spec.mkState (<[id := abs_pending x]> (Spec.table (abs g))) n.
Proof. unfold abs. simpl. by rewrite fmap_insert. Qed.

Lemma abs_with_delete g id n a :
  abs (with_indexes g (delete id (pending g)) n a) =
    Spec.mkState (delete id (Spec.table (abs g))) n.
Proof. unfold abs. simpl. by rewrite fmap_delete. Qed.

Lemma abs_chunks_insert max s b c ts :
  chunks_inv max c ->
  abs_pending (Chunks_insert (mkChunk s b) c, ts) =
    Spec.add_part s b (abs_pending (c, ts)).
Proof.
  intros Hc. unfold abs_pending, Spec.add_part. simpl.
  by rewrite list_to_map_bt_insert by apply Hc.
Qed.

Lemma complete_abs max s b c ts :
  chunks_inv max c ->
  Spec.complete (abs_pending (Chunks_insert (mkChunk s b) c, ts)) =
    Chunks_is_complete (Chunks_insert (mkChunk s b) c).
Proof.
  intros Hc. unfold Spec.complete, Chunks_is_complete. simpl.
  by rewrite size_list_to_map_bt by apply bt_wf_insert, Hc.
Qed.

(** A completed message is the parts in sequence order. *)
Lemma chunked_in_order max s b c ts :
  chunks_inv max c -> (0 <= s < expected_total c)%Z ->
  Chunks_is_complete (Chunks_insert (mkChunk s b) c) = true ->
  let p := abs_pending (Chunks_insert (mkChunk s b) c, ts) in
  Message_chunked (bt_values (inner (Chunks_insert (mkChunk s b) c))) =
    Some (mkMessage (Chunked (Spec.in_order (Spec.p_total p) (Spec.p_parts p)))).
Proof.
  intros Hc Hs Hcomplete p. pose proof (ci_total _ _ Hc) as Ht.
  unfold Chunks_is_complete in Hcomplete. bool_to_prop.
  assert (Hwf : bt_wf (inner (Chunks_insert (mkChunk s b) c))) by apply bt_wf_insert, Hc.
  unfold p, abs_pending. cbn [fst Spec.p_total Spec.p_parts expected_total Chunks_insert] in *.
  rewrite <- bt_values_in_order; [|done| |done].
  - unfold Message_chunked, bt_values. rewrite length_fmap.
    destruct (Nat.eqb_spec (length (inner (Chunks_insert (mkChunk s b) c))) 0); [|done].
    simpl in *. lia.
  - intros k b' Hget. simpl in Hget. destruct (decide (k = s)) as [->|Hne]; [done|].
    rewrite bt_get_insert_ne in Hget by (try done; apply Hc).
    by apply (ci_range _ _ Hc k b').
Qed.

Lemma push_refines now_ts h b g gl :
  gelf_inv g -> (0 <= seq_num h < seq_count h)%Z ->
  prod_map (fun x => x) (fun s => abs (rx_gelf s))
    (push now_ts h (mkChunk (seq_num h) b) (mkRx g gl))
  = Spec.accept now_ts h b (abs g).
Proof.
  intros Hg Hseq. rewrite push_eq. unfold Spec.accept.
  change (Spec.table (abs g)) with (abs_pending <$> pending g).
  rewrite lookup_fmap.
  destruct (pending g !! header_id h) as [[c arrival]|] eqn:E; simpl option_map.
  - pose proof (gi_chunks g Hg _ _ _ E) as Hc. cbn [fmap option_fmap option_map].
    rewrite <- (abs_chunks_insert _ (seq_num h) b c arrival Hc).
    cbv zeta. rewrite (complete_abs _ (seq_num h) b c arrival Hc).
    change (Spec.p_total (abs_pending (c, arrival))) with (expected_total c).
    destruct (expected_total c =? seq_count h)%Z eqn:Hsame; [|done].
    bool_to_prop. cbn [negb].
    destruct (Chunks_is_complete _) eqn:Hcomplete.
    + rewrite (chunked_in_order _ (seq_num h) b c arrival Hc) by (done || lia).
      unfold prod_map. cbn [fst snd rx_gelf]. by rewrite abs_with_delete.
    + unfold prod_map. cbn [fst snd rx_gelf]. by rewrite abs_with_insert.
  - cbn [fmap option_fmap option_map].
    destruct (duration_since now_ts UNIX_EPOCH) as [d|e|w]; [|done..].
    unfold prod_map. cbn [fst snd rx_gelf]. rewrite abs_with_insert.
    unfold abs_pending. simpl. by rewrite insert_empty.
Qed.

Lemma decode_refines now_gc now_ts src g gl :
  gelf_inv g ->
  prod_map (fun x => x) (fun s => abs (rx_gelf s))
    (decode now_gc now_ts src (mkRx g gl))
  = Spec.decode (config g) now_gc now_ts src (abs g).
Proof.
  intros Hg. rewrite decode_eq. unfold Spec.decode.
  case_decide; [|by rewrite Message_single_whole].
  rewrite chunked_eq. unfold gc_since. cbv zeta.
  change (Spec.table (abs g)) with (abs_pending <$> pending g).
  change (Spec.next (abs g)) with (next_stamp g).
  destruct (UniqueTimestamp_since _ _) as [since|e|w];
    [|by unfold prod_map; cbn [fst snd rx_gelf]; rewrite abs_gc_overflow..].
  pose proof (gc_overflow_inv g Hg) as Hg1.
  destruct (gc_overflow_frame g) as [Hcfg Hnext].
  pose proof (abs_gc_expire since _ Hg1) as Habs.
  pose proof (abs_gc_overflow g) as Habs1. unfold abs in Habs1 at 1.
  injection Habs1 as Htable _. rewrite Htable, Hnext in Habs.
  pose proof (gc_expire_inv _ since Hg1) as Hg2.
  assert (Hcfg2 : config (gc_expire since (gc_overflow g)) = config g) by done.
  rewrite <- Habs. revert Hg2 Hcfg2.
  generalize (gc_expire since (gc_overflow g)) as g2. intros g2 Hg2 Hcfg2.
  unfold dispatch, Spec.decode_chunk. cbn [rx_gelf]. rewrite Hcfg2.
  destruct (ChunkHeader_get src) as [[h|e|w] payload] eqn:Hh; [|done..].
  apply ChunkHeader_get_range in Hh as (_ & Hseq & _).
  assert (Hs : (seq_num h =? 0)%Z && (seq_count h =? 1)%Z = (seq_count h =? 1)%Z).
  { destruct (Z.eqb_spec (seq_count h) 1); [|by rewrite andb_false_r].
    by replace (seq_num h) with 0%Z by lia. }
  rewrite Hs. destruct (seq_count h =? 1)%Z; [by rewrite Message_single_whole|].
  destruct (_ <? _)%Z; [done|]. by apply push_refines.
Qed.
End Refinement.

(** ** Runs *)

Section Runs.
Context `{Profile} `{BytesApi}.

(** The specification run over datagrams. *)
Fixpoint spec_decode_all (cfg : Config) (dgs : list datagram) (s : Spec.State) :
    list (res (option Message)) * Spec.State :=
  match dgs with
  | [] => ([], s)
  | dg :: dgs' =>
      let '(r, s') := Spec.decode cfg (dg_gc dg) (dg_ts dg) (dg_src dg) s in
      let '(rs, s'') := spec_decode_all cfg dgs' s' in
      (r :: rs, s'')
  end.

Lemma decode_all_refines dgs g gl :
  gelf_inv g -> (next_stamp g + Z.of_nat (length dgs) < u64_modulus)%Z ->
  prod_map (fun x => x) (fun s => abs (rx_gelf s)) (decode_all dgs (mkRx g gl))
  = spec_decode_all (config g) dgs (abs g).
Proof.
  revert g gl. induction dgs as [|dg dgs IH]; intros g gl Hg Hn; [done|].
  cbn [length] in Hn. cbn [decode_all spec_decode_all].
  rewrite <- (decode_refines (dg_gc dg) (dg_ts dg) (dg_src dg) g gl Hg).
  destruct (decode_step (dg_gc dg) (dg_ts dg) (dg_src dg) g gl) as (Hg1 & Hc1 & Hn1);
    [done|lia|].
  destruct (decode _ _ _ _) as [r [g1 gl1]]. cbn [fst snd rx_gelf prod_map] in *.
  rewrite <- Hc1, <- (IH g1 gl1) by (done || lia).
  by destruct (decode_all dgs _).
Qed.
End Runs.

(** The clock reading of garbage collection, when it is past the timeout. *)
Lemma gc_since_ok cfg now_gc :
  let timeout := Duration_from_millis (incomplete_timeout_ms cfg) in
  (timeout <= now_gc)%Z ->
  UniqueTimestamp_since now_gc timeout = Ok ((now_gc - timeout)%Z, 0%Z).
Proof.
  intros timeout Hgc. unfold UniqueTimestamp_since, systime_sub, duration_since, UNIX_EPOCH.
  replace (systime_min <=? _)%Z with true.
  2:{ symmetry. apply Z.leb_le. unfold systime_min, nanos_per_sec. lia. }
  replace (0 <=? _)%Z with true by (symmetry; apply Z.leb_le; lia).
  cbn [fmap res_fmap]. by rewrite Z.sub_0_r.
Qed.

(** ** Reassembly of one message among other traffic *)

Section Interleaving.
Context `{Profile} `{BytesApi}.

(** Traffic as seen by the message [id]: one of its chunks, or a datagram
    that is no chunk of it. *)
Inductive traffic :=
| Own (now_gc now_ts : SystemTime) (i : Z)
| Other (dg : datagram).

Context (cfg : Config) (id : Z) (parts : list Bytes).
Let total : Z := Z.of_nat (length parts).

Definition part (i : Z) : Bytes := default [] (parts !! Z.to_nat i).

Definition datagram_of (t : traffic) : datagram :=
  match t with
  | Own now_gc now_ts i => mkDatagram now_gc now_ts (chunk id i total (part i))
  | Other dg => dg
  end.

(** The sequence numbers of the message, in order of arrival. *)
Definition own_indices (ts : list traffic) : list Z :=
  omap (fun t => match t with Own _ _ i => Some i | Other _ => None end) ts.

(** The results of the message's own datagrams. *)
Definition own_results {A} (ts : list traffic) (rs : list A) : list A :=
  omap (fun tr => match tr.1 with Own _ _ _ => Some tr.2 | Other _ => None end) (zip ts rs).

(** Not a chunk of the message. *)
Definition unrelated (src : Bytes) : Prop :=
  peek_magic_bytes src = Some MAGIC_CHUNKED ->
  forall h payload, ChunkHeader_get src = (Ok h, payload) -> header_id h <> id.

Let timeout : Duration := Duration_from_millis (incomplete_timeout_ms cfg).

(** Every datagram is handled while nothing that arrived after [t0] has
    timed out, and chunks of the message arrive at [t0] or later. *)
Definition timely (t0 : SystemTime) (t : traffic) : Prop :=
  let dg := datagram_of t in
  (timeout <= dg_gc dg <= t0 + timeout)%Z
  /\ match t with Own _ _ _ => (t0 <= dg_ts dg)%Z | Other dg => unrelated (dg_src dg) end.

(** What the table holds for the message once [P] has arrived. *)
Definition holds (t0 : SystemTime) (s : Spec.State) (P : gmap Z Bytes) : Prop :=
  if decide (P = ∅) then Spec.table s !! id = None
  else exists arrived, (t0 <= arrived.1)%Z /\ (0 <= arrived.2)%Z
       /\ Spec.table s !! id = Some (Spec.mkPending total P arrived).

Lemma stamp_not_before since (arrived : UniqueTimestamp) :
  (since <= arrived.1)%Z -> (0 <= arrived.2)%Z -> key_ltb arrived (since, 0%Z) = false.
Proof.
  intros Ha Hb. apply not_true_is_false. intros Hlt%pair_ltb_spec. simpl in Hlt.
  destruct Hlt as [Hlt|[_ Hlt]]; bool_to_prop; unfold Duration in *; lia.
Qed.

(** Below capacity and in time, garbage collection spares the message. *)
Lemma holds_gc t0 since s P n :
  (since <= t0)%Z -> (Z.of_nat (size (Spec.table s)) < incomplete_capacity cfg)%Z ->
  holds t0 s P ->
  holds t0 (Spec.mkState (Spec.expire (since, 0%Z) (Spec.at_capacity cfg (Spec.table s))) n) P.
Proof.
  intros Hsince Hcap. unfold holds, Spec.at_capacity, Spec.expire.
  replace (incomplete_capacity cfg <=? _)%Z with false by (symmetry; apply Z.leb_gt; lia).
  cbn [Spec.table]. rewrite map_lookup_filter. case_decide.
  - by intros ->.
  - intros (arrived & Ha & Hb & ->). exists arrived. split; [done|]. split; [done|].
    cbn [mbind option_bind]. rewrite option_guard_True; [done|].
    apply stamp_not_before; [simpl in *; unfold Duration in *; lia|done].
Qed.

Lemma size_gc since s :
  (size (Spec.expire since (Spec.at_capacity cfg (Spec.table s))) <= size (Spec.table s))%nat.
Proof.
  etrans; [apply map_subseteq_size, map_filter_subseteq|].
  unfold Spec.at_capacity. destruct (_ <=? _)%Z; [|done]. rewrite map_size_empty. lia.
Qed.

(** *** One step *)

Lemma accept_size now_ts h b s :
  (size (Spec.table (Spec.accept now_ts h b s).2) <= S (size (Spec.table s)))%nat.
Proof.
  unfold Spec.accept. destruct (Spec.table s !! header_id h) as [p|] eqn:E.
  - destruct (_ =? _)%Z; [|simpl; lia]. destruct (Spec.complete _); simpl.
    + rewrite map_size_delete, E. simpl. lia.
    + rewrite map_size_insert, E. simpl. lia.
  - destruct (duration_since _ _); simpl; [|lia..]. rewrite map_size_insert, E. simpl. lia.
Qed.

Lemma accept_next now_ts h b s :
  (0 <= Spec.next s)%Z -> (0 <= Spec.next (Spec.accept now_ts h b s).2)%Z.
Proof.
  intros Hn. unfold Spec.accept. destruct (Spec.table s !! header_id h) as [p|].
  - destruct (_ =? _)%Z; [|done]. by destruct (Spec.complete _).
  - destruct (duration_since _ _); [|done..]. simpl. unfold wrapping_add.
    by apply Z.mod_pos_bound.
Qed.

Lemma accept_other now_ts h b s :
  header_id h <> id -> Spec.table (Spec.accept now_ts h b s).2 !! id = Spec.table s !! id.
Proof.
  intros Hne. unfold Spec.accept. destruct (Spec.table s !! header_id h) as [p|].
  - destruct (_ =? _)%Z; [|done]. destruct (Spec.complete _); simpl.
    + by rewrite lookup_delete_ne.
    + by rewrite lookup_insert_ne.
  - destruct (duration_since _ _); [|done..]. simpl. by rewrite lookup_insert_ne.
Qed.

Lemma decode_size now_gc now_ts src s :
  (size (Spec.table (Spec.decode cfg now_gc now_ts src s).2) <= S (size (Spec.table s)))%nat
  /\ ((0 <= Spec.next s)%Z -> (0 <= Spec.next (Spec.decode cfg now_gc now_ts src s).2)%Z).
Proof.
  unfold Spec.decode. case_decide; [|simpl; auto with lia]. cbv zeta.
  assert (Hcap : (size (Spec.at_capacity cfg (Spec.table s)) <= size (Spec.table s))%nat).
  { unfold Spec.at_capacity. destruct (_ <=? _)%Z; [|done]. rewrite map_size_empty. lia. }
  destruct (UniqueTimestamp_since _ _) as [since|e|w]; [|simpl; auto with lia..].
  unfold Spec.decode_chunk. pose proof (size_gc since s) as Hgc.
  destruct (ChunkHeader_get src) as [[h|e|w] payload]; [|simpl; auto with lia..].
  destruct (_ =? 1)%Z; [simpl; auto with lia|]. destruct (_ <? _)%Z; [simpl; auto with lia|].
  split; [|by intros; apply accept_next].
  etrans; [apply accept_size|]. simpl. lia.
Qed.

Lemma decode_unrelated t0 s P dg :
  (0 <= t0)%Z -> (Z.of_nat (size (Spec.table s)) < incomplete_capacity cfg)%Z ->
  timely t0 (Other dg) -> holds t0 s P ->
  holds t0 (Spec.decode cfg (dg_gc dg) (dg_ts dg) (dg_src dg) s).2 P.
Proof.
  intros Ht0 Hcap Ht Hh. unfold Spec.decode. case_decide as Hmagic; [|done]. cbv zeta.
  destruct Ht as [Hgc Hother]. simpl in Hgc. rewrite gc_since_ok by lia. fold timeout.
  apply (holds_gc t0 (dg_gc dg - timeout) s P (Spec.next s)) in Hh; [|lia|done].
  unfold Spec.decode_chunk. simpl.
  destruct (ChunkHeader_get (dg_src dg)) as [[h|e|w] payload] eqn:E; [|done..].
  destruct (_ =? 1)%Z; [done|]. destruct (_ <? _)%Z; [done|].
  revert Hh. unfold holds. rewrite accept_other; [done|]. by eapply Hother.
Qed.

Lemma decode_own t0 s P now_gc now_ts i :
  (0 <= t0)%Z -> (0 <= id < u64_modulus)%Z ->
  (2 <= total <= max_chunks_per_message cfg)%Z -> (total < 256)%Z ->
  (Z.of_nat (size (Spec.table s)) < incomplete_capacity cfg)%Z ->
  timely t0 (Own now_gc now_ts i) -> holds t0 s P -> (0 <= Spec.next s)%Z ->
  (0 <= i < total)%Z ->
  let P' := <[i := part i]> P in
  let '(r, s') := Spec.decode cfg now_gc now_ts (chunk id i total (part i)) s in
  if decide (Z.of_nat (size P') = total)
  then r = Ok (Some (mkMessage (Chunked (Spec.in_order total P')))) /\ holds t0 s' ∅
  else r = Ok None /\ holds t0 s' P'.
Proof.
  intros Ht0 Hid Htotal Hmax Hcap Ht Hh Hnext Hi P'.
  unfold Spec.decode. rewrite decide_True by apply peek_chunk. cbv zeta.
  destruct Ht as [Hgc Hts]. simpl in Hgc, Hts. rewrite gc_since_ok by lia. fold timeout.
  apply (holds_gc t0 (now_gc - timeout) s P (Spec.next s)) in Hh; [|lia|done].
  unfold Spec.decode_chunk. rewrite ChunkHeader_get_chunk by (done || lia).
  cbn [seq_count seq_num header_id].
  replace (total =? 1)%Z with false by (symmetry; apply Z.eqb_neq; lia).
  replace (_ <? total)%Z with false by (symmetry; apply Z.ltb_ge; lia).
  revert Hh. generalize (Spec.expire ((now_gc - timeout)%Z, 0%Z)
    (Spec.at_capacity cfg (Spec.table s))) as t1. intros t1 Hh.
  assert (HP' : P' <> ∅) by apply insert_non_empty.
  unfold Spec.accept. cbn [header_id seq_num seq_count Spec.table Spec.next].
  unfold holds in Hh. cbn [Spec.table] in Hh. case_decide as HPe.
  - rewrite Hh. unfold duration_since, UNIX_EPOCH.
    replace (0 <=? now_ts)%Z with true by (symmetry; apply Z.leb_le; lia).
    unfold P'. rewrite HPe, insert_empty, map_size_singleton.
    rewrite decide_False by lia. split; [done|].
    unfold holds. cbn [Spec.table]. rewrite decide_False by apply map_non_empty_singleton.
    exists ((now_ts - 0)%Z, Spec.next s). simpl. rewrite lookup_insert_eq.
    unfold Duration. repeat split; lia.
  - destruct Hh as (arrived & Ha & Hb & ->). cbn [Spec.p_total].
    rewrite Z.eqb_refl. unfold Spec.complete, Spec.add_part. cbn [Spec.p_total Spec.p_parts].
    fold P'. destruct (Z.eqb_spec total (Z.of_nat (size P'))) as [Heq|Hne].
    + cbv beta iota. rewrite decide_True by done. split; [done|]. unfold holds. simpl.
      apply lookup_delete_eq.
    + cbv beta iota. rewrite decide_False by congruence. split; [done|]. unfold holds.
      rewrite decide_False by done. exists arrived. simpl. by rewrite lookup_insert_eq.
Qed.

(** *** The whole run *)

(** Every part of the message. *)
Definition full : gmap Z Bytes := list_to_map ((fun i => (i, part i)) <$> seqZ 0 total).

Lemma full_keys : ((fun i => (i, part i)) <$> seqZ 0 total).*1 = seqZ 0 total.
Proof. rewrite <- list_fmap_compose. apply list_fmap_id. Qed.

Lemma lookup_full i : (0 <= i < total)%Z -> full !! i = Some (part i).
Proof.
  intros Hi. apply elem_of_list_to_map.
  - rewrite full_keys. apply NoDup_seqZ.
  - apply list_elem_of_fmap. exists i. split; [done|]. apply elem_of_seqZ. lia.
Qed.

Lemma size_full : size full = length parts.
Proof.
  unfold full. rewrite map_size_list_to_map by (rewrite full_keys; apply NoDup_seqZ).
  rewrite length_fmap, length_seqZ. unfold total. lia.
Qed.

Lemma in_order_full : Spec.in_order total full = parts.
Proof.
  unfold Spec.in_order. apply list_eq. intros k.
  assert (Hpart : omap (fun i => full !! i) (seqZ 0 total) = part <$> seqZ 0 total).
  { assert (Hin : forall i, i ∈ seqZ 0 total -> full !! i = Some (part i)).
    { intros i Hi%elem_of_seqZ. apply lookup_full. lia. }
    revert Hin. generalize (seqZ 0 total) as l. induction l as [|i l IH]; intros Hin; [done|].
    cbn [omap list_omap fmap list_fmap]. rewrite Hin by left. f_equal.
    apply IH. intros j Hj. apply Hin. by right. }
  rewrite Hpart, list_lookup_fmap.
  destruct (decide (k < length parts)%nat) as [Hk|Hk].
  - rewrite lookup_seqZ_lt by (unfold total; lia). simpl. unfold part.
    rewrite Z.add_0_l, Nat2Z.id. by destruct (lookup_lt_is_Some_2 _ _ Hk) as [x ->].
  - rewrite lookup_seqZ_ge by (unfold total; lia). symmetry. simpl.
    apply lookup_ge_None. lia.
Qed.

Lemma own_results_nil {A} (ts : list traffic) (rs : list A) :
  own_indices ts = [] -> own_results ts rs = [].
Proof.
  unfold own_indices, own_results. revert rs.
  induction ts as [|[now_gc now_ts i|dg] ts IH]; intros [|r rs] Hown; simpl in *; try done.
  by apply IH.
Qed.

Lemma run_unrelated t0 ts s :
  (0 <= t0)%Z -> own_indices ts = [] -> Forall (timely t0) ts ->
  (Z.of_nat (size (Spec.table s) + length ts) <= incomplete_capacity cfg)%Z ->
  holds t0 s ∅ ->
  Spec.table (spec_decode_all cfg (datagram_of <$> ts) s).2 !! id = None.
Proof.
  intros Ht0. revert s. induction ts as [|[now_gc now_ts i|dg] ts IH];
    intros s Hown Ht Hcap Hh; simpl in *; try done.
  apply Forall_cons in Ht as [Hdg Ht].
  destruct (decode_size (dg_gc dg) (dg_ts dg) (dg_src dg) s) as [Hsize _].
  pose proof (decode_unrelated t0 s ∅ dg Ht0 ltac:(lia) Hdg Hh) as Hh'.
  destruct (Spec.decode cfg (dg_gc dg) (dg_ts dg) (dg_src dg) s) as [r s1].
  simpl in Hsize, Hh'. pose proof (IH s1 Hown Ht ltac:(lia) Hh') as E.
  by destruct (spec_decode_all _ _ s1).
Qed.

(** The chunks that are still to come, with [last] as the one that completes the
    message: the others may come again, in any order, before it. *)
Definition completed_by (P : gmap Z Bytes) (l : list Z) (last : Z) : Prop :=
  exists pre, l = pre ++ [last] /\ (last ∉ pre) /\ P !! last = None /\
    (forall i, i ∈ l -> (0 <= i < total)%Z) /\
    (forall i, (0 <= i < total)%Z -> i ∈ l \/ P !! i = Some (part i)).

Lemma completed_by_full P i last :
  P ⊆ full -> completed_by P [i] last -> <[i := part i]> P = full.
Proof.
  intros Hsub (pre & E & _ & _ & Hr & Hc). apply map_subseteq_po.
  - apply insert_subseteq_l; [|done]. apply lookup_full, Hr. by left.
  - apply map_subseteq_spec. intros j b Hj.
    assert (Hin : (0 <= j < total)%Z /\ b = part j).
    { apply elem_of_list_to_map_2, list_elem_of_fmap in Hj as (j' & [= -> ->] & Hj').
      apply elem_of_seqZ in Hj'. split; [lia|done]. }
    destruct Hin as [Hj' ->]. destruct (decide (j = i)) as [->|Hne]; [apply lookup_insert_eq|].
    rewrite lookup_insert_ne by done. destruct (Hc j Hj') as [Hin|?]; [|done].
    by apply list_elem_of_singleton in Hin.
Qed.

Lemma completed_by_more P i j l last :
  completed_by P (i :: j :: l) last -> completed_by (<[i := part i]> P) (j :: l) last.
Proof.
  intros (pre & E & Hni & HP & Hr & Hc). destruct pre as [|i' pre]; [done|].
  injection E as <- E. apply not_elem_of_cons in Hni as [Hne Hni].
  exists pre. split; [done|]. split; [done|]. split; [by rewrite lookup_insert_ne|]. split.
  - intros k Hk. apply Hr. by right.
  - intros k Hk. destruct (decide (k = i)) as [->|Hki]; [right; apply lookup_insert_eq|].
    rewrite lookup_insert_ne by done. destruct (Hc k Hk) as [Hin|?]; [|by right].
    apply elem_of_cons in Hin as [?|?]; [done|by left].
Qed.

(** Until [last] comes the message is not complete. *)
Lemma completed_by_size P l last :
  P ⊆ full -> completed_by P l last -> (size P < length parts)%nat.
Proof.
  intros Hsub (pre & -> & _ & HP & Hr & _). rewrite <- size_full. apply map_subset_size.
  split; [done|]. intros Hfull. rewrite map_subseteq_spec in Hfull.
  assert (Hl : full !! last = Some (part last)).
  { apply lookup_full, Hr. apply elem_of_app. right. by left. }
  apply Hfull in Hl. congruence.
Qed.

Lemma run_own t0 ts s P last :
  (0 <= t0)%Z -> (0 <= id < u64_modulus)%Z ->
  (2 <= total <= max_chunks_per_message cfg)%Z -> (total < 256)%Z ->
  Forall (timely t0) ts ->
  (Z.of_nat (size (Spec.table s) + length ts) <= incomplete_capacity cfg)%Z ->
  holds t0 s P -> (0 <= Spec.next s)%Z -> P ⊆ full ->
  completed_by P (own_indices ts) last ->
  let '(rs, s') := spec_decode_all cfg (datagram_of <$> ts) s in
  own_results ts rs =
    replicate (length (own_indices ts) - 1) (Ok None)
      ++ [Ok (Some (mkMessage (Chunked parts)))]
  /\ Spec.table s' !! id = None.
Proof.
  intros Ht0 Hid Htotal Hmax. revert s P.
  induction ts as [|t ts IH]; intros s P Ht Hcap Hh Hnext Hsub Hown.
  { destruct Hown as ([|] & ? & _); done. }
  apply Forall_cons in Ht as [Htt Ht]. cbn [fmap list_fmap spec_decode_all length] in *.
  destruct t as [now_gc now_ts i|dg]; cbn [datagram_of dg_gc dg_ts dg_src].
  - change (own_indices (Own now_gc now_ts i :: ts)) with (i :: own_indices ts) in *.
    assert (Hirange : (0 <= i < total)%Z).
    { destruct Hown as (? & _ & _ & _ & Hr & _). apply Hr. by left. }
    pose proof (decode_own t0 s P now_gc now_ts i Ht0 Hid Htotal Hmax ltac:(lia) Htt Hh
      Hnext Hirange) as Hstep. cbv zeta in Hstep.
    destruct (decode_size now_gc now_ts (chunk id i total (part i)) s) as [Hsz Hnx].
    destruct (Spec.decode cfg now_gc now_ts _ s) as [r s1]. cbn [snd] in Hsz, Hnx.
    assert (Hsub' : <[i:=part i]> P ⊆ full).
    { apply insert_subseteq_l; [by apply lookup_full|done]. }
    cbn [length]. rewrite Nat.sub_succ, Nat.sub_0_r.
    destruct (spec_decode_all cfg (datagram_of <$> ts) s1) as [rs s2] eqn:Erun.
    change (own_results (Own now_gc now_ts i :: ts) (r :: rs)) with (r :: own_results ts rs).
    destruct (own_indices ts) as [|j l] eqn:El.
    + pose proof (completed_by_full P i last Hsub Hown) as HP. rewrite HP, size_full in Hstep.
      rewrite decide_True in Hstep by done. destruct Hstep as [-> Hh1].
      rewrite in_order_full, own_results_nil by done. split; [done|].
      pose proof (run_unrelated t0 ts s1 Ht0 El Ht ltac:(lia) Hh1) as E.
      by rewrite Erun in E.
    + apply completed_by_more in Hown.
      pose proof (completed_by_size _ _ _ Hsub' Hown) as Hlt.
      rewrite decide_False in Hstep by (unfold total; lia). destruct Hstep as [-> Hh1].
      specialize (IH s1 _ Ht ltac:(lia) Hh1 (Hnx Hnext) Hsub' Hown). rewrite Erun in IH.
      destruct IH as [Hres Htab]. split; [|done]. rewrite Hres. simpl. by rewrite Nat.sub_0_r.
  - destruct (decode_size (dg_gc dg) (dg_ts dg) (dg_src dg) s) as [Hsz Hnx].
    pose proof (decode_unrelated t0 s P dg Ht0 ltac:(lia) Htt Hh) as Hh1.
    destruct (Spec.decode cfg (dg_gc dg) (dg_ts dg) (dg_src dg) s) as [r s1].
    cbn [snd] in Hsz, Hnx, Hh1.
    specialize (IH s1 P Ht ltac:(lia) Hh1 (Hnx Hnext) Hsub Hown).
    by destruct (spec_decode_all cfg (datagram_of <$> ts) s1) as [rs s2].
Qed.
End Interleaving.

(** The same for the receiver, whatever it has handled before. *)
Section Reassembly.
Context `{Profile} `{BytesApi}.

(** Chunks in any order, some of them perhaps several times: all of the [n]
    chunks come, the last one of them for the first time. *)
Definition every_chunk (n : nat) (l : list Z) : Prop :=
  exists pre last, l = pre ++ [last] /\ (last ∉ pre) /\
    forall i, i ∈ l <-> (0 <= i < Z.of_nat n)%Z.

Lemma every_chunk_permutation n l :
  (0 < n)%nat -> l ≡ₚ seqZ 0 (Z.of_nat n) -> every_chunk n l.
Proof.
  intros Hn Hp. destruct l as [|last pre _] using rev_ind.
  { symmetry in Hp. apply Permutation_nil_r in Hp. apply (f_equal length) in Hp.
    rewrite length_seqZ in Hp. simpl in Hp. lia. }
  exists pre, last. split; [done|]. split.
  - assert (Hnd : NoDup (pre ++ [last])) by (rewrite Hp; apply NoDup_seqZ).
    apply NoDup_app in Hnd as (_ & Hd & _). intros Hin. apply (Hd last Hin). by left.
  - intros i. rewrite Hp, elem_of_seqZ. lia.
Qed.

Lemma every_chunk_completed parts l :
  every_chunk (length parts) l -> exists last, completed_by parts ∅ l last.
Proof.
  intros (pre & last & -> & Hni & Hin). exists last, pre. split; [done|]. split; [done|].
  split; [apply lookup_empty|]. split; [intros i; apply Hin|]. intros i Hi. left. by apply Hin.
Qed.

Lemma reassembly (cfg : Config) (id : Z) (parts : list Bytes)
    (t0 : SystemTime) (gl : Globals) (before : list datagram) (ts : list traffic) :
  (0 <= id < u64_modulus)%Z -> (0 <= t0)%Z ->
  (2 <= Z.of_nat (length parts) <= max_chunks_per_message cfg)%Z ->
  (Z.of_nat (length parts) < 256)%Z ->
  (Z.of_nat (length before + length ts) < u64_modulus)%Z ->
  let s0 := (decode_all before (mkRx (Gelf_new cfg) gl)).2 in
  pending (rx_gelf s0) !! id = None ->
  (Z.of_nat (size (pending (rx_gelf s0)) + length ts) <= incomplete_capacity cfg)%Z ->
  Forall (timely cfg id parts t0) ts ->
  every_chunk (length parts) (own_indices ts) ->
  let '(rs, s1) := decode_all (datagram_of id parts <$> ts) s0 in
  own_results ts rs =
    replicate (length (own_indices ts) - 1) (Ok None) ++ [Ok (Some (mkMessage (Chunked parts)))]
  /\ pending (rx_gelf s1) !! id = None.
Proof.
  intros Hid Ht0 Htotal Hmax Hlen s0 Hnone Hcap Ht Hall.
  destruct (decode_all_step before (Gelf_new cfg) gl (gelf_inv_new cfg))
    as (Hg & Hcfg & Hnext); [simpl; lia|]. fold s0 in Hg, Hcfg, Hnext.
  destruct s0 as [g0 gl0]. cbn [rx_gelf config Gelf_new] in *.
  pose proof (decode_all_refines (datagram_of id parts <$> ts) g0 gl0 Hg) as Href.
  rewrite length_fmap in Href. specialize (Href ltac:(simpl in *; lia)).
  rewrite Hcfg in Href. destruct (every_chunk_completed parts _ Hall) as [last Hcomp].
  pose proof (run_own cfg id parts t0 ts (abs g0) ∅ last Ht0 Hid Htotal Hmax Ht) as Hrun.
  rewrite <- Href in Hrun. destruct (decode_all _ (mkRx g0 gl0)) as [rs s1].
  cbn [prod_map fst snd] in Hrun.
  assert (Htab : forall g i, Spec.table (abs g) !! i = None <-> pending g !! i = None).
  { intros g i. unfold abs. simpl. by rewrite lookup_fmap, fmap_None. }
  rewrite Htab in Hrun. apply Hrun; [| | |apply map_empty_subseteq|done].
  - unfold abs. simpl. by rewrite map_size_fmap.
  - unfold holds. rewrite decide_True by done. by apply Htab.
  - apply gi_counter, Hg.
Qed.
End Reassembly.
