(* ===== verification/ReceiveTypes.v ===== *)
(** The types of the receiver: what it holds and what it returns keep the ranges
    of the Rust types, whatever arrives, also when the arrival counter wraps. *)

From S2P Require Import Prelude BTree Diagnostics Io Message Gelf GelfInv.

Section Types.
Context `{Profile} `{BytesApi}.

(** [UniqueTimestamp(Duration, u64)], the duration being one since the epoch. *)
Definition stamp_typed (ts : UniqueTimestamp) : Prop :=
  (0 <= ts.1 <= systime_max)%Z /\ (0 <= ts.2 < u64_modulus)%Z.

(** The chunks of a message: sequence numbers and totals are [u8]s, and those
    of a message that needs reassembly. *)
Definition chunks_typed (max : Z) (c : Chunks) : Prop :=
  (2 <= expected_total c <= Z.min 255 max)%Z /\
  forall kv, kv ∈ inner c -> (0 <= kv.1 < expected_total c)%Z.

Record gelf_typed (g : Gelf) : Prop := {
  gt_counter : (0 <= next_stamp g < u64_modulus)%Z;
  gt_pending id c ts : pending g !! id = Some (c, ts) ->
    (0 <= id < u64_modulus)%Z /\ chunks_typed (max_chunks_per_message (config g)) c /\
    stamp_typed ts;
  gt_arrivals kv : kv ∈ arrivals g -> stamp_typed kv.1 /\ (0 <= kv.2 < u64_modulus)%Z
}.

(** A message: never empty, with the compression its bytes show, or of as many
    chunks as a message may have. *)
Definition message_typed (max : Z) (msg : Message) : Prop :=
  match message_inner msg with
  | Single compression bytes => bytes <> [] /\ compression = detect_bytes bytes
  | Chunked chunks => (2 <= Z.of_nat (length chunks) <= Z.min 255 max)%Z
  end.

Definition result_typed (max : Z) (r : res (option Message)) : Prop :=
  match r with Ok (Some msg) => message_typed max msg | _ => True end.

Lemma Message_single_typed max src : result_typed max (Message_single (detect_bytes src) src).
Proof.
  unfold Message_single. destruct (Nat.eqb_spec (length src) 0) as [|Hne]; [done|].
  destruct (_ && _); [done|]. split; [|done]. by intros ->.
Qed.

Lemma gelf_typed_new config : gelf_typed (Gelf_new config).
Proof.
  constructor; simpl; [done|..].
  - intros id c ts Hc. by rewrite lookup_empty in Hc.
  - intros kv Hin. by apply elem_of_nil in Hin.
Qed.

(** What is kept of typed indexes is typed. *)
Lemma gelf_typed_sub g m a :
  gelf_typed g -> m ⊆ pending g -> (forall kv, kv ∈ a -> kv ∈ arrivals g) ->
  gelf_typed (with_indexes g m (next_stamp g) a).
Proof.
  intros [Hn Hp Ha] Hm Hsub. constructor; simpl; [done|..].
  - intros id c ts Hc. apply Hp. rewrite map_subseteq_spec in Hm. by apply Hm.
  - intros kv Hin. by apply Ha, Hsub.
Qed.

Lemma gc_overflow_typed g : gelf_typed g -> gelf_typed (gc_overflow g).
Proof.
  intros Hg. unfold gc_overflow. destruct (over_capacity g); [|done].
  apply gelf_typed_sub; [done|apply map_empty_subseteq|].
  intros kv Hin. by apply elem_of_nil in Hin.
Qed.

Lemma unlink_by_id_sub l m : unlink_by_id l m ⊆ m.
Proof.
  revert m. induction l as [|kv l IH]; intros m; simpl; [done|].
  etrans; [apply IH|]. apply delete_subseteq.
Qed.

Lemma gc_expire_typed since g : gelf_typed g -> gelf_typed (gc_expire since g).
Proof.
  intros Hg. apply gelf_typed_sub; [done|apply unlink_by_id_sub|].
  intros kv. apply elem_of_unlink_by_arrival.
Qed.

Lemma Chunks_insert_typed max c s b :
  chunks_typed max c -> (0 <= s < expected_total c)%Z ->
  chunks_typed max (Chunks_insert (mkChunk s b) c).
Proof.
  intros [Ht Hc] Hs. split; [done|]. intros kv Hin.
  by apply elem_of_bt_insert in Hin as [->|Hin]; [|apply Hc].
Qed.

Lemma push_typed now_ts h c g gl :
  gelf_typed g -> (now_ts <= systime_max)%Z ->
  (0 <= header_id h < u64_modulus)%Z ->
  (2 <= seq_count h <= Z.min 255 (max_chunks_per_message (config g)))%Z ->
  (0 <= seq c < seq_count h)%Z ->
  let '(r, s) := push now_ts h c (mkRx g gl) in
  gelf_typed (rx_gelf s) /\ result_typed (max_chunks_per_message (config g)) r.
Proof.
  intros [Hn Hp Ha] Hts Hid Htotal Hseq. destruct c as [s b]. simpl in Hseq. rewrite push_eq.
  destruct (pending g !! header_id h) as [[chunks arrival]|] eqn:E.
  - destruct (Hp _ _ _ E) as (_ & Hchunks & Harr).
    destruct (negb _) eqn:Hsame; [done|]. bool_to_prop.
    pose proof (Chunks_insert_typed _ chunks s b Hchunks ltac:(lia)) as Hins.
    destruct (Chunks_is_complete _) eqn:Hcomplete; (split; [constructor|]); simpl; try done.
    + intros id c ts [_ Hc]%lookup_delete_Some. by apply Hp.
    + intros kv Hin%elem_of_bt_remove. by apply Ha.
    + unfold Chunks_is_complete in Hcomplete. bool_to_prop. destruct Hins as [Hins _].
      unfold Message_chunked, bt_values. rewrite length_fmap.
      destruct (_ =? 0)%nat; [done|]. unfold message_typed. cbn [message_inner].
      rewrite length_fmap. simpl in Hins, Hcomplete. lia.
    + intros id c ts [[<- [= <- <-]]|[_ Hc]]%lookup_insert_Some;
        [exact (conj Hid (conj Hins Harr))|by apply Hp].
  - unfold duration_since. destruct (_ <=? _)%Z eqn:Hle; [|done]. bool_to_prop. simpl.
    assert (Hstamp : stamp_typed ((now_ts - UNIX_EPOCH)%Z, next_stamp g)).
    { split; [unfold UNIX_EPOCH in *; simpl; lia|done]. }
    split; [constructor; simpl|done].
    + unfold wrapping_add. by apply Z.mod_pos_bound.
    + intros id c ts [[<- [= <- <-]]|[_ Hc]]%lookup_insert_Some; [|by apply Hp].
      split; [done|]. split; [|done]. split; [done|]. intros kv Hin. simpl in Hin.
      by apply list_elem_of_singleton in Hin as ->.
    + intros kv Hin. apply elem_of_bt_insert in Hin as [->|Hin]; [done|by apply Ha].
Qed.

Lemma decode_typed now_gc now_ts src g gl :
  gelf_typed g -> (now_ts <= systime_max)%Z ->
  let '(r, s) := decode now_gc now_ts src (mkRx g gl) in
  gelf_typed (rx_gelf s) /\ config (rx_gelf s) = config g /\
  result_typed (max_chunks_per_message (config g)) r.
Proof.
  intros Hg Hts. rewrite decode_eq. case_decide.
  2:{ split; [done|]. split; [done|]. apply Message_single_typed. }
  rewrite chunked_eq. pose proof (gc_overflow_typed g Hg) as Hg1.
  assert (Hcfg : config (gc_overflow g) = config g) by (unfold gc_overflow; by destruct (over_capacity g)).
  destruct (gc_since now_gc g) as [since|e|w]; [|by simpl; rewrite Hcfg..].
  apply (gc_expire_typed since) in Hg1.
  assert (Hcfg2 : config (gc_expire since (gc_overflow g)) = config g) by done.
  revert Hg1 Hcfg2. generalize (gc_expire since (gc_overflow g)) as g2. intros g2 Hg2 <-.
  unfold dispatch. destruct (ChunkHeader_get src) as [[h|e|w] payload] eqn:Hh; [|done..].
  apply ChunkHeader_get_range in Hh as (Hid & Hseq & Hcount & _).
  destruct (_ && _) eqn:Hsingle.
  { split; [done|]. split; [done|]. apply Message_single_typed. }
  cbn [rx_gelf]. destruct (_ <? _)%Z eqn:Hmax; [done|]. bool_to_prop.
  apply andb_false_iff in Hsingle. rewrite !Z.eqb_neq in Hsingle.
  pose proof (push_typed now_ts h (mkChunk (seq_num h) payload) g2
    (gc_globals g (increment GReceive "chunk" gl)) Hg2 Hts Hid ltac:(lia) ltac:(done)) as Hpush.
  destruct (push_frame now_ts h (mkChunk (seq_num h) payload) g2
    (gc_globals g (increment GReceive "chunk" gl))) as [Hc _]; [apply Hg2|].
  destruct (push _ _ _ _) as [r s]. split; [apply Hpush|]. split; [exact Hc|apply Hpush].
Qed.

(** ** Panics *)

(** In a release build a header is read or refused. *)
Lemma ChunkHeader_get_calm buf :
  debug_assertions = false -> is_panic (ChunkHeader_get buf).1 = false.
Proof.
  intros Hrel. destruct (decide (12 <= length buf)%nat) as [Hlen|Hlen].
  - destruct (header_view buf Hlen) as (m0 & m1 & b8 & s & t & r & -> & Hb8).
    rewrite ChunkHeader_get_eq by done. destruct (_ <=? _)%Z; [|done].
    unfold checked_add. rewrite Hrel. by destruct (_ <? _)%Z.
  - by rewrite ChunkHeader_get_short by lia.
Qed.

Lemma Message_single_calm src : is_panic (Message_single (detect_bytes src) src) = false.
Proof.
  unfold Message_single. destruct (_ =? 0)%nat; [done|].
  by rewrite bool_decide_true, andb_false_r by done.
Qed.

(** And [decode] panics only if the clock is so early that garbage collection
    has no time to go back to. *)
Lemma decode_calm now_gc now_ts src g gl :
  debug_assertions = false -> is_panic (gc_since now_gc g) = false ->
  let '(r, s) := decode now_gc now_ts src (mkRx g gl) in
  is_panic r = false /\ config (rx_gelf s) = config g.
Proof.
  intros Hrel Hgc. rewrite decode_eq. case_decide; [|split; [apply Message_single_calm|done]].
  rewrite chunked_eq. destruct (gc_overflow_frame g) as [Hcfg _].
  destruct (gc_since now_gc g) as [since|e|w]; [|by simpl|done].
  unfold dispatch. pose proof (ChunkHeader_get_calm src Hrel) as Hh.
  destruct (ChunkHeader_get src) as [[h|e|w] payload]; [|done..].
  destruct (_ && _); [split; [apply Message_single_calm|done]|].
  cbn [rx_gelf]. destruct (_ <? _)%Z; [done|]. rewrite push_eq.
  destruct (pending _ !! header_id h) as [[chunks arrival]|].
  - destruct (negb _); [done|]. destruct (Chunks_is_complete _); [|done].
    unfold Message_chunked. by destruct (_ =? 0)%nat.
  - unfold duration_since. by destruct (_ <=? _)%Z.
Qed.

(** C15: whatever arrives and whatever the clock says, also once the arrival
    counter has wrapped, what the receiver holds stays in the ranges of its
    types, each incomplete message with a total and sequence numbers that are
    consistent and allowed; and every message it returns is well formed: not
    empty, its compression the one its bytes show, or of two or more chunks and
    at most as many as are allowed. *)
Theorem receiver_well_typed (cfg : Config) (gl : Globals) (dgs : list datagram) :
  Forall (fun dg => (dg_ts dg <= systime_max)%Z) dgs ->
  let '(rs, s) := decode_all dgs (mkRx (Gelf_new cfg) gl) in
  gelf_typed (rx_gelf s) /\ Forall (result_typed (max_chunks_per_message cfg)) rs.
Proof.
  intros Hdgs. change cfg with (config (Gelf_new cfg)) at 2.
  pose proof (gelf_typed_new cfg) as Hg. revert Hg. generalize (Gelf_new cfg) as g. intros g.
  revert g gl. induction Hdgs as [|dg dgs Hdg _ IH]; intros g gl Hg; cbn [decode_all]; [done|].
  pose proof (decode_typed (dg_gc dg) (dg_ts dg) (dg_src dg) g gl Hg Hdg) as Hd.
  destruct (decode _ _ _ _) as [r [g1 gl1]]. destruct Hd as (Hg1 & Hc1 & Hr). simpl in Hg1, Hc1.
  specialize (IH g1 gl1 Hg1). destruct (decode_all dgs _) as [rs s]. rewrite Hc1 in IH.
  destruct IH as [Hs Hrs]. split; [done|by constructor].
Qed.
End Types.

(** ** A witness *)

Section Witnesses.
#[local] Existing Instances Debug bytes_model.

(** A message in one piece, and one of two chunks. *)
Definition typed_datagrams : list datagram :=
  [mkDatagram nanos_per_sec nanos_per_sec [Byte.x61];
   mkDatagram nanos_per_sec nanos_per_sec (chunk 7 1 2 [Byte.x62]);
   mkDatagram nanos_per_sec nanos_per_sec (chunk 7 0 2 [Byte.x61])].

Lemma receiver_well_typed_witness :
  Forall (result_typed 128)
    [Ok (Some (mkMessage (Single None [Byte.x61]))); Ok None;
     Ok (Some (mkMessage (Chunked [[Byte.x61]; [Byte.x62]])))].
Proof.
  pose proof (receiver_well_typed (mkConfig 8 128 1000) Globals_initial typed_datagrams) as Ht.
  assert (E : (decode_all typed_datagrams
    (mkRx (Gelf_new (mkConfig 8 128 1000)) Globals_initial)).1 =
    [Ok (Some (mkMessage (Single None [Byte.x61]))); Ok None;
     Ok (Some (mkMessage (Chunked [[Byte.x61]; [Byte.x62]])))]) by (vm_compute; reflexivity).
  destruct (decode_all _ _) as [rs s]. cbn [fst] in E. subst rs.
  apply Ht. repeat (apply Forall_cons; split; [done|]). by apply Forall_nil.
Defined.
End Witnesses.
