(* ===== verification/ReceiveThms.v ===== *)
(** The properties of the receiver. *)

From S2P Require Import Prelude BTree Diagnostics Io Message Gelf GelfInv Reassembly.

Section Properties.
Context `{Profile} `{BytesApi}.

(** C5: the chunks of a message, in any order and among any other traffic,
    are reassembled: when every chunk arrives in time and below the capacity,
    some of them perhaps several times, all of them but the last yield nothing,
    the one that was missing to the end yields the message with its parts in
    sequence order, and nothing of it is kept. The receiver may have handled any
    datagrams before. *)
Theorem reassembly_any_order (cfg : Config) (id : Z) (parts : list Bytes)
    (t0 : SystemTime) (gl : Globals) (before : list datagram) (ts : list traffic) :
  (0 <= id < u64_modulus)%Z -> (0 <= t0)%Z ->
  (2 <= Z.of_nat (length parts) <= max_chunks_per_message cfg)%Z ->
  (Z.of_nat (length parts) < 256)%Z ->
  (Z.of_nat (length before + length ts) < u64_modulus)%Z ->
  let s0 := (decode_all before (mkRx (Gelf_new cfg) gl)).2 in
  pending (rx_gelf s0) !! id = None ->
  (Z.of_nat (size (pending (rx_gelf s0)) + length ts) <= incomplete_capacity cfg)%Z ->
  Forall (timely cfg id parts t0) ts ->
  every_chunk (length parts) (own_indices ts) ->
  let '(rs, s1) := decode_all (datagram_of id parts <$> ts) s0 in
  own_results ts rs =
    replicate (length (own_indices ts) - 1) (Ok None) ++ [Ok (Some (mkMessage (Chunked parts)))]
  /\ pending (rx_gelf s1) !! id = None.
Proof. apply reassembly. Qed.

(** C7: the receiver, with its two indexes, behaves as the specification with
    one table: on any sequence of datagrams it gives the same results, and
    its state stands for the same table. *)
Theorem receiver_refines (cfg : Config) (gl : Globals) (dgs : list datagram) :
  (Z.of_nat (length dgs) < u64_modulus)%Z ->
  let '(rs, s) := decode_all dgs (mkRx (Gelf_new cfg) gl) in
  spec_decode_all cfg dgs (Spec.mkState ∅ 0) = (rs, abs (rx_gelf s)).
Proof.
  intros Hlen.
  pose proof (decode_all_refines dgs (Gelf_new cfg) gl (gelf_inv_new cfg)) as Href.
  specialize (Href ltac:(simpl; lia)). unfold abs in Href at 2.
  cbn [Gelf_new config by_id by_id_chunks ById_new] in Href. rewrite fmap_empty in Href.
  cbn in Href. destruct (decode_all dgs _) as [rs s]. symmetry. exact Href.
Qed.

(** C12: whatever datagrams arrive, the indexes by id and by arrival hold the
    same messages, there are at most [incomplete_capacity] of them (at least
    one is allowed), and each holds fewer chunks than it expects, which are at
    most [max_chunks_per_message]. *)
Theorem receiver_bounded (cfg : Config) (gl : Globals) (dgs : list datagram) :
  (Z.of_nat (length dgs) < u64_modulus)%Z ->
  let g := rx_gelf (decode_all dgs (mkRx (Gelf_new cfg) gl)).2 in
  (forall id ts, bt_get ts (arrivals g) = Some id <->
     exists chunks, pending g !! id = Some (chunks, ts)) /\
  (Z.of_nat (size (pending g)) <= Z.max 1 (incomplete_capacity cfg))%Z /\
  (forall id chunks ts, pending g !! id = Some (chunks, ts) ->
     (0 < Z.of_nat (length (inner chunks)) < expected_total chunks)%Z /\
     (expected_total chunks <= max_chunks_per_message cfg)%Z).
Proof.
  intros Hlen g.
  destruct (decode_all_step dgs (Gelf_new cfg) gl (gelf_inv_new cfg))
    as (Hg & Hcfg & _); [simpl; lia|]. fold g in Hg, Hcfg. cbn [Gelf_new config] in Hcfg.
  split; [apply Hg|]. split; [rewrite <- Hcfg; apply Hg|].
  intros id chunks ts Hc. apply (gi_chunks g Hg) in Hc. rewrite Hcfg in Hc.
  destruct Hc as [Ht _ Hi _]. split; [done|lia].
Qed.

(** C23: garbage collection drops every incomplete message at capacity, and
    otherwise exactly those that arrived before the timeout, from both
    indexes. *)
Theorem gc_drops_exactly (now_gc : SystemTime) (g : Gelf) (gl : Globals) :
  gelf_inv g ->
  let timeout := Duration_from_millis (incomplete_timeout_ms (config g)) in
  (timeout <= now_gc)%Z ->
  exists g',
    gc now_gc (mkRx g gl) =
      (Ok tt, mkRx g' (if over_capacity g
                       then increment GReceive "msg_incomplete_chunk_overflow" gl else gl)) /\
    gelf_inv g' /\
    forall id, pending g' !! id =
      if over_capacity g then None
      else match pending g !! id with
           | Some (chunks, ts) =>
               if (ts.1 <? now_gc - timeout)%Z then None else Some (chunks, ts)
           | None => None
           end.
Proof.
  intros Hg timeout Hnow. rewrite gc_eq.
  unfold gc_since. rewrite (gc_since_ok (config g) now_gc Hnow). fold timeout.
  eexists. split; [done|]. pose proof (gc_overflow_inv g Hg) as Hg1.
  split; [by apply gc_expire_inv|].
  intros id. rewrite lookup_gc_expire by done. unfold gc_overflow.
  destruct (over_capacity g); [simpl; by rewrite lookup_empty|].
  destruct (pending g !! id) as [[c ts]|] eqn:E; [|done].
  assert (Hts : (0 <= ts.2)%Z).
  { apply (gi_fresh g Hg ts id). apply (gi_linked g Hg). eauto. }
  assert (Heq : key_ltb ts ((now_gc - timeout)%Z, 0%Z) = (ts.1 <? now_gc - timeout)%Z).
  { apply eq_iff_eq_true. etrans; [apply pair_ltb_spec|]. simpl. rewrite !Z.ltb_lt. lia. }
  by rewrite Heq.
Qed.

(** A datagram without the chunk magic bytes is a message by itself
    (nothing when it is empty), and the incomplete messages are untouched. *)
Lemma decode_unchunked (now_gc now_ts : SystemTime) (src : Bytes) (s : Rx) :
  peek_magic_bytes src <> Some MAGIC_CHUNKED ->
  decode now_gc now_ts src s =
    (Ok (if decide (src = []) then None
         else Some (mkMessage (Single (detect_bytes src) src))),
     mkRx (rx_gelf s) (increment GReceive "msg_unchunked" (rx_globals s))).
Proof.
  intros Hm. destruct s as [g gl]. rewrite decode_eq, decide_False by done.
  by rewrite Message_single_whole.
Qed.

(** C24: a datagram that is an error leaves no trace in the incomplete
    messages beyond what garbage collection does before it is read: each is
    as it was or gone. *)
Theorem decode_error_inserts_nothing (now_gc now_ts : SystemTime) (src : Bytes)
    (g : Gelf) (gl : Globals) e :
  gelf_inv g -> (decode now_gc now_ts src (mkRx g gl)).1 = Err e ->
  let g' := rx_gelf (decode now_gc now_ts src (mkRx g gl)).2 in
  gelf_inv g' /\ next_stamp g' = next_stamp g /\ pending g' ⊆ pending g.
Proof. apply decode_err_kept. Qed.

(** C25: chunks that cannot be accepted are refused with the error the code
    gives: too many chunks for the configuration, or a total that differs
    from the message's first chunk; a chunk of a message of one chunk is the
    message. *)
Theorem decode_chunk_outcomes (now_gc now_ts : SystemTime) (id n total : Z) (b : Bytes)
    (g : Gelf) (gl : Globals) :
  gelf_inv g -> (0 <= id < u64_modulus)%Z -> (0 <= n < total)%Z -> (total < 256)%Z ->
  (Duration_from_millis (incomplete_timeout_ms (config g)) <= now_gc)%Z ->
  let since := ((now_gc - Duration_from_millis (incomplete_timeout_ms (config g)))%Z, 0%Z) in
  let kept := pending (gc_expire since (gc_overflow g)) in
  let r := (decode now_gc now_ts (chunk id n total b) (mkRx g gl)).1 in
  (total = 1%Z -> r = Ok (if decide (b = []) then None
                          else Some (mkMessage (Single (detect_bytes b) b)))) /\
  (total <> 1%Z -> (max_chunks_per_message (config g) < total)%Z ->
     r = Err (Bail "message expects {} chunks but the max allowed is {}"
                [ANum total; ANum (max_chunks_per_message (config g))])) /\
  (forall chunks ts, total <> 1%Z -> (total <= max_chunks_per_message (config g))%Z ->
     kept !! id = Some (chunks, ts) -> expected_total chunks <> total ->
     r = Err (Bail "chunk expected total {} is not consistent with previous value {}"
                [ANum total; ANum (expected_total chunks)])).
Proof.
  intros Hg Hid Hn Ht Hnow since kept r. subst r.
  rewrite decode_eq, decide_True by apply peek_chunk.
  rewrite chunked_eq. unfold gc_since. rewrite (gc_since_ok (config g) now_gc Hnow). fold since.
  unfold dispatch. rewrite ChunkHeader_get_chunk by done.
  cbn [seq_num seq_count header_id rx_gelf].
  change (config (gc_expire since (gc_overflow g))) with (config (gc_overflow g)).
  rewrite (proj1 (gc_overflow_frame g)). split; [|split].
  - intros ->. replace n with 0%Z by lia. cbn. by rewrite Message_single_whole.
  - intros H1 Hmax. rewrite (proj2 (Z.eqb_neq total 1)), andb_false_r by done.
    by rewrite (proj2 (Z.ltb_lt _ _) Hmax).
  - intros chunks ts H1 Hmax Hk Hne.
    rewrite (proj2 (Z.eqb_neq total 1)), andb_false_r by done.
    rewrite (proj2 (Z.ltb_ge _ _) Hmax), push_eq. cbn [header_id].
    fold kept. rewrite Hk. cbn [seq_count].
    by rewrite (proj2 (Z.eqb_neq _ _) Hne).
Qed.
End Properties.

(** ** Witnesses *)

Section Witnesses.
#[local] Open Scope Z_scope.
#[local] Existing Instances Release bytes_model.

Definition second : Z := nanos_per_sec.

(** A two-part message whose parts arrive in reverse, the second one twice,
    around an unchunked datagram. *)
Definition sample_parts : list Bytes := [[Byte.x61]; [Byte.x62]].
Definition sample_traffic : list traffic :=
  [Own (10 * second) (10 * second) 1;
   Other (mkDatagram (10 * second) (10 * second) [Byte.x7b]);
   Own (10 * second) (10 * second) 1;
   Own (11 * second) (11 * second) 0]%Z.

(** The receiver after the first part. *)
Definition sample_gelf : Gelf :=
  rx_gelf (decode (10 * second) (10 * second) (chunk 5 1 2 [Byte.x62])
    (mkRx (Gelf_new Config_default) Globals_initial)).2.

Lemma sample_gelf_inv : gelf_inv sample_gelf.
Proof. apply decode_step; [apply gelf_inv_new|done]. Qed.

Lemma reassembly_any_order_witness :
  own_results sample_traffic
    (decode_all (datagram_of 5 sample_parts <$> sample_traffic)
       (mkRx (Gelf_new Config_default) Globals_initial)).1
  = [Ok None; Ok None; Ok (Some (mkMessage (Chunked sample_parts)))].
Proof.
  pose proof (reassembly_any_order Config_default 5 sample_parts (10 * second)
    Globals_initial [] sample_traffic) as Hr. cbv zeta in Hr. cbn [decode_all snd] in Hr.
  destruct (decode_all _ _) as [rs s1]. apply Hr; clear Hr; try done.
  - repeat apply List.Forall_cons; [..|apply List.Forall_nil]; by split.
  - exists [1; 1], 0. split; [done|]. split; [by set_unfold; naive_solver|].
    intros i. change (own_indices sample_traffic) with [1; 1; 0]. set_unfold. simpl. lia.
Defined.

Lemma receiver_refines_witness :
  (spec_decode_all Config_default [mkDatagram (10 * second) (10 * second) [Byte.x7b]]
     (Spec.mkState ∅ 0)).1
  = [Ok (Some (mkMessage (Single None [Byte.x7b])))].
Proof.
  pose proof (receiver_refines Config_default Globals_initial
    [mkDatagram (10 * second) (10 * second) [Byte.x7b]] eq_refl) as Hr.
  destruct (decode_all _ _) as [rs s] eqn:E. rewrite Hr. simpl.
  by vm_compute in E; simplify_eq.
Defined.

Lemma receiver_bounded_witness :
  (Z.of_nat (size (pending sample_gelf)) <= 1024)%Z.
Proof.
  exact (proj1 (proj2 (receiver_bounded Config_default Globals_initial
    [mkDatagram (10 * second) (10 * second) (chunk 5 1 2 [Byte.x62])] eq_refl))).
Defined.

(** Six seconds later the part has timed out. *)
Lemma gc_drops_exactly_witness :
  pending sample_gelf !! 5%Z <> None /\
  exists g', (gc (16 * second) (mkRx sample_gelf Globals_initial)).2
               = mkRx g' Globals_initial /\ pending g' !! 5%Z = None.
Proof.
  split; [done|].
  destruct (gc_drops_exactly (16 * second) sample_gelf Globals_initial sample_gelf_inv)
    as (g' & E & _ & Hp); [done|].
  exists g'. rewrite E. split; [done|]. by rewrite Hp.
Defined.

Lemma decode_unchunked_example :
  (decode 0 0 [Byte.x1f; Byte.x8b] (mkRx sample_gelf Globals_initial)).1
  = Ok (Some (mkMessage (Single (Some Gzip) [Byte.x1f; Byte.x8b]))).
Proof. by rewrite decode_unchunked. Defined.

(** A chunk whose total differs from the first one's. *)
Lemma decode_error_inserts_nothing_witness :
  let g' := rx_gelf (decode (10 * second) (10 * second) (chunk 5 0 3 [Byte.x61])
                       (mkRx sample_gelf Globals_initial)).2 in
  pending g' ⊆ pending sample_gelf.
Proof.
  eapply (decode_error_inserts_nothing (10 * second) (10 * second)
    (chunk 5 0 3 [Byte.x61]) sample_gelf Globals_initial);
    [exact sample_gelf_inv|vm_compute; reflexivity].
Defined.

Lemma decode_chunk_outcomes_witness :
  (decode (10 * second) (10 * second) (chunk 5 0 200 [Byte.x61])
     (mkRx sample_gelf Globals_initial)).1
  = Err (Bail "message expects {} chunks but the max allowed is {}" [ANum 200; ANum 128]).
Proof.
  apply (decode_chunk_outcomes (10 * second) (10 * second) 5 0 200 [Byte.x61] sample_gelf
    Globals_initial sample_gelf_inv); done.
Defined.
End Witnesses.
