(* ===== verification/Received.v ===== *)
(** What the server's decoders hand to its main loop ([Received] and
    [into_received] of [sqelf/src/server/mod.rs]), the interface of the
    [receive] closure the server is built with, and the UDP decoder
    ([sqelf/src/server/udp.rs]). *)

From S2P Require Import Prelude Io Diagnostics Message.

Section Received.
Inductive Received :=
| Incomplete
| Complete (msg : Message)
| RError (err : error).

#[export] Instance Received_eq_decision : EqDecision Received.
Proof. solve_decision. Defined.

(** [into_received]: a result never ends the stream. A panic is no value of
    the source's type and is passed on. *)
Definition into_received (r : res (option Message)) : res (option Received) :=
  match r with
  | Ok (Some msg) => Ok (Some (Complete msg))
  | Ok None => Ok (Some Incomplete)
  | Err err => Ok (Some (RError err))
  | Panic w => Panic w
  end.
End Received.

(** A state that holds the process-wide statics, which [increment!] and the
    self-log write from anywhere. *)
Class Statics (R : Type) := {
  globals_of : R -> Globals;
  on_globals : (Globals -> Globals) -> R -> R;
  globals_of_on f r : globals_of (on_globals f r) = f (globals_of r);
  on_globals_ext f f' r : (forall g, f g = f' g) -> on_globals f r = on_globals f' r;
  on_globals_id r : on_globals (fun g => g) r = r;
  on_globals_comp f f' r : on_globals f (on_globals f' r) = on_globals (fun g => f (f' g)) r
}.

(** The laws of a record that has the statics in one of its fields. *)
Ltac solve_statics :=
  first [ done
        | by intros []
        | intros f f' r E; cbv beta iota; by rewrite ?E ].

(** Everything shares the statics: [share g m] runs a method where they are
    [g], and [same_state r r'] says that nothing but the statics differs. *)
Section Shared.
Context {R : Type} `{Statics R}.

Definition with_statics (g : Globals) (r : R) : R := on_globals (fun _ => g) r.

Definition share {A} (m : M R A) (r : R) : M Globals (A * R) := fun g =>
  let '(x, r') := m (with_statics g r) in
  ((fun a => (a, r')) <$> x, globals_of r').

Lemma share_ok {A} (m : M R A) r g a r' g' :
  share m r g = (Ok (a, r'), g') -> m (with_statics g r) = (Ok a, r').
Proof. unfold share. destruct (m (with_statics g r)) as [[]]; naive_solver. Qed.

Definition same_state (r r' : R) : Prop :=
  with_statics Globals_initial r = with_statics Globals_initial r'.

#[export] Instance same_state_equivalence : Equivalence same_state.
Proof. split; repeat intro; unfold same_state in *; congruence. Qed.

Lemma with_statics_on f g r : with_statics g (on_globals f r) = with_statics g r.
Proof. unfold with_statics. by rewrite on_globals_comp. Qed.

Lemma same_state_on f r : same_state (on_globals f r) r.
Proof. apply with_statics_on. Qed.

Lemma same_state_with g r : same_state (with_statics g r) r.
Proof. apply same_state_on. Qed.

#[export] Instance with_statics_proper g : Proper (same_state ==> eq) (with_statics g).
Proof.
  intros r r' E. rewrite <- (with_statics_on (fun _ => Globals_initial) g r).
  rewrite <- (with_statics_on (fun _ => Globals_initial) g r').
  unfold same_state, with_statics in *. by rewrite E.
Qed.

#[export] Instance on_globals_proper f : Proper (same_state ==> same_state) (on_globals f).
Proof. intros r r' E. by rewrite !same_state_on. Qed.
End Shared.

(** The [receive: impl FnMut(Bytes) -> Result<Option<Message>, Error>] closure
    of [server::build]: the state it captures, with the statics. *)
Class Receiver (R : Type) `{Statics R} := { receive : Bytes -> M R (option Message) }.

Section ReceiveAll.
Context {R : Type} `{Receiver R}.

(** The closure called on payloads in order. *)
Fixpoint receive_all (frames : list Bytes) (r : R) : list (res (option Received)) * R :=
  match frames with
  | [] => ([], r)
  | f :: frames' =>
      let '(x, r1) := receive f r in
      let '(xs, r2) := receive_all frames' r1 in
      (into_received x :: xs, r2)
  end.

Lemma receive_all_app fs1 fs2 r :
  receive_all (fs1 ++ fs2) r =
    let '(xs1, r1) := receive_all fs1 r in
    let '(xs2, r2) := receive_all fs2 r1 in
    (xs1 ++ xs2, r2).
Proof.
  revert r. induction fs1 as [|f fs1 IH]; intros r; simpl.
  - by destruct (receive_all fs2 r).
  - destruct (receive f r) as [x r1]. rewrite IH.
    destruct (receive_all fs1 r1) as [xs1 r2]. by destruct (receive_all fs2 r2).
Qed.

Lemma receive_all_length fs r : length (receive_all fs r).1 = length fs.
Proof.
  revert r. induction fs as [|f fs IH]; intros r; cbn [receive_all]; [done|].
  destruct (receive f r) as [x r1]. specialize (IH r1).
  destruct (receive_all fs r1) as [xs r2]. simpl in *. by rewrite IH.
Qed.
End ReceiveAll.

(** A closure that does not depend on the statics: they change neither its
    results nor the rest of its state. *)
Class ReceiverStatics (R : Type) `{Receiver R} := {
  receive_statics bs r r' : same_state r r' ->
    (receive bs r).1 = (receive bs r').1 /\
    same_state (receive bs r).2 (receive bs r').2
}.

(** A closure that does not panic in the states that are [steady], which it does
    not leave, and which do not depend on the statics. *)
Class ReceiverSteady (R : Type) `{Receiver R} := {
  steady : R -> Prop;
  steady_state r r' : same_state r r' -> steady r -> steady r';
  receive_steady bs r : steady r ->
    is_panic (receive bs r).1 = false /\ steady (receive bs r).2
}.

Lemma steady_on `{ReceiverSteady R} f r : steady r -> steady (on_globals f r).
Proof. apply steady_state. symmetry. apply same_state_on. Qed.

Lemma receive_all_steady `{ReceiverSteady R} fs r : steady r -> steady (receive_all fs r).2.
Proof.
  revert r. induction fs as [|f fs IH]; intros r Hr; [done|]. simpl.
  pose proof (receive_steady f r Hr) as [_ Hr1]. destruct (receive f r) as [x r1].
  specialize (IH r1 Hr1). by destruct (receive_all fs r1).
Qed.

(** ** UDP *)

Section Udp.
Context {R : Type} `{Receiver R} `{BytesApi}.

Record UdpState := mkUdp { udp_src : Bytes; udp_receive : R }.

(** [udp::Decode::decode]: all datagrams are considered a valid message. *)
Definition udp_decode : M UdpState (option Received) := fun st =>
  match split_to (length (udp_src st)) (udp_src st) with
  | (Ok src, rest) =>
      if (length src =? 0)%nat then (Ok None, mkUdp rest (udp_receive st))
      else
        let '(x, r) := receive src (udp_receive st) in
        (into_received x, mkUdp rest r)
  | (Err e, rest) => (Err e, mkUdp rest (udp_receive st))
  | (Panic w, rest) => (Panic w, mkUdp rest (udp_receive st))
  end.
End Udp.
Arguments UdpState : clear implicits.
