(* ===== verification/Framed.v ===== *)
(** [tokio_util]'s [FramedRead], which turns a socket and a decoder into a
    stream of frames. It is third-party code: its poll is an interface, and the
    law is what its documentation says it does with the socket and the decoder. *)

From S2P Require Import Prelude Diagnostics Received Stream.

(** The [Decoder] trait. The state is the decoder with the buffer it is called
    on. *)
Class Decoder (D Item : Type) := {
  decoder_decode : M D (option Item);
  decoder_decode_eof : M D (option Item);
  buffer_extend : Bytes -> D -> D
}.

(** What a [FramedRead] does next: read from the socket, decode what is in the
    buffer, decode at the end of the input, or nothing any more: it reports the
    end after an error. *)
Inductive phase := Reading | Decoding | AtEof | Failed | Finished.

Section FramedRead.
Context {So D Item : Type} `{AsyncRead So} `{Decoder D Item}.

Record FramedRead := mkFramed { fr_io : So; fr_decoder : D; fr_phase : phase }.

(** [FramedRead::new]. *)
Definition FramedRead_new (io : So) (decoder : D) : FramedRead := mkFramed io decoder Reading.

(** "FramedRead will repeatedly switch between reading more data from the IO
    resource, and asking the decoder whether we have received enough data to
    decode another frame of data."

    [framed_polls inputs fr r fr']: a poll of [fr] during which the reads from
    the socket find [inputs], in order (a read beyond them finds nothing yet),
    returns [r] and leaves [fr']. *)
Inductive framed_polls : list (read_input So) -> FramedRead ->
    res (Poll (option (Item + error))) -> FramedRead -> Prop :=
(** The socket is read when a frame is not complete. *)
| polls_not_ready io d :
    framed_polls [] (mkFramed io d Reading) (Ok Pending) (mkFramed io d Reading)
| polls_pending i inputs io io' d :
    poll_read i io = (Pending, io') ->
    framed_polls (i :: inputs) (mkFramed io d Reading) (Ok Pending) (mkFramed io' d Reading)
| polls_data i inputs io io' b d r fr' :
    poll_read i io = (Ready (inl b), io') -> b <> [] ->
    framed_polls inputs (mkFramed io' (buffer_extend b d) Decoding) r fr' ->
    framed_polls (i :: inputs) (mkFramed io d Reading) r fr'
| polls_eof i inputs io io' d r fr' :
    poll_read i io = (Ready (inl []), io') ->
    framed_polls inputs (mkFramed io' d AtEof) r fr' ->
    framed_polls (i :: inputs) (mkFramed io d Reading) r fr'
| polls_io_error i inputs io io' e d :
    poll_read i io = (Ready (inr e), io') ->
    framed_polls (i :: inputs) (mkFramed io d Reading)
      (Ok (Ready (Some (inr (from_io_error e))))) (mkFramed io' d Failed)
(** [decode]: "If an entire frame is available, then this instance will remove
    those bytes from the buffer provided and return them as a decoded frame";
    [Ok(None)] "indicates that more bytes are needed"; an error "should be
    returned indicating why", and the stream is then "terminated". *)
| polls_frame inputs io d d' x :
    decoder_decode d = (Ok (Some x), d') ->
    framed_polls inputs (mkFramed io d Decoding)
      (Ok (Ready (Some (inl x)))) (mkFramed io d' Decoding)
| polls_more inputs io d d' r fr' :
    decoder_decode d = (Ok None, d') ->
    framed_polls inputs (mkFramed io d' Reading) r fr' ->
    framed_polls inputs (mkFramed io d Decoding) r fr'
| polls_error inputs io d d' e :
    decoder_decode d = (Err e, d') ->
    framed_polls inputs (mkFramed io d Decoding)
      (Ok (Ready (Some (inr e)))) (mkFramed io d' Failed)
| polls_panic inputs io d d' w :
    decoder_decode d = (Panic w, d') ->
    framed_polls inputs (mkFramed io d Decoding) (Panic w) (mkFramed io d' Failed)
(** [decode_eof]: "A default method available to be called when there are no
    more bytes available to be read from the underlying I/O"; it is called
    "repeatedly until it returns Ok(None)". *)
| polls_eof_frame inputs io d d' x :
    decoder_decode_eof d = (Ok (Some x), d') ->
    framed_polls inputs (mkFramed io d AtEof)
      (Ok (Ready (Some (inl x)))) (mkFramed io d' AtEof)
| polls_eof_end inputs io d d' :
    decoder_decode_eof d = (Ok None, d') ->
    framed_polls inputs (mkFramed io d AtEof) (Ok (Ready None)) (mkFramed io d' Finished)
| polls_eof_error inputs io d d' e :
    decoder_decode_eof d = (Err e, d') ->
    framed_polls inputs (mkFramed io d AtEof)
      (Ok (Ready (Some (inr e)))) (mkFramed io d' Failed)
| polls_eof_panic inputs io d d' w :
    decoder_decode_eof d = (Panic w, d') ->
    framed_polls inputs (mkFramed io d AtEof) (Panic w) (mkFramed io d' Failed)
(** After an error the stream ends; a stream that has ended is not polled, and
    nothing is promised of it. *)
| polls_failed inputs io d :
    framed_polls inputs (mkFramed io d Failed) (Ok (Ready None)) (mkFramed io d Finished)
| polls_finished inputs io d r fr' :
    framed_polls inputs (mkFramed io d Finished) r fr'.
End FramedRead.
Arguments FramedRead : clear implicits.

(** [impl Stream for FramedRead]. *)
Class FramedReadApi (So D Item : Type) `{AsyncRead So} `{Decoder D Item} := {
  FramedRead_poll_next :
    list (read_input So) -> M (FramedRead So D) (Poll (option (Item + error)));
  FramedRead_poll_next_spec inputs fr :
    let '(r, fr') := FramedRead_poll_next inputs fr in framed_polls inputs fr r fr'
}.

(** ** An implementation, for evaluation on concrete inputs *)

Section Model.
Context {So D Item : Type} `{AsyncRead So} `{Decoder D Item}.

Definition framed_at_eof (io : So) (d : D) :
    res (Poll (option (Item + error))) * FramedRead So D :=
  match decoder_decode_eof d with
  | (Ok (Some x), d') => (Ok (Ready (Some (inl x))), mkFramed io d' AtEof)
  | (Ok None, d') => (Ok (Ready None), mkFramed io d' Finished)
  | (Err e, d') => (Ok (Ready (Some (inr e))), mkFramed io d' Failed)
  | (Panic w, d') => (Panic w, mkFramed io d' Failed)
  end.

(** [readable]: the buffer may hold a frame. *)
Fixpoint framed_read (readable : bool) (inputs : list (read_input So)) (io : So) (d : D) :
    res (Poll (option (Item + error))) * FramedRead So D :=
  match (if readable then decoder_decode d else (Ok None, d)) with
  | (Ok (Some x), d') => (Ok (Ready (Some (inl x))), mkFramed io d' Decoding)
  | (Err e, d') => (Ok (Ready (Some (inr e))), mkFramed io d' Failed)
  | (Panic w, d') => (Panic w, mkFramed io d' Failed)
  | (Ok None, d') =>
      match inputs with
      | [] => (Ok Pending, mkFramed io d' Reading)
      | i :: inputs' =>
          match poll_read i io with
          | (Pending, io') => (Ok Pending, mkFramed io' d' Reading)
          | (Ready (inr e), io') =>
              (Ok (Ready (Some (inr (from_io_error e)))), mkFramed io' d' Failed)
          | (Ready (inl []), io') => framed_at_eof io' d'
          | (Ready (inl ((_ :: _) as b)), io') =>
              framed_read true inputs' io' (buffer_extend b d')
          end
      end
  end.

Definition framed_poll (inputs : list (read_input So)) :
    M (FramedRead So D) (Poll (option (Item + error))) := fun fr =>
  match fr_phase fr with
  | Reading => framed_read false inputs (fr_io fr) (fr_decoder fr)
  | Decoding => framed_read true inputs (fr_io fr) (fr_decoder fr)
  | AtEof => framed_at_eof (fr_io fr) (fr_decoder fr)
  | Failed | Finished => (Ok (Ready None), mkFramed (fr_io fr) (fr_decoder fr) Finished)
  end.

Lemma framed_at_eof_polls inputs io d :
  framed_polls inputs (mkFramed io d AtEof) (framed_at_eof io d).1 (framed_at_eof io d).2.
Proof.
  unfold framed_at_eof. destruct (decoder_decode_eof d) as [[[x|]|e|w] d'] eqn:E; simpl;
    [by apply polls_eof_frame|by apply polls_eof_end|by apply polls_eof_error
    |by apply polls_eof_panic].
Qed.

(** Reading, with the buffer holding no frame; then with a buffer that may. *)
Lemma framed_read_false_polls inputs io d :
  (forall i inputs' io' b, inputs = i :: inputs' -> framed_polls inputs'
     (mkFramed io' (buffer_extend b d) Decoding)
     (framed_read true inputs' io' (buffer_extend b d)).1
     (framed_read true inputs' io' (buffer_extend b d)).2) ->
  framed_polls inputs (mkFramed io d Reading)
    (framed_read false inputs io d).1 (framed_read false inputs io d).2.
Proof.
  intros IH. destruct inputs as [|i inputs]; cbn [framed_read fst snd]; [apply polls_not_ready|].
  destruct (poll_read i io) as [[[[|x b]|e]|] io'] eqn:E.
  - eapply polls_eof; [done|]. apply framed_at_eof_polls.
  - eapply polls_data; [done|done|]. by apply (IH i inputs io' (x :: b)).
  - by apply polls_io_error.
  - by apply polls_pending.
Qed.

Lemma framed_read_polls inputs io d :
  framed_polls inputs (mkFramed io d Decoding)
    (framed_read true inputs io d).1 (framed_read true inputs io d).2.
Proof.
  revert io d. induction inputs as [|i inputs IH]; intros io d;
    (destruct (decoder_decode d) as [[[x|]|e|w] d'] eqn:E; cbn [framed_read]; rewrite E;
     [by apply polls_frame| |by apply polls_error|by apply polls_panic];
     eapply polls_more; [done|]).
  - apply polls_not_ready.
  - apply (framed_read_false_polls (i :: inputs)). intros ? ? io' b [= <- <-]. apply IH.
Qed.

#[refine] Definition framed_model : FramedReadApi So D Item := {|
  FramedRead_poll_next := framed_poll
|}.
Proof.
  intros inputs [io d []]; unfold framed_poll; cbn [fr_phase fr_io fr_decoder].
  - pose proof (framed_read_false_polls inputs io d) as Hp.
    destruct (framed_read false inputs io d). apply Hp.
    intros i inputs' io' b _. apply framed_read_polls.
  - pose proof (framed_read_polls inputs io d) as Hp. by destruct (framed_read true inputs io d).
  - pose proof (framed_at_eof_polls inputs io d) as Hp. by destruct (framed_at_eof io d).
  - apply polls_failed.
  - apply polls_finished.
Defined.
End Model.
