(* ===== verification/TcpDecode.v ===== *)
(** The TCP frame decoder ([Decode] of [sqelf/src/server/tcp.rs]): messages
    separated by null bytes, with frames above the size limit discarded. *)

From S2P Require Import Prelude Io Diagnostics Message ChunkRead Received.

(** [iter().position(|b| *b == 0)]. *)
Fixpoint position_nul (bs : Bytes) : option nat :=
  match bs with
  | [] => None
  | b :: bs' => if decide (b = Byte.x00) then Some 0%nat else S <$> position_nul bs'
  end.

Section Decode.
Context {R : Type} `{Receiver R} `{BytesApi}.

Record Decode := mkDecode {
  max_size_bytes : Z;
  read_head : nat;
  discarding : bool;
  receive_state : R
}.

(** [Decode::new]. *)
Definition Decode_new (max_size_bytes : Z) (receive : R) : Decode :=
  mkDecode max_size_bytes 0 false receive.

(** The decoder with the buffer it is called on. *)
Record TcpState := mkTcp { tcp_dec : Decode; tcp_src : Bytes }.

Definition set_read_head (n : nat) : M TcpState unit := m_modify (fun st =>
  let d := tcp_dec st in
  mkTcp (mkDecode (max_size_bytes d) n (discarding d) (receive_state d)) (tcp_src st)).
Definition set_discarding (b : bool) : M TcpState unit := m_modify (fun st =>
  let d := tcp_dec st in
  mkTcp (mkDecode (max_size_bytes d) (read_head d) b (receive_state d)) (tcp_src st)).
Definition increment_server (field : string) : M TcpState unit := m_modify (fun st =>
  let d := tcp_dec st in
  mkTcp (mkDecode (max_size_bytes d) (read_head d) (discarding d)
           (on_globals (increment GServer field) (receive_state d))) (tcp_src st)).
(** A method of [src]. *)
Definition on_src {A} (m : M Bytes A) : M TcpState A :=
  m_zoom tcp_src (fun bs st => mkTcp (tcp_dec st) bs) m.
(** [(self.receive)(bs).into_received()]. *)
Definition call_receive (bs : Bytes) : M TcpState (option Received) := fun st =>
  let d := tcp_dec st in
  let '(x, r) := receive bs (receive_state d) in
  (into_received x,
   mkTcp (mkDecode (max_size_bytes d) (read_head d) (discarding d) r) (tcp_src st)).

(** [cmp::min(self.max_size_bytes.saturating_add(1), src.len())]. *)
Definition read_to (st : TcpState) : nat :=
  Z.to_nat (Z.min (usize_saturating_add (max_size_bytes (tcp_dec st)) 1)
              (Z.of_nat (length (tcp_src st)))).

(** The ['read_frame] loop. *)
Fixpoint read_frame (fuel : nat) : M TcpState (option Received) :=
  match fuel with
  | O => m_panic "out of fuel"
  | S fuel' =>
      let! st := m_get in
      let self := tcp_dec st in
      let src := tcp_src st in
      let read_to := read_to st in
      let! tail := m_lift (slice_from (read_head self) src) in
      let sep_offset := position_nul tail in
      match discarding self, sep_offset with
      | false, Some offset =>
          let frame_end := (offset + read_head self)%nat in
          if (max_size_bytes self <? Z.of_nat frame_end)%Z then
            increment_server "tcp_msg_overflow" ;;;
            set_discarding true ;;;
            read_frame fuel'
          else
            set_read_head 0 ;;;
            let! src := on_src (split_to (frame_end + 1)) in
            call_receive (take (length src - 1) src)
      | false, None =>
          if (max_size_bytes self <? Z.of_nat (length src))%Z then
            increment_server "tcp_msg_overflow" ;;;
            set_discarding true ;;;
            read_frame fuel'
          else
            set_read_head read_to ;;;
            m_ret None
      | true, Some offset =>
          on_src (advance (offset + read_head self + 1)) ;;;
          set_discarding false ;;;
          set_read_head 0 ;;;
          read_frame fuel'
      | true, None =>
          on_src (advance read_to) ;;;
          set_read_head 0 ;;;
          let! st := m_get in
          if (length (tcp_src st) =? 0)%nat then m_ret None
          else read_frame fuel'
      end
  end.

(** Every turn that goes on either consumes input or starts discarding. *)
Definition decode_fuel (st : TcpState) : nat := 2 * length (tcp_src st) + 2.

(** [Decode::decode]. *)
Definition tcp_decode : M TcpState (option Received) := fun st =>
  read_frame (decode_fuel st) st.

(** [Decode::decode_eof]. *)
Definition tcp_decode_eof : M TcpState (option Received) :=
  let! frame := tcp_decode in
  match frame with
  | Some frame => m_ret (Some frame)
  | None =>
      let! st := m_get in
      if (length (tcp_src st) =? 0)%nat then m_ret None
      else
        let! src := on_src (split_to (length (tcp_src st))) in
        set_read_head 0 ;;;
        call_receive src
  end.

(** More input at the end of the buffer. *)
Definition feed (bs : Bytes) (st : TcpState) : TcpState :=
  mkTcp (tcp_dec st) (tcp_src st ++ bs).
End Decode.
Arguments Decode R : clear implicits.
Arguments TcpState R : clear implicits.

(** ** The specification of framing *)

Module Framing.
Section Frames.
Context (max : Z).

(** A frame the decoder passes on. *)
Definition fits (f : Bytes) : bool := (Z.of_nat (length f) <=? max)%Z.

(** The null-terminated frames of a stream, [cur] being the current frame so
    far, with those above the limit left out. [skip] says that the current
    frame is to be left out whatever follows. *)
Fixpoint frames_from (skip : bool) (cur : Bytes) (bs : Bytes) : list Bytes :=
  match bs with
  | [] => []
  | b :: bs' =>
      if decide (b = Byte.x00) then
        (if negb skip && fits cur then [cur] else []) ++ frames_from false [] bs'
      else frames_from skip (cur ++ [b]) bs'
  end.

Definition frames (bs : Bytes) : list Bytes := frames_from false [] bs.

(** The last frame of a stream that has ended, when it is not terminated:
    it counts unless it is empty or above the limit. *)
Fixpoint last_from (skip : bool) (cur : Bytes) (bs : Bytes) : list Bytes :=
  match bs with
  | [] => if negb skip && fits cur && negb (length cur =? 0)%nat then [cur] else []
  | b :: bs' => if decide (b = Byte.x00) then last_from false [] bs'
                else last_from skip (cur ++ [b]) bs'
  end.

(** The frames of a stream that has ended. *)
Definition frames_eof (bs : Bytes) : list Bytes := frames bs ++ last_from false [] bs.

(** How many frames are above the limit, the current one included. *)
Fixpoint overlong_from (skip : bool) (cur : Bytes) (bs : Bytes) : nat :=
  match bs with
  | [] => if negb skip && negb (fits cur) then 1 else 0
  | b :: bs' =>
      if decide (b = Byte.x00) then
        (if negb skip && negb (fits cur) then 1 else 0) + overlong_from false [] bs'
      else overlong_from skip (cur ++ [b]) bs'
  end.
Definition overlong (bs : Bytes) : nat := overlong_from false [] bs.
End Frames.
End Framing.

(** ** Laws of framing *)

Section FramingLaws.
Context (max : Z).
Import Framing.

Definition no_nul (bs : Bytes) : Prop := Byte.x00 ∉ bs.

Lemma position_nul_Some bs k :
  position_nul bs = Some k ->
  exists pre post, bs = pre ++ Byte.x00 :: post /\ length pre = k /\ no_nul pre.
Proof.
  revert k. induction bs as [|b bs IH]; intros k; simpl; [done|]. case_decide as Hb.
  - intros [= <-]. exists [], bs. subst. split; [done|]. split; [done|]. apply not_elem_of_nil.
  - destruct (position_nul bs) as [k'|]; [|done]. intros [= <-].
    destruct (IH k' eq_refl) as (pre & post & -> & Hlen & Hn).
    exists (b :: pre), post. simpl. split; [done|]. split; [lia|].
    unfold no_nul. rewrite not_elem_of_cons. auto.
Qed.

Lemma position_nul_None bs : position_nul bs = None -> no_nul bs.
Proof.
  induction bs as [|b bs IH]; simpl; intros E; [apply not_elem_of_nil|].
  case_decide as Hb; [done|]. destruct (position_nul bs); [done|].
  unfold no_nul. rewrite not_elem_of_cons. split; [congruence|by apply IH].
Qed.

Lemma no_nul_app p q : no_nul (p ++ q) <-> no_nul p /\ no_nul q.
Proof. unfold no_nul. rewrite elem_of_app. tauto. Qed.

Lemma scan_app skip cur p x :
  no_nul p ->
  frames_from max skip cur (p ++ x) = frames_from max skip (cur ++ p) x
  /\ overlong_from max skip cur (p ++ x) = overlong_from max skip (cur ++ p) x
  /\ last_from max skip cur (p ++ x) = last_from max skip (cur ++ p) x.
Proof.
  revert cur. induction p as [|b p IH]; intros cur Hn; simpl; [by rewrite app_nil_r|].
  apply not_elem_of_cons in Hn as [Hb Hn]. rewrite !decide_False by congruence.
  rewrite (cons_middle b cur p), app_assoc. by apply IH.
Qed.

Lemma fits_snoc cur b : fits max cur = false -> fits max (cur ++ [b]) = false.
Proof.
  unfold fits. rewrite !Z.leb_gt, length_app. simpl. lia.
Qed.

(** A frame to leave out may forget what it holds. *)
Lemma scan_skip cur x :
  frames_from max true cur x = frames_from max true [] x
  /\ overlong_from max true cur x = overlong_from max true [] x
  /\ last_from max true cur x = last_from max true [] x.
Proof.
  enough (Hgen : forall cur1 cur2,
    frames_from max true cur1 x = frames_from max true cur2 x
    /\ overlong_from max true cur1 x = overlong_from max true cur2 x
    /\ last_from max true cur1 x = last_from max true cur2 x) by auto.
  induction x as [|b x IH]; intros cur1 cur2; simpl; [done|]. by case_decide.
Qed.

(** A frame already too long is left out, and counts once. *)
Lemma scan_long cur x :
  fits max cur = false ->
  frames_from max false cur x = frames_from max true [] x
  /\ overlong_from max false cur x = S (overlong_from max true [] x)
  /\ last_from max false cur x = last_from max true [] x.
Proof.
  revert cur. induction x as [|b x IH]; intros cur Hf; simpl; rewrite ?Hf; simpl; [done|].
  case_decide; [done|].
  destruct (IH (cur ++ [b])) as (-> & -> & ->); [by apply fits_snoc|].
  destruct (scan_skip [b] x) as (-> & -> & ->). done.
Qed.

(** [advances skip bs fs k skip' bs']: having scanned from [bs] to [bs'], the
    decoder has passed over the frames [fs] and [k] frames above the limit,
    whatever input follows. *)
Definition advances (skip : bool) (bs : Bytes) (fs : list Bytes) (k : nat)
    (skip' : bool) (bs' : Bytes) : Prop :=
  forall x,
    frames_from max skip [] (bs ++ x) = fs ++ frames_from max skip' [] (bs' ++ x)
    /\ overlong_from max skip [] (bs ++ x) = (k + overlong_from max skip' [] (bs' ++ x))%nat
    /\ last_from max skip [] (bs ++ x) = last_from max skip' [] (bs' ++ x).

Lemma advances_refl skip bs : advances skip bs [] 0 skip bs.
Proof. by intros x. Qed.

Lemma advances_trans s1 b1 f1 k1 s2 b2 f2 k2 s3 b3 :
  advances s1 b1 f1 k1 s2 b2 -> advances s2 b2 f2 k2 s3 b3 ->
  advances s1 b1 (f1 ++ f2) (k1 + k2) s3 b3.
Proof.
  intros H1 H2 x. destruct (H1 x) as (-> & -> & ->), (H2 x) as (-> & -> & ->).
  rewrite app_assoc. repeat split; auto. lia.
Qed.

Lemma advances_input s1 b1 fs k s2 b2 y :
  advances s1 b1 fs k s2 b2 -> advances s1 (b1 ++ y) fs k s2 (b2 ++ y).
Proof. intros Ha x. rewrite <- !app_assoc. apply Ha. Qed.

Lemma advances_frame p q :
  no_nul p -> fits max p = true -> advances false (p ++ Byte.x00 :: q) [p] 0 false q.
Proof.
  intros Hn Hf x. rewrite <- app_assoc.
  destruct (scan_app false [] p ((Byte.x00 :: q) ++ x) Hn) as (-> & -> & ->).
  simpl. by rewrite Hf.
Qed.

Lemma advances_overflow p q :
  no_nul p -> fits max p = false -> advances false (p ++ q) [] 1 true (p ++ q).
Proof.
  intros Hn Hf x. rewrite <- !app_assoc.
  destruct (scan_app false [] p (q ++ x) Hn) as (-> & -> & ->).
  destruct (scan_app true [] p (q ++ x) Hn) as (-> & -> & ->).
  destruct (scan_long ([] ++ p) (q ++ x) Hf) as (-> & -> & ->).
  destruct (scan_skip ([] ++ p) (q ++ x)) as (-> & -> & ->). done.
Qed.

Lemma advances_discard p q : no_nul p -> advances true (p ++ q) [] 0 true q.
Proof.
  intros Hn x. rewrite <- app_assoc.
  destruct (scan_app true [] p (q ++ x) Hn) as (-> & -> & ->).
  destruct (scan_skip ([] ++ p) (q ++ x)) as (-> & -> & ->). done.
Qed.

Lemma advances_resync p q : no_nul p -> advances true (p ++ Byte.x00 :: q) [] 0 false q.
Proof.
  intros Hn x. rewrite <- app_assoc.
  destruct (scan_app true [] p ((Byte.x00 :: q) ++ x) Hn) as (-> & -> & ->). done.
Qed.
End FramingLaws.

(** ** One call of the decoder *)

Section DecodeSpec.
Context {R : Type} `{Receiver R} `{BytesApi}.
Context (max : Z) (Hmax : (0 <= max <= usize_max)%Z).

(** [increment!(server.tcp_msg_overflow)]. *)
Definition bump (r : R) : R := on_globals (increment GServer "tcp_msg_overflow") r.
Definition bumps (k : nat) (r : R) : R := Nat.iter k bump r.

Definition tcp (rh : nat) (d : bool) (r : R) (src : Bytes) : TcpState R :=
  mkTcp (mkDecode max rh d r) src.

(** What a call may do: hand one frame to [receive], or ask for more input. *)
Inductive decoded (d : bool) (r : R) (src : Bytes) :
    res (option Received) * TcpState R -> Prop :=
| decoded_frame k f rest :
    advances max d src [f] k false rest ->
    no_nul f -> Framing.fits max f = true ->
    decoded d r src
      (into_received (receive f (bumps k r)).1, tcp 0 false (receive f (bumps k r)).2 rest)
| decoded_more k d' rest :
    advances max d src [] k d' rest ->
    no_nul rest -> (if d' then rest = [] else (Z.of_nat (length rest) <= max)%Z) ->
    decoded d r src (Ok None, tcp (length rest) d' (bumps k r) rest).

Lemma bumps_add k1 k2 r : bumps k2 (bumps k1 r) = bumps (k1 + k2) r.
Proof. unfold bumps. rewrite Nat.add_comm. symmetry. apply Nat.iter_add. Qed.

Lemma decoded_step d r src k d1 src1 out :
  advances max d src [] k d1 src1 -> decoded d1 (bumps k r) src1 out -> decoded d r src out.
Proof.
  intros Ha Hd. destruct Hd as [k' f rest Ha' Hn Hf|k' d' rest Ha' Hn Hrest];
    pose proof (advances_trans max _ _ _ _ _ _ _ _ _ _ Ha Ha') as Ha2; rewrite bumps_add.
  - by apply (decoded_frame d r src (k + k') f rest).
  - by apply (decoded_more d r src (k + k') d' rest).
Qed.

Lemma read_to_tcp rh d r src :
  read_to (tcp rh d r src) = Nat.min (Z.to_nat (Z.min usize_max (max + 1))) (length src).
Proof. unfold read_to, usize_saturating_add. simpl. lia. Qed.

(** The unread part of the buffer, by its first null byte. *)
Lemma split_tail rh (src : Bytes) offset :
  (rh <= length src)%nat -> no_nul (take rh src) -> position_nul (drop rh src) = Some offset ->
  exists p q, src = p ++ Byte.x00 :: q /\ length p = (offset + rh)%nat /\ no_nul p.
Proof.
  intros Hrh Hn (pre & post & Hdrop & Hlen & Hpre)%position_nul_Some.
  exists (take rh src ++ pre), post. split; [|split].
  - by rewrite <- app_assoc, <- Hdrop, take_drop.
  - rewrite length_app, length_take. lia.
  - by apply no_nul_app.
Qed.

Lemma no_nul_whole rh (src : Bytes) :
  no_nul (take rh src) -> position_nul (drop rh src) = None -> no_nul src.
Proof.
  intros Hn Hd%position_nul_None. rewrite <- (take_drop rh src). by apply no_nul_app.
Qed.

(** What the loop does with [fuel] turns. *)
Definition decodes (fuel : nat) : Prop := forall rh (d : bool) (r : R) (src : Bytes),
  (rh <= length src)%nat -> no_nul (take rh src) ->
  (2 * length src + (if d then 0 else 1) < fuel)%nat ->
  decoded d r src (read_frame fuel (tcp rh d r src)).

(** The start of a turn: the search for a delimiter past the read head. *)
Ltac start_turn Hpos :=
  cbn [read_frame]; unfold m_bind at 1, m_get at 1; unfold m_bind at 1, m_lift at 1;
  cbn [tcp_dec tcp_src tcp read_head discarding max_size_bytes];
  rewrite slice_from_ok by done; rewrite read_to_tcp, Hpos.

Ltac tcp_fields :=
  cbn [tcp_dec tcp_src tcp max_size_bytes discarding receive_state read_head].

(** Discarding, with a delimiter in sight. *)
Lemma turn_resync fuel rh (r : R) (src : Bytes) offset :
  decodes fuel -> (rh <= length src)%nat -> no_nul (take rh src) ->
  (2 * length src < S fuel)%nat -> position_nul (drop rh src) = Some offset ->
  decoded true r src (read_frame (S fuel) (tcp rh true r src)).
Proof.
  intros IH Hrh Hn Hfuel Hpos. start_turn Hpos.
  destruct (split_tail rh src offset Hrh Hn Hpos) as (p & q & -> & Hlen & Hp).
  eapply decoded_step; [by apply advances_resync|].
  unfold m_bind at 1, on_src, m_zoom. tcp_fields.
  rewrite advance_ok by (rewrite length_app; simpl; lia).
  rewrite (cons_middle Byte.x00 p q), app_assoc, drop_app_length'
    by (rewrite length_app; simpl; lia).
  apply (IH 0%nat false r q); [lia|apply not_elem_of_nil|].
  rewrite length_app in Hfuel. simpl in Hfuel. lia.
Qed.

(** Discarding, without one. *)
Lemma turn_discard fuel rh (r : R) (src : Bytes) :
  decodes fuel -> (rh <= length src)%nat -> no_nul (take rh src) ->
  (2 * length src < S fuel)%nat -> position_nul (drop rh src) = None ->
  decoded true r src (read_frame (S fuel) (tcp rh true r src)).
Proof.
  intros IH Hrh Hn Hfuel Hpos. start_turn Hpos.
  pose proof (no_nul_whole rh src Hn Hpos) as Hsrc.
  set (n := Nat.min (Z.to_nat (Z.min usize_max (max + 1))) (length src)).
  rewrite <- (take_drop n src) in Hsrc. apply no_nul_app in Hsrc as [Htake Hdrop].
  eapply (decoded_step true r src 0 true (drop n src)).
  { rewrite <- (take_drop n src) at 1. by apply advances_discard. }
  unfold m_bind at 1, on_src, m_zoom. tcp_fields.
  rewrite advance_ok by lia. unfold m_bind, set_read_head, m_modify, m_get. tcp_fields.
  destruct (Nat.eqb_spec (length (drop n src)) 0) as [Hz|Hnz].
  - apply nil_length_inv in Hz. rewrite Hz.
    apply (decoded_more true (bumps 0 r) [] 0 true []);
      [apply advances_refl|apply not_elem_of_nil|done].
  - rewrite length_drop in Hnz. apply (IH 0%nat true r (drop n src)); [lia| |].
    + apply not_elem_of_nil.
    + rewrite length_drop. assert (1 <= n)%nat by (unfold n, usize_max in *; lia). lia.
Qed.

(** A frame is complete: it is too long, or handed over. *)
Lemma turn_frame fuel rh (r : R) (src : Bytes) offset :
  decodes fuel -> (rh <= length src)%nat -> no_nul (take rh src) ->
  (2 * length src + 1 < S fuel)%nat -> position_nul (drop rh src) = Some offset ->
  decoded false r src (read_frame (S fuel) (tcp rh false r src)).
Proof.
  intros IH Hrh Hn Hfuel Hpos. start_turn Hpos.
  destruct (split_tail rh src offset Hrh Hn Hpos) as (p & q & -> & Hlen & Hp).
  destruct (_ <? _)%Z eqn:Hover; bool_to_prop.
  - eapply (decoded_step false r _ 1 true).
    { apply advances_overflow; [done|]. unfold Framing.fits. rewrite Hlen. by apply Z.leb_gt. }
    apply (IH rh true (bump r) (p ++ Byte.x00 :: q)); [done|done|lia].
  - assert (Hfits : Framing.fits max p = true).
    { unfold Framing.fits. rewrite Hlen. by apply Z.leb_le. }
    unfold m_bind, set_read_head, m_modify, on_src, m_zoom. tcp_fields.
    rewrite split_to_ok by (rewrite length_app; simpl; lia).
    rewrite (cons_middle Byte.x00 p q), app_assoc,
      take_app_length', drop_app_length' by (rewrite length_app; simpl; lia).
    rewrite length_app, Nat.add_sub, take_app_length.
    unfold call_receive. tcp_fields.
    pose proof (decoded_frame false r (p ++ Byte.x00 :: q) 0 p q) as Hd.
    rewrite (cons_middle Byte.x00 p q), app_assoc in Hd. unfold bumps in Hd. simpl in Hd.
    destruct (receive p r) as [x r'] eqn:Er. cbn [fst snd] in Hd. apply Hd; [|done|done].
    rewrite <- app_assoc. by apply advances_frame.
Qed.

(** No frame is complete: the one in sight is too long, or more is needed. *)
Lemma turn_more fuel rh (r : R) (src : Bytes) :
  decodes fuel -> (rh <= length src)%nat -> no_nul (take rh src) ->
  (2 * length src + 1 < S fuel)%nat -> position_nul (drop rh src) = None ->
  decoded false r src (read_frame (S fuel) (tcp rh false r src)).
Proof.
  intros IH Hrh Hn Hfuel Hpos. start_turn Hpos.
  pose proof (no_nul_whole rh src Hn Hpos) as Hsrc.
  destruct (_ <? _)%Z eqn:Hover; bool_to_prop.
  - eapply (decoded_step false r src 1 true src).
    { rewrite <- (app_nil_r src). apply advances_overflow; [done|].
      unfold Framing.fits. by apply Z.leb_gt. }
    apply (IH rh true (bump r) src); [done|done|lia].
  - rewrite Nat.min_r by (unfold usize_max in *; lia).
    apply (decoded_more false r src 0 false src); [apply advances_refl|done|done].
Qed.

Lemma read_frame_decoded fuel : decodes fuel.
Proof.
  induction fuel as [|fuel IH]; intros rh d r src Hrh Hn Hfuel; [lia|].
  destruct d, (position_nul (drop rh src)) as [offset|] eqn:Hpos.
  - apply turn_resync with offset; [done..|lia|done].
  - apply turn_discard; [done..|lia|done].
  - apply turn_frame with offset; done.
  - apply turn_more; done.
Qed.

Lemma tcp_decode_decoded rh (d : bool) (r : R) (src : Bytes) :
  (rh <= length src)%nat -> no_nul (take rh src) ->
  decoded d r src (tcp_decode (tcp rh d r src)).
Proof.
  intros Hrh Hn. unfold tcp_decode, decode_fuel. cbn [tcp_src tcp].
  apply read_frame_decoded; [done|done|]. destruct d; lia.
Qed.
End DecodeSpec.
