(* ===== verification/TcpFraming.v ===== *)
(** Framing of a TCP stream, whatever its division into reads: the decoder is
    driven by arbitrary appends to its buffer and calls of [decode] and
    [decode_eof], and the frames it hands to [receive] are those of the
    specification [Framing]. *)

From S2P Require Import Prelude Io Diagnostics Message Received TcpDecode.

(** What the server relies on: its own counters do not interfere with the
    [receive] closure. *)
Class ReceiverLaws (R : Type) `{Receiver R} := {
  receive_increment field bs r :
    receive bs (on_globals (increment GServer field) r)
      = prod_map (fun x => x) (on_globals (increment GServer field)) (receive bs r)
}.

Section Driver.
Context {R : Type} `{Receiver R} `{BytesApi}.

(** What drives the decoder: more input in its buffer, or a call. *)
Inductive op := Feed (bs : Bytes) | Call.

(** The input fed so far. *)
Definition fed (ops : list op) : Bytes :=
  concat (omap (fun o => match o with Feed bs => Some bs | Call => None end) ops).

(** A result that ends a call without a frame. *)
Definition no_frame (r : res (option Received)) : bool :=
  match r with Ok None => true | _ => false end.

(** The results of calls, those without a frame left out. *)
Definition emitted (r : res (option Received)) : list (res (option Received)) :=
  if no_frame r then [] else [r].

Fixpoint run (ops : list op) (st : TcpState R) : list (res (option Received)) * TcpState R :=
  match ops with
  | [] => ([], st)
  | Feed bs :: ops' => run ops' (feed bs st)
  | Call :: ops' =>
      let '(r, st1) := tcp_decode st in
      let '(rs, st2) := run ops' st1 in
      (emitted r ++ rs, st2)
  end.

(** [n] calls of [decode_eof]. *)
Fixpoint run_eof (n : nat) (st : TcpState R) : list (res (option Received)) * TcpState R :=
  match n with
  | O => ([], st)
  | S n' =>
      let '(r, st1) := tcp_decode_eof st in
      let '(rs, st2) := run_eof n' st1 in
      (emitted r ++ rs, st2)
  end.
End Driver.

(** ** What a receiver goes through *)

(** [tracks D k r]: a receiver [r0] that was given the frames [D] while [k]
    frames above the limit were counted may now be [r]. *)
Class Tracks {R} `{Receiver R} (r0 : R) (tracks : list Bytes -> nat -> R -> Prop) := {
  tracks_start : tracks [] 0 r0;
  tracks_bumps D k k' r : tracks D k r -> tracks D (k + k') (bumps k' r);
  tracks_receive D k f r : tracks D k r -> tracks (D ++ [f]) k (receive f r).2;
  tracks_result D k f r :
    tracks D k r -> (receive f r).1 = (receive f (receive_all D r0).2).1
}.

Lemma receive_all_snoc {R} `{Receiver R} D f r0 :
  receive_all (D ++ [f]) r0 =
    ((receive_all D r0).1 ++ [into_received (receive f (receive_all D r0).2).1],
     (receive f (receive_all D r0).2).2).
Proof.
  rewrite receive_all_app. destruct (receive_all D r0) as [xs r1]. simpl.
  by destruct (receive f r1).
Qed.

(** Exactly, when the counters of the server do not matter to it. *)
Definition tracks_exactly {R} `{Receiver R} (r0 : R) (D : list Bytes) (k : nat) (r : R) : Prop :=
  r = bumps k (receive_all D r0).2.

Lemma receive_bumps {R} `{ReceiverLaws R} k bs r :
  receive bs (bumps k r) = prod_map (fun x => x) (bumps k) (receive bs r).
Proof.
  induction k as [|k IH]; [unfold bumps; simpl; by destruct (receive bs r)|].
  change (bumps (S k) r) with (bump (bumps k r)). unfold bump at 1.
  rewrite receive_increment, IH. by destruct (receive bs r).
Qed.

#[export] Instance tracks_exactly_tracks {R} `{ReceiverLaws R} r0 : Tracks r0 (tracks_exactly r0).
Proof.
  constructor; unfold tracks_exactly.
  - done.
  - intros D k k' r ->. apply bumps_add.
  - intros D k f r ->. rewrite receive_bumps, receive_all_snoc. done.
  - intros D k f r ->. by rewrite receive_bumps.
Qed.

(** Up to the statics, when they do not matter to it. *)
Definition tracks_state {R} `{Receiver R} (r0 : R) (D : list Bytes) (k : nat) (r : R) : Prop :=
  same_state r (receive_all D r0).2.

Lemma same_state_bumps {R} `{Receiver R} k (r : R) : same_state (bumps k r) r.
Proof.
  induction k as [|k IH]; [done|].
  change (bumps (S k) r) with (bump (bumps k r)). unfold bump. by rewrite same_state_on.
Qed.

#[export] Instance tracks_state_tracks {R} `{ReceiverStatics R} r0 : Tracks r0 (tracks_state r0).
Proof.
  constructor; unfold tracks_state.
  - done.
  - intros D k k' r E. by rewrite same_state_bumps.
  - intros D k f r E. rewrite receive_all_snoc. by apply receive_statics.
  - intros D k f r E. by apply receive_statics.
Qed.

Section Schedules.
Context {R : Type} `{Receiver R} `{BytesApi}.
Context (max : Z) (Hmax : (0 <= max <= usize_max)%Z).
Context (r0 : R) (tracks : list Bytes -> nat -> R -> Prop) `{!Tracks r0 tracks}.

Lemma emitted_into_received x : emitted (into_received x) = [into_received x].
Proof. by destruct x as [[]| |]. Qed.

(** The decoder after an input [I] of which the frames [D] have been handed
    over and [k] frames found too long. *)
Definition reached (I : Bytes) (D : list Bytes) (k : nat) (st : TcpState R) : Prop :=
  exists rh d buf r,
    st = tcp max rh d r buf
    /\ tracks D k r
    /\ advances max false I D k d buf
    /\ (rh <= length buf)%nat /\ no_nul (take rh buf).

Lemma reached_new : reached [] [] 0 (mkTcp (Decode_new max r0) []).
Proof.
  exists 0%nat, false, [], r0. split; [done|]. split; [apply tracks_start|].
  split; [apply advances_refl|]. split; [done|]. apply not_elem_of_nil.
Qed.

Lemma reached_feed I D k st bs :
  reached I D k st -> reached (I ++ bs) D k (feed bs st).
Proof.
  intros (rh & d & buf & r & -> & Ht & Ha & Hrh & Hn). exists rh, d, (buf ++ bs), r.
  split; [done|]. split; [done|]. split; [by apply advances_input|].
  split; [rewrite length_app; lia|]. by rewrite take_app_le.
Qed.

(** A call hands over the next frame, or there is none. *)
Lemma reached_poll I D k st :
  reached I D k st ->
  (exists f k', reached I (D ++ [f]) k' (tcp_decode st).2
     /\ (tcp_decode st).1 = into_received (receive f (receive_all D r0).2).1)
  \/ (exists k' d r rest,
       tcp_decode st = (Ok None, tcp max (length rest) d r rest)
       /\ tracks D k' r
       /\ reached I D k' (tcp_decode st).2
       /\ advances max false I D k' d rest /\ no_nul rest
       /\ (if d then rest = [] else (Z.of_nat (length rest) <= max)%Z)).
Proof.
  intros (rh & d & buf & r & -> & Ht & Ha & Hrh & Hn).
  destruct (tcp_decode_decoded max Hmax rh d r buf Hrh Hn)
    as [k' f rest Ha' Hf Hfits|k' d' rest Ha' Hrest Hlen].
  - left. exists f, (k + k')%nat. cbn [fst snd].
    pose proof (tracks_bumps D k k' r Ht) as Ht'.
    split; [|by rewrite (tracks_result _ _ f _ Ht')].
    exists 0%nat, false, rest, (receive f (bumps k' r)).2. split; [done|].
    split; [by apply tracks_receive|].
    split; [by eapply advances_trans|]. split; [lia|apply not_elem_of_nil].
  - right. exists (k + k')%nat, d', (bumps k' r), rest.
    assert (Hadv : advances max false I D (k + k') d' rest).
    { rewrite <- (app_nil_r D). by eapply advances_trans. }
    split; [done|]. split; [by apply tracks_bumps|]. split; [|done].
    exists (length rest), d', rest, (bumps k' r). split; [done|].
    split; [by apply tracks_bumps|]. split; [done|]. split; [done|]. by rewrite firstn_all.
Qed.

Lemma reached_run ops I D k st :
  reached I D k st ->
  exists D' k', reached (I ++ fed ops) (D ++ D') k' (run ops st).2
    /\ (receive_all D r0).1 ++ (run ops st).1 = (receive_all (D ++ D') r0).1.
Proof.
  revert I D k st. induction ops as [|[bs|] ops IH]; intros I D k st Hr.
  - exists [], k. simpl. by rewrite !app_nil_r.
  - change (fed (Feed bs :: ops)) with (bs ++ fed ops). rewrite app_assoc.
    change (run (Feed bs :: ops) st) with (run ops (feed bs st)).
    apply (IH (I ++ bs) D k). by apply reached_feed.
  - change (fed (Call :: ops)) with (fed ops). cbn [run].
    destruct (reached_poll I D k st Hr)
      as [(f & k' & Hr' & Hem)|(k' & d & r & rest & Hnone & _ & Hr' & _)];
      destruct (tcp_decode st) as [x st1]; cbn [fst snd] in *.
    + destruct (IH I (D ++ [f]) k' st1 Hr') as (D' & k2 & Hr2 & Hout).
      destruct (run ops st1) as [rs st2]. exists ([f] ++ D'), k2.
      rewrite app_assoc. split; [done|].
      rewrite <- Hout, receive_all_snoc, Hem, emitted_into_received.
      simpl. by rewrite <- app_assoc.
    + injection Hnone as -> _. destruct (IH I D k' st1 Hr') as (D' & k2 & Hr2 & Hout).
      destruct (run ops st1) as [rs st2]. by exists D', k2.
Qed.

(** What is handed over is a prefix of the frames, and all of them once a call
    asks for more input. *)
Lemma advances_prefix I D k d rest :
  advances max false I D k d rest -> D `prefix_of` Framing.frames max I.
Proof.
  intros Ha. destruct (Ha []) as (E & _ & _). rewrite !app_nil_r in E.
  exists (Framing.frames_from max d [] rest). done.
Qed.

Lemma advances_all I D k d rest :
  advances max false I D k d rest -> no_nul rest ->
  (if d then rest = [] else (Z.of_nat (length rest) <= max)%Z) ->
  D = Framing.frames max I /\ k = Framing.overlong max I
  /\ Framing.last_from max false [] I = (if (length rest =? 0)%nat then [] else [rest]).
Proof.
  intros Ha Hn Hd. destruct (Ha []) as (E1 & E2 & E3). rewrite !app_nil_r in E1, E2, E3.
  unfold Framing.frames, Framing.overlong. rewrite E1, E2, E3.
  destruct (scan_app max d [] rest [] Hn) as (F1 & F2 & F3).
  rewrite !app_nil_r in F1, F2, F3. rewrite F1, F2, F3. simpl.
  rewrite app_nil_r. split; [done|]. destruct d.
  - subst rest. simpl. auto with lia.
  - assert (Hf : Framing.fits max rest = true) by (unfold Framing.fits; by apply Z.leb_le).
    rewrite Hf. simpl. destruct (length rest =? 0)%nat; auto with lia.
Qed.

(** *** The end of the stream *)

(** At the end of the stream the decoder is either still scanning, or it has
    handed over the last frame and its buffer is empty. *)
Definition at_eof (I : Bytes) (D : list Bytes) (st : TcpState R) : Prop :=
  (exists k, reached I D k st)
  \/ (D = Framing.frames_eof max I
      /\ exists k d r, st = tcp max 0 d r [] /\ tracks D k r).

(** An empty buffer holds no frame. *)
Lemma decode_empty d r :
  exists k d', tcp_decode (tcp max 0 d r []) = (Ok None, tcp max 0 d' (bumps k r) []).
Proof.
  destruct (tcp_decode_decoded max Hmax 0 d r []) as [k f rest Ha|k d' rest Ha Hn Hd].
  - simpl. lia.
  - apply not_elem_of_nil.
  - destruct (Ha []) as (E & _ & _). done.
  - destruct d'; [subst; by eexists _, _|].
    destruct (Ha []) as (_ & _ & E3). rewrite !app_nil_r in E3.
    destruct (scan_app max false [] rest [] Hn) as (_ & _ & F3).
    rewrite !app_nil_r in F3. rewrite F3 in E3.
    assert (Hf : Framing.fits max rest = true) by (unfold Framing.fits; by apply Z.leb_le).
    destruct rest as [|b rest]; [by eexists _, _|].
    simpl in E3. rewrite Hf in E3. simpl in E3.
    destruct (negb d && _ && _); discriminate.
Qed.

Lemma at_eof_prefix I D st :
  at_eof I D st -> D `prefix_of` Framing.frames_eof max I.
Proof.
  intros [[k (rh & d & buf & r & _ & _ & Ha & _)]|[-> _]]; [|done].
  unfold Framing.frames_eof. apply prefix_app_r. by eapply advances_prefix.
Qed.

Lemma tcp_decode_eof_eq st :
  tcp_decode_eof st =
    match tcp_decode st with
    | (Ok None, st1) =>
        if (length (tcp_src st1) =? 0)%nat then (Ok None, st1)
        else
          (let! src := on_src (split_to (length (tcp_src st1))) in
           set_read_head 0 ;;;
           call_receive src) st1
    | (r, st1) => (r, st1)
    end.
Proof.
  unfold tcp_decode_eof, m_bind at 1. destruct (tcp_decode st) as [[[frame|]|e|w] st1]; try done.
  unfold m_bind at 1, m_get. by destruct (length (tcp_src st1) =? 0)%nat.
Qed.

(** A call of [decode_eof] hands over the next frame, or all have been. *)
Lemma at_eof_step I D st :
  at_eof I D st ->
  (exists f, at_eof I (D ++ [f]) (tcp_decode_eof st).2
     /\ (tcp_decode_eof st).1 = into_received (receive f (receive_all D r0).2).1)
  \/ (D = Framing.frames_eof max I /\ (tcp_decode_eof st).1 = Ok None
      /\ at_eof I D (tcp_decode_eof st).2).
Proof.
  rewrite tcp_decode_eof_eq. intros [[k Hr]|(HD & k & d & r & -> & Ht)].
  - destruct (reached_poll I D k st Hr)
      as [(f & k' & Hr' & Hem)|(k' & d & r & rest & Hst & Ht & Hr' & Ha & Hn & Hd)].
    + left. exists f. destruct (tcp_decode st) as [[[frame|]|e|w] st1];
        cbn [fst snd] in *; [|by destruct (receive f _).1 as [[]| |]|..];
        (split; [left; by exists k'|exact Hem]).
    + destruct (advances_all I D k' d rest Ha Hn Hd) as (HD & _ & Hlast).
      rewrite Hst in Hr' |- *. cbn [fst snd tcp tcp_src] in *.
      destruct (Nat.eqb_spec (length rest) 0) as [Hz|Hz].
      * right. simpl. unfold Framing.frames_eof. rewrite <- HD, Hlast, app_nil_r.
        split; [done|]. split; [done|]. left. by exists k'.
      * left. exists rest. unfold m_bind, on_src, m_zoom. cbn [tcp tcp_src].
        rewrite split_to_ok, firstn_all, drop_all by done.
        unfold set_read_head, m_modify, call_receive.
        cbn [tcp tcp_dec tcp_src max_size_bytes read_head discarding receive_state].
        rewrite <- (tracks_result D k' rest r Ht).
        pose proof (tracks_receive D k' rest r Ht) as Ht'.
        destruct (receive rest r) as [x r1]. cbn [fst snd] in *.
        split; [|done]. right. unfold Framing.frames_eof. rewrite <- HD, Hlast.
        split; [done|]. by exists k', d, r1.
  - right. split; [done|].
    destruct (decode_empty d r) as (k2 & d2 & ->). simpl. split; [done|]. right.
    split; [done|]. exists (k + k2)%nat, d2, (bumps k2 r). split; [done|].
    by apply tracks_bumps.
Qed.

Lemma run_eof_all n I D st :
  at_eof I D st -> (length (Framing.frames_eof max I) <= length D + n)%nat ->
  (receive_all D r0).1 ++ (run_eof n st).1 = (receive_all (Framing.frames_eof max I) r0).1.
Proof.
  revert D st. induction n as [|n IH]; intros D st Hat Hlen.
  - simpl. rewrite app_nil_r. pose proof (at_eof_prefix _ _ _ Hat) as Hp.
    assert (HD : D = Framing.frames_eof max I) by (apply prefix_length_eq; [done|lia]).
    by rewrite <- HD.
  - cbn [run_eof]. destruct (at_eof_step I D st Hat)
      as [(f & Hat' & Hem)|(HD & Hnone & Hat')];
      destruct (tcp_decode_eof st) as [x st1]; cbn [fst snd] in *.
    + specialize (IH (D ++ [f]) st1 Hat'). rewrite length_app in IH. simpl in IH.
      destruct (run_eof n st1) as [rs st2]. cbn [fst] in *.
      rewrite <- IH by lia. rewrite receive_all_snoc, Hem, emitted_into_received.
      simpl. by rewrite <- app_assoc.
    + specialize (IH D st1 Hat'). destruct (run_eof n st1) as [rs st2]. cbn [fst] in *.
      rewrite Hnone. apply IH. rewrite <- HD. lia.
Qed.
End Schedules.

(** ** A receiver that records *)

(** The frames it was given, all taken for messages, with the statics. *)
Record Recorder := mkRecorder { recorded : list Bytes; recorder_globals : Globals }.

#[export, refine] Instance Recorder_Statics : Statics Recorder := {|
  globals_of := recorder_globals;
  on_globals f r := mkRecorder (recorded r) (f (recorder_globals r))
|}.
Proof. all: solve_statics. Defined.
#[export] Instance Recorder_Receiver : Receiver Recorder := {|
  receive bs r :=
    (Ok (Some (mkMessage (Single None bs))),
     mkRecorder (recorded r ++ [bs]) (recorder_globals r))
|}.
#[export] Instance Recorder_laws : ReceiverLaws Recorder.
Proof. by split. Qed.
#[export] Instance Recorder_ReceiverStatics : ReceiverStatics Recorder.
Proof.
  split. unfold same_state, with_statics. intros bs [fs g] [fs' g'] [= ->]. done.
Qed.

(** ** Properties *)

Section Properties.
Context {R : Type} `{ReceiverLaws R} `{BytesApi}.

(** C6: however a stream is divided over reads, and whenever the decoder is
    called, it hands [receive] the null-terminated frames of the stream, in
    order and once each, without those above the size limit; once it asks for
    more input all the complete frames have been handed over, and each
    frame above the limit has been counted once. *)
Theorem framing_any_schedule (max : Z) (r0 : R) (ops : list op) :
  (0 <= max <= usize_max)%Z ->
  let '(outs, st) := run ops (mkTcp (Decode_new max r0) []) in
  exists frames k,
    frames `prefix_of` Framing.frames max (fed ops)
    /\ outs = (receive_all frames r0).1
    /\ receive_state (tcp_dec st) = bumps k (receive_all frames r0).2
    /\ ((tcp_decode st).1 = Ok None ->
        frames = Framing.frames max (fed ops)
        /\ receive_state (tcp_dec (tcp_decode st).2)
           = bumps (Framing.overlong max (fed ops)) (receive_all frames r0).2).
Proof.
  intros Hmax.
  destruct (reached_run max Hmax r0 (tracks_exactly r0) ops [] [] 0 _ (reached_new max r0 _))
    as (D & k & Hr & Hout).
  destruct (run ops _) as [outs st]. cbn [fst snd app receive_all] in *. exists D, k.
  pose proof Hr as (rh & d & buf & r & Hst & Ht & Ha & _).
  split; [by eapply advances_prefix|]. split; [done|]. split; [by rewrite Hst|].
  intros Hnone. destruct (reached_poll max Hmax r0 _ _ D k st Hr)
    as [(f & k' & _ & Hem)|(k' & d' & r' & rest & -> & Ht' & _ & Ha' & Hn & Hd)].
  - rewrite Hnone in Hem. by destruct (receive f _).1 as [[]| |].
  - destruct (advances_all max _ D k' d' rest Ha' Hn Hd) as (-> & -> & _). by rewrite Ht'.
Qed.

(** C11: when a stream ends, every frame has been handed over after as many
    calls as there are frames, the last one also when it is not terminated
    (unless it is empty or above the limit). *)
Theorem framing_at_eof (max : Z) (r0 : R) (ops : list op) (n : nat) :
  (0 <= max <= usize_max)%Z ->
  (length (Framing.frames_eof max (fed ops)) <= n)%nat ->
  let '(outs, st) := run ops (mkTcp (Decode_new max r0) []) in
  outs ++ (run_eof n st).1 = (receive_all (Framing.frames_eof max (fed ops)) r0).1.
Proof.
  intros Hmax Hn.
  destruct (reached_run max Hmax r0 (tracks_exactly r0) ops [] [] 0 _ (reached_new max r0 _))
    as (D & k & Hr & Hout).
  destruct (run ops _) as [outs st]. cbn [fst snd app receive_all] in *. rewrite Hout.
  apply (run_eof_all max Hmax r0 (tracks_exactly r0)); [left; by exists k|lia].
Qed.

(** A call of the decoder ends, is never an error of its own, and when it
    asks for more input it keeps at most the size limit of the stream. *)
Lemma tcp_decode_bounded (max : Z) (r0 : R) (ops : list op) :
  (0 <= max <= usize_max)%Z ->
  let '(r, st) := tcp_decode (run ops (mkTcp (Decode_new max r0) [])).2 in
  (r = Ok None /\ (Z.of_nat (length (tcp_src st)) <= max)%Z) \/
  (exists f r', r = into_received (receive f r').1).
Proof.
  intros Hmax.
  destruct (reached_run max Hmax r0 (tracks_exactly r0) ops [] [] 0 _ (reached_new max r0 _))
    as (D & k & (rh & d & buf & r & Hst & _ & _ & Hrh & Hn) & _).
  cbn [app] in Hst. rewrite Hst.
  destruct (tcp_decode_decoded max Hmax rh d r buf Hrh Hn)
    as [k' f rest _ _ _|k' d' rest _ _ Hrest].
  - right. by eexists _, _.
  - left. split; [done|]. simpl. destruct d'; [rewrite Hrest; simpl; lia|done].
Qed.
End Properties.

(** ** Witnesses *)

Section Witnesses.
#[local] Existing Instance bytes_model.

(** "a0bb", then "c00d" with a limit of one byte: [bb] and the [c] that its
    read starts with are one frame, which is too long. *)
Definition sample_ops : list op :=
  [Feed [Byte.x61; Byte.x00; Byte.x62; Byte.x62]; Call; Call;
   Feed [Byte.x63; Byte.x00; Byte.x00; Byte.x64]; Call; Call].

Definition recorder : Recorder := mkRecorder [] Globals_initial.

Lemma framing_any_schedule_witness :
  let '(outs, st) := run sample_ops (mkTcp (Decode_new 1 recorder) []) in
  recorded (receive_state (tcp_dec st)) = [[Byte.x61]; []] /\
  exists frames, frames `prefix_of` Framing.frames 1 (fed sample_ops)
    /\ outs = (receive_all frames recorder).1.
Proof.
  pose proof (framing_any_schedule 1 recorder sample_ops ltac:(done)) as Hf.
  assert (E : recorded (receive_state (tcp_dec (run sample_ops
    (mkTcp (Decode_new 1 recorder) [])).2)) = [[Byte.x61]; []]) by (vm_compute; reflexivity).
  destruct (run _ _) as [outs st]. split; [exact E|].
  destruct Hf as (frames & k & Hp & Ho & _). by exists frames.
Defined.

Lemma framing_at_eof_witness :
  let '(outs, st) := run sample_ops (mkTcp (Decode_new 1 recorder) []) in
  outs ++ (run_eof 3 st).1 = (receive_all [[Byte.x61]; []; [Byte.x64]] recorder).1.
Proof.
  apply (framing_at_eof 1 recorder sample_ops 3); [done|].
  apply (bool_decide_unpack _). vm_compute. exact I.
Defined.

Lemma tcp_decode_bounded_example :
  (Z.of_nat (length (tcp_src (tcp_decode (run sample_ops
     (mkTcp (Decode_new 1 recorder) [])).2).2)) <= 1)%Z.
Proof.
  pose proof (tcp_decode_bounded 1 recorder sample_ops ltac:(done)) as Hb.
  assert (E : (tcp_decode (run sample_ops (mkTcp (Decode_new 1 recorder) [])).2).1 = Ok None)
    by (vm_compute; reflexivity).
  destruct (tcp_decode _) as [r st]. simpl in E. subst r.
  destruct Hb as [[_ Hb]|(f & r' & Hb)]; [exact Hb|].
  by destruct (receive f r').1 as [[]| |].
Defined.
End Witnesses.
