(* ===== verification/Connection.v ===== *)
(** A TCP connection as a stream: the frame decoder of [sqelf/src/server/tcp.rs]
    under [FramedRead], and what the stream gives of what its peer sends. *)

From S2P Require Import Prelude Diagnostics Io Message Received Stream Framed.
From S2P Require Import TcpDecode TcpFraming.

(** ** The decoder and the stream *)

Section Instances.
Context {R : Type} `{Receiver R} `{BytesApi}.

(** [impl Decoder for Decode]. *)
#[export] Instance Decode_Decoder : Decoder (TcpState R) Received := {|
  decoder_decode := tcp_decode;
  decoder_decode_eof := tcp_decode_eof;
  buffer_extend := feed
|}.

#[export, refine] Instance TcpState_Statics : Statics (TcpState R) := {|
  globals_of st := globals_of (receive_state (tcp_dec st));
  on_globals f st :=
    let d := tcp_dec st in
    mkTcp (mkDecode (max_size_bytes d) (read_head d) (discarding d)
             (on_globals f (receive_state d))) (tcp_src st)
|}.
Proof.
  - intros f st. apply globals_of_on.
  - intros f f' st E. simpl. by rewrite (on_globals_ext f f' _ E).
  - intros [[] ?]. simpl. by rewrite on_globals_id.
  - intros f f' st. simpl. by rewrite on_globals_comp.
Defined.
End Instances.

Section Framed.
Context {So D Item : Type} `{FramedReadApi So D Item} `{Statics D}.

#[export, refine] Instance FramedRead_Statics : Statics (FramedRead So D) := {|
  globals_of fr := globals_of (fr_decoder fr);
  on_globals f fr := mkFramed (fr_io fr) (on_globals f (fr_decoder fr)) (fr_phase fr)
|}.
Proof.
  - intros f fr. apply globals_of_on.
  - intros f f' fr E. simpl. by rewrite (on_globals_ext f f' _ E).
  - intros []. simpl. by rewrite on_globals_id.
  - intros f f' fr. simpl. by rewrite on_globals_comp.
Defined.

#[export] Instance FramedRead_Stream : Stream (FramedRead So D) (Item + error) := {|
  poll_input := list (read_input So);
  poll_next inputs fr := share (FramedRead_poll_next inputs) fr
|}.
End Framed.

(** ** What a connection gives *)

Section Connection.
Context {R So : Type} `{ReceiverStatics R} `{BytesApi} `{AsyncReadSpec So}
  `{!FramedReadApi So (TcpState R) Received}.
Context (limit : Z) (Hlimit : (0 <= limit <= usize_max)%Z) (r0 : R).

Abbreviation conn := (FramedRead So (TcpState R)).
Abbreviation reached := (reached limit (tracks_state r0)).
Abbreviation at_eof := (at_eof limit (tracks_state r0)).

(** A connection whose decoder has handed over the frames [D] of the bytes
    [I] that were read. *)
Definition decoder_at (I : Bytes) (D : list Bytes) (fr : conn) : Prop :=
  match fr_phase fr with
  | Reading =>
      (exists k, reached I D k (fr_decoder fr)) /\ D = Framing.frames limit I /\
      (Z.of_nat (length (tcp_src (fr_decoder fr))) <= limit)%Z
  | Decoding => exists k, reached I D k (fr_decoder fr)
  | AtEof => at_eof I D (fr_decoder fr)
  | Failed => D = Framing.frames limit I
  | Finished => D `prefix_of` Framing.frames_eof limit I
  end.

(** ... out of [c], which its socket delivers. *)
Definition conn_at (c I : Bytes) (D : list Bytes) (fr : conn) : Prop :=
  (exists c', c = I ++ c' /\ delivers (fr_io fr) c') /\ decoder_at I D fr.

Lemma reached_with_statics I D k st g :
  reached I D k st -> reached I D k (with_statics g st).
Proof.
  intros (rh & d & buf & r & -> & Ht & ?). exists rh, d, buf, (with_statics g r).
  split; [done|]. split; [|done]. unfold tracks_state in *. by rewrite same_state_with.
Qed.

Lemma conn_at_with_statics c I D fr g :
  conn_at c I D fr -> conn_at c I D (with_statics g fr).
Proof.
  intros [Hc Hd]. split; [done|]. unfold decoder_at in *. simpl fr_phase. simpl fr_decoder.
  destruct (fr_phase fr); [..|done|done].
  - destruct Hd as ([k Hd] & ? & ?). split; [|done]. exists k. by apply reached_with_statics.
  - destruct Hd as [k Hd]. exists k. by apply reached_with_statics.
  - destruct Hd as [[k Hd]|(HD & k & d & r & E & Ht)].
    + left. exists k. by apply reached_with_statics.
    + right. split; [done|]. exists k, d, (with_statics g r). split; [by rewrite E|].
      unfold tracks_state in *. by rewrite same_state_with.
Qed.

Lemma decoder_at_prefix I D fr : decoder_at I D fr -> D `prefix_of` Framing.frames_eof limit I.
Proof.
  unfold decoder_at. destruct (fr_phase fr); [..|done].
  - intros (_ & -> & _). by apply prefix_app_r.
  - intros [k Hr]. eapply at_eof_prefix. left. by exists k.
  - apply at_eof_prefix.
  - intros ->. by apply prefix_app_r.
Qed.

(** What a poll that returns [r] does to a connection. *)
Definition polled_to (c : Bytes) (D : list Bytes) (was : phase)
    (r : res (Poll (option (Received + error)))) (fr' : conn) : Prop :=
  match r with
  | Ok Pending => was <> Failed /\ exists I', conn_at c I' D fr' /\ fr_phase fr' = Reading
  | Ok (Ready (Some (inl x))) =>
      was <> Failed /\ exists I' f, conn_at c I' (D ++ [f]) fr' /\
        into_received (receive f (receive_all D r0).2).1 = Ok (Some x) /\
        fr_phase fr' <> Failed /\ fr_phase fr' <> Finished
  | Ok (Ready (Some (inr _))) =>
      was <> Failed /\ exists I', conn_at c I' D fr' /\ fr_phase fr' = Failed
  | Ok (Ready None) =>
      exists I', I' `prefix_of` c /\ D `prefix_of` Framing.frames_eof limit I' /\
        (was <> Failed -> D = Framing.frames_eof limit I')
  | _ => True
  end.

Lemma into_received_not_err (r : res (option Message)) e : into_received r <> Err e.
Proof. by destruct r as [[]| |]. Qed.
Lemma into_received_not_none (r : res (option Message)) : into_received r <> Ok None.
Proof. by destruct r as [[]| |]. Qed.

(** A call of [decode] on a connection that may hold a frame. *)
Lemma decode_at c I D io d :
  conn_at c I D (mkFramed io d Decoding) ->
  match decoder_decode d with
  | (Ok (Some x), d') =>
      exists f, conn_at c I (D ++ [f]) (mkFramed io d' Decoding) /\
        into_received (receive f (receive_all D r0).2).1 = Ok (Some x)
  | (Ok None, d') => conn_at c I D (mkFramed io d' Reading)
  | (Err _, _) => False
  | (Panic _, _) => True
  end.
Proof.
  intros [Hc [k Hr]]. simpl in Hr |- *.
  destruct (reached_poll limit Hlimit r0 _ I D k d Hr)
    as [(f & k' & Hr' & Hx)|(k' & b & r & rest & E & Ht & Hr' & Ha & Hn & Hb)].
  - destruct (tcp_decode d) as [[[x|]|e|w] d']; cbn [fst snd] in *.
    + exists f. split; [|by rewrite Hx]. split; [done|]. by exists k'.
    + symmetry in Hx. by apply into_received_not_none in Hx.
    + symmetry in Hx. by apply into_received_not_err in Hx.
    + done.
  - destruct (advances_all limit I D k' b rest Ha Hn Hb) as (HD & _ & _).
    rewrite E in Hr' |- *. split; [done|]. split; [by exists k'|]. split; [done|]. simpl.
    destruct b; [subst rest; simpl; lia|done].
Qed.

(** A call of [decode_eof]. *)
Lemma decode_eof_at c I D io d :
  conn_at c I D (mkFramed io d AtEof) ->
  match decoder_decode_eof d with
  | (Ok (Some x), d') =>
      exists f, conn_at c I (D ++ [f]) (mkFramed io d' AtEof) /\
        into_received (receive f (receive_all D r0).2).1 = Ok (Some x)
  | (Ok None, d') => D = Framing.frames_eof limit I
  | (Err _, _) => False
  | (Panic _, _) => True
  end.
Proof.
  intros [Hc Hd]. simpl in *.
  destruct (at_eof_step limit Hlimit r0 _ I D d Hd) as [(f & Hd' & Hx)|(HD & Hx & _)].
  - destruct (tcp_decode_eof d) as [[[x|]|e|w] d']; cbn [fst snd] in *.
    + exists f. split; [|by rewrite Hx]. by split.
    + symmetry in Hx. by apply into_received_not_none in Hx.
    + symmetry in Hx. by apply into_received_not_err in Hx.
    + done.
  - destruct (tcp_decode_eof d) as [x d']. simpl in Hx. by subst x.
Qed.

Lemma polled_to_was c D was was' r fr' :
  was <> Failed -> was' <> Failed -> polled_to c D was r fr' -> polled_to c D was' r fr'.
Proof. destruct r as [[[[]|]|]| |]; simpl; naive_solver. Qed.

Lemma framed_polls_at inputs fr r fr' c I D :
  framed_polls inputs fr r fr' -> conn_at c I D fr -> fr_phase fr <> Finished ->
  polled_to c D (fr_phase fr) r fr'.
Proof.
  intros Hp. revert I D.
  induction Hp as [io d|i inputs io io' d Er|i inputs io io' b d r fr' Er Hb _ IH
    |i inputs io io' d r fr' Er _ IH|i inputs io io' e d Er|inputs io d d' x Ed
    |inputs io d d' r fr' Ed _ IH|inputs io d d' e Ed|inputs io d d' w Ed
    |inputs io d d' x Ed|inputs io d d' Ed|inputs io d d' e Ed|inputs io d d' w Ed
    |inputs io d|inputs io d r fr']; intros I D Hat Hlive; cbn [fr_phase] in *.
  - split; [done|]. by exists I.
  - split; [done|]. exists I. split; [|done].
    destruct Hat as [(c' & -> & Hc) Hd]. split; [|done].
    pose proof (poll_read_spec i io c' Hc) as Hs. rewrite Er in Hs. eauto.
  - destruct Hat as [(c' & -> & Hc) ([k Hr] & _)].
    pose proof (poll_read_spec i io c' Hc) as Hs. rewrite Er in Hs.
    destruct Hs as (c2 & -> & Hc2).
    eapply (polled_to_was _ _ Decoding); [done|done|]. apply (IH (I ++ b)); [|done].
    split; [exists c2; by rewrite app_assoc|]. exists k. by apply reached_feed.
  - destruct Hat as [(c' & -> & Hc) (Hr & _)].
    pose proof (poll_read_spec i io c' Hc) as Hs. rewrite Er in Hs.
    destruct Hs as (c2 & -> & Hc2).
    eapply (polled_to_was _ _ AtEof); [done|done|]. apply (IH I); [|done].
    split; [by exists c2|]. by left.
  - split; [done|]. exists I. split; [|done].
    destruct Hat as [(c' & -> & Hc) (_ & -> & _)].
    pose proof (poll_read_spec i io c' Hc) as Hs. rewrite Er in Hs.
    by split; [exists c'|].
  - pose proof (decode_at c I D io d Hat) as Hd. rewrite Ed in Hd.
    destruct Hd as (f & Hd & Hx). split; [done|]. by exists I, f.
  - pose proof (decode_at c I D io d Hat) as Hd. rewrite Ed in Hd.
    eapply (polled_to_was _ _ Reading); [done|done|]. by apply (IH I).
  - pose proof (decode_at c I D io d Hat) as Hd. by rewrite Ed in Hd.
  - done.
  - pose proof (decode_eof_at c I D io d Hat) as Hd. rewrite Ed in Hd.
    destruct Hd as (f & Hd & Hx). split; [done|]. by exists I, f.
  - pose proof (decode_eof_at c I D io d Hat) as Hd. rewrite Ed in Hd.
    destruct Hat as [(c' & -> & _) _]. exists I. split; [by exists c'|].
    split; [by rewrite Hd|done].
  - pose proof (decode_eof_at c I D io d Hat) as Hd. by rewrite Ed in Hd.
  - done.
  - destruct Hat as [(c' & -> & _) Hd]. exists I. split; [by exists c'|].
    split; [rewrite Hd; by apply prefix_app_r|done].
  - done.
Qed.

Lemma conn_at_new so c :
  delivers so c -> conn_at c [] [] (FramedRead_new so (mkTcp (Decode_new limit r0) [])).
Proof.
  intros Hc. split; [by exists c|]. split; [exists 0%nat; apply (reached_new limit r0 (tracks_state r0))|].
  split; [done|]. simpl. lia.
Qed.

(** The items of a connection whose decoder has handed over the frames [D]:
    what the receiver makes of them, and then the error it broke with, if any. *)
Definition items_of (D : list Bytes) (err : option error) (items : list (Received + error)) :
    Prop :=
  exists xs, ((fun x => Ok (Some x)) <$> xs) = (receive_all D r0).1 /\
    items = (inl <$> xs) ++ (inr <$> option_list err).

Lemma items_of_snoc D f x items :
  items_of D None items -> into_received (receive f (receive_all D r0).2).1 = Ok (Some x) ->
  items_of (D ++ [f]) None (items ++ [inl x]).
Proof.
  intros (xs & Exs & ->) Hx. exists (xs ++ [x]).
  rewrite receive_all_snoc, Hx, fmap_app, <- Exs. split; [done|].
  simpl. by rewrite fmap_app, !app_nil_r.
Qed.

Lemma items_of_err D e items :
  items_of D None items -> items_of D (Some e) (items ++ [inr e]).
Proof. intros (xs & Exs & ->). exists xs. by rewrite app_nil_r. Qed.

(** What a connection may have given, by what it is now. *)
Definition conn_gives (c : Bytes) (items : list (Received + error)) (o : option conn) : Prop :=
  match o with
  | Some fr =>
      exists I D err, conn_at c I D fr /\ items_of D err items /\
        (err = None <-> fr_phase fr <> Failed) /\ fr_phase fr <> Finished
  | None =>
      exists I D err, I `prefix_of` c /\ D `prefix_of` Framing.frames_eof limit I /\
        items_of D err items /\ (err = None -> D = Framing.frames_eof limit I)
  end.

Lemma gives_conn so c items o :
  delivers so c ->
  gives (FramedRead_new so (mkTcp (Decode_new limit r0) [])) items o ->
  conn_gives c items o.
Proof.
  intros Hc [polls Hp]. induction Hp as [|polls items fr i g fr' g' _ IH E
    |polls items fr i g x fr' g' _ IH E|polls items fr i g fr' g' _ IH E].
  { exists [], [], None. split; [by apply conn_at_new|].
    split; [by exists []|]. done. }
  all: apply share_ok in E; destruct IH as (I & D & err & Hat & Hit & Herr & Hfin).
  all: pose proof (FramedRead_poll_next_spec i (with_statics g fr)) as Hp; rewrite E in Hp.
  all: apply (framed_polls_at _ _ _ _ c I D) in Hp;
    [|by apply conn_at_with_statics|done]; simpl in Hp.
  - destruct Hp as (Hw & I' & Hat' & Hph). exists I', D, err. rewrite Hph.
    split; [done|]. split; [done|]. split; [|done]. split; [done|]. intros _. by apply Herr.
  - destruct x as [x|e].
    + destruct Hp as (Hw & I' & f & Hat' & Hx & Hnf & Hnfin).
      assert (err = None) as -> by by apply Herr.
      exists I', (D ++ [f]), None. split; [done|].
      split; [by apply items_of_snoc|]. done.
    + destruct Hp as (Hw & I' & Hat' & Hph). assert (err = None) as -> by by apply Herr.
      exists I', D, (Some e). rewrite Hph. split; [done|].
      split; [by apply items_of_err|]. split; [|done]. by split.
  - destruct Hp as (I' & HI & HD & Hend). exists I', D, err. split; [done|].
    split; [done|]. split; [done|]. intros Hn. apply Hend. by apply Herr.
Qed.

(** A poll that finds nothing: all the complete frames of what was read have been
    given, and the connection reads on. *)
Lemma pending_all so c (items : list (Received + error)) (fr fr' : conn)
    (i : list (read_input So)) g g' :
  delivers so c ->
  gives (FramedRead_new so (mkTcp (Decode_new limit r0) [])) items (Some fr) ->
  poll_next i fr g = (Ok (Pending, fr'), g') ->
  exists I, conn_at c I (Framing.frames limit I) fr' /\ fr_phase fr' = Reading /\
    items_of (Framing.frames limit I) None items.
Proof.
  intros Hc Hg E.
  destruct (gives_conn so c items (Some fr) Hc Hg) as (I & D & err & Hat & Hi & Herr & Hfin).
  apply share_ok in E. pose proof (FramedRead_poll_next_spec i (with_statics g fr)) as Hp.
  rewrite E in Hp. apply (framed_polls_at _ _ _ _ c I D) in Hp;
    [|by apply conn_at_with_statics|done]. destruct Hp as (Hw & I' & Hat' & Hph).
  assert (err = None) as -> by by apply Herr.
  assert (D = Framing.frames limit I') as ->.
  { destruct Hat' as [_ Hd]. unfold decoder_at in Hd. rewrite Hph in Hd. apply Hd. }
  by exists I'.
Qed.

End Connection.

(** ** A witness *)

Section Witnesses.
#[local] Existing Instance bytes_model.
#[local] Instance recorder_framed : FramedReadApi Socket (TcpState Recorder) Received := framed_model.

(** The peer sends "a0b0c"; four bytes arrive at once. *)
Definition sample_socket : Socket :=
  mkSocket [Byte.x61; Byte.x00; Byte.x62; Byte.x00; Byte.x63].
Definition sample_conn : FramedRead Socket (TcpState Recorder) :=
  FramedRead_new sample_socket (mkTcp (Decode_new 1 recorder) []).

Definition sample_read : list (read_input Socket) := [Arrived 3].
Definition sample_idle : list (read_input Socket) := [NotReady].

(** Two polls give the two frames, and a third finds nothing. *)
Definition sample_polled (n : nat) : FramedRead Socket (TcpState Recorder) :=
  Nat.iter n (fun fr => (FramedRead_poll_next sample_read (with_statics Globals_initial fr)).2)
    sample_conn.

End Witnesses.
