(* ===== verification/Json.v ===== *)
(** [serde_json::Value] as the program uses it: the type, the accessors the
    program calls, and the byte order of the string keys of an object. The
    representation of numbers is the crate's own. *)

From S2P Require Import Prelude BTree.

(** The lexicographic byte order of [str]. *)
#[export, refine] Instance string_key_order : KeyOrder string := {|
  key_ltb a b := negb (String.leb b a)
|}.
Proof.
  - intros a. apply negb_false_iff. apply Is_true_true. change (String.le a a). done.
  - intros a b c Hab Hbc. apply negb_true_iff in Hab, Hbc. apply negb_true_iff.
    apply not_true_is_false. intros Hca%Is_true_true.
    destruct (String.leb_total a b) as [Hab'|?]; [|congruence].
    apply Is_true_true in Hab'.
    assert (Hcb : String.le c b) by (etrans; [exact Hca|exact Hab']).
    apply Is_true_true in Hcb. congruence.
  - intros a b Hab Hba. apply negb_false_iff in Hab, Hba.
    by apply String.leb_antisym.
Defined.

Section Value.
Context {Number : Type}.

(** [serde_json::Value]. An object is a [BTreeMap] (the [preserve_order]
    feature is off), so it is iterated in key order. *)
#[warnings="-register-all"]
Inductive Value :=
| VNull
| VBool (b : bool)
| VNumber (n : Number)
| VString (s : string)
| VArray (elements : list Value)
| VObject (members : BTreeMap string Value).

(** [Value::as_str]. *)
Definition Value_as_str (v : Value) : option string :=
  match v with VString s => Some s | _ => None end.
End Value.
Arguments Value : clear implicits.

(** [impl From<u32> for Value]: the crate's representation of the number. *)
Class JsonNumber (Number : Type) := { Number_from_u32 : Z -> Number }.

(** Numbers as integers, for evaluation on concrete inputs. *)
Definition Z_json_number : JsonNumber Z := {| Number_from_u32 z := z |}.
