(* ===== verification/Utf8.v ===== *)
(** UTF-8 as the Rust standard library checks it: [String::from_utf8], which
    [Read::read_to_string] applies, and [String::from_utf8_lossy]. *)

From S2P Require Import Prelude.

Section Utf8.
(** A byte in a range of byte values. *)
Definition in_range (lo hi : Z) (b : byte) : bool := (lo <=? u8 b)%Z && (u8 b <=? hi)%Z.
Definition is_cont : byte -> bool := in_range 128 191.

(** The bytes a lead byte asks for: a test per continuation byte; [None] when
    no sequence starts with the byte. *)
Definition utf8_tail (lead : byte) : option (list (byte -> bool)) :=
  if in_range 0 127 lead then Some []
  else if in_range 194 223 lead then Some [is_cont]
  else if in_range 224 224 lead then Some [in_range 160 191; is_cont]
  else if in_range 225 236 lead then Some [is_cont; is_cont]
  else if in_range 237 237 lead then Some [in_range 128 159; is_cont]
  else if in_range 238 239 lead then Some [is_cont; is_cont]
  else if in_range 240 240 lead then Some [in_range 144 191; is_cont; is_cont]
  else if in_range 241 243 lead then Some [is_cont; is_cont; is_cont]
  else if in_range 244 244 lead then Some [in_range 128 143; is_cont; is_cont]
  else None.

(** The continuation bytes of [bs] that the tests accept, in order, what
    follows them, and whether all the tests were met. *)
Fixpoint utf8_take (tests : list (byte -> bool)) (bs : Bytes) : bool * Bytes * Bytes :=
  match tests with
  | [] => (true, [], bs)
  | test :: tests' =>
      match bs with
      | [] => (false, [], [])
      | b :: bs' =>
          if test b then
            let '(ok, taken, rest) := utf8_take tests' bs' in (ok, b :: taken, rest)
          else (false, [], bs)
      end
  end.

(** One step over a byte string: whether a character or an ill-formed
    sequence is at its front, that sequence, and the rest. *)
Definition utf8_step (b : byte) (bs : Bytes) : bool * Bytes * Bytes :=
  match utf8_tail b with
  | None => (false, [b], bs)
  | Some tests =>
      let '(ok, taken, rest) := utf8_take tests bs in (ok, b :: taken, rest)
  end.

(** U+FFFD. *)
Definition replacement : Bytes := byte_of_u8 <$> [239; 191; 189]%Z.

(** The pieces of a byte string; [fuel] is its length. *)
Fixpoint utf8_chunks (fuel : nat) (bs : Bytes) : list (bool * Bytes) :=
  match fuel, bs with
  | S fuel', b :: bs' =>
      let '(ok, piece, rest) := utf8_step b bs' in (ok, piece) :: utf8_chunks fuel' rest
  | _, _ => []
  end.

Definition utf8_valid (bs : Bytes) : bool :=
  forallb fst (utf8_chunks (length bs) bs).

(** [String::from_utf8]. *)
Definition from_utf8 (bs : Bytes) : option string :=
  if utf8_valid bs then Some (String.string_of_list_byte bs) else None.

(** [String::from_utf8_lossy]. *)
Definition from_utf8_lossy (bs : Bytes) : string :=
  String.string_of_list_byte
    (concat ((fun '(ok, piece) => if ok : bool then piece else replacement)
               <$> utf8_chunks (length bs) bs)).

Lemma utf8_take_app tests bs ok taken rest :
  utf8_take tests bs = (ok, taken, rest) -> bs = taken ++ rest.
Proof.
  revert bs ok taken rest. induction tests as [|t tests IH]; intros [|b bs] ok taken rest E;
    simpl in E; try (by simplify_eq).
  destruct (t b); [|by simplify_eq].
  destruct (utf8_take tests bs) as [[ok' taken'] rest'] eqn:E'. simplify_eq.
  simpl. f_equal. by eapply IH.
Qed.

Lemma utf8_step_app b bs ok piece rest :
  utf8_step b bs = (ok, piece, rest) -> b :: bs = piece ++ rest /\ piece <> [].
Proof.
  unfold utf8_step. destruct (utf8_tail b) as [tests|]; [|by intros; simplify_eq].
  destruct (utf8_take tests bs) as [[ok' taken'] rest'] eqn:E. intros. simplify_eq.
  split; [|done]. simpl. f_equal. by eapply utf8_take_app.
Qed.

(** The pieces are the input: nothing is lost and [fuel] is enough. *)
Lemma utf8_chunks_concat fuel bs :
  (length bs <= fuel)%nat -> concat (snd <$> utf8_chunks fuel bs) = bs.
Proof.
  revert bs. induction fuel as [|fuel IH]; intros [|b bs] Hlen; simpl in *; try done; [lia|].
  destruct (utf8_step b bs) as [[ok piece] rest] eqn:E.
  apply utf8_step_app in E as [Hb Hne]. simpl. rewrite IH; [done|].
  apply (f_equal length) in Hb. rewrite length_app in Hb.
  destruct piece; simpl in *; [done|lia].
Qed.

(** Valid text is kept as it is. *)
Lemma from_utf8_lossy_valid bs s : from_utf8 bs = Some s -> from_utf8_lossy bs = s.
Proof.
  unfold from_utf8, from_utf8_lossy, utf8_valid. case_match eqn:Hv; [|done].
  intros [= <-]. f_equal.
  etrans; [|exact (utf8_chunks_concat (length bs) bs (le_n _))].
  f_equal. apply list_fmap_ext. intros i [ok piece] Hi.
  rewrite forallb_forall in Hv.
  specialize (Hv _ (proj1 (list_elem_of_In _ _) (list_elem_of_lookup_2 _ _ _ Hi))).
  simpl in Hv. by subst.
Qed.
End Utf8.
