(* ===== verification/Str.v ===== *)
(** The string types of [sqelf/src/process/str.rs]: [Str], a borrowed or owned
    string that is compared, ordered and hashed by its text, and [Inlinable], a
    string that is stored inline when it is short. A Rust string is its UTF-8
    bytes. *)

From S2P Require Import Prelude BTree Json.

(** [AsRef<str>]. *)
Class AsRef (S : Type) := { as_ref : S -> string }.
#[export] Instance string_AsRef : AsRef string := {| as_ref s := s |}.

(** [From<String>] and [From<&str>]. *)
Class FromStr (S : Type) := { from_str : string -> S }.
#[export] Instance string_FromStr : FromStr string := {| from_str s := s |}.

(** The call a deserializer makes on a visitor for a string. *)
Inductive StrEvent :=
| VisitStr (value : string)
| VisitBorrowedStr (value : string)
| VisitString (value : string).

#[export] Instance StrEvent_AsRef : AsRef StrEvent := {|
  as_ref ev := match ev with VisitStr s | VisitBorrowedStr s | VisitString s => s end
|}.

Section Str.
Context {S : Type}.

Inductive Str := Borrowed (s : string) | Owned (s : S).

Context `{AsRef S}.

(** [impl AsRef<str> for Str]. *)
#[export] Instance Str_AsRef : AsRef Str := {|
  as_ref s := match s with Borrowed s => s | Owned s => as_ref s end
|}.

(** [impl Serialize for Str]: the text that is written. *)
Definition Str_serialize (s : Str) : string :=
  match s with Borrowed s => s | Owned s => as_ref s end.
End Str.
Arguments Str : clear implicits.

(** [impl PartialEq for Str]: the texts are equal. *)
Definition Str_eq {SA SB} `{AsRef SA, AsRef SB} (a : Str SA) (b : Str SB) : bool :=
  bool_decide (as_ref a = as_ref b).

(** [impl Ord for Str]. *)
Definition Str_cmp {S} `{AsRef S} (a b : Str S) : comparison :=
  String.compare (as_ref a) (as_ref b).

(** [impl Hash for Str], for any hasher. *)
Definition Str_hash {S Hasher} `{AsRef S} (hash_str : string -> Hasher -> Hasher)
    (s : Str S) (state : Hasher) : Hasher :=
  hash_str (as_ref s) state.

(** [Str::try_from_value]. *)
Definition Str_try_from_value {Number S} (value : Value Number) : option (Str S) :=
  Borrowed <$> Value_as_str value.

(** [Str::into_owned]. *)
Definition Str_into_owned (s : Str string) : Str string :=
  match s with
  | Borrowed s => Owned s
  | Owned s => Owned s
  end.

(** [impl Deserialize for Str]: its visitor. *)
Definition Str_visit {S} `{FromStr S} (ev : StrEvent) : Str S :=
  match ev with
  | VisitStr value => Owned (from_str value)
  | VisitBorrowedStr value => Borrowed value
  | VisitString value => Owned (from_str value)
  end.

(** [impl Deserialize for String] (serde): the text is owned. *)
Definition String_visit (ev : StrEvent) : string := as_ref ev.

(** ** [Inlinable] *)

Section Inlinable.
(** [INLINE_STRING_CAPACITY] of the [inlinable_string] crate. *)
Context (INLINE_STRING_CAPACITY : nat) {S : Type}.

Inductive Inlinable := Inline (s : string) | Spilled (s : S).

(** [visit_str], to which serde forwards the other two calls. *)
Definition Inlinable_visit `{FromStr S} (ev : StrEvent) : Inlinable :=
  let value := as_ref ev in
  if (INLINE_STRING_CAPACITY <? String.length value)%nat
  then Spilled (from_str value)
  else Inline value.

#[export] Instance Inlinable_AsRef `{AsRef S} : AsRef Inlinable := {|
  as_ref s := match s with Inline s => s | Spilled s => as_ref s end
|}.
End Inlinable.
Arguments Inlinable : clear implicits.

(** ** Equality of strings up to their representation *)

(** A string type whose [From] keeps the text. *)
Class FromStrLaws (S : Type) `{AsRef S, FromStr S} := {
  as_ref_from_str s : as_ref (from_str s) = s
}.
#[export] Instance string_FromStrLaws : FromStrLaws string.
Proof. by split. Qed.

Section SameText.
Context {S : Type} `{AsRef S}.

(** The setoid equality of [Str]: [==] of the source. *)
#[export] Instance Str_equiv : Equiv (Str S) := fun a b => as_ref a = as_ref b.

#[export] Instance Str_equivalence : Equivalence (≡@{Str S}).
Proof. split; repeat intro; unfold equiv, Str_equiv in *; congruence. Qed.

#[export] Instance Str_as_ref_proper : Proper ((≡) ==> (=)) (as_ref (S := Str S)).
Proof. by intros a b. Qed.

#[export] Instance Str_cmp_proper : Proper ((≡) ==> (≡) ==> (=)) (Str_cmp (S := S)).
Proof. intros a b Hab c d Hcd. unfold Str_cmp. by rewrite Hab, Hcd. Qed.

#[export] Instance Str_hash_proper {Hasher} (hash_str : string -> Hasher -> Hasher) :
  Proper ((≡) ==> (=) ==> (=)) (Str_hash (S := S) hash_str).
Proof. intros a b Hab s t <-. unfold Str_hash. by rewrite Hab. Qed.
End SameText.

Lemma Str_into_owned_equiv (s : Str string) : Str_into_owned s ≡ s.
Proof. by destruct s. Qed.

Lemma Str_visit_text {S} `{FromStrLaws S} ev : as_ref (Str_visit (S := S) ev) = as_ref ev.
Proof. destruct ev; [apply (as_ref_from_str value)|done|apply (as_ref_from_str value)]. Qed.

Lemma Inlinable_visit_text cap {S} `{FromStrLaws S} ev :
  as_ref (Inlinable_visit cap (S := S) ev) = as_ref ev.
Proof.
  unfold Inlinable_visit. destruct (_ <? _)%nat; [apply (as_ref_from_str (as_ref ev))|done].
Qed.
