(* ===== verification/Clef.v ===== *)
(** The CLEF event of [sqelf/src/process/clef.rs]: its fields, its timestamp,
    and how it is read from and written to JSON. The third-party crates
    [rust_decimal], [humantime] and [serde_json] are interfaces. *)

From S2P Require Import Prelude BTree Json Str.

(** ** [rust_decimal]

    A decimal is a sign, a 96-bit mantissa and a scale: it stands for
    [mantissa / 10 ^ scale]. *)

Class DecimalApi := {
  Decimal : Type;
  Decimal_is_sign_negative : Decimal -> bool;
  (** The mantissa without its sign. *)
  Decimal_mantissa : Decimal -> Z;
  Decimal_scale : Decimal -> Z;
  Decimal_trunc : Decimal -> Decimal;
  Decimal_fract : Decimal -> Decimal;
  Decimal_set_scale : Z -> Decimal -> option Decimal;
  Decimal_to_u64 : Decimal -> option Z;
  Decimal_to_u32 : Decimal -> option Z;
  Decimal_mantissa_range d : (0 <= Decimal_mantissa d < 2 ^ 96)%Z;
  (** "Returns the scale of the decimal number, otherwise known as e",
      between 0 and 28. *)
  Decimal_scale_range d : (0 <= Decimal_scale d <= 28)%Z;
  (** "Returns a new Decimal integral with no fractional portion." *)
  Decimal_trunc_spec d :
    Decimal_is_sign_negative (Decimal_trunc d) = Decimal_is_sign_negative d /\
    (Decimal_mantissa (Decimal_trunc d) / 10 ^ Decimal_scale (Decimal_trunc d) =
     Decimal_mantissa d / 10 ^ Decimal_scale d)%Z;
  (** "Returns a new Decimal representing the fractional portion of the
      number": what is left of the mantissa, at the same scale. *)
  Decimal_fract_spec d :
    Decimal_is_sign_negative (Decimal_fract d) = Decimal_is_sign_negative d /\
    Decimal_mantissa (Decimal_fract d) =
      (Decimal_mantissa d mod 10 ^ Decimal_scale d)%Z;
  (** "An optimization for changing the scale of a decimal number": the
      mantissa is kept. *)
  Decimal_set_scale_spec scale d : (0 <= scale <= 28)%Z ->
    exists d', Decimal_set_scale scale d = Some d' /\ Decimal_scale d' = scale /\
      Decimal_mantissa d' = Decimal_mantissa d /\
      Decimal_is_sign_negative d' = Decimal_is_sign_negative d;
  (** [ToPrimitive]: the integral part, if the type can represent it. *)
  Decimal_to_u64_spec d : Decimal_is_sign_negative d = false ->
    Decimal_to_u64 d =
      let i := (Decimal_mantissa d / 10 ^ Decimal_scale d)%Z in
      if (i <? u64_modulus)%Z then Some i else None;
  Decimal_to_u32_spec d : Decimal_is_sign_negative d = false ->
    Decimal_to_u32 d =
      let i := (Decimal_mantissa d / 10 ^ Decimal_scale d)%Z in
      if (i <? u32_modulus)%Z then Some i else None
}.

(** An implementation, for evaluation on concrete inputs: a decimal is its
    sign, its mantissa (brought into range) and its scale (likewise). *)
Record decimal := mkDecimal { d_negative : bool; d_mantissa : Z; d_scale : Z }.
Definition decimal_scale (d : decimal) : Z := (d_scale d mod 29)%Z.
Definition decimal_mantissa (d : decimal) : Z := (d_mantissa d mod 2 ^ 96)%Z.
Definition decimal_to (modulus : Z) (d : decimal) : option Z :=
  let i := (decimal_mantissa d / 10 ^ decimal_scale d)%Z in
  if (i <? modulus)%Z then Some i else None.

Lemma decimal_mantissa_le d z :
  (0 <= z <= decimal_mantissa d)%Z -> (z mod 2 ^ 96)%Z = z.
Proof.
  unfold decimal_mantissa. intros.
  pose proof (Z.mod_pos_bound (d_mantissa d) (2 ^ 96) eq_refl). apply Z.mod_small. lia.
Qed.

Definition decimal_model : DecimalApi.
Proof.
  assert (Hm : forall d, (0 <= decimal_mantissa d < 2 ^ 96)%Z).
  { intros d. unfold decimal_mantissa. by apply Z.mod_pos_bound. }
  assert (Hp : forall d, (0 < 10 ^ decimal_scale d)%Z).
  { intros d. apply Z.pow_pos_nonneg; [done|]. by apply Z.mod_pos_bound. }
  refine {|
    Decimal := decimal;
    Decimal_is_sign_negative := d_negative;
    Decimal_mantissa := decimal_mantissa;
    Decimal_scale := decimal_scale;
    Decimal_trunc d :=
      mkDecimal (d_negative d) (decimal_mantissa d / 10 ^ decimal_scale d) 0;
    Decimal_fract d :=
      mkDecimal (d_negative d) (decimal_mantissa d mod 10 ^ decimal_scale d) (d_scale d);
    Decimal_set_scale s d := Some (mkDecimal (d_negative d) (d_mantissa d) s);
    Decimal_to_u64 := decimal_to u64_modulus;
    Decimal_to_u32 := decimal_to u32_modulus
  |}; [done| | | | |done|done].
  - intros d. unfold decimal_scale. pose proof (Z.mod_pos_bound (d_scale d) 29 eq_refl). lia.
  - intros d. split; [done|]. unfold decimal_mantissa at 1, decimal_scale at 2. simpl d_mantissa.
    simpl d_scale. rewrite Z.mod_0_l, Z.pow_0_r, Z.div_1_r by done.
    apply (decimal_mantissa_le d). specialize (Hm d). specialize (Hp d).
    split; [by apply Z.div_pos; lia|]. apply Z.div_le_upper_bound; [done|]. nia.
  - intros d. split; [done|]. unfold decimal_mantissa at 1. simpl d_mantissa.
    apply (decimal_mantissa_le d). specialize (Hm d). specialize (Hp d).
    split; [by apply Z.mod_pos_bound|]. apply Z.mod_le; lia.
  - intros s d Hs. eexists. split; [done|]. unfold decimal_scale. simpl.
    rewrite Z.mod_small by lia. done.
Defined.

(** ** [humantime] *)

Class Humantime := {
  parse_rfc3339 : string -> option SystemTime;
  (** [None]: the time has no RFC 3339 text. *)
  format_rfc3339 : SystemTime -> option string
}.

(** ** Timestamps *)

(** [u32::pow], by squaring. *)
Fixpoint u32_pow_loop `{Profile} (acc base : Z) (exp : positive) : res Z :=
  match exp with
  | xH => checked_mul u32_modulus acc base
  | xO exp' => base' ← checked_mul u32_modulus base base; u32_pow_loop acc base' exp'
  | xI exp' =>
      acc' ← checked_mul u32_modulus acc base;
      base' ← checked_mul u32_modulus base base;
      u32_pow_loop acc' base' exp'
  end.
Definition u32_pow `{Profile} (base exp : Z) : res Z :=
  match exp with Zpos p => u32_pow_loop 1 base p | _ => Ok 1%Z end.

(** [Duration::new], which panics when the carry overflows the seconds. *)
Definition Duration_new (secs nanos : Z) : res Duration :=
  if (secs + nanos / nanos_per_sec <? u64_modulus)%Z
  then Ok (secs * nanos_per_sec + nanos)%Z
  else Panic "overflow in Duration::new".

Record Timestamp := mkTimestamp { timestamp_0 : SystemTime }.

#[export] Instance Timestamp_eq_decision : EqDecision Timestamp.
Proof. solve_decision. Defined.

(** [Timestamp::now], on the reading of the clock. *)
Definition Timestamp_now (now : SystemTime) : Timestamp := mkTimestamp now.

(** [Timestamp::try_parse_rfc3339]. *)
Definition Timestamp_try_parse_rfc3339 `{Humantime} (ts : string) : option Timestamp :=
  mkTimestamp <$> parse_rfc3339 ts.

Section FromDecimal.
Context `{Profile} `{DecimalApi}.

(** [Timestamp::from_decimal]. *)
Definition Timestamp_from_decimal (ts : Decimal) : res (option Timestamp) :=
  if Decimal_is_sign_negative ts then Ok (Some (mkTimestamp UNIX_EPOCH)) else
  match Decimal_to_u64 (Decimal_trunc ts) with
  | None => Ok None
  | Some secs =>
      match Decimal_set_scale 0 (Decimal_fract ts) with
      | None => Ok None
      | Some fract =>
          match Decimal_to_u32 fract with
          | None => Ok None
          | Some scaled_fract =>
              exp ← checked_sub u32_modulus 9 (Decimal_scale ts);
              pow ← u32_pow 10 exp;
              nanos ← checked_mul u32_modulus scaled_fract pow;
              duration ← Duration_new secs nanos;
              Ok (mkTimestamp <$> systime_checked_add UNIX_EPOCH duration)
          end
      end
  end.
End FromDecimal.

(** [impl Deserialize for Timestamp]: its visitor, whose [visit_str] serde also
    calls for the other two events. *)
Definition Timestamp_visit `{Humantime} (ev : StrEvent) : option Timestamp :=
  mkTimestamp <$> parse_rfc3339 (as_ref ev).

(** ** The event *)

Module clef.
Record Message {Number : Type} := mkMessage {
  timestamp : option Timestamp;
  level : option (Str string);
  message : option (Str string);
  message_template : option (Str string);
  exception : option (Str string);
  additional : gmap string (Value Number)
}.
Arguments Message : clear implicits.
Arguments mkMessage {Number}.

(** [Message::from_message]. *)
Definition from_message {Number} (msg : string) : Message Number := {|
  timestamp := None;
  level := None;
  message := Some (Borrowed msg);
  message_template := None;
  exception := None;
  additional := ∅
|}.
End clef.

(** What [serde_json] finds in the text of an event: the string event of each
    field that is present and not null, and the other members in text order. *)
Record ClefFields {Number : Type} := mkClefFields {
  cf_timestamp : option StrEvent;
  cf_level : option StrEvent;
  cf_message : option StrEvent;
  cf_message_template : option StrEvent;
  cf_exception : option StrEvent;
  cf_additional : list (StrEvent * Value Number)
}.
Arguments ClefFields : clear implicits.

Class ClefJson (Number : Type) := {
  (** [serde_json::from_str] on the fields of an event; [None] is an error. *)
  clef_fields_from_str : string -> option (ClefFields Number);
  (** [serde_json::to_string] of an object with these members. *)
  json_object_to_string : list (string * Value Number) -> res string;
  (** [serde_json::to_string] of a value whose [Display] fails. *)
  json_collect_str_failed : res string
}.

Section ClefMessage.
Context {Number : Type} `{ClefJson Number} `{Humantime}.

(** The derived [Deserialize]: each field by its visitor, the other members
    into a [HashMap] in the order they come. *)
Definition Message_visit (f : ClefFields Number) : option (clef.Message Number) :=
  timestamp ←
    match cf_timestamp f with
    | None => Some None
    | Some ev => Some <$> Timestamp_visit ev
    end;
  Some {|
    clef.timestamp := timestamp;
    clef.level := Str_visit <$> cf_level f;
    clef.message := Str_visit <$> cf_message f;
    clef.message_template := Str_visit <$> cf_message_template f;
    clef.exception := Str_visit <$> cf_exception f;
    clef.additional :=
      foldl (fun fields '(k, v) => <[as_ref (Str_visit (S := string) k) := v]> fields)
        ∅ (cf_additional f)
  |}.

(** [Message::maybe_from_json]. *)
Definition maybe_from_json (json : string) : option (clef.Message Number) :=
  match json with
  | String "{"%char _ => clef_fields_from_str json ≫= Message_visit
  | _ => None
  end.

(** [impl Serialize for Timestamp]. *)
Definition Timestamp_serialize (ts : Timestamp) : option (Value Number) :=
  VString <$> format_rfc3339 (timestamp_0 ts).

Definition serialize_some (name : string) (s : option (Str string)) :
    list (string * Value Number) :=
  match s with
  | Some s => [(name, VString (Str_serialize s))]
  | None => []
  end.

(** The derived [Serialize]: the members of the object, [@t] and [@l] always,
    the other fields when they are set. The iteration order of the [HashMap]
    is unspecified; the model's is the map's. *)
Definition Message_members (m : clef.Message Number) :
    option (list (string * Value Number)) :=
  timestamp ←
    match clef.timestamp m with
    | None => Some VNull
    | Some ts => Timestamp_serialize ts
    end;
  Some ([("@t", timestamp);
         ("@l", match clef.level m with
                | None => VNull
                | Some l => VString (Str_serialize l)
                end)]%string
        ++ serialize_some "@m" (clef.message m)
        ++ serialize_some "@mt" (clef.message_template m)
        ++ serialize_some "@x" (clef.exception m)
        ++ map_to_list (clef.additional m)).

(** [serde_json::to_string(&clef)]. *)
Definition Message_to_string (m : clef.Message Number) : res string :=
  match Message_members m with
  | Some members => json_object_to_string members
  | None => json_collect_str_failed
  end.
End ClefMessage.
