(* ===== verification/Process.v ===== *)
(** The processor ([sqelf/src/process/mod.rs] and [process/gelf.rs]): the GELF
    message, its conversion to a CLEF event, and the two ways a payload is
    parsed, in place from a slice or through a reader. [serde_json] is an
    interface: it reports what the text of a message holds, and the visitors of
    the program build the message. *)

From S2P Require Import Prelude BTree Io Diagnostics Json Utf8 Str Clef.

(** ** The GELF message *)

Module gelf.
Section Message.
Context `{DecimalApi} {Number TString TMessage : Type}.

Record Message := mkMessage {
  version : option TString;
  host : option TString;
  short_message : TMessage;
  full_message : option TMessage;
  timestamp : option Decimal;
  level : option Z;
  facility : option TMessage;
  line : option Z;
  file : option TMessage;
  additional : option (Value Number)
}.

Definition set_additional (a : option (Value Number)) (m : Message) : Message :=
  mkMessage (version m) (host m) (short_message m) (full_message m) (timestamp m)
    (level m) (facility m) (line m) (file m) a.
End Message.
Arguments Message {_} Number TString TMessage.
End gelf.

(** ** Conversion to CLEF *)

Section Fields.
Context {Number : Type}.
Implicit Types fields : gmap string (Value Number).

(** [find_first]: the first of the names that is present. *)
Fixpoint find_first fields (names : list string) : option (Value Number) :=
  match names with
  | [] => None
  | name :: names' =>
      match fields !! name with
      | Some value => Some value
      | None => find_first fields names'
      end
  end.

(** [override_value]. *)
Definition override_value (name : string) (value : Value Number) fields :
    gmap string (Value Number) :=
  let old := fields !! name in
  let fields := <[name := value]> fields in
  match old with
  | Some old => <[("__" +:+ name)%string := old]> fields
  | None => fields
  end.

(** Overriding by a list of values, in order. *)
Definition override_all (entries : list (string * Value Number)) fields :
    gmap string (Value Number) :=
  foldl (fun fields '(k, v) => override_value k v fields) fields entries.
End Fields.

Section ToClef.
Context `{Profile} `{DecimalApi} `{Humantime} {Number : Type}
  `{JsonNumber Number} `{ClefJson Number}.
Context {TString TMessage : Type} `{AsRef TString} `{AsRef TMessage}.
Implicit Types self : gelf.Message Number TString TMessage.

(** [add]: the member is added unless it is there. *)
Definition add (k : string) (v : Value Number) self :
    bool * gelf.Message Number TString TMessage :=
  match gelf.additional self with
  | Some (VObject additional) =>
      match bt_get k additional with
      | None => (true, gelf.set_additional (Some (VObject (bt_insert k v additional))) self)
      | Some _ => (false, self)
      end
  | _ => (false, self)
  end.

(** The name of an additional field: a leading underscore is dropped. *)
Definition strip_underscore (k : string) : string :=
  match k with String "_"%char k' => k' | _ => k end.

(** [additional]. *)
Definition additional self : option (list (string * Value Number)) :=
  match gelf.additional self with
  | Some (VObject additional) => Some (prod_map strip_underscore id <$> additional)
  | _ => None
  end.

(** The standard syslog levels. *)
Definition level_name (level : Z) : string :=
  match level with
  | 0%Z => "emerg" | 1%Z => "alert" | 2%Z => "crit" | 3%Z => "err"
  | 4%Z => "warning" | 5%Z => "notice" | 6%Z => "info" | 7%Z => "debug"
  | _ => "debug"
  end.

(** The level of the event. *)
Definition to_clef_level self (clef : clef.Message Number) : option (Str string) :=
  match clef.level clef with
  | Some level => Some level
  | None =>
      Some (default (Borrowed (level_name (default 6%Z (gelf.level self))))
        (Str_into_owned <$>
          (find_first (clef.additional clef) ["level"; "lvl"; "LVL"]
             ≫= Str_try_from_value (S := string))))
  end.

(** The timestamp of the event; [now] is the clock. *)
Definition to_clef_timestamp (now : SystemTime) self (clef : clef.Message Number) :
    res (option Timestamp) :=
  match clef.timestamp clef with
  | Some timestamp => Ok (Some timestamp)
  | None =>
      match (find_first (clef.additional clef) ["timestamp"; "ts"; "TIMESTAMP"; "TS"]
               ≫= Value_as_str) ≫= Timestamp_try_parse_rfc3339 with
      | Some timestamp => Ok (Some timestamp)
      | None =>
          from_decimal ←
            match gelf.timestamp self with
            | Some timestamp => Timestamp_from_decimal timestamp
            | None => Ok None
            end;
          match from_decimal with
          | Some timestamp => Ok (Some timestamp)
          | None => Ok (Some (Timestamp_now now))
          end
      end
  end.

(** The exception of the event. *)
Definition to_clef_exception self (clef : clef.Message Number) : option (Str string) :=
  match clef.exception clef with
  | Some exception => Some exception
  | None =>
      match gelf.full_message self with
      | Some full_message =>
          if decide (as_ref full_message = as_ref (gelf.short_message self)) then None
          else Some (Borrowed (as_ref full_message))
      | None => None
      end
  end.

(** The message of the event. *)
Definition to_clef_message (clef : clef.Message Number) : option (Str string) :=
  match clef.message clef, clef.message_template clef with
  | None, None =>
      Str_into_owned <$>
        (find_first (clef.additional clef) ["message"; "msg"; "MSG"]
           ≫= Str_try_from_value (S := string))
  | message, _ => message
  end.

(** The GELF built-in properties that are set, in the order they are. *)
Definition built_ins self : list (string * Value Number) :=
  let set {A} (name : string) (value : A -> Value Number) (a : option A) :=
    match a with Some a => [(name, value a)] | None => [] end in
  set "host"%string (fun host => VString (as_ref host)) (gelf.host self)
  ++ set "facility"%string (fun facility => VString (as_ref facility)) (gelf.facility self)
  ++ set "file"%string (fun file => VString (as_ref file)) (gelf.file self)
  ++ set "line"%string (fun line => VNumber (Number_from_u32 line)) (gelf.line self).

(** The event embedded in the short message, or one made from its text. *)
Definition embedded_event self : clef.Message Number :=
  let short_message := as_ref (gelf.short_message self) in
  default (clef.from_message short_message) (maybe_from_json short_message).

(** [to_clef]. *)
Definition to_clef (now : SystemTime) self : res (clef.Message Number) :=
  let clef := embedded_event self in
  let level := to_clef_level self clef in
  timestamp ← to_clef_timestamp now self clef;
  let exception := to_clef_exception self clef in
  let message := to_clef_message clef in
  let fields :=
    match additional self with
    | Some additional => override_all additional (clef.additional clef)
    | None => clef.additional clef
    end in
  let fields := override_all (built_ins self) fields in
  Ok (clef.mkMessage timestamp level message (clef.message_template clef) exception fields).
End ToClef.

(** ** Parsing *)

Section Parsing.
Context `{DecimalApi} {Number : Type}.

(** What [serde_json] finds in the text of a GELF message: the string event
    of each string field, the numbers, and the other members as one value. *)
Record GelfFields := mkGelfFields {
  gf_version : option StrEvent;
  gf_host : option StrEvent;
  gf_short_message : StrEvent;
  gf_full_message : option StrEvent;
  gf_timestamp : option Decimal;
  gf_level : option Z;
  gf_facility : option StrEvent;
  gf_line : option Z;
  gf_file : option StrEvent;
  gf_additional : option (Value Number)
}.

(** The derived [Deserialize]: each string field by the visitor of its type. *)
Definition gelf_visit {TString TMessage} (visit_string : StrEvent -> TString)
    (visit_message : StrEvent -> TMessage) (f : GelfFields) :
    gelf.Message Number TString TMessage :=
  gelf.mkMessage
    (visit_string <$> gf_version f) (visit_string <$> gf_host f)
    (visit_message (gf_short_message f)) (visit_message <$> gf_full_message f)
    (gf_timestamp f) (gf_level f) (visit_message <$> gf_facility f)
    (gf_line f) (visit_message <$> gf_file f) (gf_additional f).
End Parsing.
Arguments GelfFields {_} Number.

(** [serde_json::from_slice], [from_str] and [from_reader] on the fields of a
    message. A reader may never end, so reading from one is given fuel. *)
Class GelfJson `{DecimalApi} (Number : Type) := {
  gelf_fields_from_slice : Bytes -> res (GelfFields Number);
  gelf_fields_from_str : string -> res (GelfFields Number);
  gelf_fields_from_reader : forall {R} `{Read R}, nat -> R -> res (GelfFields Number)
}.

(** [Result::map_err]. *)
Definition map_err {A} (f : error -> error) (r : res A) : res A :=
  match r with Ok a => Ok a | Err e => Err (f e) | Panic w => Panic w end.

(** ** The processor *)

Record Config := mkConfig { config_include_raw_payload : bool }.
Definition Config_default : Config := {| config_include_raw_payload := false |}.

Record Process := mkProcess { include_raw_payload : bool }.
Definition Process_new (config : Config) : Process := {|
  include_raw_payload := config_include_raw_payload config
|}.
Definition build (config : Config) : Process := Process_new config.

(** What the processor writes to: the metrics and stdout, a line per event. *)
Record ProcessState := mkProcessState { ps_globals : Globals; ps_stdout : list string }.

Definition ps_increment (field : string) (ps : ProcessState) : ProcessState :=
  mkProcessState (increment GProcess field (ps_globals ps)) (ps_stdout ps).
Definition ps_println (line : string) (ps : ProcessState) : ProcessState :=
  mkProcessState (ps_globals ps) (ps_stdout ps ++ [line]).

Section Process.
Context `{Profile} `{DecimalApi} `{Humantime} {Number : Type}
  `{JsonNumber Number} `{ClefJson Number} `{!GelfJson Number}.
(** [inlinable_string] and [string_cache]. *)
Context (INLINE_STRING_CAPACITY : nat) {CachedString : Type}
  `{AsRef CachedString} `{FromStr CachedString}.
(** [{:?}] of a string. *)
Context (str_debug : string -> string).
Context {T Rd : Type} `{MemRead T Rd}.

Definition could_not_parse (payload : string) : error -> error :=
  ErrorContext ("could not parse GELF from: " +:+ str_debug payload)%string.

(** The message of a payload in memory: [gelf::Message<Str>]. *)
Definition message_of_slice (self : Process) (bytes : Bytes) :
    res (gelf.Message Number (Str string) (Str string)) :=
  if include_raw_payload self then
    f ← map_err (could_not_parse (from_utf8_lossy bytes)) (gelf_fields_from_slice bytes);
    Ok (add "raw_payload" (VString (from_utf8_lossy bytes))
          (gelf_visit Str_visit Str_visit f)).2
  else
    f ← gelf_fields_from_slice bytes;
    Ok (gelf_visit Str_visit Str_visit f).

(** [Read::read_to_string]: the buffer [sizes] of [read_to_end]. *)
Definition read_to_string (sizes : list nat) (r : Rd) : res string :=
  content ← (read_to_end sizes r).1;
  match content with
  | None => Panic "out of fuel"
  | Some content =>
      match from_utf8 content with
      | Some s => Ok s
      | None => Err (External "stream did not contain valid UTF-8" [])
      end
  end.

(** The message of a payload behind a reader:
    [gelf::Message<Inlinable<CachedString>, String>]. *)
Definition message_of_reader (self : Process) (sizes : list nat) (reader : Rd) :
    res (gelf.Message Number (Inlinable CachedString) string) :=
  let visit := gelf_visit (Inlinable_visit INLINE_STRING_CAPACITY) String_visit in
  if include_raw_payload self then
    payload ← read_to_string sizes reader;
    f ← map_err (could_not_parse payload) (gelf_fields_from_str payload);
    Ok (add "raw_payload" (VString payload) (visit f)).2
  else
    f ← gelf_fields_from_reader (length sizes) reader;
    Ok (visit f).

(** The event of a payload: what [with_clef] computes before it calls [with]. *)
Definition event_of (self : Process) (now : SystemTime) (sizes : list nat) (msg : T) :
    res (clef.Message Number) :=
  match mem_bytes msg with
  | Some bytes => value ← message_of_slice self bytes; to_clef now value
  | None =>
      reader ← into_reader msg;
      value ← message_of_reader self sizes reader;
      to_clef now value
  end.

(** [with_clef]. *)
Definition with_clef (self : Process) (now : SystemTime) (sizes : list nat) (msg : T)
    (with_ : clef.Message Number -> M ProcessState unit) : M ProcessState unit :=
  m_modify (ps_increment "msg") ;;;
  let! clef := m_lift (event_of self now sizes msg) in
  with_ clef.

(** [read_as_clef]. *)
Definition read_as_clef (self : Process) (now : SystemTime) (sizes : list nat) (msg : T) :
    M ProcessState unit :=
  with_clef self now sizes msg (fun clef =>
    match Message_to_string clef with
    | Ok clef => m_modify (ps_println clef)
    | Err _ => m_ret tt
    | Panic w => m_panic w
    end).
End Process.
