(* ===== verification/Fixtures.v ===== *)
(** Instances of the third-party interfaces by concrete functions, on which the
    theorems that assume an interface are evaluated. *)

From S2P Require Import Prelude BTree Io Message ChunkRead Json Utf8 Str Clef Process.

(** A clock text is known for the second after the epoch only. *)
Definition humantime_fixture : Humantime := {|
  parse_rfc3339 s :=
    if decide (s = "1970-01-01T00:00:01Z"%string) then Some nanos_per_sec else None;
  format_rfc3339 t :=
    if decide (t = nanos_per_sec) then Some "1970-01-01T00:00:01Z"%string else None
|}.

(** The text [{}] is an event with one member, [host]; every other text is one
    with a level and a message. *)
Definition clef_json_fixture : ClefJson Z := {|
  clef_fields_from_str s :=
    Some (if decide (s = "{}"%string) then
            mkClefFields Z None None None None None
              [(VisitBorrowedStr "host", VString "embedded")]
          else
            mkClefFields Z None (Some (VisitBorrowedStr "Fatal"))
              (Some (VisitBorrowedStr "down")) None None []);
  json_object_to_string members := Ok (String.concat "," members.*1);
  json_collect_str_failed := Panic "there should be an error"
|}.

(** Decoders of a stored format: a two-byte magic number, then the content. *)
Definition unstore (c : Bytes) : option Bytes :=
  if (2 <=? length c)%nat then Some (drop 2 c) else None.

Definition unstore_decoder (r : ChunkRead) : res Cursor :=
  match unstore (remaining r) with
  | Some d => Ok (mkCursor d 0)
  | None => Err (External "invalid header" [])
  end.

Lemma unstore_decoder_spec (r : ChunkRead) c d :
  yields r c -> unstore c = Some d ->
  exists dec, unstore_decoder r = Ok dec /\ yields dec d.
Proof.
  intros [_ <-] Hd. unfold unstore_decoder. rewrite Hd. by eexists.
Qed.

Definition libflate_fixture : Libflate := {|
  gunzip := unstore;
  gzip_Decoder_new := unstore_decoder;
  gzip_Decoder_spec := unstore_decoder_spec;
  inflate_zlib := unstore;
  zlib_Decoder_new := unstore_decoder;
  zlib_Decoder_spec := unstore_decoder_spec
|}.

(** A text is the short message of a message with no other field but the given
    timestamp; the empty text is not a message. *)
Definition fields_fixture `{DecimalApi} (timestamp : option Decimal) (short_message : StrEvent) :
    res (GelfFields Z) :=
  if decide (as_ref short_message = ""%string) then Err (External "EOF" [])
  else Ok (mkGelfFields None None short_message None timestamp None None None None
             (Some (VObject []))).

Definition gelf_json_at `{DecimalApi} (timestamp : option Decimal) : GelfJson Z := {|
  gelf_fields_from_slice bs := fields_fixture timestamp (VisitBorrowedStr (from_utf8_lossy bs));
  gelf_fields_from_str s := fields_fixture timestamp (VisitStr s);
  gelf_fields_from_reader R _ fuel r :=
    match (read_to_end (replicate fuel 1) r).1 with
    | Ok (Some c) => fields_fixture timestamp (VisitString (from_utf8_lossy c))
    | _ => Err (External "io" [])
    end
|}.
Definition gelf_json_fixture `{DecimalApi} : GelfJson Z := gelf_json_at None.
