(* ===== verification/MessageThms.v ===== *)
(** The properties of messages: the chunk header, compression detection, and
    reading a message. *)

From S2P Require Import Prelude Io Message ChunkRead Fixtures.

Section Header.
Context `{Profile} `{BytesApi}.

(** C28: the header of a chunk is read as it was written, and a chunk whose
    header is accepted is the one a sender writes for it. *)
Theorem ChunkHeader_roundtrip :
  (forall i n t payload,
     (0 <= i < u64_modulus)%Z -> (0 <= n < t)%Z -> (t < 256)%Z ->
     ChunkHeader_get (chunk i n t payload) = (Ok (mkChunkHeader i n t), payload)) /\
  (forall buf h payload,
     peek_magic_bytes buf = Some MAGIC_CHUNKED ->
     ChunkHeader_get buf = (Ok h, payload) ->
     buf = chunk (header_id h) (seq_num h) (seq_count h) payload).
Proof.
  split; [intros; by apply ChunkHeader_get_chunk|]. intros buf h payload Hm Hget.
  destruct (decide (12 <= length buf)%nat) as [Hlen|Hlen].
  - destruct (header_view buf Hlen) as (m0 & m1 & b8 & s & t & rest & -> & Hb8).
    rewrite ChunkHeader_get_eq in Hget by done.
    destruct (_ <=? _)%Z; [by destruct (checked_add _ _ _)|].
    injection Hget as <- <-. injection Hm as -> ->. unfold chunk.
    cbn [header_id seq_num seq_count]. rewrite !byte_of_u8_u8, be_split_combine by done.
    done.
  - by rewrite ChunkHeader_get_short in Hget by lia.
Qed.

(** C38: a buffer below twelve bytes is refused and left as it is; a sequence
    number that is not below the count is refused with both numbers; but for
    the sequence number 255 the sum [seq_num + 1] overflows, so a debug build
    panics and a release build reports 0. *)
Theorem ChunkHeader_errors (buf : Bytes) :
  ((length buf < 12)%nat ->
     ChunkHeader_get buf =
       (Err (Bail "buffer is too small to contain a valid chunk header" []), buf)) /\
  (forall i n t payload,
     buf = chunk i n t payload -> (0 <= n < 256)%Z -> (0 <= t <= n)%Z ->
     ChunkHeader_get buf =
       (if (n <? 255)%Z
        then Err (Bail "expected {} chunks but got {}" [ANum t; ANum (n + 1)])
        else if debug_assertions then Panic "attempt to add with overflow"
        else Err (Bail "expected {} chunks but got {}" [ANum t; ANum 0]), payload)).
Proof.
  split; [apply ChunkHeader_get_short|]. intros i n t payload -> Hn Ht.
  change (chunk i n t payload)
    with (Byte.x1e :: Byte.x0f :: be_split 8 i ++ byte_of_u8 n :: byte_of_u8 t :: payload).
  rewrite ChunkHeader_get_eq by apply length_be_split.
  rewrite !u8_byte_of_u8_small by lia. rewrite (proj2 (Z.leb_le _ _)) by lia.
  unfold checked_add, wrapping_add, u8_modulus. destruct (Z.ltb_spec n 255).
  - by rewrite (proj2 (Z.ltb_lt _ _)) by lia.
  - replace n with 255%Z by lia. by destruct debug_assertions.
Qed.
End Header.

(** What is taken for compressed: the gzip magic number, and a zlib header
    of the largest window ([0x78]) whose check bits are right. *)
Lemma Compression_detect_spec (b0 b1 : byte) :
  (Compression_detect (b0, b1) = Some Gzip <-> b0 = Byte.x1f /\ b1 = Byte.x8b) /\
  (Compression_detect (b0, b1) = Some Zlib <->
     b0 = Byte.x78 /\ ((120 * 256 + u8 b1) mod 31 = 0)%Z).
Proof.
  unfold Compression_detect, MAGIC_GZIP, MAGIC_ZLIB, zlib_header_u16.
  case_decide as Hg; [injection Hg as -> ->; naive_solver|]. cbn [fst snd].
  destruct (decide (b0 = Byte.x78)) as [->|Hz].
  - rewrite bool_decide_true by done. change (Z.land _ _) with (120 * 256)%Z.
    rewrite andb_true_l. destruct (Z.eqb_spec ((120 * 256 + u8 b1) mod 31) 0); naive_solver.
  - rewrite bool_decide_false by done. naive_solver.
Qed.

(** C39: the compression of a message is detected on its payload; on a chunked
    message only the first chunk is looked at, so a compressed payload whose
    first chunk has fewer than two bytes is taken for uncompressed. *)
Theorem Message_compression_spec :
  (forall `{Profile} src msg,
     Message_single (detect_bytes src) src = Ok (Some msg) ->
     Message_compression msg = detect_bytes (message_payload msg)) /\
  (forall c cs,
     Message_compression (mkMessage (Chunked (c :: cs))) =
       if (2 <=? length c)%nat then detect_bytes (concat (c :: cs)) else None).
Proof.
  split.
  - intros P src msg. unfold Message_single. destruct (_ =? _)%nat; [done|].
    destruct (_ && _); [done|]. by intros [= <-].
  - intros c cs. unfold Message_compression, detect_bytes. simpl.
    by destruct c as [|b0 [|b1 c]].
Qed.

Section Reading.
(** A read of a message fills the buffer unless the message ends first,
    across the boundaries of its chunks, and moves on by what it read. *)
Lemma ChunkRead_exact (n : nat) (r : ChunkRead) :
  chunk_read_wf r ->
  exists r', read n r = (Ok (take n (remaining r)), r') /\
    remaining r' = drop n (remaining r) /\ chunk_read_wf r' /\ cr_msg r' = cr_msg r.
Proof.
  intros Hwf. destruct (ChunkRead_read_spec n r Hwf) as (r' & ? & ? & ? & ?). by exists r'.
Qed.

Context `{Libflate}.

(** C22: reading a message to its end delivers its content, decompressed,
    whatever the sizes of the buffers; and a message that is lent as one
    slice has that slice for content. *)
Theorem Message_reads_content (msg : Message) (c : Bytes) (sizes : list nat) :
  message_content msg = Some c -> Forall (lt 0) sizes -> (length c < length sizes)%nat ->
  (exists r, Message_into_reader msg = Ok r /\ (read_to_end sizes r).1 = Ok (Some c)) /\
  (forall bytes, Message_bytes msg = Some bytes -> bytes = c).
Proof.
  intros Hc Hpos Hlen. split.
  - destruct (Message_into_reader_yields msg c Hc) as (r & E & Hy). exists r.
    split; [done|]. by destruct (read_to_end_yields sizes r c) as [r' ->].
  - intros bytes. destruct msg as [[[]|]]; try done. cbn in Hc |- *. congruence.
Qed.
End Reading.

(** ** Witnesses *)

Section Witnesses.
#[local] Existing Instances Release bytes_model libflate_fixture.

Lemma ChunkHeader_roundtrip_witness :
  ChunkHeader_get (chunk 7 1 2 [Byte.x61]) = (Ok (mkChunkHeader 7 1 2), [Byte.x61]).
Proof. by apply ChunkHeader_roundtrip. Defined.

(** The sequence number 255 in both builds. *)
Lemma ChunkHeader_errors_witness :
  (@ChunkHeader_get Debug bytes_model (chunk 7 255 2 [])).1
    = Panic "attempt to add with overflow" /\
  (ChunkHeader_get (chunk 7 255 2 [])).1
    = Err (Bail "expected {} chunks but got {}" [ANum 2; ANum 0]).
Proof.
  split.
  - by rewrite (proj2 (@ChunkHeader_errors Debug bytes_model _) 7%Z 255%Z 2%Z []).
  - by rewrite (proj2 (ChunkHeader_errors _) 7%Z 255%Z 2%Z []).
Defined.

Lemma Message_compression_spec_witness :
  Message_compression (mkMessage (Single (Some Gzip) [Byte.x1f; Byte.x8b])) = Some Gzip /\
  Message_compression (mkMessage (Chunked [[Byte.x1f]; [Byte.x8b]])) = None.
Proof.
  split.
  - by rewrite (proj1 Message_compression_spec Release [Byte.x1f; Byte.x8b]).
  - by rewrite (proj2 Message_compression_spec).
Defined.

Definition sample_reader : ChunkRead :=
  ChunkRead_new (Chunked [[Byte.x61; Byte.x62]; []; [Byte.x63]]).

Lemma ChunkRead_exact_example :
  (read 3 sample_reader).1 = Ok [Byte.x61; Byte.x62; Byte.x63].
Proof.
  destruct (ChunkRead_exact 3 sample_reader) as (r' & E & _); [apply chunk_read_wf_new|].
  by rewrite E.
Defined.

Lemma Message_reads_content_witness :
  exists r,
    Message_into_reader (mkMessage (Chunked [[Byte.x1f; Byte.x8b; Byte.x61]; [Byte.x62]]))
      = Ok r /\ (read_to_end [1; 1; 1] r).1 = Ok (Some [Byte.x61; Byte.x62]).
Proof.
  apply (Message_reads_content
    (mkMessage (Chunked [[Byte.x1f; Byte.x8b; Byte.x61]; [Byte.x62]]))
    [Byte.x61; Byte.x62] [1; 1; 1]); [done|repeat constructor|simpl; lia].
Defined.
End Witnesses.
