(* ===== verification/ReceiveTests.v ===== *)
(** The unit tests of [sqelf/src/receive.rs], run on the model: what the authors
    expect of the receiver, evaluated in both builds. *)

From S2P Require Import Prelude BTree Diagnostics Io Message ChunkRead Gelf Fixtures.

Section Tests.
Context `{Profile}.
#[local] Existing Instances bytes_model libflate_fixture.

(** A test runs at [t], and panics when an expectation fails. *)
Definition Test : Type := M Rx unit.
Context (t : SystemTime).

Definition expect {A} (what : string) (m : M Rx A) : M Rx A := fun s =>
  match m s with
  | (Err _, s') => (Panic what, s')
  | r => r
  end.
Definition expect_some {A} (what : string) (m : M Rx (option A)) : M Rx A :=
  let! r := m in
  match r with Some a => m_ret a | None => m_panic what end.
Definition assert (b : bool) : Test := if b then m_ret tt else m_panic "assertion failed".
Definition assert_eq {A} `{EqDecision A} (expected actual : A) : Test :=
  assert (bool_decide (expected = actual)).

Definition new (config : Config) : Test :=
  m_modify (fun s => mkRx (Gelf_new config) (rx_globals s)).
(** [gelf.decode(src).expect("failed to decode message")]. *)
Definition decode_at (now : SystemTime) (src : Bytes) : M Rx (option Message) :=
  expect "failed to decode message" (decode now now src).
Definition decoded (src : Bytes) : M Rx (option Message) := decode_at t src.
Definition decoded_message (src : Bytes) : M Rx Message :=
  expect_some "missing message value" (decoded src).

(** [into_reader], and [read_to_string] with buffers of eight bytes. *)
Definition read_message (msg : Message) : M Rx Bytes :=
  let! reader := expect "failed to build reader" (m_lift (Message_into_reader msg)) in
  expect_some "failed to read message"
    (expect "failed to read message" (m_lift (read_to_end (replicate 20 8) reader).1)).

Definition text (s : string) : Bytes := String.list_byte_of_string s.
(** What the encoders of the fixture make of a text. *)
Definition zlib (bytes : Bytes) : Bytes := [Byte.x78; Byte.x9c] ++ bytes.
Definition gzip (bytes : Bytes) : Bytes := [Byte.x1f; Byte.x8b] ++ bytes.

Definition message_empty : Test :=
  new Config_default ;;;
  let! msg := decoded (text "") in
  assert_eq None msg.

Definition message_unchunked : Test :=
  new Config_default ;;;
  let! msg := decoded_message (text "Hello!") in
  assert_eq (mkMessage (Single None (text "Hello!"))) msg.

Definition reads_as (expected : string) (src : Bytes) : Test :=
  let! msg := decoded_message src in
  let! read := read_message msg in
  assert_eq (text expected) read.

Definition read_message_unchunked_uncompressed : Test :=
  new Config_default ;;; reads_as "Hello!" (text "Hello!").
Definition read_message_unchunked_gzip : Test :=
  new Config_default ;;; reads_as "Hello!" (gzip (text "Hello!")).
Definition read_message_unchunked_zlib : Test :=
  new Config_default ;;; reads_as "Hello!" (zlib (text "Hello!")).

Definition message_single_chunk : Test :=
  new Config_default ;;;
  let! msg := decoded_message (chunk 0 0 1 (text "Hello!")) in
  assert_eq (mkMessage (Single None (text "Hello!"))) msg.

Definition message_chunked_empty : Test :=
  new Config_default ;;;
  let! msg := decoded (chunk 0 0 1 (text "")) in
  assert_eq None msg.

Definition message_multiple_chunks : Test :=
  new Config_default ;;;
  let! partial := decoded (chunk 0 0 3 (text "Hello")) in
  assert_eq None partial ;;;
  let! partial := decoded (chunk 0 2 3 (text "!")) in
  assert_eq None partial ;;;
  let! msg := decoded_message (chunk 0 1 3 (text " World")) in
  assert_eq (mkMessage (Chunked [text "Hello"; text " World"; text "!"])) msg.

(** The parts of a message are sent as first, third, second. *)
Definition read_chunks_132 (chunk_1 chunk_2 chunk_3 : Bytes) : Test :=
  new Config_default ;;;
  decoded (chunk 0 0 3 chunk_1) ;;;
  decoded (chunk 0 2 3 chunk_3) ;;;
  reads_as "Hello World!" (chunk 0 1 3 chunk_2).

Definition read_message_chunked_uncompressed : Test :=
  read_chunks_132 (text "Hello") (text " World") (text "!").
Definition read_message_chunked_zlib : Test :=
  let buf := zlib (text "Hello World!") in
  read_chunks_132 (take 2 buf) (take 2 (drop 2 buf)) (drop 4 buf).
Definition read_message_chunked_gzip : Test :=
  let buf := gzip (text "Hello World!") in
  read_chunks_132 (take 2 buf) (take 2 (drop 2 buf)) (drop 4 buf).

(** The sizes of the two indexes, and the messages of the one by id. *)
Definition sizes : M Rx (nat * nat) :=
  let! s := m_get in
  m_ret (size (by_id_chunks (by_id (rx_gelf s))),
         length (by_arrival_chunks (by_arrival (rx_gelf s)))).
Definition only_message (id : Z) : Test :=
  let! n := sizes in
  assert_eq (1, 1) n ;;;
  let! s := m_get in
  assert_eq [id] (map_to_list (by_id_chunks (by_id (rx_gelf s)))).*1.

Definition when_capacity_is_reached_all_incomplete_messages_are_dropped : Test :=
  new (mkConfig 2 (max_chunks_per_message Config_default) (incomplete_timeout_ms Config_default)) ;;;
  decoded (chunk 0 0 3 (text "1")) ;;;
  decoded (chunk 1 0 3 (text "2")) ;;;
  let! n := sizes in
  assert_eq (2, 2) n ;;;
  decoded (chunk 2 0 3 (text "2")) ;;;
  only_message 2.

(** [thread::sleep] lets five milliseconds pass. *)
Definition when_timeout_expires_incomplete_messages_are_dropped : Test :=
  new (mkConfig (incomplete_capacity Config_default) (max_chunks_per_message Config_default) 2) ;;;
  decoded (chunk 0 0 3 (text "1")) ;;;
  decoded (chunk 1 0 3 (text "2")) ;;;
  decode_at (t + Duration_from_millis 5)%Z (chunk 2 0 3 (text "2")) ;;;
  only_message 2.

(** [assert!(r.is_err())]. *)
Definition refused (src : Bytes) : Test := fun s =>
  match decode t t src s with
  | (Err _, s') => (Ok tt, s')
  | (Ok _, s') => (Panic "assertion failed", s')
  | (Panic w, s') => (Panic w, s')
  end.

Definition adding_chunked_message_with_too_many_chunks_fails : Test :=
  new (mkConfig (incomplete_capacity Config_default) 1 (incomplete_timeout_ms Config_default)) ;;;
  refused (chunk 0 0 3 (text "1")).

Definition adding_more_chunks_than_expected_to_chunked_message_fails : Test :=
  new Config_default ;;;
  decoded (chunk 0 0 3 (text "1")) ;;;
  refused (chunk 0 3 3 (text "3")).

Definition tests : list Test :=
  [message_empty; message_unchunked; read_message_unchunked_uncompressed;
   read_message_unchunked_gzip; read_message_unchunked_zlib; message_single_chunk;
   message_chunked_empty; message_multiple_chunks; read_message_chunked_uncompressed;
   read_message_chunked_zlib; read_message_chunked_gzip;
   when_capacity_is_reached_all_incomplete_messages_are_dropped;
   when_timeout_expires_incomplete_messages_are_dropped;
   adding_chunked_message_with_too_many_chunks_fails;
   adding_more_chunks_than_expected_to_chunked_message_fails].

Definition passes (test : Test) : bool :=
  is_ok (test (mkRx (Gelf_new Config_default) Globals_initial)).1.
End Tests.

(** Every test passes, in a debug and in a release build, also when it starts a
    timeout after the epoch. *)
Lemma receive_tests_pass :
  forall profile start, profile ∈ [Debug; Release] ->
  start ∈ [Duration_from_millis 5000; Duration_from_secs 1700000000] ->
  forallb (@passes) (@tests profile start) = true.
Proof.
  intros profile start Hp Hs.
  repeat (apply elem_of_cons in Hp as [->|Hp]; [|]); [..|by apply elem_of_nil in Hp];
    (repeat (apply elem_of_cons in Hs as [->|Hs]; [|]); [..|by apply elem_of_nil in Hs]);
    vm_compute; reflexivity.
Qed.
