(* ===== verification/ProcessTests.v ===== *)
(** The unit tests of [sqelf/src/process/mod.rs] and [clef.rs], run on the model:
    what the authors expect of the processor, evaluated in both builds.
    [serde_json] is the fixture that knows the documents of a test: what [json!]
    builds, under the text that stands for it. *)

From S2P Require Import Prelude BTree Io Diagnostics Json Utf8 Str Clef Process.

(** Equality of JSON values, which [assert_eq!] compares. *)
#[export] Instance Value_eq_decision `{EqDecision Number} : EqDecision (Value Number).
Proof.
  refine (fix go (v w : Value Number) :=
    let _ : EqDecision (Value Number) := @go in
    match v, w return Decision (v = w) with
    | VNull, VNull => left eq_refl
    | VBool a, VBool b => cast_if (decide (a = b))
    | VNumber a, VNumber b => cast_if (decide (a = b))
    | VString a, VString b => cast_if (decide (a = b))
    | VArray a, VArray b => cast_if (decide (a = b))
    | VObject a, VObject b => cast_if (decide (a = b))
    | _, _ => right _
    end); abstract congruence.
Defined.

(** ** The third-party crates of a test *)

(** The clock texts of the tests, by their nanoseconds. *)
Definition times : list (string * SystemTime) :=
  [("2013-11-21T17:11:02Z", 1385053862000000000);
   ("2013-11-21T17:11:02.307200000Z", 1385053862307200000);
   ("2013-11-21T17:11:02.047360000Z", 1385053862047360000);
   ("2022-06-21T17:11:02.307200000Z", 1655831462307200000);
   ("2022-10-19T23:52:47Z", 1666223567000000000)]%string%Z.

Definition humantime_table : Humantime := {|
  parse_rfc3339 s := (list_to_map times : gmap string SystemTime) !! s;
  format_rfc3339 t := (list_to_map (prod_swap <$> times) : gmap SystemTime string) !! t
|}.

Definition text (s : string) : Bytes := String.list_byte_of_string s.

(** The text of the outer message, and what it holds. *)
Definition gelf_doc `{DecimalApi} (gelf : string) (f : GelfFields Z) : GelfJson Z :=
  let known (s : string) :=
    if decide (s = gelf) then Ok f else Err (External "expected value" []) in {|
  gelf_fields_from_slice bs := known (String.string_of_list_byte bs);
  gelf_fields_from_str := known;
  gelf_fields_from_reader R _ fuel r :=
    match (read_to_end (replicate fuel 1) r).1 with
    | Ok (Some c) => known (String.string_of_list_byte c)
    | _ => Err (External "io" [])
    end
|}.

(** The text of the embedded event, and what it holds. *)
Definition clef_doc (clef : string) (f : ClefFields Z) : ClefJson Z := {|
  clef_fields_from_str s := if decide (s = clef) then Some f else None;
  json_object_to_string members := Ok (String.concat "," members.*1);
  json_collect_str_failed := Err (External "Display failed" [])
|}.
Definition no_clef : ClefJson Z :=
  clef_doc "" (mkClefFields Z None None None None None []).

(** ** The tests *)

Section Tests.
Context `{Profile} (now : SystemTime).
#[local] Existing Instances decimal_model humantime_table Z_json_number.

(** A test panics when an expectation fails. *)
Definition Test : Type := M ProcessState unit.

Definition expect {A} (what : string) (r : res A) : res A :=
  match r with Err _ => Panic what | _ => r end.
Definition assert (b : bool) : Test := if b then m_ret tt else m_panic "assertion failed".

(** [{:?}] of a string without characters to escape. *)
Definition str_debug (s : string) : string := ("'" +:+ s +:+ "'")%string.

(** [with_clef] on [gelf.to_string().as_bytes()]. *)
Definition with_clef_bytes `{!ClefJson Z, !GelfJson Z} (config : Config) (gelf : Bytes)
    (with_ : clef.Message Z -> Test) : Test :=
  with_clef 31 (CachedString := string) str_debug (Process_new config) now [] gelf with_.

(** [serde_json::to_value(&clef)] is the expected object. *)
Definition assert_members (expected : list (string * Value Z)) (clef : clef.Message Z) : Test :=
  assert (bool_decide
    (list_to_map <$> Message_members clef =
       Some (list_to_map expected : gmap string (Value Z)))).

(** [expected a borrowed message string]. *)
Definition assert_borrowed (clef : clef.Message Z) : Test :=
  match clef.message clef with
  | None => m_panic "missing message"
  | Some (Owned _) => m_panic "expected a borrowed message string"
  | Some (Borrowed _) => m_ret tt
  end.

(** [.expect("failed to read gelf event")]. *)
Definition expect_event (test : Test) : Test := fun ps =>
  let '(r, ps') := test ps in (expect "failed to read gelf event" r, ps').

Definition borrowed (s : string) : option StrEvent := Some (VisitBorrowedStr s).
Definition object (members : list (string * Value Z)) : Value Z :=
  VObject (foldl (fun o '(k, v) => bt_insert k v o) [] members).

Local Open Scope string_scope.

Definition user_fields : Value Z := object
  [("_user_id", VNumber 9001%Z); ("_some_info", VString "foo"); ("_some_env_var", VString "bar")].

(** The message of the first and the fourth test, by its timestamp. *)
Definition gelf_msg (timestamp : Decimal) : GelfFields Z :=
  mkGelfFields (borrowed "1.1") (borrowed "example.org")
    (VisitBorrowedStr "A short message that helps you identify what is going on")
    (borrowed "Backtrace here") (Some timestamp) (Some 1%Z) None None None (Some user_fields).
Definition gelf_msg_members (timestamp : string) : list (string * Value Z) :=
  [("@t", VString timestamp); ("@l", VString "alert");
   ("@m", VString "A short message that helps you identify what is going on");
   ("@x", VString "Backtrace here"); ("some_env_var", VString "bar");
   ("some_info", VString "foo"); ("user_id", VNumber 9001%Z); ("host", VString "example.org")].

Definition from_gelf_msg : Test :=
  let _ := no_clef in
  let _ := gelf_doc "gelf" (gelf_msg (mkDecimal false 13850538623072 4)) in
  expect_event (with_clef_bytes Config_default (text "gelf") (fun clef =>
    assert_borrowed clef ;;;
    assert_members (gelf_msg_members "2013-11-21T17:11:02.307200000Z") clef)).

Definition from_gelf_inner_json : Test :=
  let _ := clef_doc "{clef}"
    (mkClefFields Z (borrowed "2013-11-21T17:11:02Z") (borrowed "info") None
      (borrowed "A short message that helps {user_id} identify what is going on")
      (borrowed "Backtrace here") [(VisitBorrowedStr "user_id", VNumber 4000%Z)]) in
  let _ := gelf_doc "gelf"
    (mkGelfFields (borrowed "1.1") (borrowed "example.org") (VisitStr "{clef}") None None
      (Some 1%Z) None None None
      (Some (object
        [("_user_id", VNumber 9001%Z); ("_some_info", VString "foo");
         ("_some_env_var", VString "bar"); ("_container_id", VString "abcdefghijklmnopqrstuv");
         ("_command", VString "run"); ("_container_name", VString "test-container");
         ("_image_name", VString "test/image"); ("_image_id", VString "abcdefghijklmnopqrstuv");
         ("_tag", VString "latest")]))) in
  expect_event (with_clef_bytes Config_default (text "gelf") (assert_members
    [("@l", VString "info");
     ("@mt", VString "A short message that helps {user_id} identify what is going on");
     ("@t", VString "2013-11-21T17:11:02Z"); ("@x", VString "Backtrace here");
     ("some_env_var", VString "bar"); ("some_info", VString "foo");
     ("user_id", VNumber 9001%Z); ("__user_id", VNumber 4000%Z);
     ("container_id", VString "abcdefghijklmnopqrstuv"); ("command", VString "run");
     ("container_name", VString "test-container"); ("image_name", VString "test/image");
     ("image_id", VString "abcdefghijklmnopqrstuv"); ("tag", VString "latest");
     ("host", VString "example.org")])).

Definition from_gelf_inner_json_fallback : Test :=
  let message := "A short message that helps {user_id} identify what is going on" in
  let inner := [("level", VString "error"); ("message", VString message);
                ("timestamp", VString "2022-06-21T17:11:02.307200000Z")] in
  let _ := clef_doc "{inner_json}"
    (mkClefFields Z None None None None None (prod_map VisitBorrowedStr id <$> inner)) in
  let _ := gelf_doc "gelf"
    (mkGelfFields (borrowed "1.1") (borrowed "example.org") (VisitStr "{inner_json}") None
      (Some (mkDecimal false 13850538623072 4)) (Some 6%Z) None None None
      (Some (object []))) in
  expect_event (with_clef_bytes Config_default (text "gelf") (assert_members
    ([("@l", VString "error"); ("@m", VString message);
      ("@t", VString "2022-06-21T17:11:02.307200000Z"); ("host", VString "example.org")]
     ++ inner))).

Definition raw_config : Config := mkConfig true.

Definition include_raw_payload : Test :=
  let _ := no_clef in
  let _ := gelf_doc "gelf" (gelf_msg (mkDecimal false 138505386204736 5)) in
  expect_event (with_clef_bytes raw_config (text "gelf") (fun clef =>
    assert_borrowed clef ;;;
    assert_members
      (gelf_msg_members "2013-11-21T17:11:02.047360000Z" ++ [("raw_payload", VString "gelf")])
      clef)).

(** [.expect_err("expected parsing to fail")] of a callback that is never
    called, and [err.to_string().contains(part)]. *)
Definition expect_err_with (part : string) (gelf : Bytes) : Test :=
  let _ := no_clef in
  let _ := gelf_doc "gelf" (gelf_msg (mkDecimal false 0 0)) in
  fun ps =>
  match with_clef_bytes raw_config gelf
          (fun _ => m_panic "internal error: entered unreachable code") ps with
  | (Ok _, ps') => (Panic "expected parsing to fail", ps')
  | (Err err, ps') => assert (bool_decide (is_Some (String.index 0 part (error_display err)))) ps'
  | (Panic w, ps') => (Panic w, ps')
  end.

Definition invalid_json_includes_some_raw_content : Test :=
  let gelf := "this is definitely not json" in
  expect_err_with gelf (text gelf).

(** The first three of the four bytes of U+1F9AB. *)
Definition non_utf8_input_includes_some_raw_content : Test :=
  let gelf := take 3 [Byte.xf0; Byte.x9f; Byte.xa6; Byte.xab] in
  expect_err_with (from_utf8_lossy gelf) gelf.

(** The unit tests of [sqelf/src/process/clef.rs]. *)
Definition unwrap {A} (r : res (option A)) : res A :=
  match r with
  | Ok (Some a) => Ok a
  | Ok None => Panic "called `Option::unwrap()` on a `None` value"
  | Err e => Err e
  | Panic w => Panic w
  end.

Definition timestamp_from_decimal : Test :=
  let! ts := m_lift (unwrap (Timestamp_from_decimal (mkDecimal false 1666223567 0))) in
  assert (bool_decide
    (Timestamp_serialize ts = Some (VString "2022-10-19T23:52:47Z" : Value Z))).

(** "Ensure we don't panic on timestamps that are out of range". *)
Definition timestamp_from_decimal_overflow : Test :=
  let! ts := m_lift (Timestamp_from_decimal (mkDecimal false (u64_modulus - 1) 0)) in
  assert (match ts with None => true | Some _ => false end).

Definition tests : list Test :=
  [from_gelf_msg; from_gelf_inner_json; from_gelf_inner_json_fallback; include_raw_payload;
   invalid_json_includes_some_raw_content; non_utf8_input_includes_some_raw_content;
   timestamp_from_decimal; timestamp_from_decimal_overflow].

Definition passes (test : Test) : bool :=
  is_ok (test (mkProcessState Globals_initial [])).1.
End Tests.

(** Every test passes, in a debug and in a release build. *)
Lemma process_tests_pass :
  forall profile, profile ∈ [Debug; Release] ->
  forallb passes (@tests profile UNIX_EPOCH) = true.
Proof.
  intros profile Hp.
  repeat (apply elem_of_cons in Hp as [->|Hp]; [|]); [..|by apply elem_of_nil in Hp];
    vm_compute; reflexivity.
Qed.
