(* ===== verification/Conversion.v ===== *)
(** What the conversion of a GELF message to a CLEF event guarantees: which
    layer wins a field, where the displaced value goes, the level, and the
    timestamp. *)

From S2P Require Import Prelude BTree Json Str Clef Process Fixtures.

(** ** Overriding *)

Definition displaced (name : string) : string := ("__" +:+ name)%string.

Lemma displaced_ne name : displaced name <> name.
Proof.
  change (String "_" (String "_" name) <> name).
  intros E. apply (f_equal String.length) in E. simpl in E. lia.
Qed.

#[export] Instance displaced_inj : Inj (=) (=) displaced.
Proof.
  intros a b E. change (String "_" (String "_" a) = String "_" (String "_" b)) in E.
  congruence.
Qed.

Section Override.
Context {Number : Type}.
Implicit Types (fields : gmap string (Value Number)) (es : list (string * Value Number)).

Lemma override_value_lookup name v fields k :
  override_value name v fields !! k =
    if decide (k = name) then Some v
    else if decide (k = displaced name)
    then match fields !! name with Some old => Some old | None => fields !! k end
    else fields !! k.
Proof.
  unfold override_value. fold (displaced name). pose proof (displaced_ne name) as Hd.
  destruct (fields !! name) as [old|] eqn:E; destruct (decide (k = name)) as [->|Hk].
  - by rewrite lookup_insert_ne, lookup_insert_eq by congruence.
  - destruct (decide (k = displaced name)) as [->|Hk'].
    + by rewrite lookup_insert_eq.
    + by rewrite !lookup_insert_ne by congruence.
  - by rewrite lookup_insert_eq.
  - rewrite lookup_insert_ne by congruence. by repeat case_decide.
Qed.

(** The names an override may write. *)
Definition touches (k : string) es : Prop :=
  k ∈ es.*1 \/ k ∈ displaced <$> es.*1.

Lemma not_touches_cons k e es :
  ~ touches k (e :: es) <-> k <> e.1 /\ k <> displaced e.1 /\ ~ touches k es.
Proof. unfold touches. set_solver. Qed.

Lemma not_touches_app k es1 es2 :
  ~ touches k es1 -> ~ touches k es2 -> ~ touches k (es1 ++ es2).
Proof. unfold touches. rewrite !fmap_app. set_solver. Qed.

Lemma override_all_cons e es fields :
  override_all (e :: es) fields = override_all es (override_value e.1 e.2 fields).
Proof. by destruct e. Qed.

Lemma override_all_app es1 es2 fields :
  override_all (es1 ++ es2) fields = override_all es2 (override_all es1 fields).
Proof. apply foldl_app. Qed.

Lemma override_all_untouched es fields k :
  ~ touches k es -> override_all es fields !! k = fields !! k.
Proof.
  revert fields. induction es as [|e es IH]; intros fields Hk; [done|].
  apply not_touches_cons in Hk as (Hne & Hd & Hk).
  rewrite override_all_cons, IH, override_value_lookup by done.
  by rewrite !decide_False by done.
Qed.

(** The last value given to a name wins. *)
Lemma override_all_last es1 es2 fields k v :
  ~ touches k es2 -> override_all (es1 ++ (k, v) :: es2) fields !! k = Some v.
Proof.
  intros Hk. rewrite override_all_app, override_all_cons, override_all_untouched by done.
  rewrite override_value_lookup. by rewrite decide_True.
Qed.

(** The value it replaces is kept under the displaced name. *)
Lemma override_all_displaced es1 es2 fields k v old :
  override_all es1 fields !! k = Some old -> ~ touches (displaced k) es2 ->
  override_all (es1 ++ (k, v) :: es2) fields !! displaced k = Some old.
Proof.
  intros Hold Hk. rewrite override_all_app, override_all_cons, override_all_untouched by done.
  rewrite override_value_lookup, decide_False by apply displaced_ne.
  rewrite decide_True by done. simpl. by rewrite Hold.
Qed.

(** No name comes from elsewhere. *)
Lemma override_all_dom es fields k :
  is_Some (override_all es fields !! k) -> is_Some (fields !! k) \/ touches k es.
Proof.
  intros Hk. destruct (decide (touches k es)) as [?|Hn]; [by right|left].
  by rewrite override_all_untouched in Hk by done.
Qed.

(** No value comes from elsewhere. *)
Lemma override_all_values es fields k v :
  override_all es fields !! k = Some v ->
  v ∈ es.*2 \/ exists k', fields !! k' = Some v.
Proof.
  revert fields. induction es as [|[n w] es IH]; intros fields Hk; [by eauto|].
  rewrite override_all_cons in Hk.
  destruct (IH _ Hk) as [Hin|[k' Hf]]; [left; by right|].
  simpl in Hf. rewrite override_value_lookup in Hf.
  repeat case_decide; simplify_eq.
  - left. by left.
  - destruct (fields !! n) eqn:E; simplify_eq; eauto.
  - eauto.
Qed.

(** Two maps that agree but for one displaced name. *)
Definition agree_but (d : string) fields1 fields2 : Prop :=
  forall k, k <> d -> fields1 !! k = fields2 !! k.

Lemma override_value_agree d n v fields1 fields2 :
  n <> d -> agree_but d fields1 fields2 ->
  agree_but d (override_value n v fields1) (override_value n v fields2).
Proof.
  intros Hn Ha k Hk. rewrite !override_value_lookup.
  rewrite (Ha n Hn), (Ha k Hk). done.
Qed.

Lemma override_all_agree d es fields1 fields2 :
  d ∉ es.*1 -> agree_but d fields1 fields2 ->
  agree_but d (override_all es fields1) (override_all es fields2).
Proof.
  revert fields1 fields2. induction es as [|[n v] es IH]; intros f1 f2 Hd Ha; [done|].
  rewrite !override_all_cons. apply IH; [set_solver|].
  apply override_value_agree; [set_solver|done].
Qed.

(** A name overridden twice: the value below both is in no field. *)
Lemma override_all_twice es1 es2 es3 fields k v1 v2 old :
  ~ touches k es1 -> ~ touches k es2 -> ~ touches (displaced k) es2 ->
  override_all (es1 ++ (k, v1) :: es2 ++ (k, v2) :: es3) (<[k := old]> fields) =
  override_all (es1 ++ (k, v1) :: es2 ++ (k, v2) :: es3) (delete k fields).
Proof.
  intros H1 H2 Hd2.
  rewrite !override_all_app, !override_all_cons, !override_all_app, !override_all_cons.
  simpl fst. simpl snd. f_equal.
  assert (Ha : agree_but (displaced k)
    (override_all es2 (override_value k v1 (override_all es1 (<[k := old]> fields))))
    (override_all es2 (override_value k v1 (override_all es1 (delete k fields))))).
  { apply override_all_agree; [unfold touches in Hd2; tauto|].
    intros k' Hk'. rewrite !override_value_lookup.
    case_decide as Hkk; [done|]. rewrite !(decide_False _ _ Hk').
    assert (Hk : agree_but k (override_all es1 (<[k := old]> fields))
                             (override_all es1 (delete k fields))).
    { apply override_all_agree; [unfold touches in H1; tauto|].
      intros j Hj. by rewrite lookup_insert_ne, lookup_delete_ne by done. }
    by apply Hk. }
  apply map_eq. intros k'. rewrite !override_value_lookup.
  case_decide; [done|]. case_decide as Hd.
  - rewrite !(override_all_untouched es2 _ k), !override_value_lookup by done.
    by rewrite !(decide_True _ _ (eq_refl k)).
  - by apply Ha.
Qed.
End Override.

(** ** Fields *)

Section Fields.
Context `{Profile} `{DecimalApi} `{Humantime} {Number : Type}
  `{JsonNumber Number} `{ClefJson Number}.
Context {TString TMessage : Type} `{AsRef TString} `{AsRef TMessage}.
Implicit Types self : gelf.Message Number TString TMessage.

(** The fields laid over the embedded event's, lowest priority first: the
    payload's, then the envelope's. *)
Definition layers self : list (string * Value Number) :=
  default [] (additional self) ++ built_ins self.

Lemma to_clef_inv now self c :
  to_clef now self = Ok c ->
  exists timestamp,
    to_clef_timestamp now self (embedded_event self) = Ok timestamp /\
    c = clef.mkMessage timestamp
          (to_clef_level self (embedded_event self))
          (to_clef_message (embedded_event self))
          (clef.message_template (embedded_event self))
          (to_clef_exception self (embedded_event self))
          (override_all (layers self) (clef.additional (embedded_event self))).
Proof.
  unfold to_clef, layers. destruct (to_clef_timestamp _ _ _) as [ts| |]; [|done..].
  intros [= <-]. exists ts. split; [done|]. f_equal.
  destruct (additional self); [|done]. simpl. by rewrite override_all_app.
Qed.

Lemma to_clef_fields now self c :
  to_clef now self = Ok c ->
  clef.additional c = override_all (layers self) (clef.additional (embedded_event self)).
Proof. by intros (ts & _ & ->)%to_clef_inv. Qed.

(** ** The level *)

Lemma find_first_empty names : find_first (Number := Number) ∅ names = None.
Proof. by induction names. Qed.

Lemma to_clef_level_some self c : is_Some (to_clef_level self c).
Proof. unfold to_clef_level. by case_match. Qed.

Lemma level_name_table n : (0 <= n)%Z ->
  level_name n = default "debug"%string
    (["emerg"; "alert"; "crit"; "err"; "warning"; "notice"; "info"; "debug"]%string
       !! Z.to_nat n).
Proof.
  intros Hn. destruct (decide (n < 8)%Z) as [Hlt|Hge].
  - assert (Hc : n ∈ seqZ 0 8) by (apply elem_of_seqZ; lia).
    unfold seqZ in Hc. simpl in Hc. set_unfold in Hc. by destruct_or? Hc; subst.
  - rewrite lookup_ge_None_2 by (simpl; lia). unfold level_name.
    repeat case_match; try done; lia.
Qed.
End Fields.

(** ** Strings by their text *)

Section SameText.
Context `{Profile} `{DecimalApi} `{Humantime} {Number : Type}
  `{JsonNumber Number} `{ClefJson Number}.

(** Two messages that say the same, their strings stored in any way. *)
Record same_text {TS TM TS' TM'} `{AsRef TS, AsRef TM, AsRef TS', AsRef TM'}
    (m : gelf.Message Number TS TM) (m' : gelf.Message Number TS' TM') : Prop := {
  st_version : as_ref <$> gelf.version m = as_ref <$> gelf.version m';
  st_host : as_ref <$> gelf.host m = as_ref <$> gelf.host m';
  st_short_message : as_ref (gelf.short_message m) = as_ref (gelf.short_message m');
  st_full_message : as_ref <$> gelf.full_message m = as_ref <$> gelf.full_message m';
  st_timestamp : gelf.timestamp m = gelf.timestamp m';
  st_level : gelf.level m = gelf.level m';
  st_facility : as_ref <$> gelf.facility m = as_ref <$> gelf.facility m';
  st_line : gelf.line m = gelf.line m';
  st_file : as_ref <$> gelf.file m = as_ref <$> gelf.file m';
  st_additional : gelf.additional m = gelf.additional m'
}.

Context {TS TM TS' TM' : Type} `{AsRef TS} `{AsRef TM} `{AsRef TS'} `{AsRef TM'}.

Lemma to_clef_same_text now (m : gelf.Message Number TS TM)
    (m' : gelf.Message Number TS' TM') :
  same_text m m' -> to_clef now m = to_clef now m'.
Proof.
  intros [_ Hh Hs Hf Ht Hl Hfa Hli Hfi Ha].
  unfold to_clef, to_clef_timestamp, to_clef_level, to_clef_exception, built_ins,
    additional, embedded_event.
  rewrite Hs, Ht, Hl, Hli, Ha.
  destruct (gelf.host m), (gelf.host m'), (gelf.facility m), (gelf.facility m'),
    (gelf.file m), (gelf.file m'), (gelf.full_message m), (gelf.full_message m');
    simpl in *; simplify_eq; repeat match goal with
    | E : as_ref ?a = as_ref ?b |- _ => rewrite E; clear E
    end; reflexivity.
Qed.
End SameText.

(** ** Timestamps *)

Lemma u32_pow_10 `{Profile} e : (0 <= e <= 9)%Z -> u32_pow 10 e = Ok (10 ^ e)%Z.
Proof.
  intros He. assert (Hc : e ∈ seqZ 0 10) by (apply elem_of_seqZ; lia).
  unfold seqZ in Hc. simpl in Hc. set_unfold in Hc.
  destruct_or? Hc; subst; reflexivity.
Qed.

(** In a release build the exponent of a scale above nine wraps, and the power
    wraps to zero. *)
Lemma u32_pow_10_wrapped s :
  (10 <= s <= 28)%Z -> @u32_pow Release 10 ((9 - s) mod u32_modulus) = Ok 0%Z.
Proof.
  intros Hs. assert (Hc : s ∈ seqZ 10 19) by (apply elem_of_seqZ; lia).
  unfold seqZ in Hc. simpl in Hc. set_unfold in Hc.
  destruct_or? Hc; subst; reflexivity.
Qed.

Section FromDecimal.
Context `{Profile} `{DecimalApi}.

Abbreviation secs_of ts := (Decimal_mantissa ts / 10 ^ Decimal_scale ts)%Z.
Abbreviation fract_of ts := (Decimal_mantissa ts mod 10 ^ Decimal_scale ts)%Z.

(** The parts of a decimal that is not negative. *)
Lemma from_decimal_parts ts :
  Decimal_is_sign_negative ts = false ->
  Timestamp_from_decimal ts =
    if (secs_of ts <? u64_modulus)%Z then
      if (fract_of ts <? u32_modulus)%Z then
        exp ← checked_sub u32_modulus 9 (Decimal_scale ts);
        pow ← u32_pow 10 exp;
        nanos ← checked_mul u32_modulus (fract_of ts) pow;
        duration ← Duration_new (secs_of ts) nanos;
        Ok (mkTimestamp <$> systime_checked_add UNIX_EPOCH duration)
      else Ok None
    else Ok None.
Proof.
  intros Hpos. unfold Timestamp_from_decimal. rewrite Hpos.
  destruct (Decimal_trunc_spec ts) as [Ht1 Ht2].
  rewrite Decimal_to_u64_spec, Ht2 by congruence. cbv zeta.
  destruct (_ <? u64_modulus)%Z; [|done].
  destruct (Decimal_fract_spec ts) as [Hf1 Hf2].
  destruct (Decimal_set_scale_spec 0 (Decimal_fract ts)) as (f & -> & Hs & Hm & Hn); [done|].
  rewrite Decimal_to_u32_spec by congruence. cbv zeta.
  rewrite Hs, Hm, Hf2, Z.pow_0_r, Z.div_1_r. by destruct (_ <? u32_modulus)%Z.
Qed.

(** Up to nine decimal places, the time is the decimal to the nanosecond. *)
Lemma from_decimal_nanos ts :
  Decimal_is_sign_negative ts = false -> (Decimal_scale ts <= 9)%Z ->
  let nanos := (Decimal_mantissa ts * 10 ^ (9 - Decimal_scale ts))%Z in
  Timestamp_from_decimal ts =
    Ok (if (nanos <=? systime_max)%Z then Some (mkTimestamp nanos) else None).
Proof.
  intros Hpos Hs nanos. rewrite from_decimal_parts by done.
  pose proof (Decimal_scale_range ts). pose proof (Decimal_mantissa_range ts).
  pose proof (Z.pow_pos_nonneg 10 (Decimal_scale ts) eq_refl ltac:(lia)) as Hp.
  pose proof (Z.pow_pos_nonneg 10 (9 - Decimal_scale ts) eq_refl ltac:(lia)) as Hq.
  assert (Hpq : (10 ^ Decimal_scale ts * 10 ^ (9 - Decimal_scale ts) = 10 ^ 9)%Z).
  { rewrite <- Z.pow_add_r by lia. f_equal. lia. }
  pose proof (Z.div_mod (Decimal_mantissa ts) (10 ^ Decimal_scale ts) ltac:(lia)) as Hdm.
  pose proof (Z.mod_pos_bound (Decimal_mantissa ts) _ Hp) as Hr.
  pose proof (Z.div_pos (Decimal_mantissa ts) _ ltac:(lia) Hp) as Hsec.
  set (p := (10 ^ Decimal_scale ts)%Z) in *. set (q := (10 ^ (9 - Decimal_scale ts))%Z) in *.
  assert (Hn : nanos = (secs_of ts * nanos_per_sec + fract_of ts * q)%Z).
  { unfold nanos, nanos_per_sec. fold p. rewrite <- Hpq. nia. }
  fold p in Hn.
  assert (Hf : (0 <= Decimal_mantissa ts mod p * q < nanos_per_sec)%Z)
    by (unfold nanos_per_sec; nia).
  destruct (Z.ltb_spec (Decimal_mantissa ts / p) u64_modulus) as [Hlt|Hge].
  2:{ rewrite (proj2 (Z.leb_gt _ _)); [done|].
      unfold systime_max, u64_modulus, nanos_per_sec in *. lia. }
  rewrite (proj2 (Z.ltb_lt _ u32_modulus)) by (unfold u32_modulus, nanos_per_sec in *; nia).
  unfold checked_sub. rewrite (proj2 (Z.leb_le _ 9)) by done. simpl mbind.
  rewrite u32_pow_10 by lia. simpl mbind. unfold checked_mul. fold q.
  rewrite (proj2 (Z.ltb_lt _ u32_modulus)) by (unfold u32_modulus, nanos_per_sec in *; lia).
  simpl mbind. unfold Duration_new. rewrite (Z.div_small _ nanos_per_sec), Z.add_0_r by done.
  rewrite (proj2 (Z.ltb_lt _ u64_modulus)) by done. simpl mbind.
  rewrite <- Hn. unfold systime_checked_add, UNIX_EPOCH. rewrite Z.add_0_l.
  by destruct (_ <=? _)%Z.
Qed.

(** Beyond nine decimal places a debug build panics, and a release build
    drops the fraction. *)
Lemma from_decimal_deep ts :
  Decimal_is_sign_negative ts = false -> (9 < Decimal_scale ts)%Z ->
  (secs_of ts < u64_modulus)%Z -> (fract_of ts < u32_modulus)%Z ->
  Timestamp_from_decimal ts =
    if debug_assertions then Panic "attempt to subtract with overflow"
    else Ok (mkTimestamp <$>
           systime_checked_add UNIX_EPOCH (Duration_from_secs (secs_of ts))).
Proof.
  intros Hpos Hs Hq Hr. rewrite from_decimal_parts by done.
  pose proof (Decimal_scale_range ts) as Hrange.
  rewrite (proj2 (Z.ltb_lt _ _) Hq), (proj2 (Z.ltb_lt _ _) Hr).
  unfold checked_sub. rewrite (proj2 (Z.leb_gt _ _) Hs).
  pose proof (u32_pow_10_wrapped (Decimal_scale ts) ltac:(lia)) as Hpow.
  destruct H as [[]]; [done|]. simpl debug_assertions. cbv iota. simpl mbind.
  unfold Release in Hpow. rewrite Hpow. simpl mbind. unfold checked_mul. rewrite Z.mul_0_r.
  simpl mbind. unfold Duration_new, Duration_from_secs. change (0 / nanos_per_sec)%Z with 0%Z.
  by rewrite !Z.add_0_r, (proj2 (Z.ltb_lt _ _) Hq).
Qed.

(** The only panic is the one of a debug build on a deep scale. *)
Lemma from_decimal_ok ts :
  debug_assertions = false \/ (Decimal_scale ts <= 9)%Z ->
  exists t, Timestamp_from_decimal ts = Ok t.
Proof.
  intros Hok. destruct (Decimal_is_sign_negative ts) eqn:Hneg.
  { unfold Timestamp_from_decimal. rewrite Hneg. eauto. }
  destruct (decide (Decimal_scale ts <= 9)%Z) as [Hs|Hs].
  { rewrite from_decimal_nanos by done. eauto. }
  destruct Hok as [Hok|]; [|done].
  destruct (decide (secs_of ts < u64_modulus)%Z) as [Hq|Hq].
  2:{ rewrite from_decimal_parts, (proj2 (Z.ltb_ge _ _)) by (done || lia). eauto. }
  destruct (decide (fract_of ts < u32_modulus)%Z) as [Hr|Hr].
  2:{ rewrite from_decimal_parts, (proj2 (Z.ltb_lt _ _) Hq) by done.
      rewrite (proj2 (Z.ltb_ge _ _)) by lia. eauto. }
  rewrite from_decimal_deep, Hok by (done || lia). eauto.
Qed.
End FromDecimal.
