(* ===== verification/Members.v ===== *)
(** The members of the JSON object that an event is written as: the event's own,
    whose names start with [@], and its fields. *)

From S2P Require Import Prelude BTree Json Str Clef Process Fixtures Conversion.

(** The names the derived [Serialize] and [Deserialize] of [clef::Message] give
    its fields. *)
Definition event_names : list string := ["@t"; "@l"; "@m"; "@mt"; "@x"]%string.

(** "The flatten attribute ... holds the fields not otherwise captured": the
    other members of an embedded event have other names. *)
Class ClefJsonLaws (Number : Type) `{ClefJson Number} := {
  clef_fields_others s f ev v :
    clef_fields_from_str s = Some f -> (ev, v) ∈ cf_additional f -> as_ref ev ∉ event_names
}.

Section Members.
Context {Number : Type} `{ClefJson Number} `{Humantime}.
Implicit Types c : clef.Message Number.

(** The event's own members that are written. *)
Definition own_names c : list string :=
  ["@t"; "@l"]%string ++ (if clef.message c is Some _ then ["@m"%string] else [])
  ++ (if clef.message_template c is Some _ then ["@mt"%string] else [])
  ++ (if clef.exception c is Some _ then ["@x"%string] else []).

Lemma own_names_NoDup c : NoDup (own_names c).
Proof.
  unfold own_names.
  destruct (clef.message c), (clef.message_template c), (clef.exception c);
    apply (bool_decide_unpack _); by vm_compute.
Qed.

Lemma own_names_event c k : k ∈ own_names c -> k ∈ event_names.
Proof.
  unfold own_names, event_names.
  destruct (clef.message c), (clef.message_template c), (clef.exception c); set_solver.
Qed.

(** The members are the event's own, and then one for each field. *)
Lemma Message_members_names c ms :
  Message_members c = Some ms ->
  exists own, ms = own ++ map_to_list (clef.additional c) /\ own.*1 = own_names c.
Proof.
  unfold Message_members, own_names, serialize_some.
  destruct (match clef.timestamp c with None => _ | Some _ => _ end) as [ts|]; [|done].
  intros [= <-]. rewrite !app_comm_cons, !app_assoc. eexists. split; [reflexivity|].
  by destruct (clef.message c), (clef.message_template c), (clef.exception c).
Qed.

(** No name is written twice exactly when no field has one of the event's. *)
Lemma Message_members_distinct c ms :
  Message_members c = Some ms ->
  NoDup ms.*1 <-> forall k, k ∈ own_names c -> clef.additional c !! k = None.
Proof.
  intros (own & -> & Hown)%Message_members_names. rewrite fmap_app, Hown, NoDup_app.
  split.
  - intros (_ & Hd & _) k Hk. apply eq_None_not_Some. intros [v Hv].
    apply (Hd k Hk). apply elem_of_map_to_list in Hv. by apply (list_elem_of_fmap_2 fst) in Hv.
  - intros Hn. split; [apply own_names_NoDup|]. split; [|apply NoDup_fst_map_to_list].
    intros k Hk ([k' v] & -> & Hv%elem_of_map_to_list)%list_elem_of_fmap. simpl in Hk.
    by rewrite Hn in Hv.
Qed.

(** An embedded event has no field with one of the names. *)
Lemma embedded_fields_others `{!ClefJsonLaws Number} s c k :
  maybe_from_json s = Some c -> k ∈ event_names -> clef.additional c !! k = None.
Proof.
  unfold maybe_from_json. destruct s as [|a s]; [done|].
  destruct (clef_fields_from_str _) as [f|] eqn:Ef; [|by repeat case_match].
  assert (Hf : forall c, Message_visit f = Some c -> k ∈ event_names -> clef.additional c !! k = None).
  { clear c. intros c Hc Hk. unfold Message_visit in Hc.
    destruct (match cf_timestamp f with None => _ | Some _ => _ end); [|done].
    apply (inj Some) in Hc as <-. cbn [clef.additional].
    assert (Hall : forall ev v, (ev, v) ∈ cf_additional f -> as_ref ev ∉ event_names)
      by (intros ev v; by eapply clef_fields_others).
    cut (forall m : gmap string (Value Number), m !! k = None ->
      foldl (fun fields '(k, v) => <[as_ref (Str_visit (S := string) k) := v]> fields) m
        (cf_additional f) !! k = None); [intros Hcut; by apply Hcut|].
    induction (cf_additional f) as [|[ev v] l IH]; intros m Hm; [done|].
    cbn [foldl]. apply IH; [intros ev' v' Hin; by eapply Hall; right|].
    rewrite lookup_insert_ne; [done|]. rewrite (Str_visit_text (S := string)). intros <-.
    by apply (Hall ev v); [left|]. }
  repeat case_match; try done; apply Hf.
Qed.
End Members.

Section Fields.
Context `{Profile} `{DecimalApi} `{Humantime} {Number : Type}
  `{JsonNumber Number} `{ClefJson Number} `{!ClefJsonLaws Number}.
Context {TString TMessage : Type} `{AsRef TString} `{AsRef TMessage}.
Implicit Types self : gelf.Message Number TString TMessage.

(** The names of the payload's other members, as the event has them. *)
Definition payload_names self : list string := (default [] (additional self)).*1.

Lemma event_name_not_built_in self k : k ∈ event_names -> ~ touches k (built_ins self).
Proof.
  intros Hk [Hin|Hin]; revert Hin; unfold built_ins; rewrite ?fmap_app;
    destruct (gelf.host self), (gelf.facility self), (gelf.file self), (gelf.line self);
    simpl; unfold event_names in Hk; set_unfold; intros Hin; destruct_or? Hk; subst;
    naive_solver.
Qed.

Lemma event_name_not_displaced k n : k ∈ event_names -> k <> displaced n.
Proof. unfold event_names, displaced. set_unfold. intros Hk. by destruct_or? Hk; subst. Qed.

(** A field of the event has one of the event's names exactly when a member of
    the payload has it. *)
Lemma event_name_field now self c k :
  to_clef now self = Ok c -> k ∈ event_names ->
  is_Some (clef.additional c !! k) <-> k ∈ payload_names self.
Proof.
  intros Hc Hk. rewrite (to_clef_fields _ _ _ Hc). unfold layers.
  assert (He : clef.additional (embedded_event self) !! k = None).
  { unfold embedded_event. destruct (maybe_from_json _) as [e|] eqn:E; simpl;
      [by eapply embedded_fields_others|apply lookup_empty]. }
  rewrite override_all_app, override_all_untouched by by apply event_name_not_built_in.
  unfold payload_names. set (es := default [] (additional self)). split.
  - intros [[v Hv]|[Hin|Hin]]%override_all_dom; [by rewrite He in Hv|done|].
    apply list_elem_of_fmap in Hin as (n & -> & _). by eapply event_name_not_displaced in Hk.
  - clear He. generalize (clef.additional (embedded_event self)). generalize es. clear es.
    intros es fields. revert fields. induction es as [|[n v] es IH]; intros fields Hin; [set_solver|].
    rewrite override_all_cons. destruct (decide (k ∈ es.*1)) as [?|Hn]; [by apply IH|].
    assert (k = n) as -> by set_solver.
    rewrite override_all_untouched.
    { rewrite override_value_lookup, decide_True by done. by eexists. }
    intros [?|(n' & Hn' & _)%list_elem_of_fmap]; [done|]. by eapply event_name_not_displaced in Hk.
Qed.
End Fields.

Section Properties.
Context `{Profile} `{DecimalApi} `{Humantime} {Number : Type}
  `{JsonNumber Number} `{ClefJson Number} `{!ClefJsonLaws Number}.
Context {TString TMessage : Type} `{AsRef TString} `{AsRef TMessage}.
Implicit Types self : gelf.Message Number TString TMessage.

(** C17: an event is written as its own members, whose names are distinct,
    followed by one member for each of its fields. No name is written twice
    exactly when the payload has no member that is named as one of the event's
    own; the leading underscore is no protection, as it is dropped, and nothing
    in the embedded event, the envelope or a displaced name can cause it. *)
Theorem event_members_distinct now self c ms :
  to_clef now self = Ok c -> Message_members c = Some ms ->
  (exists own, ms = own ++ map_to_list (clef.additional c) /\ own.*1 = own_names c) /\
  (NoDup ms.*1 <-> forall k, k ∈ own_names c -> k ∉ payload_names self).
Proof.
  intros Hc Hms. split; [by apply Message_members_names|].
  rewrite (Message_members_distinct c ms Hms).
  split; intros Hn k Hk; specialize (Hn k Hk);
    pose proof (event_name_field now self c k Hc (own_names_event c k Hk)) as Hf.
  - intros Hin%Hf. rewrite Hn in Hin. by destruct Hin.
  - apply eq_None_not_Some. by intros ?%Hf.
Qed.
End Properties.

(** ** A witness *)

Section Witnesses.
#[local] Existing Instances Release decimal_model humantime_fixture Z_json_number
  clef_json_fixture.

#[local] Instance clef_json_fixture_laws : ClefJsonLaws Z.
Proof.
  constructor. intros s f ev v. simpl. intros [= <-]. case_decide; simpl; [|set_solver].
  intros [[= -> ->]|Hin]%elem_of_cons; [|by apply elem_of_nil in Hin].
  apply (bool_decide_unpack _). by vm_compute.
Qed.

(** A payload with the members [_@t] and [_user]. *)
Definition reserved_message : gelf.Message Z string string :=
  gelf.mkMessage None None "text"%string None None None None None None
    (Some (VObject [("_@t", VString "never"); ("_user", VNumber 7)]%string%Z)).
Definition reserved_event : clef.Message Z :=
  ok_or (clef.from_message "") (to_clef nanos_per_sec reserved_message).

Lemma event_members_distinct_witness :
  exists ms, Message_members reserved_event = Some ms /\ ~ NoDup ms.*1.
Proof.
  destruct (Message_members reserved_event) as [ms|] eqn:E; [|by vm_compute in E].
  exists ms. split; [reflexivity|].
  destruct (event_members_distinct nanos_per_sec reserved_message reserved_event ms)
    as [_ Hd]; [vm_compute; reflexivity|exact E|].
  intros Hn. destruct (proj1 Hd Hn "@t"%string); apply (bool_decide_unpack _); by vm_compute.
Defined.
End Witnesses.
