(* ===== verification/ConversionThms.v ===== *)
(** The properties of the conversion of a GELF message to a CLEF event. *)

From S2P Require Import Prelude BTree Json Str Clef Process Fixtures Conversion.

Section Properties.
Context `{Profile} `{DecimalApi} `{Humantime} {Number : Type}
  `{JsonNumber Number} `{ClefJson Number}.
Context {TString TMessage : Type} `{AsRef TString} `{AsRef TMessage}.
Implicit Types self : gelf.Message Number TString TMessage.

(** C8: the fields of the event are the embedded event's, overridden by the
    payload's and then by the envelope's: a value that no later layer
    overrides is in the field, the embedded value it displaces is in the
    field with two underscores, an embedded field no layer names is kept,
    and every other field of the event has one of these names. *)
Theorem to_clef_layers now self c :
  to_clef now self = Ok c ->
  let embedded := clef.additional (embedded_event self) in
  (forall es1 k v es2, layers self = es1 ++ (k, v) :: es2 ->
     (~ touches k es2 -> clef.additional c !! k = Some v) /\
     (forall old, embedded !! k = Some old -> ~ touches k es1 ->
        ~ touches (displaced k) es2 -> clef.additional c !! displaced k = Some old)) /\
  (forall k, ~ touches k (layers self) -> clef.additional c !! k = embedded !! k) /\
  (forall k v, clef.additional c !! k = Some v ->
     (is_Some (embedded !! k) \/ touches k (layers self)) /\
     (v ∈ (layers self).*2 \/ exists k', embedded !! k' = Some v)).
Proof.
  intros Hc embedded. rewrite (to_clef_fields _ _ _ Hc). fold embedded.
  split; [|split].
  - intros es1 k v es2 ->. split; [by apply override_all_last|].
    intros old Hold Hb Ha. apply override_all_displaced; [|done].
    by rewrite override_all_untouched.
  - intros k Hk. by apply override_all_untouched.
  - intros k v Hk. split; [apply override_all_dom; eauto|by eapply override_all_values].
Qed.

(** The envelope's own fields are in the event whatever the payload and
    the embedded event say. *)
Lemma to_clef_envelope_wins now self c :
  to_clef now self = Ok c ->
  (forall host, gelf.host self = Some host ->
     clef.additional c !! "host"%string = Some (VString (as_ref host))) /\
  (forall facility, gelf.facility self = Some facility ->
     clef.additional c !! "facility"%string = Some (VString (as_ref facility))) /\
  (forall file, gelf.file self = Some file ->
     clef.additional c !! "file"%string = Some (VString (as_ref file))) /\
  (forall line, gelf.line self = Some line ->
     clef.additional c !! "line"%string = Some (VNumber (Number_from_u32 line))).
Proof.
  intros Hc. rewrite (to_clef_fields _ _ _ Hc). unfold layers, built_ins.
  destruct self as [? host ? ? ? ? facility line file ?]; simpl.
  repeat split; intros x ->; rewrite override_all_app, <- ?app_assoc;
    repeat match goal with
    | |- context [match ?o with Some _ => _ | None => _ end] => destruct o; simpl
    end;
    by rewrite ?override_value_lookup.
Qed.

(** When the payload and the envelope (or two payload fields) both set a
    name, the embedded event's value for it is lost: the event is the same
    as if the embedded event did not have it. *)
Lemma to_clef_lowest_layer_lost now self c es1 es2 es3 k v1 v2 old fields :
  to_clef now self = Ok c ->
  layers self = es1 ++ (k, v1) :: es2 ++ (k, v2) :: es3 ->
  clef.additional (embedded_event self) = <[k := old]> fields ->
  ~ touches k es1 -> ~ touches k es2 -> ~ touches (displaced k) es2 ->
  clef.additional c = override_all (layers self) (delete k fields).
Proof.
  intros Hc Hl Hf Hb Hm Hd. rewrite (to_clef_fields _ _ _ Hc), Hl, Hf.
  by apply override_all_twice.
Qed.

(** C30: conversion always gives an event, with a level and a timestamp; in a
    debug build, when the GELF timestamp has at most nine decimal places. *)
Theorem to_clef_total now self :
  debug_assertions = false \/
    (forall ts, gelf.timestamp self = Some ts -> (Decimal_scale ts <= 9)%Z) ->
  exists c, to_clef now self = Ok c /\
    is_Some (clef.level c) /\ is_Some (clef.timestamp c).
Proof.
  intros Hok. unfold to_clef.
  assert (Ht : exists t, to_clef_timestamp now self (embedded_event self) = Ok (Some t)).
  { unfold to_clef_timestamp. case_match; [by eauto|]. case_match; [by eauto|].
    destruct (gelf.timestamp self) as [ts|]; simpl; [|by eauto].
    destruct (from_decimal_ok ts) as [[t|] ->]; simpl; [|by eauto..].
    destruct Hok as [?|Hok]; [by left|right; by apply Hok]. }
  destruct Ht as [t ->]. simpl. eexists. split; [done|]. simpl.
  split; [apply to_clef_level_some|by eexists].
Qed.

(** C32: a short message that holds no event becomes the message of the event;
    the level is the syslog name of the GELF level ([info] when there is
    none, [debug] above seven), the full message is the exception unless it
    repeats the short one, the clock gives a missing timestamp, and the fields
    are the payload's and the envelope's. *)
Theorem to_clef_plain_text now self c :
  maybe_from_json (as_ref (gelf.short_message self)) = None ->
  (forall n, gelf.level self = Some n -> (0 <= n)%Z) ->
  to_clef now self = Ok c ->
  clef.message c = Some (Borrowed (as_ref (gelf.short_message self))) /\
  clef.message_template c = None /\
  clef.level c = Some (Borrowed (default "debug"
    (["emerg"; "alert"; "crit"; "err"; "warning"; "notice"; "info"; "debug"]
       !! Z.to_nat (default 6%Z (gelf.level self)))))%string /\
  clef.exception c =
    (full ← gelf.full_message self;
     if decide (as_ref full = as_ref (gelf.short_message self)) then None
     else Some (Borrowed (as_ref full))) /\
  (gelf.timestamp self = None -> clef.timestamp c = Some (mkTimestamp now)) /\
  clef.additional c = override_all (layers self) ∅.
Proof.
  intros Hplain Hlevel (ts & Hts & ->)%to_clef_inv.
  assert (He : embedded_event self = clef.from_message (as_ref (gelf.short_message self))).
  { unfold embedded_event. by rewrite Hplain. }
  rewrite He in Hts |- *. split; [done|]. split; [done|]. split; [|split; [|split]].
  - unfold to_clef_level. cbn [clef.level clef.from_message clef.additional].
    rewrite find_first_empty. cbn. rewrite level_name_table; [done|].
    destruct (gelf.level self); simpl; [by apply Hlevel|lia].
  - unfold to_clef_exception. cbn [clef.exception clef.from_message].
    by destruct (gelf.full_message self).
  - intros Hn. unfold to_clef_timestamp in Hts.
    cbn [clef.timestamp clef.from_message clef.additional] in Hts.
    rewrite find_first_empty, Hn in Hts. cbn in Hts. by simplify_eq.
  - done.
Qed.

(** C31: what the embedded event says of itself is kept: its timestamp, its
    level, its exception and its message or template are the event's,
    whatever the envelope says. *)
Theorem to_clef_embedded_first now self c e :
  maybe_from_json (as_ref (gelf.short_message self)) = Some e ->
  to_clef now self = Ok c ->
  (forall t, clef.timestamp e = Some t -> clef.timestamp c = Some t) /\
  (forall l, clef.level e = Some l -> clef.level c = Some l) /\
  (forall x, clef.exception e = Some x -> clef.exception c = Some x) /\
  (forall m, clef.message e = Some m -> clef.message c = Some m) /\
  (forall mt, clef.message_template e = Some mt ->
     clef.message_template c = Some mt /\ clef.message c = clef.message e).
Proof.
  intros He (ts & Hts & ->)%to_clef_inv.
  assert (Hee : embedded_event self = e) by (unfold embedded_event; by rewrite He).
  rewrite Hee in Hts |- *. simpl. unfold to_clef_timestamp in Hts.
  unfold to_clef_level, to_clef_exception, to_clef_message.
  split; [|split; [|split; [|split]]]; intros x Hx; rewrite Hx in *; [by simplify_eq|done..|].
  split; [done|]. by destruct (clef.message e).
Qed.

(** The conversion depends on the text of a message and not on how its strings
    are stored. *)
Lemma to_clef_representation {TString' TMessage'} `{AsRef TString', AsRef TMessage'}
    now self (self' : gelf.Message Number TString' TMessage') :
  same_text self self' -> to_clef now self = to_clef now self'.
Proof. apply to_clef_same_text. Qed.
End Properties.

(** C29: a timestamp before the epoch is the epoch; with at most nine decimal
    places it is the decimal to the nanosecond, or nothing when the clock
    cannot represent it. No build panics on one. *)
Theorem from_decimal_exact `{Profile} `{DecimalApi} (ts : Decimal) :
  (Decimal_scale ts <= 9)%Z ->
  let nanos := (Decimal_mantissa ts * 10 ^ (9 - Decimal_scale ts))%Z in
  Timestamp_from_decimal ts =
    Ok (if Decimal_is_sign_negative ts then Some (mkTimestamp UNIX_EPOCH)
        else if (nanos <=? systime_max)%Z then Some (mkTimestamp nanos) else None).
Proof.
  intros Hs nanos. destruct (Decimal_is_sign_negative ts) eqn:Hn.
  - unfold Timestamp_from_decimal. by rewrite Hn.
  - by apply from_decimal_nanos.
Qed.

(** With more than nine decimal places, and a fraction of at most 32 bits,
    the exponent [9 - ts.scale()] underflows: a debug build panics, and a
    release build keeps the seconds and loses the fraction. *)
Lemma from_decimal_scale_underflow `{Profile} `{DecimalApi} (ts : Decimal) :
  Decimal_is_sign_negative ts = false -> (9 < Decimal_scale ts)%Z ->
  (Decimal_mantissa ts / 10 ^ Decimal_scale ts < u64_modulus)%Z ->
  (Decimal_mantissa ts mod 10 ^ Decimal_scale ts < u32_modulus)%Z ->
  Timestamp_from_decimal ts =
    if debug_assertions then Panic "attempt to subtract with overflow"
    else Ok (mkTimestamp <$> systime_checked_add UNIX_EPOCH
           (Duration_from_secs (Decimal_mantissa ts / 10 ^ Decimal_scale ts))).
Proof. apply from_decimal_deep. Qed.

(** ** Witnesses *)

Section Witnesses.
#[local] Existing Instances Release decimal_model humantime_fixture Z_json_number
  clef_json_fixture.

(** An embedded event and a payload that both set [host], as the envelope. *)
Definition sample : gelf.Message Z string string :=
  gelf.mkMessage (Some "1.1") (Some "envelope") "{}" (Some "trace")
    (Some (mkDecimal false 15 1)) (Some 3%Z) None (Some 12%Z) None
    (Some (VObject [("_host", VString "payload"); ("_x", VNull)]))%string.

Definition event (m : gelf.Message Z string string) : clef.Message Z :=
  ok_or (clef.from_message "") (to_clef 7%Z m).

Lemma event_ok m : is_ok (to_clef 7%Z m) = true -> to_clef 7%Z m = Ok (event m).
Proof. apply ok_or_eq. Qed.

Definition plain : gelf.Message Z string string :=
  gelf.mkMessage None None "text" (Some "text") None (Some 3%Z) None None None None.

(** An embedded event with its own level and message. *)
Definition leveled : gelf.Message Z string string :=
  gelf.mkMessage None None "{x" (Some "full") None (Some 3%Z) None None None None.

Lemma to_clef_layers_witness :
  clef.additional (event sample) !! "x"%string = Some VNull.
Proof.
  refine (proj1 (proj1 (to_clef_layers 7%Z sample (event sample) _)
    [("host"%string, VString "payload")] _ _ _ _) _);
    [by apply event_ok|vm_compute; reflexivity|].
  apply (bool_decide_unpack _). vm_compute. exact I.
Defined.

Lemma to_clef_envelope_wins_example :
  clef.additional (event sample) !! "host"%string = Some (VString "envelope").
Proof.
  refine (proj1 (to_clef_envelope_wins 7%Z sample (event sample) _) _ _);
    [by apply event_ok|reflexivity].
Defined.

Lemma to_clef_lowest_layer_lost_example :
  clef.additional (embedded_event sample) !! "host"%string = Some (VString "embedded") /\
  clef.additional (event sample) = override_all (layers sample) (delete "host"%string ∅).
Proof.
  split; [vm_compute; reflexivity|].
  refine (to_clef_lowest_layer_lost 7%Z sample (event sample) [] [("x"%string, VNull)]
    [("line"%string, VNumber 12%Z)] "host" (VString "payload") (VString "envelope")
    (VString "embedded") ∅ _ _ _ _ _ _);
    [by apply event_ok|vm_compute; reflexivity|vm_compute; reflexivity|..];
    apply (bool_decide_unpack _); vm_compute; exact I.
Defined.

Lemma to_clef_total_witness : exists c, to_clef 7%Z sample = Ok c.
Proof.
  destruct (to_clef_total 7%Z sample) as (c & E & _); [by left|]. by exists c.
Defined.

Lemma to_clef_plain_text_witness :
  clef.level (event plain) = Some (Borrowed "err") /\
  clef.exception (event plain) = None.
Proof.
  destruct (to_clef_plain_text 7%Z plain (event plain)) as (_ & _ & Hl & He & _);
    [reflexivity|intros n [= <-]; lia|by apply event_ok|].
  split; [exact Hl|exact He].
Defined.

Lemma to_clef_embedded_first_witness :
  clef.level (event leveled) = Some (Borrowed "Fatal") /\
  clef.message (event leveled) = Some (Borrowed "down").
Proof.
  destruct (to_clef_embedded_first 7%Z leveled (event leveled) (embedded_event leveled))
    as (_ & Hl & _ & Hm & _); [reflexivity|by apply event_ok|].
  split; [apply Hl|apply Hm]; reflexivity.
Defined.

Lemma from_decimal_exact_witness :
  Timestamp_from_decimal (mkDecimal false 15 1) = Ok (Some (mkTimestamp 1500000000%Z)).
Proof. rewrite (@from_decimal_exact Release decimal_model (mkDecimal false 15 1)); [reflexivity|done]. Defined.

Lemma from_decimal_scale_underflow_example :
  @Timestamp_from_decimal Debug decimal_model (mkDecimal false 11000000001 10)
    = Panic "attempt to subtract with overflow" /\
  Timestamp_from_decimal (mkDecimal false 11000000001 10)
    = Ok (Some (mkTimestamp 1000000000%Z)).
Proof.
  split.
  - etrans; [apply (@from_decimal_scale_underflow Debug decimal_model
      (mkDecimal false 11000000001 10))|]; vm_compute; reflexivity.
  - etrans; [apply (@from_decimal_scale_underflow Release decimal_model
      (mkDecimal false 11000000001 10))|]; vm_compute; reflexivity.
Defined.
End Witnesses.
