(* ===== verification/Processing.v ===== *)
(** What the processor guarantees: a payload gives the same event whether it is
    parsed in place or through a reader, compressed or not. *)

From S2P Require Import Prelude BTree Io Diagnostics Message ChunkRead Json Utf8 Str Clef.
From S2P Require Import Process Conversion Fixtures.

(** ** What the program relies on [serde_json] for *)

Section Laws.
Context `{DecimalApi} {Number : Type}.

(** The text of the strings of a message. *)
Definition gelf_text : GelfFields Number -> gelf.Message Number string string :=
  gelf_visit as_ref as_ref.

(** Two results of parsing that agree: the same text, or both errors. *)
Definition agree (r1 r2 : res (GelfFields Number)) : Prop :=
  match r1, r2 with
  | Ok f1, Ok f2 => gelf_text f1 = gelf_text f2
  | Err _, Err _ => True
  | _, _ => False
  end.
End Laws.

(** "Deserialize an instance of type T" "from bytes of JSON text", "from a
    string of JSON text" and "from an I/O stream of JSON": the same text gives
    the same value. *)
Class GelfJsonLaws `{DecimalApi} (Number : Type) `{GelfJson Number} := {
  from_str_agrees c s :
    from_utf8 c = Some s -> agree (gelf_fields_from_slice c) (gelf_fields_from_str s);
  from_reader_agrees {R} `{ReadSpec R} fuel (r : R) c :
    yields r c -> (length c < fuel)%nat ->
    agree (gelf_fields_from_slice c) (gelf_fields_from_reader fuel r)
}.

#[export] Instance gelf_json_at_laws `{DecimalApi} timestamp :
  @GelfJsonLaws _ Z _ (gelf_json_at timestamp).
Proof.
  assert (Hf : forall e1 e2 : StrEvent, as_ref e1 = as_ref e2 ->
    agree (fields_fixture timestamp e1) (fields_fixture timestamp e2)).
  { intros e1 e2 E. unfold fields_fixture.
    rewrite E. case_decide; [done|]. by destruct e1, e2; simpl in E; subst. }
  split.
  - intros c s Hs. apply Hf. by apply (from_utf8_lossy_valid c s).
  - intros R HR HS fuel r c Hy Hlen. simpl.
    destruct (read_to_end_yields (replicate fuel 1) r c) as [r' ->].
    + done.
    + apply Forall_replicate. lia.
    + by rewrite length_replicate.
    + by apply Hf.
Qed.

#[export] Instance gelf_json_fixture_laws `{DecimalApi} :
  @GelfJsonLaws _ Z _ gelf_json_fixture := gelf_json_at_laws None.

Section Processing.
Context `{Profile} `{DecimalApi} `{Humantime} {Number : Type}
  `{JsonNumber Number} `{ClefJson Number} `{!GelfJson Number} `{!GelfJsonLaws Number}.
Context (INLINE_STRING_CAPACITY : nat) {CachedString : Type}
  `{FromStrLaws CachedString}.
Context (str_debug : string -> string) `{Libflate}.
Implicit Types (f : GelfFields Number) (msg : Message).

Lemma gelf_visit_text {TS TM} `{AsRef TS, AsRef TM}
    (vs : StrEvent -> TS) (vm : StrEvent -> TM) f f' :
  (forall ev, as_ref (vs ev) = as_ref ev) -> (forall ev, as_ref (vm ev) = as_ref ev) ->
  gelf_text f = gelf_text f' ->
  same_text (gelf_visit vs vm f) (gelf_text f').
Proof.
  intros Hvs Hvm <-.
  split; simpl; rewrite <- ?option_fmap_compose; try done;
    try (apply option_fmap_ext; intros; simpl); auto.
Qed.

Lemma add_same_text {TS TM TS' TM'} `{AsRef TS, AsRef TM, AsRef TS', AsRef TM'} k v
    (m : gelf.Message Number TS TM) (m' : gelf.Message Number TS' TM') :
  same_text m m' -> same_text (add k v m).2 (add k v m').2.
Proof.
  intros Hs. pose proof (st_additional _ _ Hs) as Ha. unfold add. rewrite <- Ha.
  destruct (gelf.additional m) as [[]|]; try done. case_match; [done|].
  destruct Hs. by split.
Qed.

(** The message a content stands for: its fields, and the payload itself when
    the processor is asked to include it. *)
Definition message_of_content (self : Process) (payload : string) f :
    gelf.Message Number string string :=
  if include_raw_payload self
  then (add "raw_payload" (VString payload) (gelf_text f)).2
  else gelf_text f.

Abbreviation event_of self now sizes msg :=
  (event_of INLINE_STRING_CAPACITY (CachedString := CachedString) str_debug
     self now sizes msg).

Lemma as_ref_ev (ev : StrEvent) : as_ref (as_ref ev) = as_ref ev.
Proof. done. Qed.

Lemma message_of_slice_ok self c f payload :
  gelf_fields_from_slice c = Ok f ->
  (include_raw_payload self = true -> from_utf8 c = Some payload) ->
  exists m, message_of_slice str_debug self c = Ok m /\
    same_text m (message_of_content self payload f).
Proof.
  intros Hf Hraw. unfold message_of_slice, message_of_content.
  assert (Hs : same_text (gelf_visit (Str_visit (S := string)) (Str_visit (S := string)) f)
                 (gelf_text f)).
  { apply gelf_visit_text; [apply Str_visit_text..|done]. }
  rewrite Hf. destruct (include_raw_payload self); simpl; eexists; (split; [done|]); [|done].
  rewrite (from_utf8_lossy_valid c payload) by auto. by apply add_same_text.
Qed.

Lemma message_of_reader_ok {Rd} `{ReadSpec Rd} self sizes (r : Rd) c f payload :
  yields r c -> Forall (lt 0) sizes -> (length c < length sizes)%nat ->
  gelf_fields_from_slice c = Ok f ->
  (include_raw_payload self = true -> from_utf8 c = Some payload) ->
  exists m, message_of_reader INLINE_STRING_CAPACITY (CachedString := CachedString)
              str_debug self sizes r = Ok m /\
    same_text m (message_of_content self payload f).
Proof.
  intros Hy Hpos Hlen Hf Hraw. unfold message_of_reader, message_of_content.
  assert (Hs : forall f', gelf_text f = gelf_text f' ->
    same_text (gelf_visit (Inlinable_visit INLINE_STRING_CAPACITY (S := CachedString))
                 String_visit f') (gelf_text f)).
  { intros f' E. apply gelf_visit_text; [|done|done].
    intros ev. apply (Inlinable_visit_text INLINE_STRING_CAPACITY ev). }
  destruct (include_raw_payload self).
  - unfold read_to_string. destruct (read_to_end_yields sizes r c) as [r' ->]; [done..|].
    simpl. rewrite (Hraw eq_refl). simpl.
    pose proof (from_str_agrees c payload (Hraw eq_refl)) as Ha. rewrite Hf in Ha.
    destruct (gelf_fields_from_str payload) as [f'| |]; [|done..]. simpl.
    eexists. split; [done|]. apply add_same_text. by apply Hs.
  - pose proof (from_reader_agrees (length sizes) r c Hy Hlen) as Ha. rewrite Hf in Ha.
    destruct (gelf_fields_from_reader _ _) as [f'| |]; [|done..]. simpl.
    eexists. split; [done|]. by apply Hs.
Qed.

(** The event of a message is the event of its content. *)
Lemma event_of_content self now sizes msg c f payload :
  message_content msg = Some c -> Forall (lt 0) sizes -> (length c < length sizes)%nat ->
  gelf_fields_from_slice c = Ok f ->
  (include_raw_payload self = true -> from_utf8 c = Some payload) ->
  event_of self now sizes msg = to_clef now (message_of_content self payload f).
Proof.
  intros Hc Hpos Hlen Hf Hraw. unfold Process.event_of. simpl mem_bytes.
  destruct (Message_bytes msg) as [bytes|] eqn:Hb.
  - assert (bytes = c) as ->.
    { destruct msg as [[[]|]]; try done. cbn in Hb, Hc. congruence. }
    destruct (message_of_slice_ok self c f payload Hf Hraw) as (m & -> & Hm). simpl.
    by apply to_clef_same_text.
  - destruct (Message_into_reader_yields msg c Hc) as (r & E & Hy). simpl. rewrite E. simpl.
    destruct (message_of_reader_ok self sizes r c f payload) as (m & -> & Hm); [done..|].
    simpl. by apply to_clef_same_text.
Qed.

(** An error of the parser is an error of the processor, with the payload as
    its context when the payload is included. *)
Lemma event_of_malformed self now sizes msg c e :
  message_content msg = Some c -> Forall (lt 0) sizes -> (length c < length sizes)%nat ->
  gelf_fields_from_slice c = Err e ->
  exists e', event_of self now sizes msg = Err e' /\
    forall payload, include_raw_payload self = true -> from_utf8 c = Some payload ->
      exists cause, e' = could_not_parse str_debug payload cause.
Proof.
  intros Hc Hpos Hlen He. unfold Process.event_of. simpl mem_bytes.
  destruct (Message_bytes msg) as [bytes|] eqn:Hb.
  - assert (bytes = c) as ->.
    { destruct msg as [[[]|]]; try done. cbn in Hb, Hc. congruence. }
    unfold message_of_slice. rewrite He.
    destruct (include_raw_payload self); simpl; (eexists; split; [done|]); [|done].
    intros payload _ Hp. rewrite (from_utf8_lossy_valid c payload Hp). by eexists.
  - destruct (Message_into_reader_yields msg c Hc) as (r & E & Hy). simpl. rewrite E. simpl.
    unfold message_of_reader. destruct (include_raw_payload self).
    + unfold read_to_string. destruct (read_to_end_yields sizes r c) as [r' ->]; [done..|].
      simpl. destruct (from_utf8 c) as [s|] eqn:Hs; simpl; [|by eexists].
      pose proof (from_str_agrees c s Hs) as Ha. rewrite He in Ha.
      destruct (gelf_fields_from_str s) as [|e'|]; [done| |done]. simpl.
      eexists. split; [done|]. intros p _ [= ->]. by eexists.
    + pose proof (from_reader_agrees (length sizes) r c Hy Hlen) as Ha. rewrite He in Ha.
      destruct (gelf_fields_from_reader _ _) as [|e'|]; [done| |done]. by eexists.
Qed.
End Processing.

(** ** The raw payload *)

Section RawPayload.
Context `{DecimalApi} {Number : Type} `{JsonNumber Number}.

(** No key after [raw_payload] is written over it. *)
Lemma raw_payload_untouched (m : BTreeMap string (Value Number)) :
  Forall (fun kv => key_ltb "raw_payload"%string kv.1 = true) m ->
  ~ touches "raw_payload" (prod_map strip_underscore id <$> m).
Proof.
  induction 1 as [|[k v] m Hk _ IH]; [unfold touches; simpl; set_solver|].
  rewrite fmap_cons, not_touches_cons. simpl in *. split; [|split; [done|done]].
  unfold strip_underscore. intros E.
  destruct k as [|[[] [] [] [] [] [] [] []] k]; 
    try discriminate E; rewrite <- ?E in Hk; try (injection E as <-); vm_compute in Hk;
    discriminate Hk.
Qed.

Lemma raw_payload_layer (f : GelfFields Number) payload members embedded :
  gf_additional f = Some (VObject members) -> bt_wf members ->
  bt_get "raw_payload"%string members = None ->
  override_all (layers (add "raw_payload" (VString payload) (gelf_text f)).2) embedded
    !! "raw_payload"%string = Some (VString payload).
Proof.
  intros Hm Hwf Hnone. unfold add. simpl gelf.additional. rewrite Hm, Hnone. simpl snd.
  unfold layers, additional. cbn [gelf.additional gelf.set_additional default].
  destruct (bt_wf_split "raw_payload"%string (VString payload)
    (bt_insert "raw_payload"%string (VString payload) members)) as (m1 & m2 & -> & Hlt).
  { by apply bt_wf_insert. }
  { apply bt_get_elem; [by apply bt_wf_insert|apply bt_get_insert_eq]. }
  unfold id at 1. rewrite fmap_app, fmap_cons, <- app_assoc.
  apply override_all_last.
  apply not_touches_app; [by apply raw_payload_untouched|].
  apply (bool_decide_unpack _).
  unfold built_ins; simpl; destruct (gf_host f), (gf_facility f), (gf_file f), (gf_line f);
    exact I.
Qed.
End RawPayload.
