(* ===== verification/ProcessThms.v ===== *)
(** The properties of the processor. *)

From S2P Require Import Prelude BTree Io Diagnostics Message ChunkRead Json Utf8 Str Clef.
From S2P Require Import Process Conversion Fixtures Processing.

Section Properties.
Context `{Profile} `{DecimalApi} `{Humantime} {Number : Type}
  `{JsonNumber Number} `{ClefJson Number} `{!GelfJson Number} `{!GelfJsonLaws Number}.
Context (INLINE_STRING_CAPACITY : nat) {CachedString : Type}
  `{FromStrLaws CachedString}.
Context (str_debug : string -> string) `{Libflate}.

Abbreviation with_clef self now sizes msg with_ ps :=
  (with_clef INLINE_STRING_CAPACITY (CachedString := CachedString) str_debug
     self now sizes (msg : Message) with_ ps).
Abbreviation read_as_clef self now sizes msg ps :=
  (read_as_clef INLINE_STRING_CAPACITY (CachedString := CachedString) str_debug
     self now sizes (msg : Message) ps).
Abbreviation event_of self now sizes msg :=
  (event_of INLINE_STRING_CAPACITY (CachedString := CachedString) str_debug
     self now sizes (msg : Message)).

(** C9: a message is processed as its content is: whether the payload is one
    datagram parsed in place, several chunks read in turn, or compressed, the
    callback gets the event of the decompressed bytes; and with
    [include_raw_payload] that event carries their text. *)
Theorem with_clef_content self now sizes msg c f payload with_ ps :
  message_content msg = Some c -> Forall (lt 0) sizes -> (length c < length sizes)%nat ->
  gelf_fields_from_slice c = Ok f ->
  (include_raw_payload self = true -> from_utf8 c = Some payload) ->
  with_clef self now sizes msg with_ ps =
    (let! clef := m_lift (to_clef now (message_of_content self payload f)) in with_ clef)
      (ps_increment "msg" ps).
Proof.
  intros Hc Hpos Hlen Hf Hraw. unfold Process.with_clef.
  by rewrite (event_of_content INLINE_STRING_CAPACITY str_debug self now sizes msg c f payload).
Qed.

(** C33: a payload that is not a message is an error: the callback is not
    called, and when the payload is included the error quotes it. *)
Theorem with_clef_malformed self now sizes msg c e with_ ps :
  message_content msg = Some c -> Forall (lt 0) sizes -> (length c < length sizes)%nat ->
  gelf_fields_from_slice c = Err e ->
  exists e', with_clef self now sizes msg with_ ps = (Err e', ps_increment "msg" ps) /\
    forall payload, include_raw_payload self = true -> from_utf8 c = Some payload ->
      exists cause, e' = could_not_parse str_debug payload cause.
Proof.
  intros Hc Hpos Hlen He. unfold Process.with_clef.
  destruct (event_of_malformed INLINE_STRING_CAPACITY str_debug self now sizes msg c e)
    as (e' & E & Hq); [done..|].
  exists e'. split; [|done]. unfold m_bind, m_modify, m_lift. by rewrite E.
Qed.

(** Processing a message counts it once and prints at most one line: the
    text of its event, when the message has one. *)
Lemma read_as_clef_prints self now sizes msg ps :
  let '(r, ps') := read_as_clef self now sizes msg ps in
  ps_globals ps' = increment GProcess "msg" (ps_globals ps) /\
  match event_of self now sizes msg with
  | Ok clef =>
      match Message_to_string clef with
      | Ok line => r = Ok tt /\ ps_stdout ps' = ps_stdout ps ++ [line]
      | Err _ => r = Ok tt /\ ps_stdout ps' = ps_stdout ps
      | Panic w => r = Panic w /\ ps_stdout ps' = ps_stdout ps
      end
  | Err e => r = Err e /\ ps_stdout ps' = ps_stdout ps
  | Panic w => r = Panic w /\ ps_stdout ps' = ps_stdout ps
  end.
Proof.
  unfold Process.read_as_clef, Process.with_clef, m_bind, m_modify, m_lift.
  destruct (event_of self now sizes msg) as [clef| |]; [|done..].
  by destruct (Message_to_string clef).
Qed.

(** With [include_raw_payload] the event carries the text of the payload,
    decompressed, in [raw_payload]. *)
Lemma raw_payload_kept self now payload f members c :
  include_raw_payload self = true ->
  gf_additional f = Some (VObject members) -> bt_wf members ->
  bt_get "raw_payload"%string members = None ->
  to_clef now (message_of_content self payload f) = Ok c ->
  clef.additional c !! "raw_payload"%string = Some (VString payload).
Proof.
  intros Hraw Hm Hwf Hnone Hc. rewrite (to_clef_fields _ _ _ Hc).
  unfold message_of_content. rewrite Hraw.
  by apply raw_payload_layer with members.
Qed.
End Properties.

(** ** Witnesses *)

Section Witnesses.
#[local] Existing Instances Release decimal_model humantime_fixture Z_json_number
  clef_json_fixture gelf_json_fixture libflate_fixture.

(** A message in three chunks, read through a reader. *)
Definition sample_msg : Message :=
  mkMessage (Chunked (String.list_byte_of_string <$> ["te"; "x"; "t"]%string)).

Definition sample_fields : GelfFields Z :=
  mkGelfFields None None (VisitBorrowedStr "text") None None None None None None
    (Some (VObject [])).

Lemma with_clef_content_witness :
  with_clef 16 (CachedString := string) id (mkProcess true) 7%Z (replicate 5 1)
      sample_msg (fun _ => m_throw SystemTimeError) (mkProcessState Globals_initial []) =
    (Err SystemTimeError, ps_increment "msg" (mkProcessState Globals_initial [])).
Proof.
  etrans.
  - refine (with_clef_content (Number := Z) 16 (CachedString := string) id (mkProcess true)
      7%Z (replicate 5 1) sample_msg (String.list_byte_of_string "text") sample_fields "text"
      (fun _ => m_throw SystemTimeError) (mkProcessState Globals_initial []) _ _ _ _ _);
    [vm_compute; reflexivity|repeat constructor|simpl; lia
      |reflexivity|intros _; vm_compute; reflexivity].
  - vm_compute. reflexivity.
Defined.

(** An empty payload is no message. *)
Lemma with_clef_malformed_witness :
  exists cause,
    with_clef 16 (CachedString := string) id (mkProcess true) 7%Z [1%nat]
      (mkMessage (Single None [])) (fun _ => m_ret tt) (mkProcessState Globals_initial []) =
    (Err (could_not_parse id "" cause),
     ps_increment "msg" (mkProcessState Globals_initial [])).
Proof.
  destruct (with_clef_malformed (Number := Z) 16 (CachedString := string) id
    (mkProcess true) 7%Z [1%nat] (mkMessage (Single None [])) [] (External "EOF" [])
    (fun _ => m_ret tt) (mkProcessState Globals_initial [])) as (e' & E & Hq);
    [reflexivity|repeat constructor|simpl; lia|reflexivity|].
  destruct (Hq ""%string eq_refl eq_refl) as [cause ->]. exists cause. exact E.
Defined.

Lemma raw_payload_kept_example :
  clef.additional (ok_or (clef.from_message "")
    (to_clef 7%Z (message_of_content (mkProcess true) "text" sample_fields)))
    !! "raw_payload"%string = Some (VString "text").
Proof.
  refine (raw_payload_kept (mkProcess true) 7%Z "text" sample_fields [] _ _ _ _ _ _);
    [reflexivity|reflexivity|constructor|reflexivity|].
  apply ok_or_eq. vm_compute. reflexivity.
Defined.
End Witnesses.
