(* ===== verification/ServerConfig.v ===== *)
(** The configuration of the server: [Config], [Bind], [Certificate] and
    [Protocol] of [sqelf/src/server/mod.rs]. *)

From S2P Require Import Prelude Utf8.

Inductive Protocol := Udp | Tcp.
#[export] Instance Protocol_eq_decision : EqDecision Protocol.
Proof. solve_decision. Defined.

Record Bind := mkBind { bind_addr : string; bind_protocol : Protocol }.

Record Certificate := mkCertificate { path : string; private_key_path : string }.

Record Config := mkConfig {
  bind : Bind;
  tcp_keep_alive_secs : Z;
  tcp_max_size_bytes : Z;
  certificate : option Certificate
}.

Definition Config_default : Config := {|
  bind := mkBind "0.0.0.0:12201" Udp;
  tcp_keep_alive_secs := 2 * 60;
  tcp_max_size_bytes := 1024 * 256;
  certificate := None
|}.

(** [str::is_char_boundary]. *)
Definition is_char_boundary (s : string) (n : nat) : bool :=
  if (n =? String.length s)%nat then true
  else match String.list_byte_of_string s !! n with
       | Some b => negb (is_cont b)
       | None => false
       end.

(** [s.get(0..n)] and [s[n..]]. *)
Definition str_get_to (s : string) (n : nat) : option string :=
  if is_char_boundary s n then Some (String.substring 0 n s) else None.
Definition str_from (s : string) (n : nat) : res string :=
  if is_char_boundary s n then Ok (String.substring n (String.length s - n) s)
  else Panic "byte index is not a char boundary".

(** [impl FromStr for Bind]. *)
Definition Bind_from_str (s : string) : res Bind :=
  if decide (str_get_to s 6 = Some "tcp://"%string) then
    addr ← str_from s 6; Ok (mkBind addr Tcp)
  else if decide (str_get_to s 6 = Some "udp://"%string) then
    addr ← str_from s 6; Ok (mkBind addr Udp)
  else Ok (mkBind s Udp).
