(* ===== verification/AppConfig.v ===== *)
(** The configuration of the program ([sqelf/src/config.rs]), read from the
    environment. *)

From S2P Require Import Prelude Diagnostics Gelf Process ServerConfig.

(** The environment: the variables that are set, [None] standing for a value
    that is not Unicode. *)
Abbreviation Env := (gmap string (option string)).

(** [env::var]. *)
Inductive VarResult := VarOk (v : string) | NotPresent | NotUnicode.
#[export] Instance VarResult_eq_decision : EqDecision VarResult.
Proof. solve_decision. Defined.

Definition env_var (env : Env) (name : string) : VarResult :=
  match env !! name with
  | Some (Some v) => VarOk v
  | Some None => NotUnicode
  | None => NotPresent
  end.

Record Config := mkConfig {
  receive : Gelf.Config;
  process : Process.Config;
  server : ServerConfig.Config;
  diagnostics : Diagnostics.Config
}.

Definition Config_default : Config := {|
  receive := Gelf.Config_default;
  process := Process.Config_default;
  server := ServerConfig.Config_default;
  diagnostics := Diagnostics.Config_default
|}.

Section FromEnv.
Context (env : Env).

Definition is_seq_app : bool :=
  match env_var env "SEQ_APP_ID" with VarOk _ => true | _ => false end.

Definition is_present (name : string) : res bool :=
  match env_var env name with
  | VarOk v => Ok (negb (bool_decide (v = ""%string)))
  | NotPresent => Ok false
  | NotUnicode => Err VarNotUnicode
  end.

Definition is_truthy (name : string) : res bool :=
  match env_var env name with
  | VarOk v => Ok (bool_decide (v = "True"%string) || bool_decide (v = "true"%string))
  | NotPresent => Ok false
  | NotUnicode => Err VarNotUnicode
  end.

(** [read_environment]: the new value of [into]. *)
Definition read_environment {T} (from_str : string -> res T) (into : T) (name : string) :
    res T :=
  match env_var env name with
  | VarOk v => if decide (v = ""%string) then Ok into else from_str v
  | NotPresent => Ok into
  | NotUnicode => Err VarNotUnicode
  end.

Definition set_bind (b : Bind) (c : Config) : Config :=
  let s := server c in
  mkConfig (receive c) (process c)
    (ServerConfig.mkConfig b (tcp_keep_alive_secs s) (tcp_max_size_bytes s) (certificate s))
    (diagnostics c).
Definition enable_diagnostics (c : Config) : Config :=
  mkConfig (receive c) (Process.mkConfig true) (server c)
    (Diagnostics.mkConfig (metrics_interval_ms (diagnostics c)) LDebug).
Definition set_certificate (cert : Certificate) (c : Config) : Config :=
  let s := server c in
  mkConfig (receive c) (process c)
    (ServerConfig.mkConfig (bind s) (tcp_keep_alive_secs s) (tcp_max_size_bytes s)
       (Some cert))
    (diagnostics c).

(** The name of a variable, by how the program is run. *)
Definition var_name (seq_app stand_alone : string) : string :=
  if is_seq_app then seq_app else stand_alone.

(** [Config::from_env]. *)
Definition from_env : res Config :=
  let config := Config_default in
  b ← read_environment Bind_from_str (bind (server config))
        (var_name "SEQ_APP_SETTING_GELFADDRESS" "GELF_ADDRESS");
  let config := set_bind b config in
  truthy ← is_truthy
             (var_name "SEQ_APP_SETTING_ENABLEDIAGNOSTICS" "GELF_ENABLE_DIAGNOSTICS");
  let config := if truthy : bool then enable_diagnostics config else config in
  let certificate_path_var :=
    var_name "SEQ_APP_SETTING_CERTIFICATEPATH" "GELF_CERTIFICATE_PATH" in
  let certificate_private_key_path_var :=
    var_name "SEQ_APP_SETTING_CERTIFICATEPRIVATEKEYPATH" "GELF_CERTIFICATE_PRIVATE_KEY_PATH" in
  present ← is_present certificate_path_var;
  if present : bool then
    path ← read_environment Ok ""%string certificate_path_var;
    private_key_path ← read_environment Ok ""%string certificate_private_key_path_var;
    let private_key_path :=
      if decide (private_key_path = ""%string) then path else private_key_path in
    Ok (set_certificate (mkCertificate path private_key_path) config)
  else Ok config.
End FromEnv.
