(* ===== verification/ConfigThms.v ===== *)
(** The properties of the configuration. *)

From S2P Require Import Prelude Utf8 Diagnostics Gelf Process ServerConfig AppConfig.

(** ** Character boundaries *)

Lemma utf8_tail_cont b : is_cont b = true -> utf8_tail b = None.
Proof. by destruct b. Qed.

(** Text does not start with a continuation byte. *)
Lemma utf8_valid_head b bs : utf8_valid (b :: bs) = true -> is_cont b = false.
Proof.
  intros Hv. destruct (is_cont b) eqn:E; [|done].
  unfold utf8_valid in Hv. simpl in Hv. unfold utf8_step in Hv.
  by rewrite utf8_tail_cont in Hv.
Qed.

Lemma utf8_valid_ascii b bs :
  in_range 0 127 b = true -> utf8_valid (b :: bs) = utf8_valid bs.
Proof.
  intros Hb. unfold utf8_valid. simpl length. cbn [utf8_chunks]. unfold utf8_step, utf8_tail.
  by rewrite Hb.
Qed.

Definition scheme (p : Protocol) : string :=
  match p with Tcp => "tcp://" | Udp => "udp://" end.

Lemma bytes_cons c s :
  String.list_byte_of_string (String c s)
    = byte_of_ascii c :: String.list_byte_of_string s.
Proof. done. Qed.

Lemma append_cons c s t : (String c s +:+ t = String c (s +:+ t))%string.
Proof. done. Qed.
Lemma append_empty t : ("" +:+ t = t)%string.
Proof. done. Qed.

(** The scheme ends at a character boundary of any text. *)
Lemma scheme_boundary p a :
  utf8_valid (String.list_byte_of_string (scheme p +:+ a)) = true ->
  is_char_boundary (scheme p +:+ a) 6 = true.
Proof.
  intros Hv. unfold is_char_boundary. destruct (_ =? _)%nat eqn:E; [done|].
  assert (Hl : exists c a', a = String c a').
  { destruct a as [|c a']; [|eauto]. by destruct p. }
  destruct Hl as (c & a' & ->).
  destruct p; unfold scheme in *; rewrite !append_cons, append_empty in *;
    rewrite !bytes_cons in *; rewrite !utf8_valid_ascii in Hv by done;
    apply utf8_valid_head in Hv; cbn [lookup list_lookup]; by rewrite Hv.
Qed.

Lemma substring_all s : String.substring 0 (String.length s) s = s.
Proof. induction s as [|c s IH]; simpl; [done|]. by rewrite IH. Qed.

Lemma str_get_to_scheme p a :
  utf8_valid (String.list_byte_of_string (scheme p +:+ a)) = true ->
  str_get_to (scheme p +:+ a) 6 = Some (scheme p)
  /\ str_from (scheme p +:+ a) 6 = Ok a.
Proof.
  intros Hv. unfold str_get_to, str_from. rewrite scheme_boundary by done.
  destruct p; cbn [scheme]; rewrite !append_cons, append_empty;
    cbn [String.length Nat.sub String.substring]; rewrite Nat.sub_0_r, substring_all; (split; [|done]); by destruct a.
Qed.

Lemma str_get_to_inv s p :
  str_get_to s 6 = Some (scheme p) -> exists a, s = (scheme p +:+ a)%string.
Proof.
  unfold str_get_to. destruct (is_char_boundary s 6); [|done]. intros [= E].
  exists (String.substring 6 (String.length s - 6) s).
  destruct p; destruct s as [|c0 [|c1 [|c2 [|c3 [|c4 [|c5 s]]]]]]; try discriminate E;
    simpl in E; injection E as -> -> -> -> -> ->;
    cbn [scheme]; rewrite !append_cons, append_empty;
    cbn [String.length Nat.sub String.substring]; by rewrite Nat.sub_0_r, substring_all.
Qed.

Section Properties.
(** An address with a scheme selects the protocol and is what follows;
    any other text is a UDP address. No text panics. *)
Lemma Bind_from_str_spec (s : string) :
  utf8_valid (String.list_byte_of_string s) = true ->
  (forall p a, s = (scheme p +:+ a)%string -> Bind_from_str s = Ok (mkBind a p)) /\
  ((forall p a, s <> (scheme p +:+ a)%string) -> Bind_from_str s = Ok (mkBind s Udp)).
Proof.
  intros Hv. split.
  - intros p a ->. destruct (str_get_to_scheme p a Hv) as [Hg Hf].
    unfold Bind_from_str. rewrite Hg, Hf. by destruct p.
  - intros Hn. unfold Bind_from_str.
    rewrite !decide_False; [done|intros E..].
    + apply (str_get_to_inv s Udp) in E as [a Ha]. by apply (Hn Udp a).
    + apply (str_get_to_inv s Tcp) in E as [a Ha]. by apply (Hn Tcp a).
Qed.

(** The variables a run reads. *)
Definition variables (seq_app : bool) : list string :=
  if seq_app
  then ["SEQ_APP_SETTING_GELFADDRESS"; "SEQ_APP_SETTING_ENABLEDIAGNOSTICS";
        "SEQ_APP_SETTING_CERTIFICATEPATH"; "SEQ_APP_SETTING_CERTIFICATEPRIVATEKEYPATH"]
  else ["GELF_ADDRESS"; "GELF_ENABLE_DIAGNOSTICS"; "GELF_CERTIFICATE_PATH";
        "GELF_CERTIFICATE_PRIVATE_KEY_PATH"].

(** As a Seq app the configuration is read from the app's settings and
    alone from the program's own variables; no other variable matters. *)
Lemma from_env_variables (env1 env2 : Env) :
  is_seq_app env1 = is_seq_app env2 ->
  (forall name, name ∈ variables (is_seq_app env1) -> env1 !! name = env2 !! name) ->
  from_env env1 = from_env env2.
Proof.
  intros Happ Hsame. unfold from_env, var_name, read_environment, is_truthy, is_present,
    env_var. rewrite <- Happ.
  destruct (is_seq_app env1); rewrite !Hsame; first [reflexivity|set_solver].
Qed.

(** The limits of a configuration that is read are the default ones. *)
Lemma from_env_limits (env : Env) (c : Config) :
  from_env env = Ok c ->
  receive c = Gelf.Config_default /\ tcp_keep_alive_secs (server c) = 120%Z /\
  tcp_max_size_bytes (server c) = 262144%Z.
Proof.
  unfold from_env. intros E.
  destruct (read_environment env Bind_from_str _ _) as [b| |]; simplify_eq/=.
  destruct (is_truthy _ _) as [[]| |]; simplify_eq/=.
  all: destruct (is_present _ _) as [[]| |]; simplify_eq/=; try done.
  all: destruct (read_environment _ _ _ _) as [path| |]; simplify_eq/=.
  all: by destruct (read_environment _ _ _ _) as [key| |]; simplify_eq/=.
Qed.

(** C34: a configuration that is read has the default limits; diagnostics and
    the raw payload are switched together, by the value [True] or [true]; the
    address is the variable's when it is set; and there is a certificate when
    its path is set, whose key is in the same file unless it has a path of
    its own. *)
Theorem from_env_spec (env : Env) (c : Config) :
  from_env env = Ok c ->
  let var seq_app stand_alone := env_var env (var_name env seq_app stand_alone) in
  receive c = Gelf.Config_default /\
  tcp_keep_alive_secs (server c) = 120%Z /\ tcp_max_size_bytes (server c) = 262144%Z /\
  (let v := var "SEQ_APP_SETTING_ENABLEDIAGNOSTICS" "GELF_ENABLE_DIAGNOSTICS" in
   let on := bool_decide (v = VarOk "True") || bool_decide (v = VarOk "true") in
   min_level (diagnostics c) = (if on then LDebug else LError) /\
   config_include_raw_payload (process c) = on)%string /\
  (match var "SEQ_APP_SETTING_GELFADDRESS" "GELF_ADDRESS" with
   | VarOk v => if decide (v = "") then bind (server c) = mkBind "0.0.0.0:12201" Udp
                else Bind_from_str v = Ok (bind (server c))
   | _ => bind (server c) = mkBind "0.0.0.0:12201" Udp
   end)%string /\
  (match var "SEQ_APP_SETTING_CERTIFICATEPATH" "GELF_CERTIFICATE_PATH" with
   | VarOk v =>
       if decide (v = "") then certificate (server c) = None
       else exists key, certificate (server c) = Some (mkCertificate v key) /\
         match var "SEQ_APP_SETTING_CERTIFICATEPRIVATEKEYPATH"
                   "GELF_CERTIFICATE_PRIVATE_KEY_PATH" with
         | VarOk k => key = if decide (k = "") then v else k
         | _ => key = v
         end
   | _ => certificate (server c) = None
   end)%string.
Proof.
  unfold from_env, read_environment, is_truthy, is_present.
  set (a := env_var env (var_name env "SEQ_APP_SETTING_GELFADDRESS" _)).
  set (d := env_var env (var_name env "SEQ_APP_SETTING_ENABLEDIAGNOSTICS" _)).
  set (p := env_var env (var_name env "SEQ_APP_SETTING_CERTIFICATEPATH" _)).
  set (k := env_var env (var_name env "SEQ_APP_SETTING_CERTIFICATEPRIVATEKEYPATH" _)).
  clearbody a d p k. intros E.
  destruct (match a with VarOk v => _ | NotPresent => _ | NotUnicode => _ end)
    as [b| |] eqn:Ha; simplify_eq/=.
  destruct (match d with VarOk v => _ | NotPresent => _ | NotUnicode => _ end)
    as [on| |] eqn:Hd; simplify_eq/=.
  set (config := if on then _ else _) in E.
  assert (Hc : receive config = Gelf.Config_default /\
    tcp_keep_alive_secs (server config) = 120%Z /\
    tcp_max_size_bytes (server config) = 262144%Z /\
    min_level (diagnostics config) = (if on then LDebug else LError) /\
    config_include_raw_payload (process config) = on /\
    bind (server config) = b /\ certificate (server config) = None) by by destruct on.
  destruct Hc as (H1 & H2 & H3 & H4 & H5 & H6 & H7). clearbody config.
  assert (Hb : match a with
    | VarOk v => if decide (v = ""%string) then b = mkBind "0.0.0.0:12201" Udp
                 else Bind_from_str v = Ok b
    | _ => b = mkBind "0.0.0.0:12201" Udp
    end).
  { clear -Ha. destruct a; [case_decide|..]; by simplify_eq. }
  assert (Hon : on = bool_decide (d = VarOk "True"%string)
                     || bool_decide (d = VarOk "true"%string)).
  { clear -Hd. destruct d as [v| |]; simplify_eq/=; [|done].
    f_equal; apply bool_decide_ext; naive_solver. }
  destruct p as [v| |]; simplify_eq/=; [case_decide as Hv|].
  - rewrite bool_decide_true in E by done. simplify_eq/=. by rewrite <- Hon.
  - rewrite bool_decide_false in E by done. simpl in E.
    destruct k as [v'| |]; [destruct (decide (v' = ""%string)) as [->|Hk]|..];
      simpl in E; rewrite ?decide_True, ?decide_False in E by done; simplify_eq/=;
      rewrite <- Hon; repeat (split; [done|]); eexists; (split; [reflexivity|done]).
  - by rewrite <- Hon.
Qed.

Lemma Bind_from_str_no_error s e : Bind_from_str s <> Err e.
Proof.
  unfold Bind_from_str, str_from. by destruct (is_char_boundary s 6); repeat case_decide.
Qed.

Lemma read_environment_error {T} env (from_str : string -> res T) into name e :
  (forall s e, from_str s <> Err e) ->
  read_environment env from_str into name = Err e ->
  e = VarNotUnicode /\ env !! name = Some None.
Proof.
  intros Hf. unfold read_environment, env_var.
  destruct (env !! name) as [[v|]|]; [|naive_solver..].
  case_decide; [done|]. intros E. by apply Hf in E.
Qed.

Lemma is_truthy_error env name e :
  is_truthy env name = Err e -> e = VarNotUnicode /\ env !! name = Some None.
Proof. unfold is_truthy, env_var. destruct (env !! name) as [[v|]|]; naive_solver. Qed.

Lemma is_present_error env name e :
  is_present env name = Err e -> e = VarNotUnicode /\ env !! name = Some None.
Proof. unfold is_present, env_var. destruct (env !! name) as [[v|]|]; naive_solver. Qed.

(** An error of a sequence of two computations. *)
Lemma bind_error {A B} (r : res A) (f : A -> res B) e :
  (r ≫= f) = Err e -> r = Err e \/ exists a, r = Ok a /\ f a = Err e.
Proof. destruct r; simpl; naive_solver. Qed.

Lemma var_name_variables env i seq_app stand_alone :
  variables true !! i = Some seq_app -> variables false !! i = Some stand_alone ->
  var_name env seq_app stand_alone ∈ variables (is_seq_app env).
Proof.
  intros H1 H2. unfold var_name. destruct (is_seq_app env); by eapply list_elem_of_lookup_2.
Qed.

(** The only error is a variable that is read and is not Unicode. *)
Lemma from_env_error (env : Env) e :
  from_env env = Err e -> e = VarNotUnicode /\
  exists name, name ∈ variables (is_seq_app env) /\ env !! name = Some None.
Proof.
  unfold from_env.
  intros [E|(b & _ & E)]%bind_error.
  { apply read_environment_error in E as [-> E]; [|apply Bind_from_str_no_error].
    split; [done|]. eexists. split; [|exact E]. by apply (var_name_variables env 0). }
  apply bind_error in E as [E|(on & _ & E)].
  { apply is_truthy_error in E as [-> E]. split; [done|]. eexists. split; [|exact E].
    by apply (var_name_variables env 1). }
  apply bind_error in E as [E|([] & _ & E)]; [| |done].
  { apply is_present_error in E as [-> E]. split; [done|]. eexists. split; [|exact E].
    by apply (var_name_variables env 2). }
  apply bind_error in E as [E|(path & _ & E)].
  { apply read_environment_error in E as [-> E]; [|done]. split; [done|].
    eexists. split; [|exact E]. by apply (var_name_variables env 2). }
  apply bind_error in E as [E|(key & _ & E)]; [|done].
  apply read_environment_error in E as [-> E]; [|done]. split; [done|].
  eexists. split; [|exact E]. by apply (var_name_variables env 3).
Qed.
End Properties.

(** ** Witnesses *)

Section Witnesses.
Definition sample_env : Env :=
  <["GELF_ADDRESS" := Some "tcp://0.0.0.0:1"]>
    (<["GELF_ENABLE_DIAGNOSTICS" := Some "True"]>
       (<["GELF_CERTIFICATE_PATH" := Some "a.pem"]> ∅))%string.

Lemma Bind_from_str_spec_example :
  Bind_from_str "tcp://0.0.0.0:1" = Ok (mkBind "0.0.0.0:1" Tcp).
Proof.
  apply (proj1 (Bind_from_str_spec "tcp://0.0.0.0:1" eq_refl) Tcp "0.0.0.0:1"%string).
  reflexivity.
Defined.

Lemma from_env_variables_example :
  from_env (<["PATH"%string := None]> sample_env) = from_env sample_env.
Proof.
  apply from_env_variables; [reflexivity|]. intros name Hin.
  apply lookup_insert_ne. intros <-. revert Hin.
  apply (bool_decide_unpack (~ _)). vm_compute. exact I.
Defined.

Lemma from_env_spec_witness :
  config_include_raw_payload (process (ok_or Config_default (from_env sample_env))) = true.
Proof.
  etrans.
  - refine (proj2 (proj1 (proj2 (proj2 (proj2
      (from_env_spec sample_env (ok_or Config_default (from_env sample_env)) _)))))).
    apply ok_or_eq. vm_compute. reflexivity.
  - vm_compute. reflexivity.
Defined.
End Witnesses.
