(* ===== verification/Server.v ===== *)
(** The server ([sqelf/src/server/mod.rs]): starting up from a configuration,
    and the main loop that hands complete messages to the [process] closure.

    The input and output of the operating system is an interface; the loop runs
    on the events its [select!] picks, in the order it picks them. *)

From S2P Require Import Prelude Diagnostics Message Received ServerConfig.

(** The [process: impl FnMut(Message) -> Result<(), Error>] closure of
    [server::build]: the state it captures, with the statics. *)
Class Processor (P : Type) `{Statics P} := { process : Message -> M P unit }.

Definition on_statics {P} `{Statics P} (f : Globals -> Globals) : M P unit :=
  m_modify (on_globals f).

Section Loop.
Context {P : Type} `{Processor P}.

(** What [select!] picks: the next item of the [incoming] stream, the handle,
    or a signal. *)
Inductive LoopEvent :=
| Incoming (msg : option (Received + error))
| CloseHandle
| CtrlC.

(** One turn of the loop: [true] when it goes on. *)
Definition loop_turn (ev : LoopEvent) : M P bool :=
  match ev with
  | Incoming (Some (inl (Complete msg))) =>
      on_statics (increment GServer "receive_ok") ;;;
      fun p =>
        match process msg p with
        | (Ok _, p) =>
            (on_statics (increment GServer "process_ok") ;;; m_ret true) p
        | (Err err, p) =>
            (on_statics (increment GServer "process_err") ;;;
             on_statics (emit_err err "GELF processing failed") ;;; m_ret true) p
        | (Panic w, p) => (Panic w, p)
        end
  | Incoming (Some (inl Incomplete)) => m_ret true
  | Incoming (Some (inl (RError err))) =>
      on_statics (increment GServer "receive_err") ;;;
      on_statics (emit_err err "GELF processing failed") ;;;
      m_ret true
  | Incoming (Some (inr err)) =>
      on_statics (increment GServer "receive_err") ;;;
      on_statics (emit_err err "GELF processing failed irrecoverably") ;;;
      m_ret false
  | Incoming None => m_panic "receiver stream should never terminate"
  | CloseHandle => on_statics (emit "Handle closed; shutting down") ;;; m_ret false
  | CtrlC => on_statics (emit "Termination signal received; shutting down") ;;; m_ret false
  end.

(** The loop on the events so far: [true] while it still waits for more. *)
Fixpoint server_loop (evs : list LoopEvent) : M P bool :=
  match evs with
  | [] => m_ret true
  | ev :: evs' =>
      let! goes_on := loop_turn ev in
      if goes_on : bool then server_loop evs' else m_ret false
  end.
End Loop.

(** ** Starting up *)

(** The files, sockets and certificates the server asks for. *)
Class ServerIo := {
  SocketAddr : Type;
  parse_addr : string -> res SocketAddr;
  udp_bind : SocketAddr -> res unit;
  tcp_bind : SocketAddr -> res unit;
  Cert : Type;
  Key : Type;
  TlsConfig : Type;
  read_certs : string -> res (list Cert);
  read_pkcs8_keys : string -> res (list Key);
  with_single_cert : list Cert -> Key -> res TlsConfig
}.

Section Build.
Context `{ServerIo} {P : Type} `{Statics P}.

(** The [incoming] stream that was set up. *)
Inductive Incoming_kind :=
| UdpIncoming
| TcpIncoming_of (keep_alive : Duration) (max_size_bytes : Z) (tls : option TlsConfig).

Definition tls_config (cert : Certificate) : M P TlsConfig :=
  on_statics (emit "Using TLS") ;;;
  let! certs := m_lift (read_certs (path cert)) in
  let! keys := m_lift (read_pkcs8_keys (private_key_path cert)) in
  match keys with
  | [] =>
      m_throw (Bail "The file `{}` used for the certificate private key doesn't contain any PKCS8 keys"
                 [AStr (private_key_path cert)])
  | key :: _ => m_lift (with_single_cert certs key)
  end.

(** The first part of the [server] future. *)
Definition start (config : Config) (addr : SocketAddr) : M P Incoming_kind :=
  match bind_protocol (bind config) with
  | Udp =>
      match certificate config with
      | Some _ => m_throw (Bail "TLS is not supported when the protocol is UDP" [])
      | None =>
          let! _bound := m_lift (udp_bind addr) in
          on_statics (emit "Setting up for UDP") ;;;
          m_ret UdpIncoming
      end
  | Tcp =>
      let! tls :=
        match certificate config with
        | Some cert => let! tls := tls_config cert in m_ret (Some tls)
        | None => m_ret None
        end in
      let! _bound := m_lift (tcp_bind addr) in
      on_statics (emit "Setting up for TCP") ;;;
      m_ret (TcpIncoming_of (Duration_from_secs (tcp_keep_alive_secs config))
               (tcp_max_size_bytes config) tls)
  end.

Record Server := mkServer { server_config : Config; server_addr : SocketAddr; handle : bool }.

(** [build]: the address is parsed, the rest happens when the future runs. *)
Definition build (config : Config) : M P Server :=
  on_statics (emit "Starting GELF server") ;;;
  let! addr := m_lift (parse_addr (bind_addr (bind config))) in
  m_ret (mkServer config addr true).

(** [Server::take_handle]. *)
Definition take_handle (s : Server) : bool * Server :=
  (handle s, mkServer (server_config s) (server_addr s) false).

(** [Handle::close]: the channel is open as long as the server runs, which then
    gets the event; [true] when it was. *)
Definition Handle_close (server_runs : bool) : bool * list LoopEvent :=
  if server_runs then (true, [CloseHandle]) else (false, []).

(** [Server::run]: the future to its end, with the loop on the [incoming] stream
    that was set up; [true] when it still waits. *)
Definition server_run (s : Server) (loop : Incoming_kind -> M P bool) : M P bool :=
  fun p =>
    match (let! incoming := start (server_config s) (server_addr s) in
           let! waiting := loop incoming in
           if waiting : bool then m_ret true
           else on_statics (emit "Stopping GELF server") ;;; m_ret false) p with
    | (Err err, p) => (on_statics (emit_err err "GELF server failed") ;;; m_ret false) p
    | rp => rp
    end.
End Build.
