(* ===== verification/ServerThms.v ===== *)
(** The properties of the server's main loop and of its start. *)

From S2P Require Import Prelude Diagnostics Message Received ServerConfig Server.

(** What the loop does to the statics between calls of [process]. *)
Inductive server_effect : (Globals -> Globals) -> Prop :=
| effect_none : server_effect (fun g => g)
| effect_increment field f :
    server_effect f -> server_effect (fun g => increment GServer field (f g))
| effect_emit_err err msg f :
    server_effect f -> server_effect (fun g => emit_err err msg (f g)).

(** What the server relies on: its counters and events do not interfere with
    the [process] closure, which leaves the server's counters alone. *)
Class ProcessorLaws (P : Type) `{Processor P} := {
  process_effect f msg p :
    server_effect f ->
    process msg (on_globals f p) = prod_map (fun r => r) (on_globals f) (process msg p);
  process_counters f msg p :
    counter_of GServer f (globals_of (process msg p).2) = counter_of GServer f (globals_of p);
  process_level l msg p :
    MinLevel_includes l (globals_of (process msg p).2) = MinLevel_includes l (globals_of p)
}.

Section Loop.
Context {P : Type} `{ProcessorLaws P}.

(** The complete messages among what was received. *)
Definition completes (rs : list Received) : list Message :=
  omap (fun r => match r with Complete msg => Some msg | _ => None end) rs.

(** The closure called on messages in order. *)
Definition process_all (msgs : list Message) (p : P) : P :=
  foldl (fun p msg => (process msg p).2) p msgs.

Definition received (rs : list Received) : list LoopEvent :=
  (fun r => Incoming (Some (inl r))) <$> rs.

(** The closure does not panic on any of the messages. *)
Fixpoint no_panic (msgs : list Message) (p : P) : Prop :=
  match msgs with
  | [] => True
  | msg :: msgs' => is_panic (process msg p).1 = false /\ no_panic msgs' (process msg p).2
  end.

Lemma server_effect_comp f f' :
  server_effect f -> server_effect f' -> server_effect (fun g => f (f' g)).
Proof. induction 1; intros; [done|by constructor; auto..]. Qed.

Lemma process_all_effect msgs f p :
  server_effect f -> process_all msgs (on_globals f p) = on_globals f (process_all msgs p).
Proof.
  intros Hf. revert p. induction msgs as [|msg msgs IH]; intros p; [done|]. simpl.
  rewrite process_effect by done. simpl. apply IH.
Qed.

Lemma no_panic_effect msgs f p :
  server_effect f -> no_panic msgs p -> no_panic msgs (on_globals f p).
Proof.
  intros Hf. revert p. induction msgs as [|msg msgs IH]; intros p; [done|]. simpl.
  rewrite process_effect by done. simpl. naive_solver.
Qed.

(** One turn on something received: the loop goes on, and the state is what
    processing leaves, but for the statics. *)
Lemma loop_turn_received r p :
  no_panic (completes [r]) p ->
  exists f, server_effect f /\
    loop_turn (Incoming (Some (inl r))) p = (Ok true, on_globals f (process_all (completes [r]) p)).
Proof.
  destruct r as [|msg|err]; simpl.
  - intros _. exists (fun g => g). split; [constructor|]. by rewrite on_globals_id.
  - intros [Hp _]. unfold m_bind, on_statics, m_modify, m_ret.
    rewrite process_effect by (apply effect_increment, effect_none).
    destruct (process msg p) as [[u|err|w] p']; [| |done]; simpl.
    + eexists. split; [|by rewrite on_globals_comp].
      apply effect_increment, effect_increment, effect_none.
    + eexists. split; [|by rewrite !on_globals_comp].
      apply effect_emit_err, effect_increment, effect_increment, effect_none.
  - intros _. unfold m_bind, on_statics, m_modify, m_ret. rewrite on_globals_comp.
    eexists. split; [|done]. apply effect_emit_err, effect_increment, effect_none.
Qed.

Lemma completes_cons r rs : completes (r :: rs) = completes [r] ++ completes rs.
Proof. by destruct r. Qed.

Lemma no_panic_app msgs1 msgs2 p :
  no_panic (msgs1 ++ msgs2) p <-> no_panic msgs1 p /\ no_panic msgs2 (process_all msgs1 p).
Proof.
  revert p. induction msgs1 as [|msg msgs1 IH]; intros p; simpl; [tauto|].
  rewrite IH. tauto.
Qed.

Lemma process_all_app msgs1 msgs2 p :
  process_all (msgs1 ++ msgs2) p = process_all msgs2 (process_all msgs1 p).
Proof. apply foldl_app. Qed.

Lemma server_loop_received rs evs p :
  no_panic (completes rs) p ->
  exists f, server_effect f /\
    server_loop (received rs ++ evs) p
      = server_loop evs (on_globals f (process_all (completes rs) p)).
Proof.
  revert p. induction rs as [|r rs IH]; intros p Hp.
  - exists (fun g => g). split; [constructor|]. by rewrite on_globals_id.
  - rewrite completes_cons in Hp |- *. apply no_panic_app in Hp as [Hp1 Hp2].
    destruct (loop_turn_received r p Hp1) as (f1 & Hf1 & E1).
    destruct (IH (on_globals f1 (process_all (completes [r]) p))) as (f2 & Hf2 & E2).
    { by apply no_panic_effect. }
    exists (fun g => f2 (f1 g)). split; [by apply server_effect_comp|].
    change (received (r :: rs) ++ evs)
      with (Incoming (Some (inl r)) :: (received rs ++ evs)).
    cbn [server_loop]. unfold m_bind at 1. rewrite E1. rewrite E2.
    by rewrite process_all_effect, on_globals_comp, process_all_app.
Qed.

(** A turn on a message that [process] panics on. *)
Lemma loop_turn_panics msg w p :
  (process msg p).1 = Panic w ->
  exists f, server_effect f /\
    loop_turn (Incoming (Some (inl (Complete msg)))) p
      = (Panic w, on_globals f (process msg p).2).
Proof.
  intros Hw. cbn [loop_turn]. unfold m_bind, on_statics, m_modify.
  rewrite process_effect by (apply effect_increment, effect_none).
  destruct (process msg p) as [r p']. simpl in Hw. subst r. eexists. split; [|done].
  apply effect_increment, effect_none.
Qed.

(** There is a first message that the closure panics on, or none. *)
Lemma first_panic rs p :
  no_panic (completes rs) p \/
  exists before msg later w, rs = before ++ Complete msg :: later /\
    no_panic (completes before) p /\
    (process msg (process_all (completes before) p)).1 = Panic w.
Proof.
  revert p. induction rs as [|r rs IH]; intros p; [by left|].
  destruct r as [|msg|err].
  - destruct (IH p) as [Hp|(before & msg & later & w & -> & Hp)]; [by left|right].
    by exists (Incomplete :: before), msg, later, w.
  - destruct (process msg p) as [[u|e|w] p'] eqn:E.
    3:{ right. exists [], msg, rs, w. split; [done|]. split; [done|]. simpl. by rewrite E. }
    all: destruct (IH p') as [Hp|(before & msg' & later & w & -> & Hp & Hw)];
      [left; simpl; by rewrite E|right].
    all: exists (Complete msg :: before), msg', later, w.
    all: split; [done|]; simpl; by rewrite E.
  - destruct (IH p) as [Hp|(before & msg & later & w & -> & Hp)]; [by left|right].
    by exists (RError err :: before), msg, later, w.
Qed.
End Loop.

(** ** The counters of the loop *)

Section Counts.
Context {P : Type} `{ProcessorLaws P}.

(** How often a turn counts a field, [ok] telling whether processing worked. *)
Definition turn_count (field : string) (r : Received) (ok : bool) : nat :=
  let one (name : string) := if decide (field = name) then 1 else 0 in
  match r with
  | Incomplete => 0
  | Complete _ =>
      one "receive_ok" + (if ok then one "process_ok" else one "process_err")
  | RError _ => one "receive_err"
  end%string.

(** The state a turn on something received leaves, but for the statics. *)
Definition after (r : Received) (p : P) : P := process_all (completes [r]) p.
Definition worked (r : Received) (p : P) : bool :=
  match r with Complete msg => is_ok (process msg p).1 | _ => true end.

Fixpoint loop_count (field : string) (rs : list Received) (p : P) : nat :=
  match rs with
  | [] => 0
  | r :: rs' => turn_count field r (worked r p) + loop_count field rs' (after r p)
  end.

(** A field of the server's counters, with its value. *)
Definition counts_at (field : string) (c : Z) (p : P) : Prop :=
  counter_of GServer field (globals_of p) = Some c /\ (0 <= c < u64_modulus)%Z
  /\ MinLevel_includes LDebug (globals_of p) = true.

Lemma counts_at_increment field c name p :
  counts_at field c p ->
  counts_at field (count_up (if decide (field = name) then 1 else 0) c)
    (on_globals (increment GServer name) p).
Proof.
  intros (Hc & Hr & Hl). unfold counts_at.
  rewrite globals_of_on, counter_of_increment, MinLevel_includes_increment, Hl, Hc.
  rewrite (bool_decide_true (GServer = GServer)) by done. simpl andb.
  split; [|split; [apply count_up_range|done]].
  case_decide; [by rewrite bool_decide_true|].
  rewrite bool_decide_false by done. by rewrite count_up_0.
Qed.

Lemma counts_at_emit_err field c err msg p :
  counts_at field c p -> counts_at field c (on_globals (emit_err err msg) p).
Proof.
  unfold counts_at.
  by rewrite !globals_of_on, counter_of_emit_err, MinLevel_includes_emit_err.
Qed.

Lemma counts_at_process field c msg p :
  counts_at field c p -> counts_at field c (process msg p).2.
Proof. unfold counts_at. by rewrite process_counters, process_level. Qed.

Lemma loop_turn_counts field c r p :
  no_panic (completes [r]) p -> counts_at field c p ->
  counts_at field (count_up (turn_count field r (worked r p)) c)
    (loop_turn (Incoming (Some (inl r))) p).2.
Proof.
  destruct r as [|msg|err]; simpl; intros Hp Hc.
  - destruct Hc as (Hc & Hr & Hl). by rewrite count_up_0.
  - unfold m_bind, on_statics, m_modify, m_ret.
    pose proof (counts_at_increment field c "receive_ok" p Hc) as Hok.
    apply (counts_at_process _ _ msg) in Hok.
    rewrite process_effect in Hok |- * by (apply effect_increment, effect_none).
    destruct (process msg p) as [[u|err|w] p']; cbn [fst snd prod_map is_ok] in *;
      [| |by destruct Hp].
    + rewrite <- count_up_add. by apply counts_at_increment.
    + rewrite <- count_up_add. by apply counts_at_emit_err, counts_at_increment.
  - unfold m_bind, on_statics, m_modify, m_ret. by apply counts_at_emit_err, counts_at_increment.
Qed.

Lemma loop_count_effect field rs f p :
  server_effect f -> loop_count field rs (on_globals f p) = loop_count field rs p.
Proof.
  intros Hf. revert p. induction rs as [|r rs IH]; intros p; [done|]. simpl.
  unfold after. rewrite process_all_effect by done. rewrite IH. f_equal. f_equal.
  destruct r; simpl; [done| |done]. by rewrite process_effect.
Qed.

Lemma server_loop_counts_at field rs c p :
  no_panic (completes rs) p -> counts_at field c p ->
  counts_at field (count_up (loop_count field rs p) c) (server_loop (received rs) p).2.
Proof.
  revert c p. induction rs as [|r rs IH]; intros c p Hp Hc.
  - simpl. destruct Hc as (Hc & Hr & Hl). by rewrite count_up_0.
  - rewrite completes_cons in Hp. apply no_panic_app in Hp as [Hp1 Hp2].
    pose proof (loop_turn_counts field c r p Hp1 Hc) as Ht.
    destruct (loop_turn_received r p Hp1) as (f & Hf & E).
    change (received (r :: rs)) with (Incoming (Some (inl r)) :: received rs).
    cbn [server_loop loop_count]. unfold m_bind. rewrite E in Ht |- *.
    rewrite <- count_up_add.
    rewrite <- (loop_count_effect field rs f) by done.
    apply IH; [by apply no_panic_effect|done].
Qed.

(** The errors among what was received. *)
Definition errors (rs : list Received) : list error :=
  omap (fun r => match r with RError err => Some err | _ => None end) rs.

Lemma loop_count_receive_ok rs p :
  loop_count "receive_ok" rs p = length (completes rs).
Proof.
  revert p. induction rs as [|[|msg|err] rs IH]; intros p; simpl; rewrite ?IH; try done.
  by destruct (is_ok _).
Qed.

Lemma loop_count_receive_err rs p :
  loop_count "receive_err" rs p = length (errors rs).
Proof.
  revert p. induction rs as [|[|msg|err] rs IH]; intros p; simpl; rewrite ?IH; try done.
  by destruct (is_ok _).
Qed.

Lemma loop_count_process rs p :
  loop_count "process_ok" rs p + loop_count "process_err" rs p = length (completes rs).
Proof.
  revert p. induction rs as [|[|msg|err] rs IH]; intros p; simpl; rewrite ?IH; try done.
  rewrite <- (IH (process msg p).2). unfold after. simpl.
  destruct (is_ok _); simpl; lia.
Qed.
End Counts.

Section Properties.
Context {P : Type} `{ProcessorLaws P}.

(** C18: no error stops the loop, whatever is received: chunks of messages,
    messages that fail to parse and messages that fail to process are passed over,
    and the complete messages are processed once each, in order; the loop itself
    only writes its counters and its log. Only a panic of [process] ends it, on the
    first message that it panics on, those before having been processed, and none
    after. *)
Theorem server_loop_survives (rs : list Received) (p : P) :
  match server_loop (received rs) p with
  | (Ok goes_on, p') =>
      goes_on = true /\ no_panic (completes rs) p /\
      exists f, server_effect f /\ p' = on_globals f (process_all (completes rs) p)
  | (Err _, _) => False
  | (Panic w, p') =>
      exists before msg later f, rs = before ++ Complete msg :: later /\
        no_panic (completes before) p /\
        (process msg (process_all (completes before) p)).1 = Panic w /\
        server_effect f /\ p' = on_globals f (process_all (completes before ++ [msg]) p)
  end.
Proof.
  destruct (first_panic rs p) as [Hp|(before & msg & later & w & -> & Hp & Hw)].
  - destruct (server_loop_received rs [] p Hp) as (f & Hf & E).
    rewrite app_nil_r in E. rewrite E. split; [done|]. split; [done|]. by exists f.
  - destruct (server_loop_received before (received (Complete msg :: later)) p Hp)
      as (f & Hf & E).
    assert (Er : received (before ++ Complete msg :: later) =
      received before ++ received (Complete msg :: later)) by apply fmap_app.
    rewrite Er, E. cbn [received fmap list_fmap server_loop].
    destruct (loop_turn_panics msg w (on_globals f (process_all (completes before) p)))
      as (f' & Hf' & E'); [by rewrite process_effect|].
    unfold m_bind at 1. rewrite E'. exists before, msg, later, (fun g => f' (f g)).
    do 3 (split; [done|]). split; [by apply server_effect_comp|].
    rewrite process_effect, process_all_app by done. simpl. by rewrite on_globals_comp.
Qed.

(** C19: the loop ends at the first closed handle, signal or broken stream,
    having processed what came before and nothing of what comes after. *)
Theorem server_loop_stops (rs : list Received) (ev : LoopEvent) (later : list LoopEvent)
    (p : P) :
  no_panic (completes rs) p ->
  (ev = CloseHandle \/ ev = CtrlC \/ exists err, ev = Incoming (Some (inr err))) ->
  exists f, server_loop (received rs ++ ev :: later) p
    = (Ok false, on_globals f (process_all (completes rs) p)).
Proof.
  intros Hp Hev. destruct (server_loop_received rs (ev :: later) p Hp) as (f & _ & ->).
  cbn [server_loop]. unfold m_bind at 1.
  destruct Hev as [->|[->|[err ->]]]; simpl; unfold m_bind, on_statics, m_modify, m_ret;
    rewrite ?on_globals_comp; by eexists.
Qed.

(** C20: with diagnostics on, the counters tell what the loop did: every
    complete message is counted as received, and then as processed or as
    failed; every error of the receiver is counted as such. *)
Theorem server_loop_counters (rs : list Received) (p : P) (ro re po pe : Z) :
  no_panic (completes rs) p ->
  counts_at "receive_ok" ro p -> counts_at "receive_err" re p ->
  counts_at "process_ok" po p -> counts_at "process_err" pe p ->
  let p' := (server_loop (received rs) p).2 in
  exists ok err,
    ok + err = length (completes rs) /\
    counts_at "receive_ok" (count_up (length (completes rs)) ro) p' /\
    counts_at "receive_err" (count_up (length (errors rs)) re) p' /\
    counts_at "process_ok" (count_up ok po) p' /\
    counts_at "process_err" (count_up err pe) p'.
Proof.
  intros Hp Hro Hre Hpo Hpe p'.
  exists (loop_count "process_ok" rs p), (loop_count "process_err" rs p).
  split; [apply loop_count_process|].
  rewrite <- (loop_count_receive_ok rs p), <- (loop_count_receive_err rs p).
  split; [|split; [|split]]; by apply server_loop_counts_at.
Qed.
End Properties.

Section Start.
Context `{ServerIo} {P : Type} `{Processor P}.

(** TLS over UDP and a key file without keys are refused before anything is
    bound: the error is logged, the loop does not start, and the run ends as
    any other run does. *)
Lemma server_start_refused (s : Server) (loop : Incoming_kind -> M P bool)
    (cert : Certificate) (p : P) :
  certificate (server_config s) = Some cert ->
  (bind_protocol (bind (server_config s)) = Udp ->
     server_run s loop p =
       (Ok false, on_globals (emit_err (Bail "TLS is not supported when the protocol is UDP" [])
                                "GELF server failed") p)) /\
  (bind_protocol (bind (server_config s)) = Tcp ->
   forall certs, read_certs (path cert) = Ok certs ->
   read_pkcs8_keys (private_key_path cert) = Ok [] ->
     server_run s loop p =
       (Ok false,
        on_globals (emit_err (Bail "The file `{}` used for the certificate private key doesn't contain any PKCS8 keys"
                                [AStr (private_key_path cert)]) "GELF server failed")
          (on_globals (emit "Using TLS") p))).
Proof.
  intros Hcert. unfold server_run, start. rewrite Hcert. split.
  - by intros ->.
  - intros -> certs Hc Hk. unfold tls_config, m_bind, m_lift, on_statics, m_modify.
    by rewrite Hc, Hk.
Qed.
End Start.

(** ** Witnesses *)

(** A closure that records its messages and fails on the empty one. *)
Record Archive := mkArchive { archived : list Message; archive_globals : Globals }.

#[export, refine] Instance Archive_Statics : Statics Archive := {|
  globals_of := archive_globals;
  on_globals f a := mkArchive (archived a) (f (archive_globals a))
|}.
Proof. all: solve_statics. Defined.
#[export] Instance Archive_Processor : Processor Archive := {|
  process msg a :=
    (if decide (message_payload msg = []) then Err (External "EOF" []) else Ok tt,
     mkArchive (archived a ++ [msg]) (archive_globals a))
|}.
#[export] Instance Archive_laws : ProcessorLaws Archive.
Proof.
  by constructor.
Qed.

Section Witnesses.
Definition good : Message := mkMessage (Single None [Byte.x7b]).
Definition bad : Message := mkMessage (Single None []).
Definition sample_received : list Received :=
  [Incomplete; Complete bad; RError SystemTimeError; Complete good].
Definition archive : Archive := mkArchive [] Globals_initial.

Lemma server_loop_survives_witness :
  exists p, server_loop (received sample_received) archive = (Ok true, p) /\
    archived p = [bad; good].
Proof.
  pose proof (server_loop_survives sample_received archive) as Hl.
  assert (E : is_ok (server_loop (received sample_received) archive).1 = true) by reflexivity.
  destruct (server_loop (received sample_received) archive) as [[b|e|w] p]; [|discriminate E..].
  destruct Hl as (-> & _ & f & _ & ->). eexists. split; [reflexivity|reflexivity].
Defined.

Lemma server_loop_stops_witness :
  exists p,
    server_loop (received sample_received ++ CtrlC :: received [Complete good]) archive
      = (Ok false, p) /\ archived p = [bad; good].
Proof.
  destruct (server_loop_stops sample_received CtrlC (received [Complete good]) archive)
    as (f & E); [done|by auto|].
  eexists. split; [exact E|]. reflexivity.
Defined.

Lemma server_loop_counters_witness :
  counts_at "receive_ok" 2 (server_loop (received sample_received) archive).2 /\
  counts_at "receive_err" 1 (server_loop (received sample_received) archive).2.
Proof.
  destruct (server_loop_counters sample_received archive 0 0 0 0)
    as (ok & err & _ & H1 & H2 & _); [done..|].
  split; [exact H1|exact H2].
Defined.
End Witnesses.
