(* ===== verification/TcpListen.v ===== *)
(** The TCP connections of the server ([sqelf/src/server/tcp.rs]): the listener
    as a stream of connections, the handshake, the timeout of a connection, the
    quiet close of a TLS stream, and the [Listen] stream that polls an active
    set of connections. *)

From S2P Require Import Prelude Diagnostics Io Message Received Stream Framed.
From S2P Require Import TcpDecode Connection.

(** ** Reading *)

Section QuietClose.
Context {So : Type} `{AsyncRead So}.

Record QuietClose := QuietClose_new { qc_inner : So }.

(** [QuietClose::poll_read]: the kinds of errors of a closed connection are the
    end of the input. *)
Definition QuietClose_poll_read (i : read_input So) (qc : QuietClose) :
    Poll (Bytes + io_error) * QuietClose :=
  let '(r, inner) := poll_read i (qc_inner qc) in
  (match r with
   | Ready (inl read) => Ready (inl read)
   | Pending => Pending
   | Ready (inr e) =>
       match io_kind e with
       | UnexpectedEof => Ready (inl [])
       | ConnectionReset => Ready (inl [])
       | _ => Ready (inr e)
       end
   end, QuietClose_new inner).

#[export] Instance QuietClose_AsyncRead : AsyncRead QuietClose := {|
  read_input := read_input So;
  poll_read := QuietClose_poll_read
|}.
End QuietClose.
Arguments QuietClose : clear implicits.

#[export, refine] Instance QuietClose_AsyncReadSpec {So} `{AsyncReadSpec So} :
  AsyncReadSpec (QuietClose So) := {|
  delivers qc c := delivers (qc_inner qc) c
|}.
Proof.
  intros i [so] c Hc. cbn [poll_read QuietClose_AsyncRead]. unfold QuietClose_poll_read.
  cbn [qc_inner] in *. pose proof (@poll_read_spec So _ _ i so c Hc) as Hs.
  destruct (@poll_read So _ i so) as [[[b|[[] msg]]|] so']; cbn [io_kind]; [done| | |done..];
    by exists c.
Defined.

(** A connection is a plain socket, or a TLS stream under [QuietClose]. *)
Inductive Conn (Raw Tls : Type) := PlainConn (conn : Raw) | TlsConn (conn : QuietClose Tls).
Arguments PlainConn {Raw Tls} conn.
Arguments TlsConn {Raw Tls} conn.

Section Conn.
Context {Raw Tls : Type} `{AsyncRead Raw} `{AsyncRead Tls}.

#[export] Instance Conn_AsyncRead : AsyncRead (Conn Raw Tls) := {|
  read_input := read_input Raw * read_input Tls;
  poll_read i so :=
    match so with
    | PlainConn conn => prod_map id PlainConn (poll_read i.1 conn)
    | TlsConn conn => prod_map id TlsConn (@poll_read (QuietClose Tls) _ i.2 conn)
    end
|}.
End Conn.

#[export, refine] Instance Conn_AsyncReadSpec {Raw Tls : Type}
    `{AsyncReadSpec Raw} `{AsyncReadSpec Tls} :
  AsyncReadSpec (Conn Raw Tls) := {|
  delivers so c :=
    match so with
    | PlainConn conn => delivers conn c
    | TlsConn conn => @delivers (QuietClose Tls) _ _ conn c
    end
|}.
Proof.
  intros [i j] [so|so] c Hc; cbn [poll_read Conn_AsyncRead fst snd].
  - pose proof (@poll_read_spec Raw _ _ i so c Hc) as Hs.
    by destruct (poll_read _ _) as [[[]|] ?].
  - pose proof (@poll_read_spec (QuietClose Tls) _ _ j so c Hc) as Hs.
    by destruct (poll_read _ _) as [[[]|] ?].
Defined.

(** ** The timeout of a connection *)

(** [tokio]'s monotonic clock, in nanoseconds. *)
Definition Instant : Type := Z.
Definition instant_max : Instant := systime_max.

(** [timeout]: "Requires a Future to complete before the specified duration has
    elapsed", which is when the clock passes the deadline. *)
Class Timeouts := {
  timeout_deadline : Instant -> Duration -> Instant;
  timeout_deadline_spec now d :
    (now + d <= instant_max)%Z -> timeout_deadline now d = (now + d)%Z
}.

#[refine] Definition timeouts_model : Timeouts := {|
  timeout_deadline now d := (now + d)%Z
|}.
Proof. done. Defined.

Section Timeout.
Context `{Timeouts} {S T : Type} `{Stream S T}.

(** [stream] is under [timeout(keep_alive, stream.into_future())]. *)
Record TimeoutStream := mkTimeoutStream {
  keep_alive : Duration;
  deadline : Instant;
  stream : S
}.

(** [TimeoutStream::new]. *)
Definition TimeoutStream_new (now : Instant) (stream : S) (keep_alive : Duration) :
    M Globals TimeoutStream :=
  m_modify (increment GServer "tcp_conn_accept") ;;;
  m_ret (mkTimeoutStream keep_alive (timeout_deadline now keep_alive) stream).

(** [Drop for TimeoutStream]. *)
#[export] Instance TimeoutStream_drop : Drop TimeoutStream := {|
  drop_glue _ := increment GServer "tcp_conn_close"
|}.

(** What a poll of the timeout finds: the time, whether the timer has fired (it
    may be late, but not early), and what the stream finds. *)
Record timeout_input := mkTimeoutInput {
  now : Instant;
  fired : bool;
  inner_input : poll_input S T
}.

Definition has_elapsed (i : timeout_input) (t : TimeoutStream) : bool :=
  fired i && (deadline t <=? now i)%Z.

(** [TimeoutStream::poll_next]. "Note that the timeout is checked after polling
    the future". An item starts the timeout afresh. *)
Definition TimeoutStream_poll_next (i : timeout_input) (t : TimeoutStream) :
    M Globals (Poll (option T) * TimeoutStream) :=
  let! '(item, stream) := poll_next (inner_input i) (stream t) in
  match item with
  | Ready item =>
      m_ret (Ready item,
        mkTimeoutStream (keep_alive t) (timeout_deadline (now i) (keep_alive t)) stream)
  | Pending =>
      let t' := mkTimeoutStream (keep_alive t) (deadline t) stream in
      if has_elapsed i t then
        m_modify (increment GServer "tcp_conn_timeout") ;;;
        m_ret (Ready None, t')
      else m_ret (Pending, t')
  end.

#[export] Instance TimeoutStream_Stream : Stream TimeoutStream T := {|
  poll_input := timeout_input;
  poll_next := TimeoutStream_poll_next
|}.
End Timeout.
Arguments TimeoutStream : clear implicits.
Arguments timeout_input S T {_}.

(** ** Accepting *)

Section Accept.
Context `{Timeouts} {R Raw Tls Addr : Type} `{Receiver R} `{BytesApi}
  `{AsyncRead Raw} `{AsyncRead Tls} `{!FramedReadApi (Conn Raw Tls) (TcpState R) Received}.
(** The arguments of [build], [receive.clone()] being the closure that a
    connection gets. *)
Context (keep_alive : Duration) (max_size_bytes : Z) (tls : bool) (receive_clone : Raw -> R).

(** The stream of a connection. *)
Abbreviation Protocol := (TimeoutStream (FramedRead (Conn Raw Tls) (TcpState R))).

(** [accept_protocol]: a decoder over the connection, with a timeout. *)
Definition accept_protocol (now : Instant) (conn : Conn Raw Tls) (receive : R) :
    M Globals (option Protocol) :=
  let decode := Decode_new max_size_bytes receive in
  let protocol := FramedRead_new conn (mkTcp decode []) in
  let! t := TimeoutStream_new now protocol keep_alive in
  m_ret (Some t).

(** [accept]: a connection that could not be established is ignored. *)
Definition accept (now : Instant) (conn : Raw + io_error) : M Globals (option Protocol) :=
  match conn with
  | inl conn => accept_protocol now (PlainConn conn) (receive_clone conn)
  | inr _ => m_ret None
  end.

(** [accept_tls] after [tls.accept(conn).await], which gave [conn]. *)
Definition accept_tls (now : Instant) (raw : Raw) (conn : Tls + io_error) :
    M Globals (option Protocol) :=
  match conn with
  | inl conn => accept_protocol now (TlsConn (QuietClose_new conn)) (receive_clone raw)
  | inr _ => m_ret None
  end.

(** [TcpIncoming::poll_next], on what [poll_accept] gives: a connection with
    its address, or an error. *)
Definition TcpIncoming_poll_next (accept : Poll (Raw * Addr + io_error)) :
    Poll (option (Raw + io_error)) :=
  match accept with
  | Ready (inl (conn, _)) => Ready (Some (inl conn))
  | Ready (inr err) => Ready (Some (inr err))
  | Pending => Pending
  end.

(** [filter_map]: the connection whose handshake is awaited, if any. The next
    connection is only polled for when the one before is done with. *)
Record FilterMap := mkFilterMap { handshake : option Raw }.

(** What the polls of the listener and of the handshake give, in order. *)
Inductive incoming_event :=
| Listener (accept : Poll (Raw * Addr + io_error))
| Handshake (accept : Poll (Tls + io_error)).

Fixpoint incoming_poll (now : Instant) (evs : list incoming_event) (inc : FilterMap) :
    M Globals (Poll (option Protocol) * FilterMap) :=
  match evs with
  | [] => m_ret (Pending, inc)
  | ev :: evs' =>
      match handshake inc, ev with
      | None, Listener p =>
          match TcpIncoming_poll_next p with
          | Pending => m_ret (Pending, inc)
          | Ready None => m_ret (Ready None, inc)
          | Ready (Some conn) =>
              if tls then
                match conn with
                | inl conn => incoming_poll now evs' (mkFilterMap (Some conn))
                | inr _ => incoming_poll now evs' inc
                end
              else
                let! t := accept now conn in
                match t with
                | Some t => m_ret (Ready (Some t), inc)
                | None => incoming_poll now evs' inc
                end
          end
      | Some raw, Handshake p =>
          match p with
          | Pending => m_ret (Pending, inc)
          | Ready conn =>
              let! t := accept_tls now raw conn in
              match t with
              | Some t => m_ret (Ready (Some t), mkFilterMap None)
              | None => incoming_poll now evs' (mkFilterMap None)
              end
          end
      | _, _ => m_ret (Pending, inc)
      end
  end.

#[export] Instance FilterMap_Stream : Stream FilterMap Protocol := {|
  poll_input := Instant * list incoming_event;
  poll_next i := incoming_poll i.1 i.2
|}.
End Accept.
Arguments incoming_event : clear implicits.
Arguments FilterMap : clear implicits.

(** ** The active set of connections *)

Section Listen.
(** [A] is the stream of connections, [S] a connection, which is a stream of
    results of type [T]. *)
Context {A S T : Type} `{Stream A S} `{Stream S (T + error)} `{Drop S}.

Record Listen := mkListen {
  accept_stream : A;
  accept_is_done : bool;
  connections : list S;
  max : nat
}.

(** [listen]. *)
Definition listen (stream : A) (max_connections : nat) : Listen :=
  mkListen stream false [] max_connections.

Definition LM (B : Type) : Type := M (Listen * Globals) B.

Definition on_listen (f : Listen -> Listen) : LM unit := m_modify (prod_map f id).
Definition with_globals {B} (m : M Globals B) : LM B :=
  m_zoom snd (fun g st => (st.1, g)) m.

Definition push_connection (s : S) : LM unit :=
  on_listen (fun l => mkListen (accept_stream l) (accept_is_done l)
                        (connections l ++ [s]) (max l)).
Definition remove_connection (i : nat) : LM unit :=
  on_listen (fun l => mkListen (accept_stream l) (accept_is_done l)
                        (take i (connections l) ++ drop (1 + i) (connections l)) (max l)).
Definition put_connection (i : nat) (s : S) : LM unit :=
  on_listen (fun l => mkListen (accept_stream l) (accept_is_done l)
                        (<[i := s]> (connections l)) (max l)).
Definition put_accept (a : A) (is_done : bool) : LM unit :=
  on_listen (fun l => mkListen a is_done (connections l) (max l)).

(** What the polls that [poll_next] makes find, in order: those of the stream
    of connections and those of the set, which polls the [i]-th connection;
    [Idle] says that it polls none. *)
Inductive outcome :=
| Accept (i : poll_input A S)
| Polled (i : nat) (input : poll_input S (T + error))
| Idle.

(** The ['fill_conns] loop. The stream of connections is fused: it is not
    polled again once it has ended. *)
Fixpoint fill_conns (script : list outcome) : LM (list outcome) :=
  let! st := m_get in
  if (length (connections st.1) <? max st.1)%nat then
    if accept_is_done st.1 then m_ret script else
    match script with
    | Accept i :: script' =>
        let! '(s, a) := with_globals (poll_next i (accept_stream st.1)) in
        match s with
        | Ready (Some s) => put_accept a false ;;; push_connection s ;;; fill_conns script'
        | Ready None => put_accept a true ;;; m_ret script'
        | Pending => put_accept a false ;;; m_ret script'
        end
    | _ => m_ret script
    end
  else m_ret script.

(** [self.connections().poll_next(cx)]: the set polls the connections that may
    make progress, in an order of its own, until one has an item or its end,
    which it is taken from the set with. *)
Fixpoint poll_set (script : list outcome) :
    LM (Poll (option (option (T + error) * S)) * list outcome) :=
  match script with
  | Polled i input :: script' =>
      let! st := m_get in
      match connections st.1 !! i with
      | None => m_ret (Pending, script')
      | Some conn =>
          let! '(item, conn) := with_globals (poll_next input conn) in
          match item with
          | Ready item => remove_connection i ;;; m_ret (Ready (Some (item, conn)), script')
          | Pending => put_connection i conn ;;; poll_set script'
          end
      end
  | Idle :: script' =>
      let! st := m_get in
      m_ret (if (length (connections st.1) =? 0)%nat then Ready None else Pending, script')
  | _ => m_ret (Pending, script)
  end.

(** What [poll_next] returns when nothing is ready. *)
Definition nothing_ready : LM (Poll (option (T + error))) :=
  let! st := m_get in
  m_ret (if accept_is_done st.1 then Ready None else Pending).

(** The ['poll_conns] loop; [fuel] is above the number of outcomes. *)
Fixpoint poll_conns (fuel : nat) (script : list outcome) :
    LM (Poll (option (T + error)) * list outcome) :=
  match fuel with
  | O => m_panic "out of fuel"
  | Datatypes.S fuel' =>
      let! script := fill_conns script in
      let! '(polled, script) := poll_set script in
      match polled with
      | Ready (Some (Some (inl item), conn)) =>
          push_connection conn ;;;
          m_ret (Ready (Some (inl item)), script)
      | Ready (Some (Some (inr err), conn)) =>
          with_globals (m_modify (increment GServer "receive_err")) ;;;
          with_globals (m_modify (emit_debug_err err "GELF TCP client failed")) ;;;
          with_globals (m_modify (drop_glue conn)) ;;;
          poll_conns fuel' script
      | Ready (Some (None, conn)) =>
          with_globals (m_modify (drop_glue conn)) ;;;
          poll_conns fuel' script
      | Ready None | Pending => let! r := nothing_ready in m_ret (r, script)
      end
  end.

(** [Listen::poll_next]. *)
Definition Listen_poll_next (script : list outcome) :
    LM (Poll (option (T + error)) * list outcome) :=
  poll_conns (Datatypes.S (length script)) script.

#[export] Instance Listen_Stream : Stream Listen (T + error) := {|
  poll_input := list outcome;
  poll_next script l := fun g =>
    let '(r, (l', g')) := Listen_poll_next script (l, g) in
    ((fun p => (p.1, l')) <$> r, g')
|}.
End Listen.
Arguments Listen : clear implicits.
Arguments outcome A S T {_ _}.

(** ** The server *)

Section Build.
Context `{Timeouts} {R Raw Tls Addr : Type} `{Receiver R} `{BytesApi}
  `{AsyncRead Raw} `{AsyncRead Tls} `{!FramedReadApi (Conn Raw Tls) (TcpState R) Received}.

(** [tcp::Server::build]: the stream that is polled. *)
Definition tcp_build :
    Listen (FilterMap Raw) (TimeoutStream (FramedRead (Conn Raw Tls) (TcpState R))) :=
  listen (mkFilterMap None) 1024.
End Build.
