(* ===== verification/ListenThms.v ===== *)
(** The laws of the active set of connections ([Listen]), whatever its streams
    are, and what a poll does to the connection whose turn it is. *)

From S2P Require Import Prelude Diagnostics DiagnosticsThms Received Stream TcpListen.

(** What the connections and the listener may do to the statics, as far as the
    account of connections and the life cycle of the diagnostics go. *)
Definition conn_counters (g : Globals) : bool * option Diagnostics * option Z * option Z :=
  (MinLevel_includes LDebug g, DIAGNOSTICS g, counter_of GServer "tcp_conn_accept" g,
   counter_of GServer "tcp_conn_close" g).

Lemma conn_counters_diagnostics g g' :
  conn_counters g' = conn_counters g -> DIAGNOSTICS g' = DIAGNOSTICS g.
Proof. by intros [= _ -> _ _]. Qed.

Lemma conn_counters_count_diagnostics field g g' :
  conn_counters g' = conn_counters (increment GServer field g) -> DIAGNOSTICS g' = DIAGNOSTICS g.
Proof. intros E%conn_counters_diagnostics. by rewrite E, DIAGNOSTICS_increment. Qed.

Lemma conn_counters_increment grp field g :
  (grp = GServer -> field <> "tcp_conn_accept" /\ field <> "tcp_conn_close")%string ->
  conn_counters (increment grp field g) = conn_counters g.
Proof.
  intros Hf. unfold conn_counters. rewrite MinLevel_includes_increment, DIAGNOSTICS_increment, !counter_of_increment.
  destruct (decide (grp = GServer)) as [E|E].
  - destruct (Hf E). by rewrite !(bool_decide_false (_ = field)), andb_false_r by congruence.
  - by rewrite !(bool_decide_false (_ = grp)), andb_false_r by congruence.
Qed.

Lemma conn_counters_emit_debug_err err msg g :
  conn_counters (emit_debug_err err msg g) = conn_counters g.
Proof.
  unfold conn_counters.
  by rewrite MinLevel_includes_emit_debug_err, DIAGNOSTICS_emit_debug_err, !counter_of_emit_debug_err.
Qed.

(** ** The account of the connections *)

(** What the set relies on: a connection that the stream of connections gives
    has been counted as accepted, and the stream does not end; a connection
    leaves the two counters alone while it is [live], which it stays until it
    gives an error or ends; dropping it counts it as closed. [admitted] are the
    inputs the stream of connections gets, and [may_open] says whether it then
    gives any; polling a connection does not panic. *)
Class ListenLaws (A S T : Type) `{Stream A S} `{Stream S (T + error)} `{Drop S}
    (ainv : A -> Prop) (admitted : poll_input A S -> Prop) (may_open : Prop)
    (live : S -> Prop) := {
  accept_law i a g : ainv a -> admitted i ->
    wp (poll_next i a)
      (fun '(p, a') g' => ainv a' /\
         match p with
         | Ready (Some s) =>
             may_open /\ live s /\
             conn_counters g' = conn_counters (increment GServer "tcp_conn_accept" g)
         | Ready None => False
         | Pending => conn_counters g' = conn_counters g
         end) (fun _ _ => False) g;
  connection_law i s g : live s ->
    wp (poll_next i s)
      (fun '(p, s') g' => conn_counters g' = conn_counters g /\
         match p with Ready (Some (inr _)) | Ready None => True | _ => live s' end)
      (fun _ _ => False) g;
  drop_law s g : conn_counters (drop_glue s g) = conn_counters (increment GServer "tcp_conn_close" g)
}.

Section Laws.
Context {A S T : Type} `{Stream A S} `{Stream S (T + error)} `{Drop S}.
Context {ainv : A -> Prop} {admitted : poll_input A S -> Prop} {may_open : Prop}
  {live : S -> Prop} `{!ListenLaws A S T ainv admitted may_open live}.
(** Whether the statics count, which they do with diagnostics on and as long as
    nothing else writes the two counters. *)
Context (audited : Prop) (m n : nat) (a0 b0 : Z) (d0 : option Diagnostics).
Implicit Types (st : Listen A S * Globals) (script : list (outcome A S T)) (held : nat).

(** The set is within its limit, [held] connections being in hand: [n] were open at
    first, and since then as many more were accepted than closed as are open now,
    which the counters tell, that stood at [a0] and [b0]. The life cycle of the
    diagnostics is at [d0]. *)
Definition listen_inv held st : Prop :=
  max st.1 = m /\ (held + length (connections st.1) <= m)%nat /\
  accept_is_done st.1 = false /\ ainv (accept_stream st.1) /\ Forall live (connections st.1) /\
  DIAGNOSTICS st.2 = d0 /\
  (exists a b,
     (audited -> conn_counters st.2 = (true, d0, Some (count_up a a0), Some (count_up b b0))) /\
     (n + a = b + held + length (connections st.1))%nat /\ (a = 0%nat \/ may_open)).

(** The two ways to count, and to leave the counters alone. *)
Lemma conn_counters_accept a b g g' :
  conn_counters g = (true, d0, Some (count_up a a0), b) ->
  conn_counters g' = conn_counters (increment GServer "tcp_conn_accept" g) ->
  conn_counters g' = (true, d0, Some (count_up (Datatypes.S a) a0), b).
Proof.
  unfold conn_counters. intros [= Hd Hg Ha Hb] ->.
  rewrite MinLevel_includes_increment, DIAGNOSTICS_increment, !counter_of_increment, Hd, Ha, Hg,
    <- Hb. simpl.
  rewrite count_up_S. by destruct (counter_of _ "tcp_conn_close" g).
Qed.

Lemma conn_counters_close a b g g' :
  conn_counters g = (true, d0, a, Some (count_up b b0)) ->
  conn_counters g' = conn_counters (increment GServer "tcp_conn_close" g) ->
  conn_counters g' = (true, d0, a, Some (count_up (Datatypes.S b) b0)).
Proof.
  unfold conn_counters. intros [= Hd Hg Ha Hb] ->.
  rewrite MinLevel_includes_increment, DIAGNOSTICS_increment, !counter_of_increment, Hd, Hb, Hg,
    <- Ha. simpl.
  rewrite count_up_S. by destruct (counter_of _ "tcp_conn_accept" g).
Qed.

Lemma listen_inv_globals held l g g' :
  conn_counters g' = conn_counters g -> listen_inv held (l, g) -> listen_inv held (l, g').
Proof.
  intros E. unfold listen_inv. simpl. by rewrite E, (conn_counters_diagnostics _ _ E).
Qed.

Lemma listen_inv_close held l g g' :
  conn_counters g' = conn_counters (increment GServer "tcp_conn_close" g) ->
  listen_inv (Datatypes.S held) (l, g) -> listen_inv held (l, g').
Proof.
  intros E (? & ? & ? & ? & ? & Hd & Hacc). simpl in *.
  split; [done|]. split; [simpl; lia|]. do 3 (split; [done|]).
  split; [simpl; by rewrite (conn_counters_count_diagnostics _ _ _ E)|].
  destruct Hacc as (a & b & Hc & Ha & Hopen). exists a, (Datatypes.S b).
  split; [intros Haud; by eapply conn_counters_close; [apply Hc|]|]. simpl. split; [lia|done].
Qed.

(** Connections put back, taken out, or replaced. *)
Lemma listen_inv_connections held held' l cs g :
  (held + length (connections l) = held' + length cs)%nat -> Forall live cs ->
  listen_inv held (l, g) ->
  listen_inv held' (mkListen (accept_stream l) (accept_is_done l) cs (max l), g).
Proof.
  intros E Hcs (? & ? & ? & ? & ? & ? & Hacc). simpl in *.
  split; [done|]. split; [simpl; lia|]. do 4 (split; [done|]).
  destruct Hacc as (a & b & Hc & Ha & Hopen). exists a, b. split; [done|]. simpl. split; [lia|done].
Qed.

Lemma listen_inv_push held l s g :
  live s -> listen_inv (Datatypes.S held) (l, g) ->
  listen_inv held
    (mkListen (accept_stream l) (accept_is_done l) (connections l ++ [s]) (max l), g).
Proof.
  intros Hs Hinv. eapply listen_inv_connections, Hinv; [rewrite length_app; simpl; lia|].
  apply Forall_app. split; [apply Hinv|by constructor].
Qed.

Lemma listen_inv_put held l i s g :
  live s -> listen_inv held (l, g) ->
  listen_inv held
    (mkListen (accept_stream l) (accept_is_done l) (<[i := s]> (connections l)) (max l), g).
Proof.
  intros Hs Hinv. eapply listen_inv_connections, Hinv; [by rewrite length_insert|].
  apply Forall_insert; [apply Hinv|done].
Qed.

Lemma listen_inv_remove held l i s g :
  connections l !! i = Some s -> listen_inv held (l, g) ->
  listen_inv (Datatypes.S held)
    (mkListen (accept_stream l) (accept_is_done l)
       (take i (connections l) ++ drop (1 + i) (connections l)) (max l), g).
Proof.
  intros Hi Hinv. eapply listen_inv_connections, Hinv.
  - apply lookup_lt_Some in Hi. rewrite length_app, length_take, length_drop. lia.
  - pose proof Hinv as (_ & _ & _ & _ & Hlive & _). simpl in Hlive.
    apply Forall_app. split; [by apply Forall_take|by apply Forall_drop].
Qed.

(** The stream of connections was polled. *)
Lemma listen_inv_accepted l g a' g' :
  listen_inv 0 (l, g) -> (length (connections l) < m)%nat -> ainv a' -> may_open ->
  conn_counters g' = conn_counters (increment GServer "tcp_conn_accept" g) ->
  listen_inv 1 (mkListen a' false (connections l) (max l), g').
Proof.
  intros (? & ? & ? & ? & ? & Hd & Hacc) Hroom Ha' Hmo E. simpl in *.
  split; [done|]. split; [simpl; lia|]. do 3 (split; [done|]).
  split; [simpl; by rewrite (conn_counters_count_diagnostics _ _ _ E)|].
  destruct Hacc as (a & b & Hc & Ha & Hopen). exists (Datatypes.S a), b.
  split; [intros Haud; by eapply conn_counters_accept; [apply Hc|]|]. simpl. split; [lia|by right].
Qed.

Lemma listen_inv_asked l g a' g' :
  listen_inv 0 (l, g) -> ainv a' -> conn_counters g' = conn_counters g ->
  listen_inv 0 (mkListen a' false (connections l) (max l), g').
Proof.
  intros (? & ? & ? & ? & ? & Hd & Hacc) Ha' E. simpl in *.
  do 5 (split; [done|]). split; [simpl; by rewrite (conn_counters_diagnostics _ _ E)|].
  destruct Hacc as (a & b & Hc & Ha & Hopen). exists a, b.
  split; [intros Haud; simpl; rewrite E; by apply Hc|done].
Qed.

(** The inputs of the stream of connections are admitted. *)
Definition admits script : Prop :=
  Forall (fun o => match o with Accept i => admitted i | _ => True end) script.

Lemma admits_suffix script script' :
  script' `suffix_of` script -> admits script -> admits script'.
Proof. intros [pre ->] [_ ?]%Forall_app. done. Qed.

Lemma fill_conns_ok script st :
  admits script -> listen_inv 0 st ->
  wp (fill_conns script) (fun script' st' => listen_inv 0 st' /\ script' `suffix_of` script)
    (fun _ _ => False) st.
Proof.
  revert st. induction script as [|o script IH]; intros [l g] Hs Hinv; cbn [fill_conns];
    apply wp_bind, wp_get; cbn [fst]; (destruct (_ <? _)%nat eqn:Hroom; [|by apply wp_ret]);
    (destruct (accept_is_done l) eqn:Hdone; [by apply wp_ret|]); [by apply wp_ret|].
  apply Forall_cons in Hs as [Ho Hs]. destruct o as [i| |]; [|by apply wp_ret..].
  apply Nat.ltb_lt in Hroom. pose proof Hinv as (Hm & _ & _ & Ha & _). simpl in Hm, Ha.
  apply wp_bind, wp_zoom. eapply wp_mono; [by apply accept_law| |done].
  intros [p a'] g' [Ha' Hp]. cbn [fst snd]. destruct p as [[s|]|]; [|done|].
  - destruct Hp as (Hopen & Hlive & Hc).
    apply wp_bind, wp_modify, wp_bind, wp_modify. cbn [prod_map fst snd id].
    eapply wp_mono; [apply IH; [done|]| |done].
    + apply (listen_inv_push 0 (mkListen a' false (connections l) (max l))); [done|].
      eapply listen_inv_accepted; [done|lia|done..].
    + intros script' st' [? ?]. split; [done|by apply suffix_cons_r].
  - apply wp_bind, wp_modify, wp_ret. split; [by eapply listen_inv_asked|by apply suffix_cons_r].
Qed.

(** The number of connections a poll of the set hands over. *)
Definition in_hand (p : Poll (option (option (T + error) * S))) : nat :=
  match p with Ready (Some _) => 1 | _ => 0 end.
(** A connection that is handed over with an item is live. *)
Definition live_in_hand (p : Poll (option (option (T + error) * S))) : Prop :=
  match p with Ready (Some (Some (inl _), s)) => live s | _ => True end.

Lemma poll_set_ok script st :
  listen_inv 0 st ->
  wp (poll_set script)
    (fun '(p, script') st' => listen_inv (in_hand p) st' /\ live_in_hand p /\
       script' `suffix_of` script /\ (in_hand p + length script' <= length script)%nat)
    (fun _ _ => False) st.
Proof.
  revert st. induction script as [|o script IH]; intros [l g] Hinv; cbn [poll_set].
  { apply wp_ret. by do 3 (split; [done|]). }
  destruct o as [ai|i input|]; [apply wp_ret; by do 3 (split; [done|])| |].
  - apply wp_bind, wp_get. cbn [fst].
    destruct (connections l !! i) as [s|] eqn:Hi.
    2:{ apply wp_ret. do 2 (split; [done|]). split; [by apply suffix_cons_r|simpl; lia]. }
    pose proof Hinv as (_ & _ & _ & _ & Hlive & _). simpl in Hlive.
    apply wp_bind, wp_zoom. eapply wp_mono; [by apply connection_law, (Forall_lookup_1 _ _ _ _ Hlive Hi)| |done].
    intros [p s'] g' [Hc Hp]. cbn [fst snd].
    apply (listen_inv_globals _ _ _ g') in Hinv; [|done].
    destruct p as [item|]; apply wp_bind, wp_modify; cbn [prod_map fst snd id].
    + apply wp_ret. split; [by eapply listen_inv_remove|].
      split; [by destruct item as [[]|]|]. split; [by apply suffix_cons_r|]. simpl. lia.
    + eapply wp_mono; [apply IH; by apply listen_inv_put| |done].
      intros [p script'] st' (? & ? & ? & ?). split; [done|]. split; [done|].
      split; [by apply suffix_cons_r|]. simpl. lia.
  - apply wp_bind, wp_get, wp_ret. split; [by destruct (_ =? _)%nat|].
    destruct (_ =? _)%nat; simpl; (split; [done|]; split; [by apply suffix_cons_r|lia]).
Qed.

Lemma poll_conns_ok fuel script st :
  admits script -> (length script < fuel)%nat -> listen_inv 0 st ->
  wp (poll_conns fuel script)
    (fun '(r, _) st' => listen_inv 0 st' /\ r <> Ready None) (fun _ _ => False) st.
Proof.
  revert script st. induction fuel as [|fuel IH]; intros script st Hs Hfuel Hinv; [lia|].
  cbn [poll_conns]. apply wp_bind. eapply wp_mono; [by apply fill_conns_ok| |done].
  clear st Hinv. intros s1 st [Hinv Hs1]. apply wp_bind.
  eapply wp_mono; [by apply poll_set_ok| |done]. clear st Hinv.
  intros [p s2] [l g] (Hinv & Hlive & Hs2 & Hlen). apply suffix_length in Hs1 as Hlen1.
  assert (Hadm : admits s2) by (eapply admits_suffix, admits_suffix, Hs; done).
  assert (Hnothing : in_hand p = 0%nat ->
    wp (let! r := nothing_ready (T := T) in m_ret (r, s2))
      (fun '(r, _) st' => listen_inv 0 st' /\ r <> Ready None) (fun _ _ => False) (l, g)).
  { intros E. rewrite E in Hinv. apply wp_bind, wp_bind, wp_get, wp_ret, wp_ret.
    split; [done|]. destruct Hinv as (_ & _ & -> & _). done. }
  destruct p as [[[[[item|err]|] s]|]|]; cbn [in_hand] in *; [..|by apply Hnothing|by apply Hnothing].
  - apply wp_bind, wp_modify, wp_ret. split; [by apply listen_inv_push|done].
  - do 3 apply wp_bind, wp_zoom, wp_modify. cbn [fst snd].
    apply IH; [done|lia|]. eapply listen_inv_close; [apply drop_law|].
    eapply listen_inv_globals, Hinv.
    by rewrite conn_counters_emit_debug_err, conn_counters_increment.
  - apply wp_bind, wp_zoom, wp_modify. cbn [fst snd].
    apply IH; [done|lia|]. eapply listen_inv_close; [apply drop_law|done].
Qed.

(** Polls in a row. *)
Fixpoint poll_all (scripts : list (list (outcome A S T))) :
    LM (A := A) (S := S) (list (Poll (option (T + error)))) :=
  match scripts with
  | [] => m_ret []
  | script :: scripts' =>
      let! '(r, _) := Listen_poll_next script in
      let! rs := poll_all scripts' in
      m_ret (r :: rs)
  end.

Lemma poll_all_ok scripts st :
  Forall admits scripts -> listen_inv 0 st ->
  wp (poll_all scripts) (fun rs st' => listen_inv 0 st' /\ Ready None ∉ rs)
    (fun _ _ => False) st.
Proof.
  revert st. induction scripts as [|script scripts IH]; intros st Hs Hinv; cbn [poll_all].
  { apply wp_ret. split; [done|]. apply not_elem_of_nil. }
  apply Forall_cons in Hs as [Hs1 Hs].
  apply wp_bind. eapply wp_mono; [by apply poll_conns_ok; [|lia|]| |done].
  intros [r s'] st' [Hinv' Hr]. apply wp_bind. eapply wp_mono; [by apply IH| |done].
  intros rs st2 [? ?]. apply wp_ret. split; [done|]. by rewrite not_elem_of_cons.
Qed.
End Laws.

(** ** Turns *)

Section Turns.
Context {A S T : Type} `{Stream A S} `{Stream S (T + error)} `{Drop S}.

Lemma take_drop_middle_removed {B} (l1 l2 : list B) x :
  take (length l1) (l1 ++ x :: l2) ++ drop (1 + length l1) (l1 ++ x :: l2) = l1 ++ l2.
Proof. rewrite take_app_length, Nat.add_comm, <- drop_drop, drop_app_length. done. Qed.

Lemma list_insert_middle {B} (l1 l2 : list B) x y :
  <[length l1 := y]> (l1 ++ x :: l2) = l1 ++ y :: l2.
Proof. by rewrite <- (Nat.add_0_r (length l1)), insert_app_r. Qed.

(** The listener is asked, when there is room, and has no connection to give. *)
Definition filled (ai : poll_input A S) (n limit : nat) (script : list (outcome A S T)) :
    list (outcome A S T) :=
  if (n <? limit)%nat then Accept ai :: script else script.

Lemma fill_conns_filled ai a cs limit (script : list (outcome A S T)) g :
  poll_next ai a g = (Ok (Pending, a), g) ->
  fill_conns (filled ai (length cs) limit script) (mkListen a false cs limit, g)
  = (Ok script, (mkListen a false cs limit, g)).
Proof.
  intros Ha. unfold filled. destruct (length cs <? limit)%nat eqn:E.
  - cbn [fill_conns]. unfold m_bind at 1, m_get. cbn [fst connections max accept_is_done].
    rewrite E. unfold m_bind at 1, with_globals, m_zoom. cbn [fst snd accept_stream].
    by rewrite Ha.
  - destruct script; cbn [fill_conns]; unfold m_bind, m_get; cbn [fst connections max];
      by rewrite E.
Qed.

(** C27: what becomes of a connection whose turn it is, the others being left
    as they are and the listener having no connection to give: an item is
    handed over, and the connection goes to the back; after an error, which is
    counted and logged, and at its end it is dropped and the poll goes on; when
    it has nothing it keeps its place and the poll goes on. *)
Theorem listen_connection_turn (fuel limit : nat) (a : A) (ai : poll_input A S)
    (l1 l2 : list S) (s : S) (i : poll_input S (T + error)) (script : list (outcome A S T))
    (g : Globals) :
  (forall g, poll_next ai a g = (Ok (Pending, a), g)) ->
  let set cs := mkListen a false cs limit in
  let fill n := filled ai n limit in
  let n := length (l1 ++ s :: l2) in
  poll_conns (Datatypes.S fuel) (fill n (Polled (length l1) i :: script)) (set (l1 ++ s :: l2), g) =
  match poll_next i s g with
  | (Ok (Ready (Some (inl item)), s'), g') =>
      (Ok (Ready (Some (inl item)), script), (set ((l1 ++ l2) ++ [s']), g'))
  | (Ok (Ready (Some (inr err)), s'), g') =>
      poll_conns fuel script
        (set (l1 ++ l2),
         drop_glue s' (emit_debug_err err "GELF TCP client failed" (increment GServer "receive_err" g')))
  | (Ok (Ready None, s'), g') => poll_conns fuel script (set (l1 ++ l2), drop_glue s' g')
  | (Ok (Pending, s'), g') =>
      poll_conns (Datatypes.S fuel) (fill n script) (set (l1 ++ s' :: l2), g')
  | (Err e, g') => (Err e, (set (l1 ++ s :: l2), g'))
  | (Panic w, g') => (Panic w, (set (l1 ++ s :: l2), g'))
  end.
Proof.
  intros Ha set fill n. cbn [poll_conns]. unfold m_bind at 1, fill, n, set.
  rewrite fill_conns_filled by done. cbn [poll_set].
  unfold m_bind at 1 2, m_get at 1. cbn [fst connections].
  rewrite list_lookup_middle by done. unfold m_bind at 1, with_globals at 1, m_zoom.
  cbn [fst snd]. destruct (poll_next i s g) as [[[[[[item|err]|]|] s']|e|w] g'];
    unfold with_globals, m_zoom, remove_connection, push_connection, put_connection, on_listen,
      m_modify, m_ret; unfold m_bind; cbn [fst snd prod_map id accept_stream accept_is_done connections max];
    rewrite ?take_drop_middle_removed, ?list_insert_middle; try done.
  assert (Hlen : length (l1 ++ s :: l2) = length (l1 ++ s' :: l2)) by by rewrite !length_app.
  rewrite Hlen. by rewrite fill_conns_filled.
Qed.
End Turns.

(** ** Witnesses *)

Section Witnesses.
(** Streams of numbers, for evaluation: a poll takes the input for its item, a
    missing one for nothing ready, and the count goes up with each item. *)
#[local] Instance numbers_Stream : Stream nat (nat + error) := {|
  poll_input := option (option (nat + error));
  poll_next i n g := (Ok (match i with Some i => Ready i | None => Pending end, n), g)
|}.
#[local] Instance numbers_Drop : Drop nat := {| drop_glue _ := increment GServer "tcp_conn_close" |}.
#[local] Instance no_more_Stream : Stream unit nat := {|
  poll_input := unit;
  poll_next _ a g := (Ok (Pending, a), g)
|}.

(** The second of three connections has an item; the one after it breaks. *)
Lemma listen_connection_turn_witness :
  Listen_poll_next [Accept tt; Polled 1 (Some (Some (inl 7)))]
    (mkListen tt false [1; 2; 3] 5, Globals_initial)
  = (Ok (Ready (Some (inl 7)), []), (mkListen tt false [1; 3; 2] 5, Globals_initial)).
Proof.
  apply (@listen_connection_turn unit nat nat no_more_Stream numbers_Stream numbers_Drop
    2 5 tt tt [1] [3] 2 (Some (Some (inl 7))) [] Globals_initial (fun g => eq_refl)).
Defined.

Lemma listen_failed_turn_example :
  let '(r, st) :=
    Listen_poll_next (A := unit) (T := nat)
      [Accept tt; Polled 0 (Some (Some (inr SystemTimeError))); Accept tt; Idle]
      (mkListen tt false [1; 2] 5, set_min_level 0 Globals_initial) in
  (r, connections st.1, counter_of GServer "receive_err" st.2,
   counter_of GServer "tcp_conn_close" st.2)
  = (Ok (Pending, []), [2], Some 1%Z, Some 1%Z).
Proof. vm_compute. reflexivity. Qed.
End Witnesses.
