(* ===== verification/Interleaving.v ===== *)
(** What [Listen] gives is an interleaving of what its connections give. *)

From S2P Require Import Prelude Diagnostics Received Stream TcpListen ListenThms.

(** [interleaves ls l]: the lists [ls], of which there may be new ones at any
    time, are merged into [l], each in its own order. *)
Inductive interleaves {A} : list (list A) -> list A -> Prop :=
| interleaves_nil : interleaves [] []
| interleaves_new ls l : interleaves ls l -> interleaves (ls ++ [[]]) l
| interleaves_item ls l j xs x :
    interleaves ls l -> ls !! j = Some xs -> interleaves (<[j := xs ++ [x]]> ls) (l ++ [x]).

Lemma concat_insert_snoc {A} (ls : list (list A)) j xs x :
  ls !! j = Some xs -> concat (<[j := xs ++ [x]]> ls) ≡ₚ concat ls ++ [x].
Proof.
  revert j. induction ls as [|l ls IH]; intros [|j] Hj; simplify_eq/=; [solve_Permutation|].
  rewrite (IH j Hj). solve_Permutation.
Qed.

(** Nothing is lost or made up. *)
Lemma interleaves_concat {A} (ls : list (list A)) l : interleaves ls l -> l ≡ₚ concat ls.
Proof.
  induction 1 as [|ls l _ IH|ls l j xs x _ IH Hj]; [done|..].
  - by rewrite concat_app, IH, app_nil_r.
  - by rewrite (concat_insert_snoc ls j xs x Hj), IH.
Qed.

(** ** The ledger of the connections *)

Section Ledger.
Context {A S T : Type} `{Stream A S} `{Stream S (T + error)} `{Drop S}.
Context (a0 : A).

(** A connection: the stream that was accepted, what it has given, and its
    stream now, while it is open. *)
Record entry := mkEntry { accepted : S; given : list (T + error); open : option S }.

(** An open connection has given items only, a closed one perhaps an error at
    last, with which it was dropped. *)
Definition entry_ok (e : entry) : Prop :=
  match open e with
  | Some s => gives (accepted e) (given e) (Some s) /\ exists xs, given e = inl <$> xs
  | None =>
      exists xs, (given e = inl <$> xs /\ gives (accepted e) (given e) None) \/
        exists err s, given e = (inl <$> xs) ++ [inr err] /\ gives (accepted e) (given e) (Some s)
  end.

Definition oks (l : list (T + error)) : list T :=
  omap (fun x => match x with inl x => Some x | inr _ => None end) l.

Lemma oks_app l1 l2 : oks (l1 ++ l2) = oks l1 ++ oks l2.
Proof. apply omap_app. Qed.
Lemma oks_inl xs : oks (inl <$> xs) = xs.
Proof. induction xs as [|x xs IH]; [done|]. cbn. by f_equal. Qed.

(** [ledger ais es xs a conns]: the stream of connections was polled on [ais], and
    is [a], or has ended; what it gave has an entry each, in order; the open
    connections are [conns], in some order, and [xs] has been handed over. *)
Definition ledger (ais : list (poll_input A S)) (es : list entry) (xs : list T) (a : option A)
    (conns : list S) : Prop :=
  polled_on a0 ais (accepted <$> es) a /\ Forall entry_ok es /\ conns ≡ₚ omap open es /\
  interleaves ((fun e => oks (given e)) <$> es) xs.

Lemma ledger_start : ledger [] [] [] (Some a0) [].
Proof.
  split; [apply polled_on_start|]. split; [by apply Forall_nil|]. split; [done|apply interleaves_nil].
Qed.

Lemma ledger_asked ais es xs a conns i g a' g' :
  ledger ais es xs (Some a) conns -> poll_next i a g = (Ok (Pending, a'), g') ->
  ledger (ais ++ [i]) es xs (Some a') conns.
Proof. intros (Ha & ?) E. split; [by eapply polled_on_pending|done]. Qed.

Lemma ledger_accept_end ais es xs a conns i g a' g' :
  ledger ais es xs (Some a) conns -> poll_next i a g = (Ok (Ready None, a'), g') ->
  ledger (ais ++ [i]) es xs None conns.
Proof. intros (Ha & ?) E. split; [by eapply polled_on_end|done]. Qed.

Lemma ledger_accept ais es xs a conns i g s a' g' :
  ledger ais es xs (Some a) conns -> poll_next i a g = (Ok (Ready (Some s), a'), g') ->
  ledger (ais ++ [i]) (es ++ [mkEntry s [] (Some s)]) xs (Some a') (conns ++ [s]).
Proof.
  intros (Ha & Hes & Hc & Hi) E. unfold ledger. rewrite !fmap_app, omap_app. simpl.
  split; [by eapply polled_on_item|]. split.
  { apply Forall_app. split; [done|]. constructor; [|done]. split; [apply gives_start|]. by exists []. }
  split; [by rewrite Hc|]. by apply interleaves_new.
Qed.

(** The entry of an open connection. *)
Lemma ledger_lookup es (s : S) rest :
  s :: rest ≡ₚ omap open es ->
  exists j e, es !! j = Some e /\ open e = Some s /\
    forall e', omap open (<[j := e']> es) ≡ₚ option_list (open e') ++ rest.
Proof.
  revert rest. induction es as [|e es IH]; intros rest Hp.
  { symmetry in Hp. by apply Permutation_nil_cons in Hp. }
  destruct (open e) as [s1|] eqn:Ho; cbn [omap list_omap] in Hp; rewrite Ho in Hp.
  - symmetry in Hp. apply Permutation_cons_inv_r in Hp as (k1 & k2 & E & Hp).
    destruct k1 as [|s2 k1]; injection E as -> E.
    + exists 0%nat, e. split; [done|]. split; [done|]. intros e'. cbn. rewrite Hp, E.
      by destruct (open e').
    + destruct (IH (k1 ++ k2)) as (j & e1 & Hj & Ho1 & Hins).
      { rewrite E. solve_Permutation. }
      exists (Datatypes.S j), e1. split; [done|]. split; [done|]. intros e'. cbn. rewrite Ho.
      rewrite Hins, Hp. solve_Permutation.
  - destruct (IH rest Hp) as (j & e1 & Hj & Ho1 & Hins).
    exists (Datatypes.S j), e1. split; [done|]. split; [done|]. intros e'. cbn. by rewrite Ho.
Qed.

(** A poll of an open connection. *)
Definition after_poll (p : Poll (option (T + error))) (s' : S) : option S :=
  match p with Pending | Ready (Some (inl _)) => Some s' | _ => None end.
Definition handed_over (p : Poll (option (T + error))) : list T :=
  match p with Ready (Some (inl x)) => [x] | _ => [] end.
Definition gave (p : Poll (option (T + error))) : list (T + error) :=
  match p with Ready (Some x) => [x] | _ => [] end.

Lemma entry_polled e s i g p s' g' :
  entry_ok e -> open e = Some s -> poll_next i s g = (Ok (p, s'), g') ->
  entry_ok (mkEntry (accepted e) (given e ++ gave p) (after_poll p s')).
Proof.
  unfold entry_ok. intros He Ho E. rewrite Ho in He. destruct He as [Hg [xs Hxs]]. cbn [accepted given open].
  destruct p as [[[x|err]|]|]; cbn [after_poll gave]; rewrite ?app_nil_r.
  - split; [by eapply gives_item|]. exists (xs ++ [x]). by rewrite Hxs, fmap_app.
  - exists xs. right. exists err, s'. split; [by rewrite Hxs|]. by eapply gives_item.
  - exists xs. left. split; [done|]. by eapply gives_end.
  - split; [by eapply gives_pending|]. by exists xs.
Qed.

Lemma oks_gave p : oks (gave p) = handed_over p.
Proof. by destruct p as [[[]|]|]. Qed.

Lemma ledger_polled ais es xs a s rest i g p s' g' :
  ledger ais es xs a (s :: rest) -> poll_next i s g = (Ok (p, s'), g') ->
  exists es', ledger ais es' (xs ++ handed_over p) a (option_list (after_poll p s') ++ rest).
Proof.
  intros (Ha & Hes & Hc & Hi) E.
  destruct (ledger_lookup es s rest Hc) as (j & e & Hj & Ho & Hins).
  pose proof (Forall_lookup_1 _ _ _ _ Hes Hj) as He.
  pose proof (entry_polled e s i g p s' g' He Ho E) as He'.
  set (e' := mkEntry (accepted e) (given e ++ gave p) (after_poll p s')) in *.
  exists (<[j := e']> es). split; [|split; [|split]].
  - rewrite list_fmap_insert. rewrite list_insert_id; [done|]. rewrite list_lookup_fmap, Hj. done.
  - by apply Forall_insert.
  - by rewrite Hins.
  - rewrite list_fmap_insert. subst e'. cbn [given]. rewrite oks_app, oks_gave.
    assert (Hl : ((fun e => oks (given e)) <$> es) !! j = Some (oks (given e)))
      by by rewrite list_lookup_fmap, Hj.
    destruct p as [[[x|err]|]|]; cbn [handed_over]; rewrite ?app_nil_r;
      [by apply interleaves_item|by rewrite list_insert_id..].
Qed.

Lemma ledger_perm ais es xs a conns conns' :
  conns ≡ₚ conns' -> ledger ais es xs a conns -> ledger ais es xs a conns'.
Proof. intros E (? & ? & ? & ?). split; [done|]. split; [done|]. by rewrite <- E. Qed.

(** *** The set of connections *)

(** The set accounts for its connections, with [held] in hand, [xs] having been
    handed over, and the stream of connections polled on [ais]. *)
Definition accounts (ais : list (poll_input A S)) (xs : list T) (held : list S)
    (st : Listen A S * Globals) : Prop :=
  exists es, ledger ais es xs (if accept_is_done st.1 then None else Some (accept_stream st.1))
               (held ++ connections st.1).

(** What the stream of connections may be polled on. *)
Definition asks (script : list (outcome A S T)) : list (poll_input A S) :=
  omap (fun o => match o with Accept i => Some i | _ => None end) script.

Lemma fill_conns_accounts (script : list (outcome A S T)) ais xs st :
  accounts ais xs [] st ->
  wp (fill_conns script)
    (fun script' st' => exists used, asks script = used ++ asks script' /\
       accounts (ais ++ used) xs [] st')
    (fun _ _ => True) st.
Proof.
  revert ais st. induction script as [|o script IH]; intros ais [l g] [es Hes]; cbn [fill_conns].
  all: assert (Hstay : forall sc, exists used, asks sc = used ++ asks sc /\
    accounts (ais ++ used) xs [] (l, g))
    by (intros sc; exists []; rewrite app_nil_r; by split; [|exists es]).
  all: apply wp_bind, wp_get; cbn [fst]; (destruct (_ <? _)%nat; [|by apply wp_ret, Hstay]).
  all: destruct (accept_is_done l) eqn:Hdone; [by apply wp_ret, Hstay|].
  { by apply wp_ret, Hstay. }
  destruct o as [i| |]; [|by apply wp_ret, Hstay..]. cbn [fst] in Hes. rewrite Hdone in Hes.
  apply wp_bind, wp_zoom. unfold wp at 1. cbn [fst snd].
  destruct (poll_next i (accept_stream l) g) as [[[[[s|]|] a']|e|w] g'] eqn:E; [..|done|done];
    apply wp_bind, wp_modify; cbn [prod_map fst snd id].
  - apply wp_bind, wp_modify. eapply wp_mono; [apply (IH (ais ++ [i]))| |done].
    + eexists. by eapply ledger_accept.
    + intros script' st' (used & Hu & Hacc). exists (i :: used). rewrite <- app_assoc in Hacc.
      split; [change (i :: asks script = i :: used ++ asks script'); by rewrite Hu|done].
  - apply wp_ret. exists [i]. split; [done|]. exists es. by eapply ledger_accept_end.
  - apply wp_ret. exists [i]. split; [done|]. exists es. by eapply ledger_asked.
Qed.

(** What is in hand after a poll of the set. *)
Definition hand (p : Poll (option (option (T + error) * S))) : list S * list T :=
  match p with
  | Ready (Some (item, s)) =>
      (option_list (after_poll (Ready item) s), handed_over (Ready item))
  | _ => ([], [])
  end.

Lemma poll_set_accounts (script : list (outcome A S T)) ais xs st :
  accounts ais xs [] st ->
  wp (poll_set script)
    (fun '(p, script') st' => accounts ais (xs ++ (hand p).2) (hand p).1 st' /\
       asks script' = asks script)
    (fun _ _ => True) st.
Proof.
  revert st. induction script as [|o script IH]; intros [l g] Hacc; cbn [poll_set].
  { apply wp_ret. cbn. by rewrite app_nil_r. }
  destruct o as [ai|i input|]; [apply wp_ret; cbn; by rewrite app_nil_r| |].
  - apply wp_bind, wp_get. cbn [fst].
    destruct (connections l !! i) as [s|] eqn:Hi; [|apply wp_ret; cbn; by rewrite app_nil_r].
    apply wp_bind, wp_zoom. unfold wp at 1. cbn [fst snd].
    destruct (poll_next input s g) as [[[p s']|e|w] g'] eqn:E; [|done..].
    destruct Hacc as [es Hes]. cbn [fst app] in Hes.
    assert (Hrem : connections l ≡ₚ s :: (take i (connections l) ++ drop (1 + i) (connections l))).
    { rewrite <- (take_drop_middle _ _ _ Hi) at 1. solve_Permutation. }
    eapply ledger_perm in Hes; [|exact Hrem].
    destruct (ledger_polled _ _ _ _ _ _ _ _ _ _ _ Hes E) as [es' Hes'].
    destruct p as [item|]; apply wp_bind, wp_modify; cbn [prod_map fst snd id].
    + apply wp_ret. split; [by exists es'|done].
    + apply IH. exists es'. cbn [fst accept_is_done accept_stream connections app].
      cbn [handed_over] in Hes'. rewrite app_nil_r in Hes'. eapply ledger_perm, Hes'. cbn [after_poll option_list app].
      rewrite insert_take_drop by by eapply lookup_lt_Some. solve_Permutation.
  - apply wp_bind, wp_get, wp_ret. destruct (_ =? 0)%nat; cbn; by rewrite app_nil_r.
Qed.

(** What a poll of the set has come to, when [script'] is left of [script]. *)
Definition conns_polled ais (script : list (outcome A S T)) xs (p : Poll (option (T + error)))
    (script' : list (outcome A S T)) (st' : Listen A S * Globals) : Prop :=
  (exists used, asks script = used ++ asks script' /\
     accounts (ais ++ used) (xs ++ handed_over p) [] st') /\
  (forall e, p <> Ready (Some (inr e))).

Lemma poll_conns_accounts fuel (script : list (outcome A S T)) ais xs st :
  accounts ais xs [] st ->
  wp (poll_conns fuel script) (fun '(p, script') st' => conns_polled ais script xs p script' st')
    (fun _ _ => True) st.
Proof.
  revert script ais st. induction fuel as [|fuel IH]; intros script ais st Hacc; [done|].
  cbn [poll_conns]. apply wp_bind.
  eapply wp_mono; [exact (fill_conns_accounts script ais xs st Hacc)| |done].
  clear st Hacc. intros s1 st (used & Hu & Hacc). apply wp_bind.
  eapply wp_mono; [exact (poll_set_accounts s1 (ais ++ used) xs st Hacc)| |done]. clear st Hacc.
  intros [p s2] [l g] [[es Hes] Hs2]. rewrite <- Hs2 in Hu. clear Hs2.
  assert (Hgo : forall st', accounts (ais ++ used) xs [] st' ->
    wp (poll_conns fuel s2) (fun '(p, script') st' => conns_polled ais script xs p script' st')
      (fun _ _ => True) st').
  { intros st' Hacc. eapply wp_mono; [by apply (IH s2 (ais ++ used))| |done].
    intros [p' s3] st2 [(used2 & Hu2 & Hacc') Hne]. split; [|done]. exists (used ++ used2).
    rewrite <- app_assoc in Hacc'. split; [by rewrite Hu, Hu2, app_assoc|done]. }
  assert (Hnothing : hand p = ([], []) ->
    wp (let! r := nothing_ready (T := T) in m_ret (r, s2))
      (fun '(p, script') st' => conns_polled ais script xs p script' st')
      (fun _ _ => True) (l, g)).
  { intros E. rewrite E in Hes. apply wp_bind, wp_bind, wp_get, wp_ret, wp_ret.
    cbn [fst snd] in *. split; [exists used; split; [done|exists es; cbn [fst]]|];
      by destruct (accept_is_done l). }
  destruct p as [[[[[item|err]|] s]|]|]; [..|by apply Hnothing|by apply Hnothing];
    cbn [hand fst snd after_poll handed_over option_list] in Hes.
  - apply wp_bind, wp_modify, wp_ret. split; [|done]. exists used. split; [done|]. exists es.
    eapply ledger_perm, Hes. cbn. solve_Permutation.
  - do 3 apply wp_bind, wp_zoom, wp_modify. apply Hgo. exists es. by rewrite app_nil_r in Hes.
  - apply wp_bind, wp_zoom, wp_modify. apply Hgo. exists es. by rewrite app_nil_r in Hes.
Qed.
End Ledger.

Section Gives.
Context {A S T : Type} `{Stream A S} `{Stream S (T + error)} `{Drop S}.

(** What a poll of the set polls the stream of connections on: its input but for
    what is left of it. *)
Definition asked (p : poll (Listen A S) (T + error)) : list (poll_input A S) :=
  let '(script, l, g) := p in
  match (Listen_poll_next script (l, g)).1 with
  | Ok (_, rest) => take (length (asks script) - length (asks rest)) (asks script)
  | _ => []
  end.

(** What the set gives: items only, and they account for its connections, which
    the stream of connections gave, in order, when the set polled it. *)
Lemma listen_polled (a0 : A) (n : nat) polls (items : list (T + error))
    (o : option (Listen A S)) :
  polled (listen a0 n) polls items o ->
  exists xs es a conns, items = inl <$> xs /\ ledger a0 (concat (asked <$> polls)) es xs a conns /\
    forall l, o = Some l -> connections l = conns.
Proof.
  intros Hg.
  enough (exists xs, items = inl <$> xs /\
    exists es a conns, ledger a0 (concat (asked <$> polls)) es xs a conns /\
    forall l, o = Some l -> connections l = conns /\
    a = if accept_is_done l then None else Some (accept_stream l))
    as (xs & ? & es & a & conns & ? & Hl).
  { exists xs, es, a, conns. do 2 (split; [done|]). intros l E. by apply Hl. }
  induction Hg as [|polls items l i g l' g' _ IH E|polls items l i g x l' g' _ IH E
    |polls items l i g l' g' _ IH E].
  { exists []. split; [done|]. exists [], (Some a0), []. split; [apply ledger_start|].
    intros l [= <-]. done. }
  all: destruct IH as (xs & -> & es & a & conns & Hes & Hl);
    destruct (Hl l eq_refl) as [<- ->].
  all: pose proof (poll_conns_accounts a0 (Datatypes.S (length i)) i _ xs (l, g)
    (ex_intro _ es Hes)) as Hp; unfold wp in Hp; fold (Listen_poll_next i) in Hp.
  all: assert (Ha : concat (asked <$> polls ++ [(i, l, g)]) =
    concat (asked <$> polls) ++ asked (i, l, g))
    by (rewrite fmap_app, concat_app; cbn; by rewrite app_nil_r).
  all: rewrite Ha; cbn [asked]; clear Ha; cbn [poll_next Listen_Stream] in E.
  all: destruct (Listen_poll_next i (l, g)) as [[[p rest]|e|w] [l2 g2]]; [|done..]; simplify_eq/=.
  all: destruct Hp as [(used & Hu & es' & Hes') Hne]; cbn in Hes'; rewrite ?app_nil_r in Hes'.
  all: rewrite Hu, length_app, Nat.add_sub, take_app_length.
  - exists xs. split; [done|]. eexists es', _, _. split; [done|]. by intros ? [= <-].
  - destruct x as [x|e]; [|by destruct (Hne e)].
    exists (xs ++ [x]). split; [by rewrite fmap_app|].
    eexists es', _, _. split; [done|]. by intros ? [= <-].
  - exists xs. split; [done|]. by eexists es', _, _.
Qed.
End Gives.
