(* ===== verification/Listener.v ===== *)
(** The connections of the server under the laws of [ListenThms]: the limit on
    their number, their account in the counters, timeouts and handshakes. *)

From S2P Require Import Prelude Diagnostics Io Message Received Stream Framed.
From S2P Require Import TcpDecode TcpFraming Connection TcpListen ListenThms.

(** A closure that leaves the counters of connections alone. *)
Class ReceiverCounters (R : Type) `{Receiver R} := {
  receive_counters bs r :
    conn_counters (globals_of (receive bs r).2) = conn_counters (globals_of r)
}.

(** ** The decoder under [FramedRead] *)

Section Keeps.
Context {So D Item : Type} `{AsyncRead So} `{Decoder D Item}.
Context (dinv : D -> Prop).

Definition keeps {X} (m : M D X) : Prop := forall d, dinv d ->
  match m d with (Panic _, _) => False | (_, d') => dinv d' end.

Context (Hdecode : keeps decoder_decode) (Heof : keeps decoder_decode_eof)
  (Hextend : forall b d, dinv d -> dinv (buffer_extend b d)).

Lemma framed_polls_keeps inputs (fr : FramedRead So D) r fr' :
  framed_polls inputs fr r fr' -> fr_phase fr <> Finished -> dinv (fr_decoder fr) ->
  match r with
  | Ok p => dinv (fr_decoder fr') /\
      match p with Ready (Some (inr _)) | Ready None => True | _ => fr_phase fr' <> Finished end
  | Err _ | Panic _ => False
  end.
Proof.
  induction 1; intros Hlive Hd; cbn [fr_phase fr_decoder] in *; try done;
    try (by apply IHframed_polls; [|apply Hextend]); try (by apply IHframed_polls);
    try (by pose proof (Hdecode _ Hd) as Hd'; rewrite H1 in Hd');
    try (by pose proof (Heof _ Hd) as Hd'; rewrite H1 in Hd').
  pose proof (Hdecode _ Hd) as Hd'; rewrite H1 in Hd'. by apply IHframed_polls.
Qed.
End Keeps.

Section Decoding.
Context {R : Type} `{ReceiverCounters R} `{!ReceiverSteady R} `{BytesApi}.
Context (limit : Z) (Hlimit : (0 <= limit <= usize_max)%Z).

Definition tcp_wf (st : TcpState R) : Prop :=
  exists rh d r buf, st = tcp limit rh d r buf /\ (rh <= length buf)%nat /\ no_nul (take rh buf) /\
    steady r.

(** A decoder that is well formed, with the counters at [c]. *)
Definition tcp_at c (st : TcpState R) : Prop :=
  tcp_wf st /\ conn_counters (globals_of st) = c.

Lemma conn_counters_bumps k (r : R) :
  conn_counters (globals_of (bumps k r)) = conn_counters (globals_of r).
Proof.
  induction k as [|k IH]; [done|]. change (bumps (S k) r) with (bump (bumps k r)).
  unfold bump. by rewrite globals_of_on, conn_counters_increment.
Qed.

Lemma steady_bumps k (r : R) : steady r -> steady (bumps k r).
Proof. intros Hr. induction k as [|k IH]; [done|]. by apply steady_on. Qed.

Lemma call_receive_keeps c bs : keeps (tcp_at c) (call_receive bs).
Proof.
  intros st [(rh & d & r & buf & -> & Hrh & Hn & Hs) Hc]. unfold call_receive.
  cbn [tcp tcp_dec tcp_src receive_state max_size_bytes read_head discarding].
  pose proof (receive_counters bs r) as Hr. pose proof (receive_steady bs r Hs) as [Hp Hs'].
  destruct (receive bs r) as [x r'] eqn:Er. simpl in Hr, Hc, Hp, Hs'.
  assert (Ht : tcp_at c (tcp limit rh d r' buf)).
  { split; [by exists rh, d, r', buf|]. simpl. congruence. }
  by destruct x as [[]|e|w].
Qed.

Lemma tcp_decode_keeps c : keeps (tcp_at c) tcp_decode.
Proof.
  intros st [(rh & d & r & buf & -> & Hrh & Hn & Hs) Hc].
  destruct (tcp_decode_decoded limit Hlimit rh d r buf Hrh Hn) as [k f rest Ha Hf Hfits|k d' rest].
  - pose proof (receive_steady f _ (steady_bumps k r Hs)) as [Hp Hs'].
    assert (Ht : tcp_at c (tcp limit 0 false (receive f (bumps k r)).2 rest)).
    { split; [exists 0%nat, false, (receive f (bumps k r)).2, rest|].
      - split; [done|]. split; [simpl; lia|]. split; [apply not_elem_of_nil|exact Hs'].
      - simpl. rewrite receive_counters, conn_counters_bumps. exact Hc. }
    by destruct (receive f (bumps k r)).1 as [[]|e|w].
  - split; [|simpl; by rewrite conn_counters_bumps]. eexists _, d', _, rest.
    split; [done|]. split; [done|]. rewrite firstn_all. split; [done|by apply steady_bumps].
Qed.

Lemma tcp_decode_eof_keeps c : keeps (tcp_at c) tcp_decode_eof.
Proof.
  intros st Hst. unfold tcp_decode_eof, m_bind at 1. pose proof (tcp_decode_keeps c st Hst) as Hd.
  destruct (tcp_decode st) as [[[frame|]|e|w] st1]; [done| |done..].
  unfold m_bind at 1, m_get. destruct (_ =? 0)%nat; [done|].
  destruct Hd as [(rh & d & r & buf & -> & _ & _ & Hs) Hc].
  unfold m_bind at 1, on_src, m_zoom. cbn [tcp tcp_src]. rewrite split_to_ok by done.
  unfold m_bind, set_read_head, m_modify. apply call_receive_keeps.
  split; [|exact Hc]. exists 0%nat, d, r, (drop (length buf) buf). split; [done|].
  split; [lia|]. split; [apply not_elem_of_nil|done].
Qed.

Lemma feed_keeps c bs st : tcp_at c st -> tcp_at c (feed bs st).
Proof.
  intros [(rh & d & r & buf & -> & Hrh & Hn & Hs) Hc]. split; [|done].
  exists rh, d, r, (buf ++ bs). split; [done|]. split; [rewrite length_app; lia|].
  by rewrite take_app_le.
Qed.
End Decoding.

(** ** The connections of the server *)

Section Connections.
Context `{Timeouts} {R Raw Tls Addr : Type} `{ReceiverCounters R}
  `{!ReceiverSteady R} `{BytesApi} `{AsyncRead Raw} `{AsyncRead Tls} `{!FramedReadApi (Conn Raw Tls) (TcpState R) Received}.
Context (keep_alive : Duration) (max_size_bytes : Z) (tls : bool) (receive_clone : Raw -> R).
Context (Hmax : (0 <= max_size_bytes <= usize_max)%Z)
  (Hsteady : forall raw, steady (receive_clone raw)).

Abbreviation Framed := (FramedRead (Conn Raw Tls) (TcpState R)).
Abbreviation Protocol := (TimeoutStream Framed).

(** A connection that may be polled. *)
Definition live_framed (fr : Framed) : Prop :=
  fr_phase fr <> Finished /\ tcp_wf max_size_bytes (fr_decoder fr).
Definition live (t : Protocol) : Prop := live_framed (stream t).

Lemma framed_poll_law i (fr : Framed) g :
  live_framed fr ->
  wp (poll_next i fr)
    (fun '(p, fr') g' => conn_counters g' = conn_counters g /\
       match p with Ready (Some (inr _)) | Ready None => True | _ => live_framed fr' end)
    (fun _ _ => False) g.
Proof.
  intros [Hph Hwf]. unfold wp. cbn [poll_next FramedRead_Stream]. unfold share.
  pose proof (FramedRead_poll_next_spec i (with_statics g fr)) as Hp.
  destruct (FramedRead_poll_next i (with_statics g fr)) as [r fr'].
  eapply (framed_polls_keeps (tcp_at max_size_bytes (conn_counters g))) in Hp.
  - destruct r as [p|e|w]; [|done|done]. simpl. destruct Hp as [[Hwf' Hc] Hph'].
    split; [exact Hc|]. destruct p as [[[x|e]|]|]; try done; by split.
  - by apply tcp_decode_keeps.
  - by apply tcp_decode_eof_keeps.
  - intros b d. apply feed_keeps.
  - done.
  - destruct Hwf as (rh & d & r0 & buf & E & ? & ? & ?). split.
    + exists rh, d, (with_statics g r0), buf. split; [simpl; by rewrite E|].
      split; [done|]. split; [done|by apply steady_on].
    + simpl. by rewrite globals_of_on.
Qed.

Lemma live_new (conn : Conn Raw Tls) r :
  steady r -> live_framed (FramedRead_new conn (mkTcp (Decode_new max_size_bytes r) [])).
Proof.
  intros Hr. split; [done|]. exists 0%nat, false, r, []. split; [done|]. split; [done|].
  split; [apply not_elem_of_nil|done].
Qed.

(** A connection that is accepted. *)
Lemma accept_protocol_spec now (conn : Conn Raw Tls) (r : R) g :
  accept_protocol keep_alive max_size_bytes now conn r g =
  (Ok (Some (mkTimeoutStream keep_alive (timeout_deadline now keep_alive)
               (FramedRead_new conn (mkTcp (Decode_new max_size_bytes r) [])))),
   increment GServer "tcp_conn_accept" g).
Proof. done. Qed.

(** What the polls of the listener and of a handshake come to: nothing yet, or
    a connection. *)
Lemma incoming_poll_law now evs (inc : FilterMap Raw) g :
  wp (incoming_poll (Addr := Addr) keep_alive max_size_bytes tls receive_clone now evs inc)
    (fun '(p, _) g' =>
       match p with
       | Ready (Some s) => live s /\ conn_counters g' = conn_counters (increment GServer "tcp_conn_accept" g)
       | Ready None => False
       | Pending => conn_counters g' = conn_counters g
       end) (fun _ _ => False) g.
Proof.
  revert inc. induction evs as [|ev evs IH]; intros [h]; cbn [incoming_poll handshake];
    [by apply wp_ret|].
  destruct h as [raw|], ev as [[[[conn addr]|err]|]|[[conn|err]|]]; cbn [TcpIncoming_poll_next];
    try (by apply wp_ret); try apply IH.
  - apply wp_bind. unfold wp at 1, accept_tls. rewrite accept_protocol_spec. apply wp_ret.
    split; [by apply live_new|done].
  - destruct tls; [apply IH|].
    apply wp_bind. unfold wp at 1, accept. rewrite accept_protocol_spec. apply wp_ret.
    split; [by apply live_new|done].
  - destruct tls; apply IH.
Qed.

#[local] Instance incoming_Stream : Stream (FilterMap Raw) Protocol :=
  FilterMap_Stream (Addr := Addr) keep_alive max_size_bytes tls receive_clone.

#[local] Instance connections_laws :
  ListenLaws (FilterMap Raw) Protocol Received (fun _ => True) (fun _ => True) True
    live.
Proof.
  constructor.
  - intros [now evs] inc g _ _. eapply wp_mono; [apply incoming_poll_law| |done].
    intros [[[s|]|] inc'] g'; simpl; tauto.
  - intros [now fired i] t g Hlive. cbn [poll_next TimeoutStream_Stream].
    unfold TimeoutStream_poll_next. apply wp_bind.
    eapply wp_mono; [by apply framed_poll_law| |done].
    intros [[[[x|e]|]|] fr] g' [Hc Hl]; try (by apply wp_ret).
    destruct (has_elapsed _ t); [|by apply wp_ret].
    apply wp_bind, wp_modify, wp_ret. by rewrite conn_counters_increment.
  - done.
Qed.

(** A set that may be polled, whatever the statics. *)
Definition listen_ok (l : Listen (FilterMap Raw) Protocol) : Prop :=
  forall g, listen_inv (live := live) (ainv := fun _ => True) (may_open := True)
    False 1024 0 0 0 (DIAGNOSTICS g) 0 (l, g).

Lemma listen_ok_build : listen_ok tcp_build.
Proof.
  intros g. split; [done|]. split; [simpl; lia|]. do 4 (split; [done|]).
  exists 0%nat, 0%nat. split; [done|]. split; [done|by left].
Qed.

Lemma listen_poll_total script (l : Listen (FilterMap Raw) Protocol) g :
  listen_ok l ->
  wp (poll_next (S := Listen (FilterMap Raw) Protocol) (Item := Received + error) script l)
    (fun '(p, l') g' => listen_ok l' /\ p <> Ready None /\ DIAGNOSTICS g' = DIAGNOSTICS g)
    (fun _ _ => False) g.
Proof.
  intros Hl. cbn [poll_next Listen_Stream]. unfold wp, Listen_poll_next.
  assert (Hadm : admits (admitted := fun _ => True) script) by (apply Forall_true; by intros []).
  pose proof (poll_conns_ok False 1024 0 0 0 (DIAGNOSTICS g) (Datatypes.S (length script)) script
    (l, g) Hadm
    ltac:(lia) (Hl g)) as Hp.
  unfold wp in Hp. destruct (poll_conns _ script (l, g)) as [[[p rest]|e|w] [l' g']]; [|done..].
  destruct Hp as [(? & ? & ? & ? & ? & Hd & a & b & _ & ?) Hne]. split; [|by split].
  intros g''. do 6 (split; [done|]). by exists a, b.
Qed.

(** The counters of connections count, and stand at [opened] and [closed]. *)
Definition counting (opened closed : Z) (g : Globals) : Prop :=
  MinLevel_includes LDebug g = true /\
  counter_of GServer "tcp_conn_accept" g = Some opened /\ (0 <= opened < u64_modulus)%Z /\
  counter_of GServer "tcp_conn_close" g = Some closed /\ (0 <= closed < u64_modulus)%Z.

Lemma counting_counters opened closed g :
  counting opened closed g ->
  conn_counters g =
    (true, DIAGNOSTICS g, Some (count_up 0 opened), Some (count_up 0 closed)).
Proof.
  intros (Hd & Ha & ? & Hb & ?). unfold conn_counters. by rewrite !count_up_0, Hd, Ha, Hb.
Qed.

(** C13: whatever the connections and the listener do, there are never more
    than 1024 connections, the stream the server loop reads does not end, and,
    [receive] being steady, no poll panics, with diagnostics on or off; when they
    are on, as many more connections have been counted as accepted than as closed
    as are open. *)
Theorem listen_bounded (g : Globals)
    (scripts : list (list (outcome (FilterMap Raw) Protocol Received))) :
  match poll_all scripts (tcp_build, g) with
  | (Ok rs, (l, g')) =>
      (length (connections l) <= 1024)%nat /\ (Ready None ∉ rs) /\
      forall opened closed, counting opened closed g ->
        exists a b,
          counter_of GServer "tcp_conn_accept" g' = Some (count_up a opened) /\
          counter_of GServer "tcp_conn_close" g' = Some (count_up b closed) /\
          a = (b + length (connections l))%nat
  | (Err _, _) | (Panic _, _) => False
  end.
Proof.
  assert (Hok : forall opened closed, wp (poll_all scripts)
    (fun rs st => listen_inv (live := live) (ainv := fun _ => True) (may_open := True)
       (counting opened closed g) 1024 0 opened closed (DIAGNOSTICS g) 0 st /\ (Ready None ∉ rs))
    (fun _ _ => False) (tcp_build, g)).
  { intros opened closed. apply poll_all_ok.
    - apply Forall_true; intros script; apply Forall_true; by intros [].
    - do 2 (split; [simpl; lia|]). do 4 (split; [done|]). exists 0%nat, 0%nat.
      split; [apply counting_counters|]. split; [done|by left]. }
  unfold wp in Hok. destruct (poll_all scripts (tcp_build, g)) as [[rs|e|w] [l g']];
    [|by eapply (Hok 0%Z 0%Z)..].
  split; [|split; [by apply (Hok 0%Z 0%Z)|]].
  { destruct (Hok 0%Z 0%Z) as [(_ & Hlen & _) _]. exact Hlen. }
  intros opened closed Hc. destruct (Hok opened closed) as [(_ & _ & _ & _ & _ & _ & Hacc) _].
  destruct Hacc as (a & b & Hcount & Hab & _). specialize (Hcount Hc).
  unfold conn_counters in Hcount. injection Hcount as _ _ Hca Hcb.
  exists a, b. split; [exact Hca|]. split; [exact Hcb|]. simpl in Hab. lia.
Qed.

(** ** A handshake that does not complete *)

(** The inputs in which the handshake makes no progress. *)
Definition stalled (i : Instant * list (incoming_event Raw Tls Addr)) : Prop :=
  match i.2 with Handshake (Ready _) :: _ => False | _ => True end.

#[local] Instance stalled_laws raw :
  ListenLaws (FilterMap Raw) Protocol Received (fun inc => inc = mkFilterMap (Some raw)) stalled
    False live.
Proof.
  constructor; [|apply connections_laws..].
  intros [now evs] inc g -> Hst. cbn [poll_next incoming_Stream FilterMap_Stream fst snd].
  by destruct evs as [|[p|[conn|]] evs]; [..|done|]; cbn [incoming_poll handshake]; try apply wp_ret.
Qed.

(** C40: while a TLS handshake does not complete, which nothing bounds, no
    connection is accepted, whatever the listener has, with diagnostics on or off:
    the connections there were are served, and when they close none takes their
    place; the handshake is still awaited. When diagnostics are on, the counter of
    accepted connections stands still. *)
Theorem stalled_handshake_blocks (g : Globals) (raw : Raw)
    (conns : list Protocol) (scripts : list (list (outcome (FilterMap Raw) Protocol Received))) :
  Forall live conns -> (length conns <= 1024)%nat ->
  Forall (Forall (fun o => match o with Accept i => stalled i | _ => True end)) scripts ->
  match poll_all scripts (mkListen (mkFilterMap (Some raw)) false conns 1024, g) with
  | (Ok rs, (l, g')) =>
      accept_stream l = mkFilterMap (Some raw) /\
      (length (connections l) <= length conns)%nat /\ (Ready None ∉ rs) /\
      forall opened closed, counting opened closed g ->
        counter_of GServer "tcp_conn_accept" g' = Some opened
  | (Err _, _) | (Panic _, _) => False
  end.
Proof.
  intros Hlive Hlen Hst.
  assert (Hok : forall opened closed, wp (poll_all scripts)
    (fun rs st => listen_inv (live := live) (ainv := fun inc => inc = mkFilterMap (Some raw))
       (may_open := False) (counting opened closed g) 1024 (length conns) opened closed
       (DIAGNOSTICS g) 0 st /\ (Ready None ∉ rs))
    (fun _ _ => False) (mkListen (mkFilterMap (Some raw)) false conns 1024, g)).
  { intros opened closed. apply (poll_all_ok (ListenLaws0 := stalled_laws raw)); [done|].
    do 2 (split; [simpl; lia|]). do 4 (split; [done|]). exists 0%nat, 0%nat.
    split; [apply counting_counters|]. split; [simpl; lia|by left]. }
  unfold wp in Hok. destruct (poll_all scripts _) as [[rs|e|w] [l g']];
    [|by eapply (Hok 0%Z 0%Z)..].
  destruct (Hok 0%Z 0%Z) as [(_ & _ & _ & Hinc & _ & _ & a & b & _ & Hab & Ha) Hrs].
  split; [exact Hinc|]. split; [destruct Ha as [->|[]]; simpl in Hab; lia|]. split; [exact Hrs|].
  intros opened closed Hc. destruct (Hok opened closed) as [(_ & _ & _ & _ & _ & _ & Hacc) _].
  destruct Hacc as (a' & b' & Hcount & _ & [->|[]]). specialize (Hcount Hc).
  destruct Hc as (_ & _ & Hr & _). unfold conn_counters in Hcount.
  rewrite count_up_0 in Hcount by done. by injection Hcount.
Qed.
End Connections.

(** ** Timeouts *)

Section Timeouts.
Context `{Timeouts} {S T : Type} `{Stream S T}.

(** Polls of a connection until one ends it, with the moment it last gave an
    item, or was accepted. *)
Fixpoint timed_polls (inputs : list (timeout_input S T)) (since : Instant)
    (t : TimeoutStream S) : M Globals (Instant * TimeoutStream S) :=
  match inputs with
  | [] => m_ret (since, t)
  | i :: inputs' =>
      let! '(p, t') := TimeoutStream_poll_next i t in
      match p with
      | Ready (Some _) => timed_polls inputs' (now i) t'
      | Pending => timed_polls inputs' since t'
      | Ready None => m_throw (External "ended" [])
      end
  end.

Lemma timed_polls_deadline inputs since t g since' t' g' :
  deadline t = timeout_deadline since (keep_alive t) ->
  timed_polls inputs since t g = (Ok (since', t'), g') ->
  keep_alive t' = keep_alive t /\ deadline t' = timeout_deadline since' (keep_alive t).
Proof.
  revert since t g. induction inputs as [|i inputs IH]; intros since t g Hd; cbn [timed_polls].
  { by intros [= <- <- _]. }
  unfold m_bind at 1, TimeoutStream_poll_next, m_bind at 1.
  destruct (poll_next (inner_input i) (stream t) g) as [[[[item|] s]|e|w] g1]; [| |done..].
  - unfold m_ret. destruct item; [|done]. intros E. by apply IH in E.
  - destruct (has_elapsed i t); [done|]. unfold m_ret. intros E. by apply IH in E.
Qed.

(** C26: a connection is ended by its timeout only when it has nothing to give
    and [keep_alive] has passed since it last gave an item, or was accepted:
    what a client sends does not count, only items do. An item is handed
    over however late it is, and then the time starts again. *)
Theorem connection_timeout (ka : Duration) (accepted since : Instant) (s : S)
    (inputs : list (timeout_input S T)) (i : timeout_input S T) (t : TimeoutStream S)
    (g0 g1 g : Globals) :
  (let! t0 := TimeoutStream_new accepted s ka in timed_polls inputs accepted t0) g0
    = (Ok (since, t), g1) ->
  (since + ka <= instant_max)%Z ->
  let '(r, g') := TimeoutStream_poll_next i t g in
  match poll_next (inner_input i) (stream t) g with
  | (Ok (Ready item, s'), g2) =>
      r = Ok (Ready item, mkTimeoutStream ka (timeout_deadline (now i) ka) s') /\ g' = g2
  | (Ok (Pending, s'), g2) =>
      let t' := mkTimeoutStream ka (since + ka)%Z s' in
      if fired i && (since + ka <=? now i)%Z
      then r = Ok (Ready None, t') /\ g' = increment GServer "tcp_conn_timeout" g2
      else r = Ok (Pending, t') /\ g' = g2
  | (Err e, g2) => r = Err e /\ g' = g2
  | (Panic w, g2) => r = Panic w /\ g' = g2
  end.
Proof.
  unfold m_bind at 1, TimeoutStream_new, m_bind at 1, m_modify, m_ret. intros Hp Hmax.
  apply timed_polls_deadline in Hp as [Hka Hdl]; [|done]. cbn [keep_alive] in *.
  rewrite timeout_deadline_spec in Hdl by done.
  unfold TimeoutStream_poll_next, m_bind at 1, has_elapsed.
  rewrite Hka, Hdl.
  destruct (poll_next (inner_input i) (stream t) g) as [[[[item|] s']|e|w] g2]; [done| |done..].
  by destruct (fired i && _).
Qed.
End Timeouts.

(** ** Witnesses *)

Section Witnesses.
#[local] Existing Instances bytes_model timeouts_model.
Definition framed_sockets : FramedReadApi (Conn Socket Socket) (TcpState Recorder) Received :=
  framed_model.
#[local] Existing Instance framed_sockets.
#[export] Instance Recorder_ReceiverCounters : ReceiverCounters Recorder.
Proof. done. Qed.
#[export, refine] Instance Recorder_ReceiverSteady : ReceiverSteady Recorder := {|
  steady _ := True
|}.
Proof. all: done. Defined.

Abbreviation SampleFramed := (FramedRead (Conn Socket Socket) (TcpState Recorder)).
Abbreviation Sample := (TimeoutStream SampleFramed).
Definition sample_receive (_ : Socket) : Recorder := recorder.
Definition sample_connection : Stream Sample (Received + error) := TimeoutStream_Stream.
#[local] Existing Instance sample_connection.

(** A server, with TLS or without. *)
Definition sample_incoming (tls : bool) : Stream (FilterMap Socket) Sample :=
  FilterMap_Stream (Addr := unit) 60%Z 16%Z tls sample_receive.
Definition sample_outcome (tls : bool) : Type :=
  @outcome (FilterMap Socket) Sample Received (sample_incoming tls) sample_connection.

Definition accepts (tls : bool) (evs : list (incoming_event Socket Socket unit)) : sample_outcome tls :=
  @Accept _ _ _ (sample_incoming tls) sample_connection (0%Z, evs).
(** The connection is polled at [t], [n] bytes having arrived. *)
Definition reads (n : nat) : list (read_input (Conn Socket Socket)) := [(Arrived n, Arrived n)].
Definition arrives (tls : bool) (i n : nat) (t : Z) : sample_outcome tls :=
  @Polled _ _ _ (sample_incoming tls) sample_connection i
    (@mkTimeoutInput SampleFramed _ _ t false (reads n)).
(** ... or none, and its timer has fired. *)
Definition silent (tls : bool) (i : nat) (t : Z) : sample_outcome tls :=
  @Polled _ _ _ (sample_incoming tls) sample_connection i
    (@mkTimeoutInput SampleFramed _ _ t true []).

Definition globals_debug : Globals := set_min_level 0 Globals_initial.
Definition peer : Socket := mkSocket [Byte.x61; Byte.x00; Byte.x62].

(** Two connections are accepted; the first gives a message, the other nothing
    until its timeout. *)
Definition sample_scripts : list (list (sample_outcome false)) :=
  let new := accepts false [Listener (Ready (inl (peer, tt)))] in
  [[new; new; accepts false []; arrives false 0 1 5];
   [accepts false []; silent false 0 61; accepts false []; Idle]].

(** The results of the polls, and the timeouts that were counted. *)
Definition sample_run (tls : bool) (scripts : list (list (sample_outcome tls)))
    (l : Listen (FilterMap Socket) Sample) : option (nat * option Z) :=
  match poll_all scripts (l, globals_debug) with
  | (Ok rs, (_, g)) => Some (length rs, counter_of GServer "tcp_conn_timeout" g)
  | _ => None
  end.

Lemma counting_debug : counting 0 0 globals_debug.
Proof. by repeat split. Qed.

Lemma listen_bounded_witness :
  sample_run false sample_scripts tcp_build = Some (2%nat, Some 1%Z) /\
  match poll_all sample_scripts (tcp_build, globals_debug) with
  | (Ok rs, (l, g)) =>
      (length (connections l) <= 1024)%nat /\
      exists a b, counter_of GServer "tcp_conn_accept" g = Some (count_up a 0) /\
        counter_of GServer "tcp_conn_close" g = Some (count_up b 0) /\
        a = (b + length (connections l))%nat
  | _ => False
  end.
Proof.
  assert (Hmax : (0 <= 16 <= usize_max)%Z) by done.
  assert (E : sample_run false sample_scripts tcp_build = Some (2%nat, Some 1%Z))
    by (vm_compute; reflexivity).
  split; [exact E|]. clear E.
  pose proof (listen_bounded (Raw := Socket) (Tls := Socket) (Addr := unit) 60%Z 16%Z false
    sample_receive Hmax (fun _ => I) globals_debug sample_scripts) as Hb.
  set (rst := poll_all _ _) in Hb |- *. destruct rst as [[rs|e|w] [l g]]; [|exact Hb..].
  destruct Hb as (Hlen & _ & Hc). split; [exact Hlen|]. apply Hc, counting_debug.
Defined.

(** A TLS handshake hangs while the listener has another connection; the
    connection that was open ends. *)
Definition stalled_scripts : list (list (sample_outcome true)) :=
  [[accepts true [Handshake Pending; Listener (Ready (inl (peer, tt)))]; silent true 0 61;
    accepts true [Listener (Ready (inl (peer, tt)))]; Idle]].
Definition open_connection : Sample :=
  mkTimeoutStream 60%Z 60%Z
    (FramedRead_new (PlainConn peer) (mkTcp (Decode_new 16 recorder) [])).
Definition stalled_listen : Listen (FilterMap Socket) Sample :=
  mkListen (mkFilterMap (Some peer)) false [open_connection] 1024.

Lemma stalled_handshake_blocks_witness :
  sample_run true stalled_scripts stalled_listen = Some (1%nat, Some 1%Z) /\
  match poll_all stalled_scripts (stalled_listen, globals_debug) with
  | (Ok rs, (l, g)) =>
      accept_stream l = mkFilterMap (Some peer) /\ (length (connections l) <= 1)%nat /\
      counter_of GServer "tcp_conn_accept" g = Some 0%Z
  | _ => False
  end.
Proof.
  assert (Hmax : (0 <= 16 <= usize_max)%Z) by done.
  assert (E : sample_run true stalled_scripts stalled_listen = Some (1%nat, Some 1%Z))
    by (vm_compute; reflexivity).
  split; [exact E|]. clear E.
  pose proof (stalled_handshake_blocks (Raw := Socket) (Tls := Socket) (Addr := unit) 60%Z 16%Z
    true sample_receive Hmax (fun _ => I) globals_debug peer [open_connection] stalled_scripts)
    as Hb.
  set (rst := poll_all _ _) in Hb |- *.
  assert (Hb' : match rst with
    | (Ok rs, (l, g)) =>
        accept_stream l = mkFilterMap (Some peer) /\ (length (connections l) <= 1)%nat /\
        (Ready None ∉ rs) /\ forall opened closed, counting opened closed globals_debug ->
          counter_of GServer "tcp_conn_accept" g = Some opened
    | _ => False
    end).
  { destruct rst as [[rs|e|w] [l g]]; (apply Hb;
      [constructor; [by apply live_new|constructor]|simpl; lia|repeat constructor]). }
  destruct rst as [[rs|e|w] [l g]]; [|exact Hb'..].
  destruct Hb' as (Ha & Hlen & _ & Hc). split; [exact Ha|]. split; [exact Hlen|].
  eapply Hc, counting_debug.
Defined.

(** Accepted at 0 and silent at 59, a connection has its timeout at 60. *)
Lemma connection_timeout_witness :
  let g := increment GServer "tcp_conn_accept" Globals_initial in
  let t := mkTimeoutStream 60%Z 60%Z (with_statics g (stream open_connection)) in
  (TimeoutStream_poll_next (S := SampleFramed) (@mkTimeoutInput SampleFramed (Received + error) _ 60%Z true []) t g).1
    = Ok (Ready None, t).
Proof.
  intros g t.
  pose proof (connection_timeout (S := SampleFramed) 60%Z 0%Z 0%Z (stream open_connection)
    [@mkTimeoutInput SampleFramed (Received + error) _ 59%Z true []]
    (@mkTimeoutInput SampleFramed (Received + error) _ 60%Z true []) t
    Globals_initial g g eq_refl
    ltac:(done)) as Ht.
  destruct (TimeoutStream_poll_next (S := SampleFramed) _ t g) as [r g'].
  destruct Ht as [Hr _]. exact Hr.
Defined.
End Witnesses.
