(* ===== verification/Pipeline.v ===== *)
(** From the sockets to what the main loop is handed: the connections are
    accepted, framed, timed and merged, and each gives what the receiver makes
    of the frames its peer sent. *)

From S2P Require Import Prelude Diagnostics Io Message Received Stream Framed.
From S2P Require Import TcpDecode TcpFraming Connection TcpListen ListenThms Interleaving Listener.

(** ** A timeout *)

Section Timeout.
Context `{Timeouts} {S T : Type} `{Stream S T}.

(** A stream under a timeout gives what the stream gives; when it has ended, the
    stream has, or a poll of the stream has found nothing. *)
Lemma timeout_gives (t0 : TimeoutStream S) (items : list T) o :
  gives t0 items o ->
  match o with
  | Some t => gives (stream t0) items (Some (stream t))
  | None => gives (stream t0) items None \/
      exists s i g s' g', gives (stream t0) items (Some s) /\
        poll_next i s g = (Ok (Pending, s'), g')
  end.
Proof.
  intros [polls Hp]. induction Hp as [|polls items t i g t' g' _ IH E
    |polls items t i g x t' g' _ IH E|polls items t i g t' g' _ IH E]; [apply gives_start|..].
  all: cbn [poll_next TimeoutStream_Stream] in E; unfold TimeoutStream_poll_next, m_bind at 1 in E.
  all: destruct (poll_next (inner_input i) (stream t) g) as [[[[item|] s']|e|w] g1] eqn:Ep; [| |done..].
  all: try match type of E with context [has_elapsed ?a ?b] => destruct (has_elapsed a b) end;
    unfold m_bind, m_modify, m_ret in E; simplify_eq/=.
  - by eapply gives_pending.
  - by eapply gives_item.
  - left. by eapply gives_end.
  - right. exists (stream t), (inner_input i), g, s', g1. by split.
Qed.
End Timeout.

Section Pipeline.
Context `{Timeouts} {R Raw Tls Addr : Type} `{ReceiverStatics R} `{BytesApi}
  `{AsyncReadSpec Raw} `{AsyncReadSpec Tls} `{!FramedReadApi (Conn Raw Tls) (TcpState R) Received}.
Context (keep_alive : Duration) (max_size_bytes : Z) (tls : bool) (receive_clone : Raw -> R).
Context (Hmax : (0 <= max_size_bytes <= usize_max)%Z).

Abbreviation Framed := (FramedRead (Conn Raw Tls) (TcpState R)).
Abbreviation Protocol := (TimeoutStream Framed).

#[local] Instance incoming_Stream : Stream (FilterMap Raw) Protocol :=
  FilterMap_Stream (Addr := Addr) keep_alive max_size_bytes tls receive_clone.

(** ** What is accepted *)

(** What the listener gives, and what it and the handshakes give that a
    connection is made of. *)
Definition listened (evs : list (incoming_event Raw Tls Addr)) : list Raw :=
  omap (fun ev => match ev with Listener (Ready (inl (conn, _))) => Some conn | _ => None end) evs.
Definition sockets (evs : list (incoming_event Raw Tls Addr)) : list (Conn Raw Tls) :=
  omap (fun ev =>
    match ev with
    | Listener (Ready (inl (conn, _))) => if tls then None else Some (PlainConn conn)
    | Handshake (Ready (inl conn)) => if tls then Some (TlsConn (QuietClose_new conn)) else None
    | _ => None
    end) evs.

(** What the stream of connections is polled on has these events. *)
Definition incoming_events (ais : list (Instant * list (incoming_event Raw Tls Addr))) :=
  concat (snd <$> ais).

Lemma incoming_events_snoc ais i : incoming_events (ais ++ [i]) = incoming_events ais ++ i.2.
Proof. unfold incoming_events. by rewrite fmap_app, concat_app; cbn; rewrite app_nil_r. Qed.

(** A new connection, with its receiver: over TLS exactly when the server has a
    certificate, and then after a handshake with one of [raws]. *)
Definition new_connection (raws : list Raw) (c : Conn Raw Tls * R) (t : Protocol) : Prop :=
  match c.1 with
  | PlainConn raw => tls = false /\ raw ∈ raws /\ c.2 = receive_clone raw
  | TlsConn _ => tls = true /\ exists raw, raw ∈ raws /\ c.2 = receive_clone raw
  end /\
  stream t = FramedRead_new c.1 (mkTcp (Decode_new max_size_bytes c.2) []).

(** The handshake that is awaited is with one of [raws]. *)
Definition handshake_ok (raws : list Raw) (inc : FilterMap Raw) : Prop :=
  forall raw, handshake inc = Some raw -> tls = true /\ raw ∈ raws.

Lemma incoming_poll_new now evs (inc : FilterMap Raw) raws socks g :
  listened evs ⊆ raws -> sockets evs ⊆ socks -> handshake_ok raws inc ->
  wp (incoming_poll (Addr := Addr) (Tls := Tls) keep_alive max_size_bytes tls receive_clone now evs inc)
    (fun '(p, inc') _ => handshake_ok raws inc' /\
       match p with
       | Ready (Some t) => exists c, c.1 ∈ socks /\ new_connection raws c t
       | _ => True
       end)
    (fun _ _ => True) g.
Proof.
  intros Hr Hs. revert inc. induction evs as [|ev evs IH]; intros [h] Hh;
    cbn [incoming_poll handshake]; [by apply wp_ret|].
  assert (Hevs : listened evs ⊆ raws /\ sockets evs ⊆ socks).
  { split; (etrans; [apply omap_cons_subseteq|eassumption]). }
  specialize (IH (proj1 Hevs) (proj2 Hevs)).
  destruct h as [raw|], ev as [[[[conn addr]|err]|]|[[conn|err]|]]; cbn [TcpIncoming_poll_next];
    try (by apply wp_ret); try (by apply IH).
  - apply wp_bind. unfold wp at 1, accept_tls. rewrite accept_protocol_spec. apply wp_ret.
    destruct (Hh raw eq_refl) as [Htls Hraw]. split; [by intros ? [=]|].
    exists (TlsConn (QuietClose_new conn), receive_clone raw). split; [|by split; [split; [|exists raw]|]].
    apply Hs. cbn. rewrite Htls. by left.
  - destruct tls eqn:Htls in IH |- *; [apply IH; intros ? [= <-]; split; [done|apply Hr; by left]|].
    apply wp_bind. unfold wp at 1, accept. rewrite accept_protocol_spec. apply wp_ret.
    split; [done|]. exists (PlainConn conn, receive_clone conn).
    split; [apply Hs; cbn; rewrite Htls; by left|].
    split; [|done]. split; [done|]. split; [apply Hr; by left|done].
  - destruct tls; by apply IH.
Qed.

(** What the stream of connections gives: each connection was offered. *)
Lemma incoming_polled ais streams o raws :
  polled_on (mkFilterMap None) ais streams o -> listened (incoming_events ais) ⊆ raws ->
  exists cs, Forall2 (new_connection raws) cs streams /\
    cs.*1 `sublist_of` sockets (incoming_events ais) /\
    forall inc, o = Some inc -> handshake_ok raws inc.
Proof.
  intros (polls & -> & Hp). induction Hp as [|polls items s i g s' g' _ IH E
    |polls items s i g x s' g' _ IH E|polls items s i g s' g' _ IH E]; intros Hr.
  { exists []. split; [done|]. split; [done|]. by intros inc [= <-] ? [=]. }
  all: rewrite fmap_app in Hr |- *; cbn [fmap list_fmap fst] in Hr |- *.
  all: rewrite incoming_events_snoc in Hr |- *; unfold listened, sockets in *; rewrite !omap_app in *.
  all: destruct IH as (cs & Hcs & Hsub & Hh); [set_solver|].
  all: eapply wp_ok in E; [|by eapply (incoming_poll_new _ _ _ raws (sockets i.2));
    [set_solver|done|by apply Hh]].
  all: destruct E as [Hh' Hx].
  - exists cs. split; [done|]. split; [by apply sublist_inserts_r|]. by intros ? [= <-].
  - destruct Hx as (c & Hc & Hn). exists (cs ++ [c]). split; [by apply Forall2_app; [|constructor]|].
    split; [|by intros ? [= <-]]. rewrite fmap_app. by apply sublist_snoc_elem.
  - exists cs. split; [done|]. split; [by apply sublist_inserts_r|done].
Qed.

(** ** What is handed over *)

(** The bytes [I] of the text [sent] of its peer were read by a connection, whose
    decoder has handed over the frames [D] of them; when it is closed, that is all
    of them, but for an unterminated last one if it did not come to the end of the
    text. [open] is the connection now, when it is not closed. *)
Definition attended (c : Conn Raw Tls * R) (sent I : Bytes) (D : list Bytes)
    (open : option Protocol) : Prop :=
  match open with
  | Some t => conn_at max_size_bytes c.2 sent I D (stream t) /\ fr_phase (stream t) <> Finished
  | None => I `prefix_of` sent /\
      (D = Framing.frames max_size_bytes I \/ D = Framing.frames_eof max_size_bytes I)
  end.

Lemma attended_prefix c sent I D open :
  attended c sent I D open ->
  I `prefix_of` sent /\ D `prefix_of` Framing.frames_eof max_size_bytes I.
Proof.
  destruct open as [t|].
  - intros [[(c' & -> & _) Hd] _]. split; [by exists c'|by eapply decoder_at_prefix].
  - intros [HI [->| ->]]; (split; [done|]); [by apply prefix_app_r|done].
Qed.

(** What a connection has given: the results of [receive], called in order on
    the frames of what was read of the text that its peer sends. *)
Definition serves (c : Conn Raw Tls * R) (e : entry (S := Protocol) (T := Received)) : Prop :=
  forall sent, delivers c.1 sent -> exists I D, attended c sent I D (open e) /\
    ((fun y => Ok (Some y)) <$> oks (given e)) = (receive_all D c.2).1.

Lemma items_of_oks r D err given :
  items_of r D err given -> ((fun y => Ok (Some y)) <$> oks given) = (receive_all D r).1.
Proof.
  intros (xs & <- & ->). rewrite oks_app, oks_inl. by destruct err; rewrite app_nil_r.
Qed.

Lemma items_of_inl r D err xs :
  items_of r D err (inl <$> xs) -> err = None.
Proof.
  destruct err as [e|]; [|done]. intros (ys & _ & E).
  assert (He : inr e ∈ inl (B := error) <$> xs) by (rewrite E; set_solver).
  apply list_elem_of_fmap in He as (? & ? & _). done.
Qed.

Lemma connection_serves raws c (e : entry (S := Protocol) (T := Received)) :
  new_connection raws c (accepted e) -> entry_ok e -> serves c e.
Proof.
  destruct c as [conn r]. intros [_ Ht] He sent Hsent. cbn [fst snd] in *.
  pose proof (gives_conn max_size_bytes Hmax r conn sent (given e)) as Hconn.
  rewrite <- Ht in Hconn. unfold entry_ok in He. unfold attended.
  destruct (open e) as [t|].
  - destruct He as [Hg%timeout_gives [xs Hxs]].
    destruct (Hconn _ Hsent Hg) as (I & D & err & Hat & Hi & _ & Hfin).
    exists I, D. split; [done|by eapply items_of_oks].
  - destruct He as (xs & [[Hxs [Hg|(s & i & g & s' & g' & Hg & Ep)]%timeout_gives]
      |(err & s & Hxs & Hg%timeout_gives)]).
    + destruct (Hconn _ Hsent Hg) as (I & D & err & HI & _ & Hi & Hend).
      exists I, D. split; [|by eapply items_of_oks]. split; [done|]. right. apply Hend.
      rewrite Hxs in Hi. by eapply items_of_inl.
    + rewrite Ht in Hg.
      destruct (pending_all max_size_bytes Hmax r conn sent (given e) s s' i g g' Hsent Hg Ep)
        as (I & [(c' & -> & _) _] & _ & Hi). exists I, (Framing.frames max_size_bytes I).
      split; [split; [by exists c'|by left]|by eapply items_of_oks].
    + destruct (Hconn _ Hsent Hg) as (I & D & err' & [(c' & -> & _) Hd] & Hi & Herr & _).
      exists I, D. split; [|by eapply items_of_oks]. split; [by exists c'|]. left.
      unfold decoder_at in Hd. destruct (fr_phase (stream s)) eqn:Hph; try apply Hd.
      all: assert (err' = None) as -> by (apply Herr; congruence); destruct Hi as (ys & _ & E).
      all: assert (He : inr err ∈ inl (B := error) <$> ys)
        by (rewrite Hxs, app_nil_r in E; rewrite <- E; set_solver).
      all: apply list_elem_of_fmap in He as (? & ? & _); done.
Qed.

(** What the main loop is handed over TCP, the stream of connections having been
    polled on [ais]: an interleaving of what the connections give that it gave,
    each of which was accepted, as configured, on a socket of its own among those
    that were offered, and serves it. The open ones are [conns]. *)
Definition accounted (ais : list (Instant * list (incoming_event Raw Tls Addr)))
    (xs : list Received) (conns : list Protocol) : Prop :=
  exists (cs : list (Conn Raw Tls * R)) es a,
    polled_on (mkFilterMap None) ais (accepted <$> es) a /\
    Forall2 (fun c e => new_connection (listened (incoming_events ais)) c (accepted e)) cs es /\
    cs.*1 `sublist_of` sockets (incoming_events ais) /\
    Forall2 serves cs es /\
    interleaves ((fun e => oks (given e)) <$> es) xs /\
    conns ≡ₚ omap open es.

(** What the stream of connections is polled on in polls of the set. *)
Definition asked_for (polls : list (poll (Listen (FilterMap Raw) Protocol) (Received + error))) :
    list (Instant * list (incoming_event Raw Tls Addr)) :=
  concat (fmap (M := list) (asked (A := FilterMap Raw) (S := Protocol) (T := Received)) polls).

(** So it is, whatever the listener, the sockets, the timers and the other users
    of the statics do; and no error of a connection gets through. *)
Lemma tcp_hands_over (polls : list (poll (Listen (FilterMap Raw) Protocol) (Received + error)))
    (items : list (Received + error))
    (o : option (Listen (FilterMap Raw) Protocol)) :
  polled (S := Listen (FilterMap Raw) Protocol) tcp_build polls items o ->
  exists xs conns, items = inl <$> xs /\ accounted (asked_for polls) xs conns /\
    forall l, o = Some l -> connections l = conns.
Proof.
  intros (xs & es & a & conns & -> & (Ha & Hes & Hc & Hi) & Hl)%listen_polled.
  exists xs, conns. split; [done|]. split; [|done]. set (ais := asked_for polls).
  change (polled_on (mkFilterMap None) ais (accepted <$> es) a) in Ha.
  destruct (incoming_polled ais _ a (listened (incoming_events ais)) Ha ltac:(reflexivity))
    as (cs & Hcs & Hsocks & _).
  rewrite Forall2_fmap_r in Hcs. exists cs, es, a. split; [done|]. split; [exact Hcs|].
  split; [done|]. split; [|by split].
  apply Forall2_flip. eapply Forall2_impl_Forall_l; [by apply Forall2_flip in Hcs|exact Hes|].
  intros e c He Hn. by eapply connection_serves.
Qed.
End Pipeline.
