(* ===== verification/UdpListen.v ===== *)
(** The UDP server as a stream ([sqelf/src/server/udp.rs]): the datagrams of a
    socket through the decoder, under [tokio_util]'s [UdpFramed], and what the
    stream gives of what arrives. *)

From S2P Require Import Prelude Diagnostics Io Message Received Stream Framed TcpFraming.
From S2P Require Import Connection ListenThms Interleaving Listener.

(** ** The socket *)

(** [UdpSocket::poll_recv_from]: a datagram and where it is from. *)
Class UdpRecv (So Addr : Type) := {
  recv_input : Type;
  poll_recv_from : recv_input -> So -> Poll ((Bytes * Addr) + io_error) * So
}.
Arguments recv_input So Addr {_}.

(** The contract of a socket: [arrives so ds] holds of one at which no more than
    the datagrams [ds] will have arrived, in order. *)
Class UdpRecvSpec (So Addr : Type) `{UdpRecv So Addr} := {
  arrives : So -> list Bytes -> Prop;
  poll_recv_from_spec i so ds : arrives so ds ->
    match poll_recv_from i so with
    | (Ready (inl (b, _)), so') => exists ds', ds = b :: ds' /\ arrives so' ds'
    | (_, so') => arrives so' ds
    end
}.

(** ** The decoder *)

Section Decoder.
Context {R : Type} `{Receiver R} `{BytesApi}.

(** [impl Decoder for Decode], with the [decode_eof] it inherits: "This method
    defaults to calling decode and returns an error if Ok(None) is returned
    while there is unconsumed data in buf." *)
Definition udp_decode_eof : M (UdpState R) (option Received) :=
  let! frame := udp_decode in
  match frame with
  | Some frame => m_ret (Some frame)
  | None =>
      let! st := m_get in
      if decide (udp_src st = []) then m_ret None
      else m_throw (External "bytes remaining on stream" [])
  end.

#[export] Instance UdpState_Decoder : Decoder (UdpState R) Received := {|
  decoder_decode := udp_decode;
  decoder_decode_eof := udp_decode_eof;
  buffer_extend b st := mkUdp (udp_src st ++ b) (udp_receive st)
|}.

#[export, refine] Instance UdpState_Statics : Statics (UdpState R) := {|
  globals_of st := globals_of (udp_receive st);
  on_globals f st := mkUdp (udp_src st) (on_globals f (udp_receive st))
|}.
Proof.
  - intros f st. apply globals_of_on.
  - intros f f' st E. simpl. by rewrite (on_globals_ext f f' _ E).
  - intros []. simpl. by rewrite on_globals_id.
  - intros f f' st. simpl. by rewrite on_globals_comp.
Defined.

(** The decoder takes a datagram whole. *)
Lemma udp_decode_eof_eq src r :
  udp_decode_eof (mkUdp src r) =
    if decide (src = []) then (Ok None, mkUdp [] r)
    else (into_received (receive src r).1, mkUdp [] (receive src r).2).
Proof.
  unfold udp_decode_eof, m_bind, udp_decode. cbn [udp_src udp_receive].
  rewrite split_to_ok by done. rewrite firstn_all, skipn_all.
  destruct (Nat.eqb_spec (length src) 0) as [Hz|Hn].
  - apply nil_length_inv in Hz as ->. done.
  - rewrite decide_False by (intros ->; done).
    destruct (receive src r) as [[[msg|]|e|w] r']; done.
Qed.
End Decoder.

(** ** [UdpFramed] *)

Section UdpFramed.
Context {So Addr D Item : Type} `{UdpRecv So Addr} `{Decoder D Item}.

(** [uf_readable]: the buffer may hold a frame of the last datagram. *)
Record UdpFramed := mkUdpFramed { uf_socket : So; uf_decoder : D; uf_readable : bool }.

Definition UdpFramed_new (so : So) (d : D) : UdpFramed := mkUdpFramed so d false.

(** "A unified Stream and Sink interface to an underlying UdpSocket, using the
    Encoder and Decoder traits to encode and decode frames": the frames of a
    datagram are what [decode_eof] gives of it, and then the next is received. An
    error of the socket does not end the stream.

    [udp_polls inputs fr r fr']: a poll of [fr] during which the socket finds
    [inputs], in order, returns [r] and leaves [fr']. *)
Inductive udp_polls : list (recv_input So Addr) -> UdpFramed ->
    res (Poll (option ((Item * option Addr) + error))) -> UdpFramed -> Prop :=
| udp_not_ready so d :
    udp_polls [] (mkUdpFramed so d false) (Ok Pending) (mkUdpFramed so d false)
| udp_pending i inputs so so' d :
    poll_recv_from i so = (Pending, so') ->
    udp_polls (i :: inputs) (mkUdpFramed so d false) (Ok Pending) (mkUdpFramed so' d false)
| udp_datagram i inputs so so' b addr d r fr' :
    poll_recv_from i so = (Ready (inl (b, addr)), so') ->
    udp_polls inputs (mkUdpFramed so' (buffer_extend b d) true) r fr' ->
    udp_polls (i :: inputs) (mkUdpFramed so d false) r fr'
| udp_io_error i inputs so so' e d :
    poll_recv_from i so = (Ready (inr e), so') ->
    udp_polls (i :: inputs) (mkUdpFramed so d false)
      (Ok (Ready (Some (inr (from_io_error e))))) (mkUdpFramed so' d false)
| udp_frame inputs so d d' x addr :
    decoder_decode_eof d = (Ok (Some x), d') ->
    udp_polls inputs (mkUdpFramed so d true)
      (Ok (Ready (Some (inl (x, addr))))) (mkUdpFramed so d' true)
| udp_more inputs so d d' r fr' :
    decoder_decode_eof d = (Ok None, d') ->
    udp_polls inputs (mkUdpFramed so d' false) r fr' ->
    udp_polls inputs (mkUdpFramed so d true) r fr'
| udp_error inputs so d d' e :
    decoder_decode_eof d = (Err e, d') ->
    udp_polls inputs (mkUdpFramed so d true)
      (Ok (Ready (Some (inr e)))) (mkUdpFramed so d' true)
| udp_panic inputs so d d' w :
    decoder_decode_eof d = (Panic w, d') ->
    udp_polls inputs (mkUdpFramed so d true) (Panic w) (mkUdpFramed so d' true).
End UdpFramed.
Arguments UdpFramed : clear implicits.

(** [impl Stream for UdpFramed]. *)
Class UdpFramedApi (So Addr D Item : Type) `{UdpRecv So Addr} `{Decoder D Item} := {
  UdpFramed_poll_next :
    list (recv_input So Addr) ->
    M (UdpFramed So D) (Poll (option ((Item * option Addr) + error)));
  UdpFramed_poll_next_spec inputs fr :
    let '(r, fr') := UdpFramed_poll_next inputs fr in udp_polls inputs fr r fr'
}.

(** ** The stream of the server *)

Section Build.
Context {So Addr D Item : Type} `{UdpFramedApi So Addr D Item} `{Statics D}.

#[export, refine] Instance UdpFramed_Statics : Statics (UdpFramed So D) := {|
  globals_of fr := globals_of (uf_decoder fr);
  on_globals f fr := mkUdpFramed (uf_socket fr) (on_globals f (uf_decoder fr)) (uf_readable fr)
|}.
Proof.
  - intros f fr. apply globals_of_on.
  - intros f f' fr E. simpl. by rewrite (on_globals_ext f f' _ E).
  - intros []. simpl. by rewrite on_globals_id.
  - intros f f' fr. simpl. by rewrite on_globals_comp.
Defined.

(** [.map(|r| r.map(|(msg, _)| msg))]. *)
Definition without_addr (item : (Item * option Addr) + error) : Item + error :=
  match item with inl (msg, _) => inl msg | inr e => inr e end.

Definition Poll_map {A B} (f : A -> B) (p : Poll (option A)) : Poll (option B) :=
  match p with Ready item => Ready (f <$> item) | Pending => Pending end.

#[export] Instance udp_Stream : Stream (UdpFramed So D) (Item + error) := {|
  poll_input := list (recv_input So Addr);
  poll_next inputs fr :=
    share (let! p := UdpFramed_poll_next inputs in m_ret (Poll_map without_addr p)) fr
|}.
End Build.

(** [Server::build], on the socket that was bound. *)
Definition udp_build {So R : Type} (so : So) (receive : R) : UdpFramed So (UdpState R) :=
  UdpFramed_new so (mkUdp [] receive).

(** ** What the stream gives *)

Section Gives.
Context {R So Addr : Type} `{ReceiverStatics R} `{!ReceiverSteady R} `{BytesApi}
  `{UdpRecvSpec So Addr} `{!UdpFramedApi So Addr (UdpState R) Received}.
Context (r0 : R).

Abbreviation udp := (UdpFramed So (UdpState R)).

(** The datagrams that are messages: all but the empty ones. *)
Definition messages (ds : list Bytes) : list Bytes := filter (fun d => d <> []) ds.

(** What the receiver makes of them. *)
Definition results (ds : list Bytes) : list (res (option Received)) :=
  (receive_all (messages ds) r0).1.

(** A stream that has taken [got] from its socket, which will have [rest], and
    has handed over what [receive] makes of it. *)
Definition udp_at (ds got : list Bytes) (fr : udp) : Prop :=
  exists rest, ds = got ++ rest /\ arrives (uf_socket fr) rest /\
    udp_src (uf_decoder fr) = [] /\
    same_state (udp_receive (uf_decoder fr)) (receive_all (messages got) r0).2.

Lemma udp_at_with_statics ds got fr g : udp_at ds got fr -> udp_at ds got (with_statics g fr).
Proof.
  intros (rest & -> & Hr & Hs & Hst). exists rest. split; [done|]. split; [done|].
  split; [done|].
  change (udp_receive (uf_decoder (with_statics g fr)))
    with (with_statics g (udp_receive (uf_decoder fr))).
  by rewrite same_state_with.
Qed.

Lemma messages_snoc_empty got : messages (got ++ [[]]) = messages got.
Proof.
  unfold messages. rewrite filter_app, filter_cons_False by (intros Hn; by apply Hn).
  apply app_nil_r.
Qed.

Lemma messages_snoc got d : d <> [] -> messages (got ++ [d]) = messages got ++ [d].
Proof. intros Hd. unfold messages. by rewrite filter_app, filter_cons_True. Qed.

(** A step of a poll that takes datagrams: nothing is given for empty ones. *)
Definition udp_polled (ds got : list Bytes)
    (r : res (Poll (option ((Received * option Addr) + error)))) (fr' : udp) : Prop :=
  match r with
  | Ok Pending | Ok (Ready (Some (inr _))) =>
      exists got', udp_at ds got' fr' /\ messages got' = messages got
  | Ok (Ready (Some (inl (x, _)))) =>
      exists got' d, udp_at ds got' fr' /\ messages got' = messages got ++ [d] /\
        into_received (receive d (receive_all (messages got) r0).2).1 = Ok (Some x)
  | Ok (Ready None) | Err _ => False
  | Panic _ => ~ steady r0
  end.

Lemma udp_polled_messages ds got got' r fr' :
  messages got = messages got' -> udp_polled ds got r fr' -> udp_polled ds got' r fr'.
Proof. intros E. unfold udp_polled. by rewrite E. Qed.

Lemma into_received_panic (x : res (option Message)) w : into_received x = Panic w -> x = Panic w.
Proof. destruct x as [[]| |]; simpl; congruence. Qed.

(** A stream whose buffer holds a datagram that it has just taken. *)
Lemma udp_polls_full inputs ds got d so rest r1 r fr' :
  (forall inputs' fr got, inputs' = inputs -> udp_at ds got fr -> uf_readable fr = false ->
     udp_polls inputs' fr r fr' -> udp_polled ds got r fr') ->
  ds = got ++ d :: rest -> arrives so rest ->
  same_state r1 (receive_all (messages got) r0).2 ->
  udp_polls inputs (mkUdpFramed so (mkUdp d r1) true) r fr' ->
  udp_polled ds got r fr'.
Proof.
  intros IH Hds Hr Hst Hp.
  assert (Hat : forall r', same_state r' (receive_all (messages (got ++ [d])) r0).2 ->
    forall b, udp_at ds (got ++ [d]) (mkUdpFramed so (mkUdp [] r') b)).
  { intros r' Hr' b. exists rest. rewrite <- app_assoc. done. }
  inversion Hp as [| | | |? ? ? d' x addr Ed|? ? ? d' ? ? Ed Hp'|? ? ? d' e Ed|? ? ? d' w Ed];
    subst; cbn [decoder_decode_eof UdpState_Decoder] in Ed; rewrite udp_decode_eof_eq in Ed;
    destruct (decide (d = [])) as [->|Hd]; try done; simplify_eq.
  - destruct (receive_statics d r1 _ Hst) as [Er Es].
    exists (got ++ [d]), d. split; [apply Hat|]; rewrite messages_snoc by done.
    + by rewrite receive_all_snoc.
    + split; [done|]. by rewrite <- Er.
  - eapply udp_polled_messages; [apply messages_snoc_empty|].
    eapply IH; [done|apply Hat|done|exact Hp']. by rewrite messages_snoc_empty.
  - by destruct (receive d r1) as [[[msg|]|e|w] r2].
  - by destruct (receive d r1) as [[[msg|]|e'|w] r2].
  - intros Hr0. destruct (receive_steady d r1) as [Hn _].
    { eapply steady_state; [by symmetry|]. by apply receive_all_steady. }
    match goal with E : into_received _ = Panic w |- _ => apply into_received_panic in E end.
    by destruct (receive d r1).1.
Qed.

Lemma udp_polls_empty inputs ds fr got r fr' :
  udp_at ds got fr -> uf_readable fr = false -> udp_polls inputs fr r fr' ->
  udp_polled ds got r fr'.
Proof.
  revert fr got. induction inputs as [|i inputs IH]; intros [so [src r1] b] got
    (rest & Hds & Hr & Hs & Hst) Hb Hp; cbn [uf_socket uf_decoder uf_readable udp_src udp_receive] in *;
    subst src b.
  { inversion Hp; subst. exists got. split; [|done]. by exists rest. }
  inversion Hp as [|? ? ? so' d Er|? ? ? so' b addr d ? ? Er Hp'|? ? ? so' e d Er| | | |]; subst;
    pose proof (poll_recv_from_spec i so rest Hr) as Hspec; rewrite Er in Hspec.
  - exists got. split; [|done]. by exists rest.
  - destruct Hspec as (rest' & -> & Hr').
    eapply udp_polls_full; [|reflexivity|exact Hr'|exact Hst|exact Hp'].
    intros ? fr got1 -> Hat Hb Hp1. by eapply IH.
  - exists got. split; [|done]. by exists rest.
Qed.

(** A poll hands over the next message of what has arrived, or the error of the
    socket, and keeps nothing back; it does not panic if
    [receive] does not. *)
Lemma udp_polls_at inputs ds fr got r fr' :
  udp_at ds got fr -> udp_polls inputs fr r fr' -> udp_polled ds got r fr'.
Proof.
  intros Hat Hp. destruct (uf_readable fr) eqn:Hb; [|by eapply udp_polls_empty].
  pose proof Hat as (rest & Hds & Hr & Hs & Hst).
  destruct fr as [so [src r1] b]. cbn [uf_socket uf_decoder uf_readable udp_src udp_receive] in *.
  subst src b.
  inversion Hp as [| | | |? ? ? d' x addr Ed|? ? ? d' ? ? Ed Hp'|? ? ? d' e Ed|? ? ? d' w Ed];
    subst; cbn [decoder_decode_eof UdpState_Decoder] in Ed; rewrite udp_decode_eof_eq in Ed;
    rewrite decide_True in Ed by done; simplify_eq.
  eapply udp_polls_empty; [| |exact Hp']; [by exists rest|done].
Qed.

(** What the stream may have given: what [receive] makes of the datagrams that
    were taken from the socket, all of them, and errors of the socket. *)
Definition udp_given (ds : list Bytes) (items : list (Received + error)) (fr : udp) : Prop :=
  exists got, udp_at ds got fr /\ ((fun x => Ok (Some x)) <$> oks items) = results got.

Lemma udp_at_new so ds : arrives so ds -> udp_at ds [] (udp_build so r0).
Proof. intros Ha. by exists ds. Qed.

Lemma udp_poll_given ds items fr i g x fr' g' :
  udp_given ds items fr -> poll_next i fr g = (Ok (x, fr'), g') ->
  match x with
  | Pending => udp_given ds items fr'
  | Ready (Some item) => udp_given ds (items ++ [item]) fr'
  | Ready None => False
  end.
Proof.
  intros (got & Hat & Hi) E%share_ok. unfold m_bind, m_ret in E.
  pose proof (UdpFramed_poll_next_spec i (with_statics g fr)) as Hp.
  destruct (UdpFramed_poll_next i (with_statics g fr)) as [[p|e|w] fr1]; [|done..].
  injection E as <- <-. apply (udp_polls_at _ ds _ got) in Hp; [|by apply udp_at_with_statics].
  unfold udp_given, results in *. destruct p as [[[[msg addr]|e]|]|]; simpl in Hp |- *.
  - destruct Hp as (got' & d & Hat' & Hm & Hx). exists got'. split; [done|].
    by rewrite oks_app, fmap_app, Hi, Hm, receive_all_snoc, Hx.
  - destruct Hp as (got' & Hat' & Hm). exists got'. split; [done|].
    by rewrite oks_app, app_nil_r, Hi, Hm.
  - done.
  - destruct Hp as (got' & Hat' & Hm). exists got'. split; [done|]. by rewrite Hi, Hm.
Qed.

Lemma udp_gives so ds items o :
  arrives so ds -> gives (udp_build so r0) items o ->
  exists fr, o = Some fr /\ udp_given ds items fr.
Proof.
  intros Ha [polls Hp]. induction Hp as [|polls items fr i g fr' g' _ IH E
    |polls items fr i g x fr' g' _ IH E|polls items fr i g fr' g' _ IH E].
  { eexists. split; [done|]. exists []. split; [by apply udp_at_new|done]. }
  all: destruct IH as (? & [= <-] & Hg); apply (udp_poll_given ds items _ _ _ _ _ _ Hg) in E.
  - by exists fr'.
  - by exists fr'.
  - done.
Qed.

(** A poll does not end the stream, and does not panic. *)
Lemma udp_poll_total ds items fr i g :
  steady r0 -> udp_given ds items fr ->
  match (poll_next i fr g).1 with
  | Ok (p, fr') => (exists items', udp_given ds items' fr') /\ p <> Ready None
  | Err _ | Panic _ => False
  end.
Proof.
  intros Hr0 Hg. destruct (poll_next i fr g) as [r g'] eqn:E. destruct r as [[p fr']|e|w]; cbn [fst].
  { apply (udp_poll_given ds items _ _ _ _ _ _ Hg) in E.
    destruct p as [[item|]|]; [by eauto|done|by eauto]. }
  all: destruct Hg as (got & Hat & _); revert E; cbn [poll_next udp_Stream]; unfold share.
  all: unfold m_bind, m_ret; pose proof (UdpFramed_poll_next_spec i (with_statics g fr)) as Hp.
  all: destruct (UdpFramed_poll_next i (with_statics g fr)) as [[p|e'|w'] fr1]; try done.
  all: apply (udp_polls_at _ ds _ got) in Hp; [|by apply udp_at_with_statics]; simpl in Hp; done.
Qed.
End Gives.

(** ** What the stream does to the statics *)

Section Counters.
Context {R So Addr : Type} `{ReceiverCounters R} `{BytesApi} `{UdpRecv So Addr}
  `{!UdpFramedApi So Addr (UdpState R) Received}.

Lemma udp_decode_eof_counters (st : UdpState R) :
  conn_counters (globals_of (udp_decode_eof st).2) = conn_counters (globals_of st).
Proof.
  destruct st as [src r]. rewrite udp_decode_eof_eq.
  destruct (decide (src = [])) as [->|]; [done|]. exact (receive_counters src r).
Qed.

Lemma udp_polls_counters inputs (fr : UdpFramed So (UdpState R)) r fr' :
  udp_polls (Addr := Addr) inputs fr r fr' ->
  conn_counters (globals_of fr') = conn_counters (globals_of fr).
Proof.
  induction 1 as [| | | |inputs so d d' x addr E|inputs so d d' r fr' E _ IH|inputs so d d' e E
    |inputs so d d' w E]; try done.
  2: rewrite IH.
  all: pose proof (udp_decode_eof_counters d) as Hc; cbn in E; rewrite E in Hc; exact Hc.
Qed.

(** A poll leaves the life cycle of the diagnostics alone. *)
Lemma udp_poll_diagnostics i (fr : UdpFramed So (UdpState R)) g :
  DIAGNOSTICS (poll_next i fr g).2 = DIAGNOSTICS g.
Proof.
  cbn [poll_next udp_Stream]. unfold share, m_bind, m_ret.
  pose proof (UdpFramed_poll_next_spec i (with_statics g fr)) as Hp.
  destruct (UdpFramed_poll_next i (with_statics g fr)) as [r fr'].
  apply udp_polls_counters, conn_counters_diagnostics in Hp. unfold with_statics in Hp.
  rewrite globals_of_on in Hp. by destruct r.
Qed.
End Counters.

(** ** An implementation, for evaluation on concrete inputs *)

Section Model.
Context {So Addr D Item : Type} `{UdpRecv So Addr} `{Decoder D Item}.

(** [readable] is tried first. *)
Fixpoint udp_read (readable : bool) (inputs : list (recv_input So Addr)) (so : So) (d : D) :
    res (Poll (option ((Item * option Addr) + error))) * UdpFramed So D :=
  match (if readable then decoder_decode_eof d else (Ok None, d)) with
  | (Ok (Some x), d') => (Ok (Ready (Some (inl (x, None)))), mkUdpFramed so d' true)
  | (Err e, d') => (Ok (Ready (Some (inr e))), mkUdpFramed so d' true)
  | (Panic w, d') => (Panic w, mkUdpFramed so d' true)
  | (Ok None, d') =>
      match inputs with
      | [] => (Ok Pending, mkUdpFramed so d' false)
      | i :: inputs' =>
          match poll_recv_from i so with
          | (Pending, so') => (Ok Pending, mkUdpFramed so' d' false)
          | (Ready (inr e), so') =>
              (Ok (Ready (Some (inr (from_io_error e)))), mkUdpFramed so' d' false)
          | (Ready (inl (b, _)), so') => udp_read true inputs' so' (buffer_extend b d')
          end
      end
  end.

(** Receiving, and then with a datagram in the buffer. *)
Lemma udp_read_false_polls inputs so d :
  (forall i inputs' so' b, inputs = i :: inputs' -> udp_polls inputs'
     (mkUdpFramed so' (buffer_extend b d) true)
     (udp_read true inputs' so' (buffer_extend b d)).1
     (udp_read true inputs' so' (buffer_extend b d)).2) ->
  udp_polls inputs (mkUdpFramed so d false)
    (udp_read false inputs so d).1 (udp_read false inputs so d).2.
Proof.
  intros IH. destruct inputs as [|i inputs]; cbn [udp_read fst snd]; [apply udp_not_ready|].
  destruct (poll_recv_from i so) as [[[[b addr]|e]|] so'] eqn:E.
  - eapply udp_datagram; [done|]. by apply (IH i inputs so' b).
  - by apply udp_io_error.
  - by apply udp_pending.
Qed.

Lemma udp_read_true_polls inputs so d :
  udp_polls inputs (mkUdpFramed so d true)
    (udp_read true inputs so d).1 (udp_read true inputs so d).2.
Proof.
  revert so d. induction inputs as [|i inputs IH]; intros so d;
    (destruct (decoder_decode_eof d) as [[[x|]|e|w] d'] eqn:E; cbn [udp_read]; rewrite E;
     [by apply udp_frame| |by apply udp_error|by apply udp_panic];
     eapply udp_more; [done|]).
  - apply udp_not_ready.
  - apply (udp_read_false_polls (i :: inputs)). intros ? ? so' b [= <- <-]. apply IH.
Qed.

#[refine] Definition udp_framed_model : UdpFramedApi So Addr D Item := {|
  UdpFramed_poll_next inputs fr :=
    udp_read (uf_readable fr) inputs (uf_socket fr) (uf_decoder fr)
|}.
Proof.
  intros inputs [so d []]; cbn [uf_readable uf_socket uf_decoder].
  - pose proof (udp_read_true_polls inputs so d) as Hp. by destruct (udp_read true inputs so d).
  - pose proof (udp_read_false_polls inputs so d) as Hp.
    destruct (udp_read false inputs so d). apply Hp. intros i inputs' so' b _.
    apply udp_read_true_polls.
Defined.
End Model.

(** A socket, for evaluation: the datagrams that will arrive. A receive finds the
    next of them, or none yet, or fails. *)
Record DatagramSocket := mkDatagramSocket { sock_datagrams : list Bytes }.
Inductive datagram_input := Datagram | NoDatagram | RecvFailed (e : io_error).

#[export] Instance DatagramSocket_Recv : UdpRecv DatagramSocket unit := {|
  recv_input := datagram_input;
  poll_recv_from i so :=
    match i, sock_datagrams so with
    | Datagram, d :: ds => (Ready (inl (d, tt)), mkDatagramSocket ds)
    | RecvFailed e, _ => (Ready (inr e), so)
    | _, _ => (Pending, so)
    end
|}.

#[export, refine] Instance DatagramSocket_RecvSpec : UdpRecvSpec DatagramSocket unit := {|
  arrives so ds := sock_datagrams so = ds
|}.
Proof.
  intros [| |e] [[|d ds]] ? <-; try done. by exists ds.
Defined.
