(* ===== verification/Serve.v ===== *)
(** The main loop of the server over the stream it polls: [select!] picks the
    next item of the stream, the handle or a signal ([sqelf/src/server/mod.rs]),
    and everything shares the statics. *)

From S2P Require Import Prelude Diagnostics Message Received Stream Server ServerThms.
From S2P Require Import TcpListen Interleaving.

(** A [process] closure that does not depend on the statics. *)
Class ProcessorStatics (P : Type) `{Processor P} := {
  process_statics msg p p' : same_state p p' ->
    (process msg p).1 = (process msg p').1 /\
    same_state (process msg p).2 (process msg p').2
}.

Section Serve.
Context {L P : Type} `{Stream L (Received + error)} `{Processor P}.

(** What wakes the loop: the stream may have an item, the handle was closed, or
    a signal came. *)
Inductive wake :=
| WakeIncoming (i : poll_input L (Received + error))
| WakeClose
| WakeCtrlC.

Definition is_shutdown (w : wake) : bool :=
  match w with WakeIncoming _ => false | _ => true end.

(** A branch of the loop, on the closure. *)
Definition on_process {A} (m : M P A) : M (L * P) A := m_zoom snd (fun p st => (st.1, p)) m.

(** [incoming.next()], polled. *)
Definition poll_incoming (i : poll_input L (Received + error)) :
    M (L * P) (Poll (option (Received + error))) := fun '(l, p) =>
  match poll_next i l (globals_of p) with
  | (Ok (item, l'), g) => (Ok item, (l', with_statics g p))
  | (Err e, g) => (Err e, (l, with_statics g p))
  | (Panic w, g) => (Panic w, (l, with_statics g p))
  end.

(** One time the loop is woken: [true] when it goes on. *)
Definition serve_turn (w : wake) : M (L * P) bool :=
  match w with
  | WakeIncoming i =>
      let! item := poll_incoming i in
      match item with
      | Ready msg => on_process (loop_turn (Incoming msg))
      | Pending => m_ret true
      end
  | WakeClose => on_process (loop_turn CloseHandle)
  | WakeCtrlC => on_process (loop_turn CtrlC)
  end.

Fixpoint serve (wakes : list wake) : M (L * P) bool :=
  match wakes with
  | [] => m_ret true
  | w :: wakes' =>
      let! goes_on := serve_turn w in
      if goes_on : bool then serve wakes' else m_ret false
  end.

(** The polls of the stream in a turn, and in the loop as far as it runs. *)
Definition turn_polls (w : wake) (st : L * P) : list (poll L (Received + error)) :=
  match w with
  | WakeIncoming i => [(i, st.1, globals_of st.2)]
  | _ => []
  end.

Fixpoint serve_polls (wakes : list wake) (st : L * P) : list (poll L (Received + error)) :=
  match wakes with
  | [] => []
  | w :: wakes' =>
      turn_polls w st ++
      match serve_turn w st with
      | (Ok true, st') => serve_polls wakes' st'
      | _ => []
      end
  end.
End Serve.
Arguments wake L {_}.

(** ** What the loop does with the stream *)

Section Laws.
Context {L P : Type} `{Stream L (Received + error)} `{ProcessorStatics P}.

Lemma same_state_after (p p' : P) f : same_state p p' -> same_state (on_globals f p) p'.
Proof. intros E. by rewrite same_state_on. Qed.

(** A turn on an item that returned: the closure was called on a complete
    message, and not otherwise; only an error stops the loop. *)
Lemma loop_turn_item (x : Received + error) (p p1 : P) b p' :
  same_state p p1 -> loop_turn (Incoming (Some x)) p = (Ok b, p') ->
  same_state p' (process_all (completes (oks [x])) p1) /\ (b = false -> exists e, x = inr e).
Proof.
  intros Hs. destruct x as [[|msg|err]|err]; cbn [loop_turn];
    unfold on_statics, m_modify, m_ret, m_bind; cbn.
  - by intros [= <- <-].
  - destruct (process_statics msg (on_globals (increment GServer "receive_ok") p) p1) as [Hr Hs'].
    { by apply same_state_after. }
    destruct (process msg (on_globals _ p)) as [[u|e|w] p2]; [| |done];
      intros [= <- <-]; (split; [|done]); repeat apply same_state_after; exact Hs'.
  - intros [= <- <-]. split; [|done]. by do 2 apply same_state_after.
  - intros [= <- <-]. split; [by do 2 apply same_state_after|by eexists].
Qed.

(** A turn that panicked: the closure did, on a complete message. *)
Lemma loop_turn_panic (x : Received + error) (p p1 : P) w p' :
  same_state p p1 -> loop_turn (Incoming (Some x)) p = (Panic w, p') ->
  exists msg, x = inl (Complete msg) /\ is_panic (process msg p1).1 = true.
Proof.
  intros Hs. destruct x as [[|msg|err]|err]; cbn [loop_turn];
    unfold on_statics, m_modify, m_ret, m_bind; cbn; try done.
  destruct (process_statics msg (on_globals (increment GServer "receive_ok") p) p1) as [Hr _].
  { by apply same_state_after. }
  destruct (process msg (on_globals _ p)) as [[u|e|w'] p2]; [done..|]. intros _.
  exists msg. split; [done|]. by rewrite <- Hr.
Qed.

(** The stream [l0], after [polls], has given [items], and the closure [p0] has been
    called on the complete messages among them. *)
Definition served (l0 : L) (p0 : P) (polls : list (poll L (Received + error)))
    (st : L * P) (items : list (Received + error)) : Prop :=
  polled l0 polls items (Some st.1) /\
  same_state st.2 (process_all (completes (oks items)) p0).

(** How a panic comes about in [polls]: one of them panics, or the stream ends, or
    the closure panics, on a message that the stream has given. *)
Definition panicked (l0 : L) (p0 : P) (polls : list (poll L (Received + error))) : Prop :=
  exists before items, before `prefix_of` polls /\
  ((exists l i g, polled l0 before items (Some l) /\ is_panic (poll_next i l g).1 = true) \/
   polled l0 before items None \/
   (exists msg o, polled l0 before (items ++ [inl (Complete msg)]) o /\
      is_panic (process msg (process_all (completes (oks items)) p0)).1 = true)).

Lemma completes_app xs ys : completes (xs ++ ys) = completes xs ++ completes ys.
Proof. apply omap_app. Qed.

Lemma panicked_mono l0 (p0 : P) polls polls' :
  polls `prefix_of` polls' -> panicked l0 p0 polls -> panicked l0 p0 polls'.
Proof. intros Hp (before & items & Hu & Hw). exists before, items. split; [by etrans|done]. Qed.

Lemma serve_turn_served l0 p0 w polls st items :
  served l0 p0 polls st items ->
  wp (serve_turn w)
    (fun b st' => exists items', served l0 p0 (polls ++ turn_polls w st) st' (items ++ items') /\
       (b = false -> is_shutdown w = true \/ exists e, inr e ∈ items'))
    (fun o _ => o = None -> panicked l0 p0 (polls ++ turn_polls w st)) st.
Proof.
  intros [Hg Hs]. destruct st as [l p]. cbn [fst snd] in *.
  assert (Hstop : forall ev, ev = CloseHandle \/ ev = CtrlC -> polls ++ [] = polls ->
    wp (on_process (loop_turn ev))
      (fun (b : bool) st' => exists items', served l0 p0 (polls ++ []) st' (items ++ items') /\
         (b = false -> true = true \/ exists e, inr e ∈ items'))
      (fun o _ => o = None -> panicked l0 p0 (polls ++ [])) (l, p)).
  { intros ev Hev Hnil. apply wp_zoom. cbn [fst snd].
    destruct Hev as [->| ->]; cbn [loop_turn]; apply wp_bind, wp_modify, wp_ret; exists [];
      rewrite Hnil, app_nil_r; (split; [|by left]); (split; [done|by apply same_state_after]). }
  destruct w as [i| |]; cbn [serve_turn turn_polls]; [|apply Hstop; auto using app_nil_r..].
  apply wp_bind. unfold wp at 1, poll_incoming.
  destruct (poll_next i l (globals_of p)) as [[[item l']|e|w] g] eqn:E; [|done|].
  2:{ intros _. exists polls, items. split; [by apply prefix_app_r|]. left.
      exists l, i, (globals_of p). by rewrite E. }
  assert (Hs1 : same_state (with_statics g p) (process_all (completes (oks items)) p0))
    by by rewrite same_state_with.
  destruct item as [[x|]|].
  - apply wp_zoom. cbn [fst snd]. unfold wp.
    destruct (loop_turn (Incoming (Some x)) (with_statics g p)) as [[b|e|w] p'] eqn:El; [|done|].
    2:{ intros _. destruct (loop_turn_panic x _ _ w p' Hs1 El) as (msg & -> & Hw).
        eexists _, items. split; [done|].
        do 2 right. exists msg, (Some l'). split; [by eapply polled_item|done]. }
    destruct (loop_turn_item x _ _ b p' Hs1 El) as [Hp' Hb].
    exists [x]. split.
    + split; [by eapply polled_item|]. by rewrite oks_app, completes_app, process_all_app.
    + intros Hf. right. destruct (Hb Hf) as [e ->]. exists e. by left.
  - intros _. eexists _, items. split; [done|]. right. left. by eapply polled_end.
  - apply wp_ret. exists []. rewrite app_nil_r. split; [|done].
    split; [by eapply polled_pending|exact Hs1].
Qed.

(** The loop, as far as it has run: [process] was called, in order, on the
    complete messages of what the stream has given in its polls, and it stops only
    when it is told to or when the stream gives an error. *)
Lemma serve_served l0 p0 wakes polls st items :
  served l0 p0 polls st items ->
  wp (serve wakes)
    (fun b st' => exists items',
       served l0 p0 (polls ++ serve_polls wakes st) st' (items ++ items') /\
       (b = false -> existsb is_shutdown wakes = true \/ exists e, inr e ∈ items'))
    (fun o _ => o = None -> panicked l0 p0 (polls ++ serve_polls wakes st)) st.
Proof.
  revert polls st items. induction wakes as [|w wakes IH]; intros polls st items Hs;
    cbn [serve serve_polls].
  { apply wp_ret. exists []. by rewrite !app_nil_r. }
  pose proof (serve_turn_served l0 p0 w polls st items Hs) as Ht. unfold wp in Ht.
  apply wp_bind. unfold wp at 1.
  destruct (serve_turn w st) as [[[]|e|w'] st1]; rewrite ?app_nil_r, ?app_assoc; [..|done].
  - destruct Ht as (items1 & Hs1 & _).
    eapply wp_mono; [by apply IH| |done]. intros b st' (items2 & Hs2 & Hstop2).
    exists (items1 ++ items2). rewrite app_assoc. split; [done|]. intros Hb.
    destruct (Hstop2 Hb) as [Hsd|[e He]]; [left; simpl; by rewrite Hsd, orb_true_r|].
    right. exists e. apply elem_of_app. by right.
  - destruct Ht as (items1 & Hs1 & Hstop). apply wp_ret. exists items1. split; [done|]. intros _.
    destruct (Hstop eq_refl) as [Hsd|?]; [left; simpl; by rewrite Hsd|by right].
  - done.
Qed.
End Laws.

(** ** The loop comes to no end of its own *)

(** The stream does not end, and no poll of it panics. *)
Section Total.
Context {L P : Type} `{Stream L (Received + error)} `{Processor P}.
Context (linv : L -> Prop).
Context (Hpoll : forall i l g, linv l ->
  wp (poll_next i l) (fun '(p, l') _ => linv l' /\ p <> Ready None) (fun _ _ => False) g).

Lemma loop_turn_total ev (p : P) :
  ev <> Incoming None -> wp (loop_turn ev) (fun _ _ => True) (panics True) p.
Proof.
  intros Hev. destruct ev as [[[[|msg|err]|err]|]| |]; try done. cbn [loop_turn].
  apply wp_bind, wp_modify. unfold wp. by destruct (process msg _) as [[u|e|w] p2].
Qed.

(** Then the loop comes to no error. *)
Lemma serve_total (wakes : list (wake L)) (st : L * P) :
  linv st.1 -> wp (serve wakes) (fun _ st' => linv st'.1) (panics True) st.
Proof.
  revert st. induction wakes as [|w wakes IH]; intros [l p] Hl; [done|]. cbn [serve fst] in *.
  apply wp_bind. eapply (wp_mono _ (fun _ st' => linv st'.1));
    [| |intros o st' Hst'; exact Hst'].
  - assert (Hturn : forall ev l p, ev <> Incoming None -> linv l ->
      wp (on_process (L := L) (loop_turn ev)) (fun _ st' => linv st'.1) (panics True) (l, p)).
    { intros ev l1 p1 Hev Hl1. apply wp_zoom. cbn [fst snd].
      eapply wp_mono; [by apply loop_turn_total|done..]. }
    destruct w as [i| |]; cbn [serve_turn]; [|by apply Hturn..].
    apply wp_bind. unfold wp at 1, poll_incoming.
    pose proof (Hpoll i l (globals_of p) Hl) as Hp. unfold wp in Hp.
    destruct (poll_next i l (globals_of p)) as [[[item l']|e|w] g]; [|done..].
    destruct Hp as [Hl' Hne]. destruct item as [msg|]; [|done].
    apply Hturn; [congruence|done].
  - intros goes_on st' Hst'. destruct goes_on; [by apply IH|done].
Qed.

Lemma gives_linv l0 items o : linv l0 -> gives l0 items o -> exists l, o = Some l /\ linv l.
Proof.
  intros Hl [polls Hp]. induction Hp as [|polls items l i g l' g' _ IH E
    |polls items l i g x l' g' _ IH E|polls items l i g l' g' _ IH E]; [by eexists|..].
  all: destruct IH as (? & [= <-] & Hl1); pose proof (Hpoll i l g Hl1) as Hp; unfold wp in Hp.
  all: rewrite E in Hp; destruct Hp as [Hl' Hne]; try done; by exists l'.
Qed.

(** And it panics only if the closure does, on a message that the stream has
    given. *)
Lemma panicked_why l0 (p0 : P) polls :
  linv l0 -> panicked l0 p0 polls ->
  exists before items msg o, before `prefix_of` polls /\
    polled l0 before (items ++ [inl (Complete msg)]) o /\
    is_panic (process msg (process_all (completes (oks items)) p0)).1 = true.
Proof.
  intros Hl (before & items & Hu & [(l & i & g & Hg%polled_gives & Hw)
    |[Hg%polled_gives|(msg & o & Hg & Hw)]]); [| |by exists before, items, msg, o].
  2:{ by destruct (gives_linv l0 items _ Hl Hg) as (? & ? & _). }
  destruct (gives_linv l0 items _ Hl Hg) as (? & [= <-] & Hl1).
  pose proof (Hpoll i l g Hl1) as Hp. unfold wp in Hp.
  by destruct (poll_next i l g) as [[]].
Qed.
End Total.
