(* ===== verification/Main.v ===== *)
(** The program ([sqelf/src/main.rs]): [run], the thread that waits for the end of
    stdin, and [main], around the main loop of the server. *)

From S2P Require Import Prelude Diagnostics Received ServerConfig AppConfig Server.

(** ** The thread that waits for the end of stdin *)

(** A turn of the loop of [listen_for_stdin_closed], on what [read] gives: the
    bytes that were read, or an error. [true] when the thread goes on; when it
    does not, it has closed the handle. *)
Definition stdin_turn (read : nat + error) : bool :=
  match read with
  | inl O => false
  | inl (S _) => true
  | inr _ => false
  end.

(** [listen_for_stdin_closed], on the results of the reads: whether the handle
    is closed. *)
Fixpoint listen_for_stdin_closed (reads : list (nat + error)) : bool :=
  match reads with
  | [] => false
  | read :: reads' => if stdin_turn read then listen_for_stdin_closed reads' else true
  end.

(** ** [run] and [main] *)

Section Run.
Context `{ServerIo} {P : Type} `{Statics P}.
Implicit Types p : P.

(** The life cycle of the diagnostics, on the state of the program. *)
Definition on_diagnostics {A} (m : M Globals A) : M P A :=
  m_zoom globals_of (fun g => on_globals (fun _ => g)) m.

(** [setup] builds the closures from their configurations; [loop] is the loop of
    the server, which is told whether the thread on stdin has its handle. *)
Context (setup : AppConfig.Config -> P -> P)
  (loop : AppConfig.Config -> bool -> Incoming_kind -> M P bool).

(** [run]: [true] when the server still waits. *)
Definition run (env : Env) : M P bool :=
  let! config := m_lift (from_env env) in
  on_diagnostics (init (diagnostics config)) ;;;
  m_modify (setup config) ;;;
  let! server := build (server config) in
  let! '(listening, server) :=
    (if is_seq_app env then
       let '(handle, server) := take_handle server in
       if handle : bool then m_ret (true, server)
       else m_throw (External "Failed to acquire handle to server" [])
     else m_ret (false, server)) in
  let! waiting := server_run server (loop config listening) in
  if waiting : bool then m_ret true
  else on_diagnostics stop ;;; m_ret false.

(** What a panic carries. *)
Inductive PanicPayload := PanicStr (s : string) | PanicString (s : string) | PanicOther.

Definition unwrap_panic (panic : PanicPayload) : error :=
  match panic with
  | PanicStr err => External err []
  | PanicString err => External err []
  | PanicOther => External "unexpected panic (this is a bug)" []
  end.

(** [main]: the exit code, none while the server still runs, and the state. *)
Definition main (env : Env) (p : P) : option Z * P :=
  let '(outcome, p) := run env p in
  let run_server :=
    match outcome with
    | Panic w => Err (unwrap_panic (PanicString w))
    | inner => inner
    end in
  match run_server with
  | Ok true => (None, p)
  | Err err => (Some 1%Z, on_globals (emit_err err "GELF input failed") p)
  | _ => (Some 0%Z, on_globals (emit "GELF input stopped") p)
  end.
End Run.

(** ** Properties *)

Lemma m_bind_ok {S A B} (m : M S A) (f : A -> M S B) s b s' :
  m_bind m f s = (Ok b, s') -> exists a s1, m s = (Ok a, s1) /\ f a s1 = (Ok b, s').
Proof. unfold m_bind. destruct (m s) as [[a|e|w] s1]; naive_solver. Qed.

Lemma stop_ok g g' : stop g = (Ok tt, g') -> DIAGNOSTICS g' = None.
Proof.
  unfold stop, m_bind, m_get. destruct (DIAGNOSTICS g) as [d|] eqn:Hd.
  - unfold m_put, stop_metrics. destruct (diag_metrics d) as [[]|]; try done.
    + intros [= <-]. unfold metrics_thread_turn, emit_metrics. simpl.
      by destruct (MinLevel_includes LDebug _).
    + by intros [= <-].
  - by intros [= <-].
Qed.

Section Properties.
Context `{ServerIo} {P : Type} `{Statics P} (setup : AppConfig.Config -> P -> P)
  (loop : AppConfig.Config -> bool -> Incoming_kind -> M P bool).

(** A run that ends has stopped the diagnostics. *)
Lemma run_stops env (p p' : P) :
  run setup loop env p = (Ok false, p') -> DIAGNOSTICS (globals_of p') = None.
Proof.
  intros Hrun. unfold run in Hrun. repeat (apply m_bind_ok in Hrun as (? & ? & _ & Hrun)).
  destruct (_ : bool * Server), (_ : bool); cbv beta iota in Hrun.
  all: apply m_bind_ok in Hrun as ([] & ? & _ & Hrun); [done|].
  all: apply m_bind_ok in Hrun as (? & ? & Hrun & [= <-]).
  all: unfold on_diagnostics, m_zoom in Hrun.
  all: destruct (stop _) as [[[]|?|?] g] eqn:Hstop; simplify_eq.
  all: rewrite globals_of_on; by eapply stop_ok.
Qed.

(** C37: the program does not exit while the server runs; it exits with code 0
    exactly when its run succeeds, and then
    the diagnostics are stopped; a failure, also a panic, is written to the
    self-log whatever its level, and the exit code is 1. A configuration that
    cannot be read fails the run before anything starts. *)
Theorem main_reports (env : Env) (p : P) :
  let '(r, p1) := run setup loop env p in
  let '(code, p2) := main setup loop env p in
  let failed (text : string) :=
    code = Some 1%Z /\
    stderr (globals_of p2) =
      stderr (globals_of p1) ++ [mkEvent "ERROR" (Some text) "GELF input failed" None] in
  match r with
  | Ok true => code = None /\ p2 = p1
  | Ok false => code = Some 0%Z /\ DIAGNOSTICS (globals_of p2) = None
  | Err err => failed (format_error err)
  | Panic w => failed w
  end /\
  (forall err, from_env env = Err err -> r = Err err /\ p1 = p).
Proof.
  unfold main.
  assert (Hcfg : forall err, from_env env = Err err -> run setup loop env p = (Err err, p)).
  { intros err E. unfold run, m_bind, m_lift. by rewrite E. }
  destruct (run setup loop env p) as [r p1] eqn:Hrun.
  assert (Hlog : forall err msg, stderr (globals_of (on_globals (emit_err err msg) p1)) =
    stderr (globals_of p1) ++ [mkEvent "ERROR" (Some (format_error err)) msg None]).
  { intros err msg. rewrite globals_of_on. unfold emit_err, MinLevel_includes.
    by destruct (MinLevel_get (globals_of p1)). }
  destruct r as [[]|err|w]; (split; [|intros e He; specialize (Hcfg e He); by simplify_eq]).
  - done.
  - split; [done|]. apply run_stops in Hrun. rewrite globals_of_on. unfold emit.
    by destruct (MinLevel_includes _ _).
  - split; [done|]. apply Hlog.
  - split; [done|]. apply (Hlog (External w [])).
Qed.
End Properties.

(** ** A witness *)

Section Witnesses.
#[export, refine] Instance Globals_Statics : Statics Globals := {|
  globals_of g := g;
  on_globals f g := f g
|}.
Proof. all: solve_statics. Defined.

(** An operating system on which the TCP port is taken. *)
#[local] Instance sample_io : ServerIo := {|
  SocketAddr := string;
  parse_addr := Ok;
  udp_bind _ := Ok tt;
  tcp_bind _ := Err (External "address in use" []);
  Cert := unit;
  Key := unit;
  TlsConfig := unit;
  read_certs _ := Ok [tt];
  read_pkcs8_keys _ := Ok [tt];
  with_single_cert _ _ := Ok tt
|}.

(** An address that is not Unicode. *)
Definition bad_env : Env := {["GELF_ADDRESS"%string := None]}.

Lemma main_reports_witness :
  (main (P := Globals) (fun _ g => g) (fun _ _ _ => m_ret true) bad_env Globals_initial).1
    = Some 1%Z.
Proof.
  pose proof (main_reports (P := Globals) (fun _ g => g) (fun _ _ _ => m_ret true) bad_env
    Globals_initial) as Hm.
  assert (E : from_env bad_env = Err VarNotUnicode) by (vm_compute; reflexivity).
  destruct (run _ _ _ _) as [r a1]. destruct (main _ _ _ _) as [code a2].
  destruct Hm as [Hr Hcfg]. destruct (Hcfg _ E) as [-> _]. apply Hr.
Defined.
End Witnesses.
