(* ===== verification/App.v ===== *)
(** The closures that [run] of [sqelf/src/main.rs] gives the server, in one state,
    and what a datagram goes through. *)

From S2P Require Import Prelude Diagnostics Io Message ChunkRead Gelf Received Json Str Clef.
From S2P Require Import Process Server.

(** The readings of the clock: by the [n]-th call of the receiver, in [gc] and in
    [ts], and by the processing that follows it. *)
Class Clock := {
  clock_gc : nat -> SystemTime;
  clock_ts : nat -> SystemTime;
  clock_now : nat -> SystemTime
}.

(** The state of the program: what the two closures capture, the statics, and
    stdout. [app_turn] counts the calls of the receiver. *)
Record App := mkApp {
  app_gelf : Gelf;
  app_process : Process;
  app_globals : Globals;
  app_stdout : list string;
  app_turn : nat
}.

#[export, refine] Instance App_Statics : Statics App := {|
  globals_of := app_globals;
  on_globals f a :=
    mkApp (app_gelf a) (app_process a) (f (app_globals a)) (app_stdout a) (app_turn a)
|}.
Proof. all: solve_statics. Defined.

Section Closures.
Context `{Profile} `{BytesApi} `{Libflate} `{DecimalApi} `{Humantime} {Number : Type}
  `{JsonNumber Number} `{ClefJson Number} `{!GelfJson Number}.
Context (INLINE_STRING_CAPACITY : nat) {CachedString : Type}
  `{AsRef CachedString} `{FromStr CachedString}.
Context (str_debug : string -> string) (buffers : Message -> list nat) `{Clock}.

(** [move |src| receive.decode(src)]. *)
Definition app_receive (src : Bytes) : M App (option Message) := fun a =>
  let '(r, s) := decode (clock_gc (app_turn a)) (clock_ts (app_turn a)) src
                   (mkRx (app_gelf a) (app_globals a)) in
  (r, mkApp (rx_gelf s) (app_process a) (rx_globals s) (app_stdout a) (1 + app_turn a)).

Definition App_Receiver : Receiver App := {| Received.receive := app_receive |}.

(** [move |msg| process.read_as_clef(msg)]. *)
Definition app_process_message (msg : Message) : M App unit := fun a =>
  let '(r, s) := read_as_clef INLINE_STRING_CAPACITY (CachedString := CachedString)
                   str_debug (app_process a) (clock_now (app_turn a)) (buffers msg) msg
                   (mkProcessState (app_globals a) (app_stdout a)) in
  (r, mkApp (app_gelf a) (app_process a) (ps_globals s) (ps_stdout s) (app_turn a)).

Definition App_Processor : Processor App := {| Server.process := app_process_message |}.

#[local] Existing Instances App_Receiver App_Processor.

(** A datagram through the UDP decoder and the main loop. *)
Definition udp_turn (src : Bytes) : M App bool := fun a =>
  match udp_decode (mkUdp src a) with
  | (Ok (Some received), st) => loop_turn (Incoming (Some (inl received))) (udp_receive st)
  | (Ok None, st) => (Ok true, udp_receive st)
  | (Err e, st) => loop_turn (Incoming (Some (inr e))) (udp_receive st)
  | (Panic w, st) => (Panic w, udp_receive st)
  end.

Fixpoint udp_run (datagrams : list Bytes) : M App bool :=
  match datagrams with
  | [] => m_ret true
  | src :: datagrams' =>
      let! goes_on := udp_turn src in
      if goes_on : bool then udp_run datagrams' else m_ret false
  end.
End Closures.
