(* ===== verification/AppThms.v ===== *)
(** The closures keep what the server relies on, and what goes in as datagrams
    comes out as lines. *)

From S2P Require Import Prelude BTree Diagnostics Io Message ChunkRead Gelf GelfInv Reassembly.
From S2P Require Import Received TcpFraming Json Utf8 Str Clef Process.
From S2P Require Import Server ServerThms App Conversion Processing Fixtures.

(** ** Counters of different groups do not interfere *)

Lemma increment_comm grp grp' f f' g :
  grp <> grp' -> increment grp f (increment grp' f' g) = increment grp' f' (increment grp f g).
Proof.
  intros Hne. unfold increment at 1 3.
  rewrite !MinLevel_includes_increment. unfold increment.
  destruct (MinLevel_includes LDebug g) eqn:E; rewrite ?E; [|done].
  by destruct grp, grp'.
Qed.

Lemma emit_err_increment err msg grp f g :
  emit_err err msg (increment grp f g) = increment grp f (emit_err err msg g).
Proof.
  unfold emit_err at 1. rewrite MinLevel_includes_increment.
  unfold increment, emit_err. destruct (MinLevel_includes LError g);
    destruct (MinLevel_includes LDebug g) eqn:E; try done.
  - change (MinLevel_includes LDebug (eprintln _ g)) with (MinLevel_includes LDebug g).
    rewrite E. by destruct grp.
  - change (MinLevel_includes LDebug (eprintln _ g)) with (MinLevel_includes LDebug g).
    by rewrite E.
Qed.

Lemma server_effect_process f field g :
  server_effect f -> f (increment GProcess field g) = increment GProcess field (f g).
Proof.
  intros Hf. revert g. induction Hf as [|name f Hf IH|err msg f Hf IH]; intros g; [done|..].
  - rewrite IH. by apply increment_comm.
  - rewrite IH. apply emit_err_increment.
Qed.

(** ** What a call of the receiver does to the statics *)

Section Receiver.
Context `{Profile} `{BytesApi}.

(** The counters of the receiver that a call writes. *)
Inductive receiver_effect : (Globals -> Globals) -> Prop :=
| receiver_none : receiver_effect (fun g => g)
| receiver_increment field f :
    receiver_effect f -> receiver_effect (fun g => increment GReceive field (f g)).

Lemma receiver_effect_server f field g :
  receiver_effect f -> f (increment GServer field g) = increment GServer field (f g).
Proof.
  intros Hf. revert g. induction Hf as [|name f Hf IH]; intros g; [done|].
  rewrite IH. by apply increment_comm.
Qed.

Lemma push_statics now_ts h c g :
  exists r g' f, receiver_effect f /\
    forall gl, push now_ts h c (mkRx g gl) = (r, mkRx g' (f gl)).
Proof.
  destruct (pending g !! header_id h) as [[chunks arrival]|] eqn:E.
  - destruct (negb (expected_total chunks =? seq_count h)%Z) eqn:E1.
    { eexists _, _, (fun g => g). split; [constructor|].
      intros gl. rewrite push_eq, E, E1. done. }
    destruct (Chunks_is_complete (Chunks_insert c chunks)) eqn:E2.
    + eexists _, _, _. split; [apply receiver_increment, receiver_none|].
      intros gl. rewrite push_eq, E, E1, E2. done.
    + eexists _, _, (fun g => g). split; [constructor|].
      intros gl. rewrite push_eq, E, E1, E2. done.
  - destruct (duration_since now_ts UNIX_EPOCH) eqn:E1;
      (eexists _, _, (fun g => g); split; [constructor|];
       intros gl; rewrite push_eq, E, E1; done).
Qed.

Lemma dispatch_statics now_ts src g :
  exists r g' f, receiver_effect f /\
    forall gl, dispatch now_ts src (mkRx g gl) = (r, mkRx g' (f gl)).
Proof.
  unfold dispatch. destruct (ChunkHeader_get src) as [[h|e|w] payload];
    [|eexists _, _, (fun g => g); split; [constructor|done]..].
  destruct (_ && _); [eexists _, _, (fun g => g); split; [constructor|done]|].
  cbn [rx_gelf]. destruct (_ <? _)%Z; [eexists _, _, (fun g => g); split; [constructor|done]|].
  apply push_statics.
Qed.

(** The result and the receiver do not depend on the statics. *)
Lemma decode_statics now_gc now_ts src g :
  exists r g' f, receiver_effect f /\
    forall gl, decode now_gc now_ts src (mkRx g gl) = (r, mkRx g' (f gl)).
Proof.
  destruct (decide (peek_magic_bytes src = Some MAGIC_CHUNKED)) as [Hm|Hm].
  2:{ eexists _, _, _. split; [apply receiver_increment, receiver_none|].
      intros gl. rewrite decode_eq, decide_False by done. done. }
  destruct (gc_since now_gc g) as [since|e|w] eqn:Hs.
  - destruct (dispatch_statics now_ts src (gc_expire since (gc_overflow g)))
      as (r & g' & f & Hf & E).
    exists r, g', (fun gl => f (gc_globals g (increment GReceive "chunk" gl))).
    split.
    + clear E Hm. induction Hf as [|name f Hf IH]; [|by constructor].
      unfold gc_globals. destruct (over_capacity g); repeat constructor.
    + intros gl. by rewrite decode_eq, decide_True, chunked_eq, Hs, E by done.
  - eexists _, _, (fun gl => gc_globals g (increment GReceive "chunk" gl)). split.
    + unfold gc_globals. destruct (over_capacity g); repeat constructor.
    + intros gl. rewrite decode_eq, decide_True, chunked_eq, Hs by done. done.
  - eexists _, _, (fun gl => gc_globals g (increment GReceive "chunk" gl)). split.
    + unfold gc_globals. destruct (over_capacity g); repeat constructor.
    + intros gl. rewrite decode_eq, decide_True, chunked_eq, Hs by done. done.
Qed.
End Receiver.

(** ** The closures keep the laws *)

Section Closures.
Context `{Profile} `{BytesApi} `{Libflate} `{DecimalApi} `{Humantime} {Number : Type}
  `{JsonNumber Number} `{ClefJson Number} `{!GelfJson Number}.
Context (INLINE_STRING_CAPACITY : nat) {CachedString : Type}
  `{AsRef CachedString} `{FromStr CachedString}.
Context (str_debug : string -> string) (buffers : Message -> list nat) `{Clock}.

#[local] Existing Instance App_Receiver.
#[local] Instance App_Processor' : Processor App :=
  App_Processor INLINE_STRING_CAPACITY (CachedString := CachedString) str_debug buffers.

#[export] Instance App_ReceiverLaws : ReceiverLaws App.
Proof.
  constructor. intros field bs a. simpl. unfold app_receive. cbn [app_gelf app_globals app_turn].
  destruct (decode_statics (clock_gc (app_turn a)) (clock_ts (app_turn a)) bs (app_gelf a))
    as (r & g' & f & Hf & E).
  rewrite !E. simpl. by rewrite receiver_effect_server.
Qed.

(** What is printed for a message. *)
Definition printed (self : Process) (now : SystemTime) (msg : Message) : res (list string) :=
  match event_of INLINE_STRING_CAPACITY (CachedString := CachedString) str_debug
          self now (buffers msg) msg with
  | Ok clef =>
      match Message_to_string clef with
      | Ok line => Ok [line]
      | Err _ => Ok []
      | Panic w => Panic w
      end
  | Err e => Err e
  | Panic w => Panic w
  end.

Lemma app_process_eq msg a :
  process msg a =
    let r := printed (app_process a) (clock_now (app_turn a)) msg in
    ((fun _ => tt) <$> r,
     mkApp (app_gelf a) (app_process a) (increment GProcess "msg" (app_globals a))
       (app_stdout a ++ (match r with Ok lines => lines | _ => [] end)) (app_turn a)).
Proof.
  simpl. unfold app_process_message, printed, read_as_clef, with_clef, m_bind, m_modify,
    m_lift. destruct (event_of _ _ _ _ _ _) as [clef|e|w]; simpl; rewrite ?app_nil_r; try done.
  destruct (Message_to_string clef) as [line|e|w]; simpl; by rewrite ?app_nil_r.
Qed.

#[export] Instance App_ProcessorLaws : ProcessorLaws App.
Proof.
  constructor.
  - intros f msg a Hf. rewrite !app_process_eq. simpl. by rewrite server_effect_process.
  - intros f msg a. rewrite app_process_eq. simpl. by rewrite counter_of_increment, andb_false_r.
  - intros l msg a. rewrite app_process_eq. simpl. apply MinLevel_includes_increment.
Qed.

(** ** What a run of datagrams prints *)

(** The datagrams with the readings of the clock their calls make. *)
Fixpoint readings (n : nat) (ds : list Bytes) : list datagram :=
  match ds with
  | [] => []
  | src :: ds' => mkDatagram (clock_gc n) (clock_ts n) src :: readings (S n) ds'
  end.

(** The lines for a result of the receiver's [n]-th call. *)
Definition lines_of (self : Process) (n : nat) (r : res (option Message)) : list string :=
  match r with
  | Ok (Some msg) =>
      match printed self (clock_now (S n)) msg with Ok lines => lines | _ => [] end
  | _ => []
  end.

Fixpoint lines (self : Process) (n : nat) (rs : list (res (option Message))) : list string :=
  match rs with
  | [] => []
  | r :: rs' => lines_of self n r ++ lines self (S n) rs'
  end.

(** No call panics, in the receiver or in the processor. *)
Fixpoint calm (self : Process) (n : nat) (rs : list (res (option Message))) : Prop :=
  match rs with
  | [] => True
  | r :: rs' =>
      match r with
      | Panic _ => False
      | Ok (Some msg) => is_panic (printed self (clock_now (S n)) msg) = false
      | _ => True
      end /\ calm self (S n) rs'
  end.

Lemma decode_all_statics dgs g :
  exists rs g', forall gl, exists gl', decode_all dgs (mkRx g gl) = (rs, mkRx g' gl').
Proof.
  revert g. induction dgs as [|dg dgs IH]; intros g.
  - exists [], g. intros gl. by exists gl.
  - destruct (decode_statics (dg_gc dg) (dg_ts dg) (dg_src dg) g) as (r & g1 & f & _ & E).
    destruct (IH g1) as (rs & g2 & E2). exists (r :: rs), g2. intros gl.
    destruct (E2 (f gl)) as [gl' E3]. exists gl'. cbn [decode_all]. by rewrite E, E3.
Qed.

(** A turn on an empty datagram does nothing. *)
Lemma udp_turn_empty a :
  udp_turn INLINE_STRING_CAPACITY (CachedString := CachedString) str_debug buffers [] a
    = (Ok true, a).
Proof. unfold udp_turn, udp_decode. cbn [udp_src udp_receive]. by rewrite split_to_ok. Qed.

(** A turn on any other is a call of the receiver, and what it yields is
    printed. *)
Lemma udp_turn_eq src a r g gl :
  src <> [] ->
  decode (clock_gc (app_turn a)) (clock_ts (app_turn a)) src
    (mkRx (app_gelf a) (app_globals a)) = (r, mkRx g gl) ->
  calm (app_process a) (app_turn a) [r] ->
  exists gl',
    udp_turn INLINE_STRING_CAPACITY (CachedString := CachedString) str_debug buffers src a =
      (Ok true, mkApp g (app_process a) gl'
         (app_stdout a ++ lines_of (app_process a) (app_turn a) r) (S (app_turn a))).
Proof.
  intros Hne Hd [Hcalm _]. unfold udp_turn, udp_decode. cbn [udp_src udp_receive].
  rewrite split_to_ok by done. rewrite firstn_all.
  destruct (Nat.eqb_spec (length src) 0) as [Hz|_]; [by apply nil_length_inv in Hz|].
  simpl. unfold app_receive. rewrite Hd. cbn [rx_gelf rx_globals].
  destruct r as [[msg|]|e|w]; simpl; [| | |done].
  - unfold m_bind, on_statics, m_modify, m_ret.
    change (app_process_message INLINE_STRING_CAPACITY str_debug buffers msg)
      with (process msg). rewrite app_process_eq. simpl.
    destruct (printed (app_process a) (clock_now (S (app_turn a))) msg) as [ls|e|w];
      simpl; [by eexists..|done].
  - rewrite app_nil_r. by eexists.
  - rewrite app_nil_r. by eexists.
Qed.

Lemma udp_run_lines ds a rs g :
  (forall gl, exists gl', decode_all (readings (app_turn a) (filter (fun d => d <> []) ds))
     (mkRx (app_gelf a) gl) = (rs, mkRx g gl')) ->
  calm (app_process a) (app_turn a) rs ->
  exists a',
    udp_run INLINE_STRING_CAPACITY (CachedString := CachedString) str_debug buffers ds a
      = (Ok true, a') /\ app_gelf a' = g /\
    app_stdout a' = app_stdout a ++ lines (app_process a) (app_turn a) rs.
Proof.
  revert a rs. induction ds as [|src ds IH]; intros a rs Hd Hcalm.
  - destruct (Hd (app_globals a)) as [gl' E]. injection E as <- <- _. exists a.
    by rewrite app_nil_r.
  - cbn [udp_run]. unfold m_bind. destruct (decide (src = [])) as [->|Hne].
    + rewrite filter_cons_False in Hd by (intros Hn; by apply Hn). rewrite udp_turn_empty. by apply IH.
    + rewrite filter_cons_True in Hd by done. cbn [readings decode_all dg_gc dg_ts dg_src] in Hd.
      destruct (decode_statics (clock_gc (app_turn a)) (clock_ts (app_turn a)) src (app_gelf a))
        as (r & g1 & f & _ & E).
      destruct (decode_all_statics (readings (S (app_turn a)) (filter (fun d => d <> []) ds)) g1)
        as (rs1 & g2 & E1).
      assert (Hrs : rs = r :: rs1 /\ g2 = g).
      { destruct (Hd (app_globals a)) as [gl' Eq]. rewrite E in Eq.
        destruct (E1 (f (app_globals a))) as [gl1 Eq1]. rewrite Eq1 in Eq. by simplify_eq. }
      destruct Hrs as [-> ->]. destruct Hcalm as [Hc1 Hc2].
      destruct (udp_turn_eq src a r g1 _ Hne (E (app_globals a))) as [gl' ->];
        [by split|].
      destruct (IH (mkApp g1 (app_process a) gl'
        (app_stdout a ++ lines_of (app_process a) (app_turn a) r) (S (app_turn a))) rs1)
        as (a' & -> & Hg & Hout); [done|done|].
      exists a'. split; [done|]. split; [done|]. rewrite Hout. simpl. by rewrite app_assoc.
Qed.

(** ** The chunks of one message, in any order *)

Section Chunks.
Context (cfg : Gelf.Config) (id : Z) (parts : list Bytes).
Abbreviation total := (Z.of_nat (length parts)).

Definition chunks_in (idx : list Z) : list Bytes :=
  (fun i => chunk id i total (part parts i)) <$> idx.

Fixpoint own_traffic (n : nat) (idx : list Z) : list traffic :=
  match idx with
  | [] => []
  | i :: idx' => Own (clock_gc n) (clock_ts n) i :: own_traffic (S n) idx'
  end.

Lemma readings_own n idx :
  readings n (chunks_in idx) = datagram_of id parts <$> own_traffic n idx.
Proof. revert n. induction idx as [|i idx IH]; intros n; simpl; [done|]. by rewrite IH. Qed.

Lemma own_indices_own n idx : own_indices (own_traffic n idx) = idx.
Proof. revert n. induction idx as [|i idx IH]; intros n; simpl; [done|]. by rewrite IH. Qed.

Lemma length_own_traffic n idx : length (own_traffic n idx) = length idx.
Proof. revert n. induction idx as [|i idx IH]; intros n; simpl; auto. Qed.

Lemma own_results_own {A} n idx (rs : list A) :
  length rs = length idx -> own_results (own_traffic n idx) rs = rs.
Proof.
  revert n rs. induction idx as [|i idx IH]; intros n [|r rs] Hlen; try done.
  injection Hlen as Hlen.
  change (r :: own_results (own_traffic (S n) idx) rs = r :: rs). by rewrite IH.
Qed.

Lemma chunks_in_nonempty idx : filter (fun d => d <> []) (chunks_in idx) = chunks_in idx.
Proof.
  induction idx as [|i idx IH]; [done|].
  change (chunks_in (i :: idx)) with (chunk id i total (part parts i) :: chunks_in idx).
  rewrite filter_cons_True by done. by rewrite IH.
Qed.

Lemma length_decode_all dgs s : length (decode_all dgs s).1 = length dgs.
Proof.
  revert s. induction dgs as [|dg dgs IH]; intros s; simpl; [done|].
  destruct (decode _ _ _ _) as [r s1]. specialize (IH s1).
  destruct (decode_all dgs s1). simpl in *. lia.
Qed.

Lemma lines_last self n k msg :
  lines self n (replicate k (Ok None) ++ [Ok (Some msg)])
    = lines_of self (n + k) (Ok (Some msg)).
Proof.
  revert n. induction k as [|k IH]; intros n; simpl.
  - by rewrite app_nil_r, Nat.add_0_r.
  - rewrite IH. by rewrite Nat.add_succ_r.
Qed.

Lemma calm_last self n k msg :
  is_panic (printed self (clock_now (S (n + k))) msg) = false ->
  calm self n (replicate k (Ok None) ++ [Ok (Some msg)]).
Proof.
  revert n. induction k as [|k IH]; intros n; simpl.
  - by rewrite Nat.add_0_r.
  - intros Hp. split; [done|]. apply IH. by rewrite <- Nat.add_succ_r.
Qed.
End Chunks.

(** ** Properties *)

(** What the UDP server prints is what the receiver completes: a run over
    datagrams goes on to the end, and prints, in order, the line of each
    complete message and nothing for chunks, errors and empty datagrams. *)
Lemma udp_run_prints (ds : list Bytes) (a : App) :
  let dgs := readings (app_turn a) (filter (fun d => d <> []) ds) in
  let '(rs, s) := decode_all dgs (mkRx (app_gelf a) (app_globals a)) in
  calm (app_process a) (app_turn a) rs ->
  exists a',
    udp_run INLINE_STRING_CAPACITY (CachedString := CachedString) str_debug buffers ds a
      = (Ok true, a') /\
    app_gelf a' = rx_gelf s /\
    app_stdout a' = app_stdout a ++ lines (app_process a) (app_turn a) rs.
Proof.
  intros dgs. destruct (decode_all_statics dgs (app_gelf a)) as (rs & g & E).
  destruct (E (app_globals a)) as [gl' E']. rewrite E'. intros Hcalm.
  by apply udp_run_lines.
Qed.
End Closures.

Section EndToEnd.
Context `{Profile} `{BytesApi} `{Libflate} `{DecimalApi} `{Humantime} {Number : Type}
  `{JsonNumber Number} `{ClefJson Number} `{!GelfJson Number} `{!GelfJsonLaws Number}.
Context (INLINE_STRING_CAPACITY : nat) {CachedString : Type} `{FromStrLaws CachedString}.
Context (str_debug : string -> string) (buffers : Message -> list nat) `{Clock}.

(** C2: a message sent in chunks that arrive in any order and in time, some of
    them perhaps several times before the last, is printed once, as the event of
    its reassembled and decompressed content; and nothing of it is kept. *)
Theorem server_prints_reassembled (cfg : Gelf.Config) (id : Z) (parts : list Bytes)
    (idx : list Z) (t0 : SystemTime) (a : App) (c : Bytes) (f : GelfFields Number)
    (payload line : string) (event : clef.Message Number) :
  (0 <= id < u64_modulus)%Z -> (0 <= t0)%Z ->
  (2 <= Z.of_nat (length parts) <= max_chunks_per_message cfg)%Z ->
  (Z.of_nat (length parts) < 256)%Z ->
  (Z.of_nat (length idx) <= incomplete_capacity cfg)%Z ->
  (Z.of_nat (length idx) < u64_modulus)%Z ->
  app_gelf a = Gelf_new cfg ->
  every_chunk (length parts) idx ->
  (let timeout := Duration_from_millis (incomplete_timeout_ms cfg) in
   forall n, app_turn a <= n < app_turn a + length idx ->
   (timeout <= clock_gc n <= t0 + timeout)%Z /\ (t0 <= clock_ts n)%Z) ->
  let msg := mkMessage (Chunked parts) in
  message_content msg = Some c -> Forall (lt 0) (buffers msg) ->
  (length c < length (buffers msg))%nat ->
  gelf_fields_from_slice c = Ok f ->
  (include_raw_payload (app_process a) = true -> from_utf8 c = Some payload) ->
  to_clef (clock_now (app_turn a + length idx))
    (message_of_content (app_process a) payload f) = Ok event ->
  Message_to_string event = Ok line ->
  exists a',
    udp_run INLINE_STRING_CAPACITY (CachedString := CachedString) str_debug buffers
      (chunks_in id parts idx) a = (Ok true, a') /\
    app_stdout a' = app_stdout a ++ [line] /\
    pending (app_gelf a') !! id = None.
Proof.
  intros Hid Ht0 Htotal Hmax Hcap Hlen64 Hg Hall Hclock msg Hc Hbuf Hlen Hf Hraw Hev Hline.
  assert (Hidx : (0 < length idx)%nat).
  { destruct Hall as (pre & last & -> & _). rewrite length_app. simpl. lia. }
  set (ts := own_traffic (app_turn a) idx).
  pose proof (reassembly cfg id parts t0 (app_globals a) [] ts Hid Ht0 Htotal Hmax) as Hr.
  cbv zeta in Hr. cbn [decode_all snd] in Hr.
  unfold ts in Hr. rewrite length_own_traffic, own_indices_own, <- readings_own in Hr.
  specialize (Hr ltac:(simpl; lia) ltac:(apply lookup_empty)).
  specialize (Hr ltac:(simpl; rewrite map_size_empty; lia)).
  assert (Ht : Forall (timely cfg id parts t0) (own_traffic (app_turn a) idx)).
  { clear -Hclock. revert Hclock.
    generalize (app_turn a) as n. induction idx as [|i idx IH]; intros n Hclock;
      simpl in *; [constructor|]. constructor; [|apply IH; intros; apply Hclock; lia].
    destruct (Hclock n) as [Hgc Hts]; [lia|]. split; [exact Hgc|exact Hts]. }
  specialize (Hr Ht Hall).
  pose proof (length_decode_all (readings (app_turn a) (chunks_in id parts idx))
    (mkRx (Gelf_new cfg) (app_globals a))) as Hlr.
  destruct (decode_all_statics (readings (app_turn a) (chunks_in id parts idx)) (Gelf_new cfg))
    as (rs & g & E).
  destruct (E (app_globals a)) as [gl' E']. rewrite E' in Hr, Hlr. destruct Hr as [Hrs Hnone].
  cbn [fst] in Hlr. rewrite readings_own, length_fmap, length_own_traffic in Hlr.
  rewrite own_results_own in Hrs by done. cbn [rx_gelf] in Hnone.
  assert (Hp : printed INLINE_STRING_CAPACITY (CachedString := CachedString) str_debug buffers
    (app_process a) (clock_now (S (app_turn a + (length idx - 1)))) msg = Ok [line]).
  { unfold printed. replace (S (app_turn a + (length idx - 1)))
      with (app_turn a + length idx)%nat by lia.
    rewrite (event_of_content INLINE_STRING_CAPACITY str_debug _ _ _ msg c f payload)
      by done. by rewrite Hev, Hline. }
  destruct (udp_run_lines INLINE_STRING_CAPACITY (CachedString := CachedString) str_debug
    buffers (chunks_in id parts idx) a rs g) as (a' & Hrun & Hg' & Hout).
  { rewrite chunks_in_nonempty, Hg. exact E. }
  { rewrite Hrs. apply calm_last. fold msg. by rewrite Hp. }
  exists a'. split; [exact Hrun|]. rewrite Hg'. split; [|exact Hnone].
  rewrite Hout, Hrs, lines_last. unfold lines_of. fold msg. by rewrite Hp.
Qed.
End EndToEnd.

(** ** Witnesses *)

Section Witnesses.
#[local] Existing Instances Release bytes_model libflate_fixture decimal_model
  humantime_fixture Z_json_number clef_json_fixture gelf_json_fixture.

(** A clock that stands at the first second. *)
#[local] Instance still_clock : Clock := {|
  clock_gc _ := nanos_per_sec;
  clock_ts _ := nanos_per_sec;
  clock_now _ := nanos_per_sec
|}.

Definition sample_config : Gelf.Config := Gelf.mkConfig 8 128 1000.
Definition sample_app : App :=
  mkApp (Gelf_new sample_config) (mkProcess false) Globals_initial [] 0.
Definition sample_parts : list Bytes :=
  String.list_byte_of_string <$> ["te"; "xt"]%string.
Definition sample_content : GelfFields Z :=
  mkGelfFields None None (VisitBorrowedStr "text") None None None None None None
    (Some (VObject [])).
Definition sample_event : clef.Message Z :=
  ok_or (clef.from_message "") (to_clef nanos_per_sec (gelf_text sample_content)).

(** Two chunks of a message in reverse, one of them twice, print one line. *)
Lemma server_prints_reassembled_witness :
  exists a',
    udp_run 16 (CachedString := string) id (fun _ => replicate 5 1)
      (chunks_in 7 sample_parts [1; 1; 0]%Z) sample_app = (Ok true, a') /\
    app_stdout a' = ["@t,@l,@m"]%string.
Proof.
  destruct (server_prints_reassembled (Number := Z) 16 (CachedString := string) id
    (fun _ => replicate 5 1) sample_config 7 sample_parts [1; 1; 0]%Z nanos_per_sec sample_app
    (String.list_byte_of_string "text") sample_content "text" "@t,@l,@m" sample_event)
    as (a' & Hrun & Hout & _); [done|done|done|done|done|done|done|
    |done|reflexivity|repeat constructor|simpl; lia|reflexivity|discriminate| | |].
  - exists [1; 1]%Z, 0%Z. split; [done|]. split; [by set_unfold; naive_solver|].
    intros i. set_unfold. simpl. lia.
  - apply ok_or_eq. vm_compute. reflexivity.
  - vm_compute. reflexivity.
  - exists a'. split; [exact Hrun|exact Hout].
Defined.

(** An unchunked datagram between two empty ones. *)
Lemma udp_run_prints_example :
  exists a',
    udp_run 16 (CachedString := string) id (fun _ => replicate 5 1)
      [[]; String.list_byte_of_string "text"; []] sample_app = (Ok true, a') /\
    app_stdout a' = ["@t,@l,@m"]%string.
Proof.
  pose proof (udp_run_prints (Number := Z) 16 (CachedString := string) id
    (fun _ => replicate 5 1) [[]; String.list_byte_of_string "text"; []] sample_app) as Hp.
  cbv zeta in Hp.
  destruct (decode_all _ _) as [rs s] eqn:E.
  assert (Hrs : rs = [Ok (Some (mkMessage (Single None (String.list_byte_of_string "text"))))])
    by (vm_compute in E; simplify_eq; reflexivity).
  subst rs. destruct Hp as (a' & Hrun & _ & Hout).
  - split; [|exact I]. vm_compute. reflexivity.
  - exists a'. split; [exact Hrun|]. rewrite Hout. vm_compute. reflexivity.
Defined.
End Witnesses.
