(* ===== verification/Failures.v ===== *)
(** What becomes of a message whose event cannot be written. *)

From S2P Require Import Prelude BTree Diagnostics Io Message MessageThms ChunkRead Gelf.
From S2P Require Import GelfInv ReceiveThms Received Json Utf8 Str Clef Process Conversion.
From S2P Require Import Processing Server App AppThms Fixtures.

Section Failures.
Context `{Profile} `{BytesApi} `{Libflate} `{DecimalApi} `{Humantime} {Number : Type}
  `{JsonNumber Number} `{ClefJson Number} `{!GelfJson Number} `{!GelfJsonLaws Number}.
Context (INLINE_STRING_CAPACITY : nat) {CachedString : Type} `{FromStrLaws CachedString}.
Context (str_debug : string -> string) (buffers : Message -> list nat) `{Clock}.

Lemma stderr_increment grp name g : stderr (increment grp name g) = stderr g.
Proof. unfold increment. destruct (MinLevel_includes LDebug g); [by destruct grp|done]. Qed.

(** An event whose time has no text. *)
Lemma Message_to_string_no_time (c : clef.Message Number) t :
  clef.timestamp c = Some t -> format_rfc3339 (timestamp_0 t) = None ->
  Message_to_string c = json_collect_str_failed.
Proof.
  intros Ht Hf. unfold Message_to_string, Message_members, Timestamp_serialize.
  by rewrite Ht, Hf.
Qed.

(** A plain message has the time its sender gives it, however far. *)
Lemma to_clef_sender_time {TS TM} `{AsRef TS, AsRef TM}
    (self : gelf.Message Number TS TM) now ts t :
  maybe_from_json (as_ref (gelf.short_message self)) = None ->
  gelf.timestamp self = Some ts -> Timestamp_from_decimal ts = Ok (Some t) ->
  exists c, to_clef now self = Ok c /\ clef.timestamp c = Some t.
Proof.
  intros Hplain Hts Ht. unfold to_clef, to_clef_timestamp, embedded_event.
  rewrite Hplain. cbn [default from_option clef.timestamp clef.from_message clef.additional].
  rewrite find_first_empty. cbn [option_bind mbind]. rewrite Hts, Ht. simpl. by eexists.
Qed.

Lemma message_of_content_plain self payload (f : GelfFields Number) :
  let m := message_of_content self payload f in
  gelf.short_message m = as_ref (gf_short_message f) /\ gelf.timestamp m = gf_timestamp f.
Proof.
  unfold message_of_content, add. destruct (include_raw_payload self); [|done].
  cbn [gelf_text gelf_visit gelf.additional].
  repeat case_match; done.
Qed.

Abbreviation udp_run :=
  (udp_run INLINE_STRING_CAPACITY (CachedString := CachedString) str_debug buffers).

(** A message whose event has a time without a text. *)
Lemma printed_no_time self now msg c (f : GelfFields Number) payload ts t :
  message_content msg = Some c -> Forall (lt 0) (buffers msg) ->
  (length c < length (buffers msg))%nat -> gelf_fields_from_slice c = Ok f ->
  (include_raw_payload self = true -> from_utf8 c = Some payload) ->
  maybe_from_json (as_ref (gf_short_message f)) = None ->
  gf_timestamp f = Some ts -> Timestamp_from_decimal ts = Ok (Some t) ->
  format_rfc3339 (timestamp_0 t) = None ->
  printed INLINE_STRING_CAPACITY (CachedString := CachedString) str_debug buffers self now msg =
    match json_collect_str_failed with
    | Ok line => Ok [line]
    | Err _ => Ok []
    | Panic w => Panic w
    end.
Proof.
  intros Hc Hbuf Hlen Hf Hraw Hplain Hts Ht Hfmt.
  destruct (message_of_content_plain self payload f) as [Hm Hmt].
  destruct (to_clef_sender_time (message_of_content self payload f) now ts t)
    as (ev & Hev & Htime); [by rewrite Hm|congruence|done|].
  unfold printed.
  rewrite (event_of_content INLINE_STRING_CAPACITY str_debug _ _ _ msg c f payload) by done.
  by rewrite Hev, (Message_to_string_no_time ev _ Htime Hfmt).
Qed.

(** C16: a timestamp of a sender converts as soon as the system clock could show
    it, whether it has a text in RFC 3339 or not. When it has none, what becomes of
    the datagram is what [serde_json] makes of a value that cannot be displayed: no
    line is printed unless it makes one. If it gives an error, the message is lost:
    the server goes on as if it had been printed, and logs nothing. If it panics,
    the program does, whose loop reads no later datagram: nothing between the
    processor and [main] catches the panic. *)
Theorem unprintable_timestamp (src : Bytes) (later : list Bytes) (a : App) (c : Bytes)
    (f : GelfFields Number) (payload : string) (ts : Decimal) (t : Timestamp) :
  src <> [] -> peek_magic_bytes src <> Some MAGIC_CHUNKED ->
  let msg := mkMessage (Single (detect_bytes src) src) in
  message_content msg = Some c -> Forall (lt 0) (buffers msg) ->
  (length c < length (buffers msg))%nat ->
  gelf_fields_from_slice c = Ok f ->
  (include_raw_payload (app_process a) = true -> from_utf8 c = Some payload) ->
  maybe_from_json (as_ref (gf_short_message f)) = None ->
  gf_timestamp f = Some ts -> Timestamp_from_decimal ts = Ok (Some t) ->
  format_rfc3339 (timestamp_0 t) = None ->
  exists a',
    udp_run (src :: later) a =
      match json_collect_str_failed with
      | Panic w => (Panic w, a')
      | _ => udp_run later a'
      end /\
    app_stdout a' = app_stdout a ++
      match json_collect_str_failed with Ok line => [line] | _ => [] end /\
    stderr (app_globals a') = stderr (app_globals a).
Proof.
  intros Hne Hmagic msg Hc Hbuf Hlen Hf Hraw Hplain Hts Ht Hfmt.
  cbn [App.udp_run]. unfold m_bind, udp_turn, udp_decode. cbn [udp_src udp_receive].
  rewrite split_to_ok by done. rewrite firstn_all.
  destruct (Nat.eqb_spec (length src) 0) as [Hz|_]; [by apply nil_length_inv in Hz|].
  simpl. unfold app_receive. rewrite decode_unchunked, decide_False by done.
  cbn [into_received loop_turn]. fold msg.
  unfold m_bind, on_statics, m_modify. cbn [on_globals App_Statics udp_receive rx_gelf
    rx_globals app_gelf app_process app_globals app_stdout app_turn].
  match goal with |- context [app_process_message _ _ _ msg ?b] =>
    epose proof (app_process_eq INLINE_STRING_CAPACITY (CachedString := CachedString) str_debug
      buffers msg b : app_process_message INLINE_STRING_CAPACITY (CachedString := CachedString)
        str_debug buffers msg b = _) as E end.
  cbv zeta in E. cbn [process App_Processor app_process app_turn app_gelf app_globals app_stdout] in E.
  rewrite (printed_no_time (app_process a) _ msg c f payload ts t) in E by done.
  rewrite E. clear E.
  destruct json_collect_str_failed as [line|e|w]; cbn; eexists;
    (split; [reflexivity|split; [done|]]); cbn; by rewrite !stderr_increment.
Qed.
End Failures.

(** ** A witness *)

Section Witnesses.
#[local] Existing Instances Release bytes_model libflate_fixture decimal_model
  humantime_fixture Z_json_number clef_json_fixture.
#[local] Instance still_clock : Clock := AppThms.still_clock.

(** Every message is sent with the first second of the year 10000, for which the
    sample of [humantime] has no text; its [serde_json] panics. *)
Definition year_10000 : SystemTime := (253402300800 * nanos_per_sec)%Z.
Definition far_decimal : decimal := mkDecimal false 253402300800 0.
#[local] Instance far_json : GelfJson Z := gelf_json_at (Some far_decimal).

Definition far_text : Bytes := String.list_byte_of_string "text".
Definition far_fields : GelfFields Z :=
  mkGelfFields None None (VisitBorrowedStr "text") None (Some far_decimal) None None None None
    (Some (VObject [])).

Lemma unprintable_timestamp_witness :
  exists a',
    udp_run 16 (CachedString := string) id (fun _ => replicate 5 1) [far_text; far_text]
      sample_app = (Panic "there should be an error", a') /\ app_stdout a' = [].
Proof.
  destruct (unprintable_timestamp (Number := Z) 16 (CachedString := string) id
    (fun _ => replicate 5 1) far_text [far_text] sample_app far_text far_fields "text"
    far_decimal (mkTimestamp year_10000)) as (a' & Hrun & Hout & _);
    [done|done|done|repeat constructor|simpl; lia|reflexivity|done|done|reflexivity
    |vm_compute; reflexivity|vm_compute; reflexivity|].
  exists a'. split; [exact Hrun|exact Hout].
Defined.
End Witnesses.
