(* ===== verification/Program.v ===== *)
(** The running program ([sqelf/src/main.rs]): the main thread in the loop of the
    server, the thread that waits for the end of stdin with the handle, and the
    metrics thread. Their turns come in any order and share the statics. *)

From S2P Require Import Prelude Diagnostics Message Received Stream ServerConfig AppConfig.
From S2P Require Import Server ServerThms TcpListen Interleaving Serve Main.

(** ** Threads *)

Section Threads.
Context {L P : Type} `{Stream L (Received + error)} `{Processor P}.

(** [rn_listening]: the thread on stdin is in its loop, with the handle.
    [rn_closing]: the handle was closed, and the loop has not been told yet. *)
Record Running := mkRunning {
  rn_server : L * P;
  rn_listening : bool;
  rn_closing : bool
}.

(** A turn of the main thread, which was woken; a read of stdin that returns; a
    timeout of the metrics thread. A thread that is not there has none. *)
Inductive turn :=
| MainTurn (w : wake L)
| StdinTurn (read : nat + error)
| MetricsTurn.

Definition on_server {A} (m : M (L * P) A) : M Running A :=
  m_zoom rn_server (fun ls s => mkRunning ls (rn_listening s) (rn_closing s)) m.

(** The metrics thread between two reports, when [init] has started it. *)
Definition metrics_timeout (g : Globals) : Globals :=
  match DIAGNOSTICS g with
  | Some (mkDiagnostics (Some true)) => (metrics_thread_turn RecvElapsed g).2
  | _ => g
  end.

(** One turn: [true] when the loop of the server goes on. The loop is woken by
    the handle only when it was closed. *)
Definition take_turn (t : turn) : M Running bool :=
  match t with
  | MainTurn WakeClose =>
      let! s := m_get in
      if rn_closing s then on_server (serve_turn WakeClose) else m_ret true
  | MainTurn w => on_server (serve_turn w)
  | StdinTurn read =>
      m_modify (fun s =>
        if rn_listening s && negb (stdin_turn read)
        then mkRunning (rn_server s) false (Handle_close true).1
        else s) ;;;
      m_ret true
  | MetricsTurn => on_server (on_process (on_statics metrics_timeout)) ;;; m_ret true
  end.

Fixpoint threads (ts : list turn) : M Running bool :=
  match ts with
  | [] => m_ret true
  | t :: ts' =>
      let! goes_on := take_turn t in
      if goes_on : bool then threads ts' else m_ret false
  end.

(** The reads of stdin. *)
Definition stdin_reads (ts : list turn) : list (nat + error) :=
  omap (fun t => match t with StdinTurn read => Some read | _ => None end) ts.

(** The polls of the stream in a turn, and in the turns as far as the loop goes
    on. *)
Definition main_polls (t : turn) (s : Running) : list (poll L (Received + error)) :=
  match t with MainTurn w => turn_polls w (rn_server s) | _ => [] end.

Fixpoint threads_polls (ts : list turn) (s : Running) : list (poll L (Received + error)) :=
  match ts with
  | [] => []
  | t :: ts' =>
      main_polls t s ++
      match take_turn t s with
      | (Ok true, s') => threads_polls ts' s'
      | _ => []
      end
  end.
End Threads.
Arguments turn L {_}.
Arguments Running : clear implicits.

(** ** What the threads do to the loop *)

Section Laws.
Context {L P : Type} `{Stream L (Received + error)} `{ProcessorStatics P}.
Implicit Types (s : Running L P) (ts : list (turn L)).

(** Why the loop may have stopped: the handle was closed, which only the thread
    on stdin does, at the end of stdin; a signal; or an error of the stream. *)
Definition stops (listening closing : bool) ts (items : list (Received + error)) : Prop :=
  closing = true \/ (listening = true /\ listen_for_stdin_closed (stdin_reads ts) = true) \/
  MainTurn WakeCtrlC ∈ ts \/ exists e, inr e ∈ items.

Lemma take_turn_served l0 p0 t polls s items :
  served l0 p0 polls (rn_server s) items ->
  wp (take_turn t)
    (fun b s1 => exists items1,
       served l0 p0 (polls ++ main_polls t s) (rn_server s1) (items ++ items1) /\
       (b = false -> rn_closing s = true \/ t = MainTurn WakeCtrlC \/ exists e, inr e ∈ items1) /\
       match t with
       | StdinTurn read =>
           if rn_listening s && negb (stdin_turn read)
           then rn_listening s1 = false /\ rn_closing s1 = true
           else rn_listening s1 = rn_listening s /\ rn_closing s1 = rn_closing s
       | _ => rn_listening s1 = rn_listening s /\ rn_closing s1 = rn_closing s
       end)
    (fun o _ => o = None -> panicked l0 p0 (polls ++ main_polls t s)) s.
Proof.
  intros Hs. assert (Hserve : forall w, wp (on_server (serve_turn w))
    (fun b s1 => exists items1,
       served l0 p0 (polls ++ turn_polls w (rn_server s)) (rn_server s1) (items ++ items1) /\
       (b = false -> is_shutdown w = true \/ exists e, inr e ∈ items1) /\
       rn_listening s1 = rn_listening s /\ rn_closing s1 = rn_closing s)
    (fun o _ => o = None -> panicked l0 p0 (polls ++ turn_polls w (rn_server s))) s).
  { intros w. apply wp_zoom. eapply wp_mono; [by apply serve_turn_served| |done].
    intros b st (items1 & Hs1 & Hstop). by exists items1. }
  assert (Hstay : exists items1, served l0 p0 (polls ++ []) (rn_server s) (items ++ items1))
    by (exists []; by rewrite !app_nil_r).
  destruct t as [[i| |]|read|]; cbn [take_turn].
  - eapply wp_mono; [apply (Hserve (WakeIncoming i))| |done].
    intros b s1 (items1 & Hs1 & Hb & Hl). exists items1. split; [done|]. split; [|done].
    intros Hf. by destruct (Hb Hf); [|auto].
  - apply wp_bind, wp_get. destruct (rn_closing s) eqn:Hc.
    + eapply wp_mono; [apply (Hserve WakeClose)| |done].
      intros b s1 (items1 & Hs1 & _ & Hl). exists items1. split; [done|]. split; [by left|done].
    + apply wp_ret. destruct Hstay as [items1 ?]. by exists items1.
  - eapply wp_mono; [apply (Hserve WakeCtrlC)| |done].
    intros b s1 (items1 & Hs1 & _ & Hl). exists items1. split; [done|]. split; [by auto|done].
  - apply wp_bind, wp_modify, wp_ret. destruct Hstay as [items1 ?]. exists items1.
    destruct (rn_listening s && negb (stdin_turn read)); by split.
  - destruct s as [[l p] listening closing]. apply wp_bind, wp_zoom, wp_zoom, wp_modify, wp_ret.
    exists []. cbn [main_polls]. rewrite !app_nil_r. split; [|done]. destruct Hs as [Hg Hs]. split; [done|].
    cbn in *. by rewrite same_state_on.
Qed.

(** The turns that [stops] tells of, with one more before them. *)
Lemma stops_cons t ts s s1 items1 items2 :
  match t with
  | StdinTurn read =>
      if rn_listening s && negb (stdin_turn read)
      then rn_listening s1 = false /\ rn_closing s1 = true
      else rn_listening s1 = rn_listening s /\ rn_closing s1 = rn_closing s
  | _ => rn_listening s1 = rn_listening s /\ rn_closing s1 = rn_closing s
  end ->
  stops (rn_listening s1) (rn_closing s1) ts items2 ->
  stops (rn_listening s) (rn_closing s) (t :: ts) (items1 ++ items2).
Proof.
  intros Hl Hstop.
  assert (Hrest : rn_closing s1 = rn_closing s -> rn_listening s1 = rn_listening s ->
    (rn_listening s = true -> listen_for_stdin_closed (stdin_reads (t :: ts)) =
       listen_for_stdin_closed (stdin_reads ts)) ->
    stops (rn_listening s) (rn_closing s) (t :: ts) (items1 ++ items2)).
  { intros Hc Hli Hreads. unfold stops in *. rewrite Hc, Hli in Hstop.
    destruct Hstop as [?|[[? Hr]|[?|[e He]]]]; [by left| | |].
    - right. left. rewrite Hreads by done. by split.
    - do 2 right. left. by right.
    - do 3 right. exists e. apply elem_of_app. by right. }
  destruct t as [w|read|]; [by destruct Hl; apply Hrest| |by destruct Hl; apply Hrest].
  destruct (rn_listening s) eqn:Hlis, (stdin_turn read) eqn:Hread; cbn [andb negb] in Hl;
    destruct Hl as [Hl Hc]; try (apply Hrest; [done..|]).
  - intros _. cbn [stdin_reads omap list_omap listen_for_stdin_closed]. by rewrite Hread.
  - right. left. split; [done|]. cbn [stdin_reads omap list_omap listen_for_stdin_closed].
    by rewrite Hread.
  - done.
  - done.
Qed.

(** The server serves as it would alone, and stops only for a reason. *)
Lemma threads_served l0 p0 ts polls s items :
  served l0 p0 polls (rn_server s) items ->
  wp (threads ts)
    (fun b s' => exists items',
       served l0 p0 (polls ++ threads_polls ts s) (rn_server s') (items ++ items') /\
       (b = false -> stops (rn_listening s) (rn_closing s) ts items'))
    (fun o _ => o = None -> panicked l0 p0 (polls ++ threads_polls ts s)) s.
Proof.
  revert polls s items. induction ts as [|t ts IH]; intros polls s items Hs;
    cbn [threads threads_polls].
  { apply wp_ret. exists []. by rewrite !app_nil_r. }
  pose proof (take_turn_served l0 p0 t polls s items Hs) as Ht. unfold wp in Ht.
  apply wp_bind. unfold wp at 1.
  destruct (take_turn t s) as [[[]|e|w] s1]; rewrite ?app_nil_r, ?app_assoc; [..|done].
  - destruct Ht as (items1 & Hs1 & _ & Hl).
    eapply wp_mono; [by apply IH| |done]. intros b s' (items2 & Hs2 & Hstop).
    exists (items1 ++ items2). rewrite app_assoc. split; [done|]. intros Hf.
    by apply (stops_cons _ _ _ s1), Hstop.
  - destruct Ht as (items1 & Hs1 & Hb & _). apply wp_ret. exists items1.
    split; [done|]. intros _.
    destruct (Hb eq_refl) as [?|[->|He]]; [by left|do 2 right; left; by left|by do 3 right].
  - done.
Qed.
End Laws.

(** ** The loop comes to no end of its own *)

Section Total.
Context {L P : Type} `{Stream L (Received + error)} `{Processor P}.
Context (linv : L -> Prop).
(** The stream does not end, and no poll of it panics, and it leaves the life
    cycle of the diagnostics alone, as [process] does. *)
Context (Hpoll : forall i l g, linv l ->
  wp (poll_next i l)
    (fun '(p, l') g' => linv l' /\ p <> Ready None /\ DIAGNOSTICS g' = DIAGNOSTICS g)
    (fun _ _ => False) g).
Context (Hdiag : forall msg (p : P),
  DIAGNOSTICS (globals_of (process msg p).2) = DIAGNOSTICS (globals_of p)).
Context (d : option Diagnostics).

(** A turn of the loop that keeps the life cycle. *)
Definition keeps_life (m : M P bool) : Prop := forall p, DIAGNOSTICS (globals_of p) = d ->
  wp m (fun _ p' => DIAGNOSTICS (globals_of p') = d) (panics True) p.

Lemma keeps_ret b : keeps_life (m_ret b).
Proof. intros p Hp. by apply wp_ret. Qed.

Lemma keeps_statics f m :
  (forall g, DIAGNOSTICS (f g) = DIAGNOSTICS g) -> keeps_life m ->
  keeps_life (on_statics f ;;; m).
Proof.
  intros Hf Hm p Hp. apply wp_bind, wp_modify, Hm. by rewrite globals_of_on, Hf.
Qed.
#[local] Hint Resolve keeps_ret keeps_statics DIAGNOSTICS_increment DIAGNOSTICS_emit
  DIAGNOSTICS_emit_err : core.

Lemma loop_turn_keeps ev : ev <> Incoming None -> keeps_life (loop_turn ev).
Proof.
  intros Hev. destruct ev as [[[[|msg|err]|err]|]| |]; cbn [loop_turn]; auto; [|done].
  apply keeps_statics; [apply DIAGNOSTICS_increment|]. intros p Hp. unfold wp.
  pose proof (Hdiag msg p) as Hd.
  destruct (process msg p) as [[u|e|w] p2]; simpl in Hd.
  - apply (keeps_statics (increment GServer "process_ok") (m_ret true)); auto. congruence.
  - apply (keeps_statics (increment GServer "process_err")
      (on_statics (emit_err e "GELF processing failed") ;;; m_ret true)); auto. congruence.
  - done.
Qed.

(** The state of the server between turns. *)
Definition server_inv (st : L * P) : Prop := linv st.1 /\ DIAGNOSTICS (globals_of st.2) = d.

Lemma serve_turn_keeps w (st : L * P) :
  server_inv st -> wp (serve_turn w) (fun _ => server_inv) (panics True) st.
Proof.
  destruct st as [l p]. intros [Hl Hp]. cbn [fst snd] in *.
  assert (Hturn : forall ev l p, ev <> Incoming None -> linv l -> DIAGNOSTICS (globals_of p) = d ->
    wp (on_process (L := L) (loop_turn ev)) (fun _ => server_inv) (panics True) (l, p)).
  { intros ev l1 p1 Hev Hl1 Hp1. apply wp_zoom. cbn [fst snd].
    eapply wp_mono; [by apply loop_turn_keeps|done..]. }
  destruct w as [i| |]; cbn [serve_turn]; [|by apply Hturn..].
  apply wp_bind. unfold wp at 1, poll_incoming.
  pose proof (Hpoll i l (globals_of p) Hl) as Ht. unfold wp in Ht.
  destruct (poll_next i l (globals_of p)) as [[[item l']|e|w] g]; [|done..].
  destruct Ht as (Hl' & Hne & Hg).
  assert (Hp' : DIAGNOSTICS (globals_of (with_statics g p)) = d)
    by (unfold with_statics; by rewrite globals_of_on, Hg).
  destruct item as [msg|]; [|done]. apply Hturn; [congruence|done..].
Qed.

Lemma metrics_timeout_keeps g : DIAGNOSTICS (metrics_timeout g) = DIAGNOSTICS g.
Proof.
  unfold metrics_timeout. destruct (DIAGNOSTICS g) as [[[[]|]]|] eqn:E; [|done..].
  by rewrite <- E; apply DIAGNOSTICS_emit_metrics.
Qed.

(** The threads come to no error. *)
Lemma threads_total (ts : list (turn L)) (s : Running L P) :
  server_inv (rn_server s) ->
  wp (threads ts) (fun _ s' => server_inv (rn_server s')) (panics True) s.
Proof.
  revert s. induction ts as [|t ts IH]; intros s Hs; [done|]. cbn [threads].
  assert (Hserve : forall w, wp (on_server (serve_turn w)) (fun _ s' => server_inv (rn_server s'))
    (panics True) s).
  { intros w. apply wp_zoom. by apply serve_turn_keeps. }
  apply wp_bind. eapply (wp_mono _ (fun _ s' => server_inv (rn_server s')));
    [| |intros o s' Hs'; exact Hs'].
  - destruct t as [[i| |]|read|]; cbn [take_turn]; [apply (Hserve (WakeIncoming i))| |
      apply (Hserve WakeCtrlC)| |].
    + apply wp_bind, wp_get. destruct (rn_closing s); [apply (Hserve WakeClose)|by apply wp_ret].
    + apply wp_bind, wp_modify, wp_ret. by destruct (rn_listening s && negb (stdin_turn read)).
    + apply wp_bind, wp_zoom, wp_zoom, wp_modify, wp_ret. destruct Hs as [Hl Hd]. split; [done|].
      cbn. by rewrite globals_of_on, metrics_timeout_keeps.
  - intros goes_on s' Hs'. destruct goes_on; [by apply IH|done].
Qed.
End Total.

(** Once the handle is closed, the loop stops when it is told. *)
Lemma threads_close {L P : Type} `{Stream L (Received + error)} `{Processor P}
    (ts : list (turn L)) (s : Running L P) :
  rn_closing s = true -> (threads (MainTurn WakeClose :: ts) s).1 = Ok false.
Proof.
  intros Hc. cbn [threads take_turn]. unfold m_bind at 1 2, m_get. rewrite Hc.
  unfold on_server, m_zoom. destruct s as [[l p] listening closing]. cbn.
  unfold on_process, m_zoom. cbn. done.
Qed.
