(* ===== verification/TcpApp.v ===== *)
(** The program over TCP: each connection has its own clone of the [receive]
    closure, all share the [process] closure, and what the peers send comes out
    as lines ([sqelf/src/main.rs], [sqelf/src/server]). *)

From S2P Require Import Prelude Diagnostics Io Message ChunkRead Gelf GelfInv ReceiveTypes.
From S2P Require Import Received Stream Framed.
From S2P Require Import TcpDecode TcpFraming Connection TcpListen ListenThms Interleaving Listener.
From S2P Require Import Pipeline Json Str Clef Process Fixtures Server ServerThms Serve App AppThms.

(** ** The closures *)

(** [receive.clone()] in a connection: the receiver, with the statics and the
    readings of the clock its calls will make. *)
Record Closure := mkClosure {
  cl_gelf : Gelf;
  cl_globals : Globals;
  cl_turn : nat;
  cl_gc : nat -> SystemTime;
  cl_ts : nat -> SystemTime
}.

#[export, refine] Instance Closure_Statics : Statics Closure := {|
  globals_of := cl_globals;
  on_globals f c := mkClosure (cl_gelf c) (f (cl_globals c)) (cl_turn c) (cl_gc c) (cl_ts c)
|}.
Proof. all: solve_statics. Defined.

Section Closures.
Context `{Profile} `{BytesApi}.

Definition closure_receive (src : Bytes) : M Closure (option Message) := fun c =>
  let '(r, s) := decode (cl_gc c (cl_turn c)) (cl_ts c (cl_turn c)) src
                   (mkRx (cl_gelf c) (cl_globals c)) in
  (r, mkClosure (rx_gelf s) (rx_globals s) (1 + cl_turn c) (cl_gc c) (cl_ts c)).

#[export] Instance Closure_Receiver : Receiver Closure := {| receive := closure_receive |}.

(** A call depends on the statics in nothing but what it adds to them. *)
Lemma closure_receive_eq src c :
  exists r g' f, receiver_effect f /\ forall gl,
    receive src (mkClosure (cl_gelf c) gl (cl_turn c) (cl_gc c) (cl_ts c)) =
      (r, mkClosure g' (f gl) (S (cl_turn c)) (cl_gc c) (cl_ts c)).
Proof.
  destruct (decode_statics (cl_gc c (cl_turn c)) (cl_ts c (cl_turn c)) src (cl_gelf c))
    as (r & g' & f & Hf & E).
  exists r, g', f. split; [done|]. intros gl. cbn. unfold closure_receive. cbn. by rewrite E.
Qed.

#[export] Instance Closure_ReceiverStatics : ReceiverStatics Closure.
Proof.
  constructor. intros bs [g gl t k1 k2] [g' gl' t' k1' k2'] [= -> -> -> ->].
  destruct (closure_receive_eq bs (mkClosure g' gl t' k1' k2')) as (r & g1 & f & _ & E).
  cbn [cl_gelf cl_turn cl_gc cl_ts] in E. by rewrite !E.
Qed.

Lemma receiver_effect_counters f g : receiver_effect f -> conn_counters (f g) = conn_counters g.
Proof. induction 1 as [|field f _ IH]; [done|]. by rewrite conn_counters_increment. Qed.

#[export] Instance Closure_ReceiverCounters : ReceiverCounters Closure.
Proof.
  constructor. intros bs c. destruct (closure_receive_eq bs c) as (r & g1 & f & Hf & E).
  destruct c as [g gl t k1 k2]. cbn [cl_gelf cl_turn cl_gc cl_ts] in E. rewrite E.
  by apply receiver_effect_counters.
Qed.

(** A clock whose readings are late enough for garbage collection to subtract the
    timeout from them. *)
Definition in_time (config : Gelf.Config) (clock : nat -> SystemTime) : Prop := forall n,
  is_panic (UniqueTimestamp_since (clock n)
              (Duration_from_millis (incomplete_timeout_ms config))) = false.

(** In a release build, on such a clock, no call panics. *)
#[export, refine] Instance Closure_ReceiverSteady : ReceiverSteady Closure := {|
  steady c := debug_assertions = false /\ in_time (config (cl_gelf c)) (cl_gc c)
|}.
Proof.
  - intros [g gl t k1 k2] [g' gl' t' k1' k2'] [= -> -> -> ->]. done.
  - intros bs [g gl t k1 k2] [Hrel Hin]. cbn [cl_gelf cl_gc] in Hin.
    cbn [receive Closure_Receiver]. unfold closure_receive.
    cbn [cl_gelf cl_globals cl_turn cl_gc cl_ts].
    pose proof (decode_calm (k1 t) (k2 t) bs g gl Hrel (Hin t)) as Hd.
    destruct (decode _ _ _ _) as [r s]. destruct Hd as [Hr Hc]. split; [done|]. split; [done|].
    cbn [snd cl_gelf cl_gc]. by rewrite Hc.
Defined.
End Closures.

(** The [process] closure: the processor, with the statics, stdout, and the
    number of its calls. *)
Record Printer := mkPrinter {
  pr_process : Process;
  pr_globals : Globals;
  pr_stdout : list string;
  pr_turn : nat
}.

#[export, refine] Instance Printer_Statics : Statics Printer := {|
  globals_of := pr_globals;
  on_globals f p := mkPrinter (pr_process p) (f (pr_globals p)) (pr_stdout p) (pr_turn p)
|}.
Proof. all: solve_statics. Defined.

Section Printing.
Context `{Profile} `{BytesApi} `{Libflate} `{DecimalApi} `{Humantime} {Number : Type}
  `{JsonNumber Number} `{ClefJson Number} `{!GelfJson Number}.
Context (INLINE_STRING_CAPACITY : nat) {CachedString : Type}
  `{AsRef CachedString} `{FromStr CachedString}.
Context (str_debug : string -> string) (buffers : Message -> list nat) (now : nat -> SystemTime).

Definition printer_process (msg : Message) : M Printer unit := fun p =>
  let '(r, s) := read_as_clef INLINE_STRING_CAPACITY (CachedString := CachedString)
                   str_debug (pr_process p) (now (pr_turn p)) (buffers msg) msg
                   (mkProcessState (pr_globals p) (pr_stdout p)) in
  (r, mkPrinter (pr_process p) (ps_globals s) (ps_stdout s) (1 + pr_turn p)).

Definition Printer_Processor : Processor Printer := {| Server.process := printer_process |}.
#[local] Existing Instance Printer_Processor.

Abbreviation printed :=
  (printed INLINE_STRING_CAPACITY (CachedString := CachedString) str_debug buffers).

(** The lines of complete messages, the first of which is the [n]-th. *)
Fixpoint printed_all (self : Process) (n : nat) (msgs : list Message) : list string :=
  match msgs with
  | [] => []
  | msg :: msgs' =>
      (match printed self (now n) msg with Ok lines => lines | _ => [] end)
      ++ printed_all self (S n) msgs'
  end.

Lemma printer_process_eq msg p :
  process msg p =
    let r := printed (pr_process p) (now (pr_turn p)) msg in
    ((fun _ => tt) <$> r,
     mkPrinter (pr_process p) (increment GProcess "msg" (pr_globals p))
       (pr_stdout p ++ (match r with Ok lines => lines | _ => [] end)) (S (pr_turn p))).
Proof.
  simpl. unfold printer_process, AppThms.printed, read_as_clef, with_clef, m_bind, m_modify,
    m_lift. destruct (event_of _ _ _ _ _ _) as [clef|e|w]; simpl; rewrite ?app_nil_r; try done.
  destruct (Message_to_string clef) as [line|e|w]; simpl; by rewrite ?app_nil_r.
Qed.

#[export] Instance Printer_ProcessorStatics : ProcessorStatics Printer.
Proof.
  constructor. intros msg [self g out t] [self' g' out' t'] [= -> -> ->].
  by rewrite !printer_process_eq.
Qed.

Lemma process_all_printed msgs p :
  pr_stdout (process_all msgs p) = pr_stdout p ++ printed_all (pr_process p) (pr_turn p) msgs.
Proof.
  revert p. induction msgs as [|msg msgs IH]; intros p; [by rewrite app_nil_r|].
  change (process_all (msg :: msgs) p) with (process_all msgs (process msg p).2).
  rewrite IH, printer_process_eq. cbn. by rewrite app_assoc.
Qed.

(** The closure, after it was called on [msgs], panics on [msg] if no line can be
    made of it then. *)
Lemma process_all_panic msgs msg p :
  is_panic (process msg (process_all msgs p)).1 =
    is_panic (printed (pr_process p) (now (pr_turn p + length msgs)) msg).
Proof.
  revert p. induction msgs as [|m msgs IH]; intros p; simpl length.
  - rewrite Nat.add_0_r. change (process_all [] p) with p. rewrite printer_process_eq. simpl.
    by destruct (printed _ _ _).
  - change (process_all (m :: msgs) p) with (process_all msgs (process m p).2).
    rewrite IH, printer_process_eq. simpl. by rewrite Nat.add_succ_r.
Qed.

(** ** The server *)

Context `{Timeouts} {Raw Tls Addr : Type} `{AsyncReadSpec Raw} `{AsyncReadSpec Tls}
  `{!FramedReadApi (Conn Raw Tls) (TcpState Closure) Received}.
Context (keep_alive : Duration) (max_size_bytes : Z) (tls : bool) (config : Gelf.Config)
  (clocks : Raw -> (nat -> SystemTime) * (nat -> SystemTime)).
Context (Hmax : (0 <= max_size_bytes <= usize_max)%Z).

Definition receive_clone (raw : Raw) : Closure :=
  mkClosure (Gelf.build config) Globals_initial 0 (clocks raw).1 (clocks raw).2.

#[local] Instance tcp_incoming :
    Stream (FilterMap Raw) (TimeoutStream (FramedRead (Conn Raw Tls) (TcpState Closure))) :=
  FilterMap_Stream (Addr := Addr) keep_alive max_size_bytes tls receive_clone.

Abbreviation TcpListener :=
  (Listen (FilterMap Raw) (TimeoutStream (FramedRead (Conn Raw Tls) (TcpState Closure)))).

(** The TCP server, on what wakes it. *)
Definition tcp_serve (wakes : list (wake TcpListener)) : M (TcpListener * Printer) bool :=
  serve wakes.

(** The polls of the stream. *)
Abbreviation tcp_polls := (list (poll TcpListener (Received + error))).

(** The polls in a run of the server. *)
Definition run_polls (wakes : list (wake TcpListener)) (p0 : Printer) : tcp_polls :=
  serve_polls wakes (tcp_build, p0).

(** The sockets that the listener and the handshakes offered in polls, in order. *)
Definition offered (polls : tcp_polls) : list (Conn Raw Tls) :=
  sockets tls (incoming_events (asked_for keep_alive max_size_bytes tls receive_clone polls)).

(** The connections that were accepted in polls, each on its socket and with its
    receiver: the stream of connections gave them, in order, when it was polled. *)
Definition accepted_in (polls : tcp_polls) (cs : list (Conn Raw Tls * Closure)) : Prop :=
  let asked := asked_for keep_alive max_size_bytes tls receive_clone polls in
  exists streams a, polled_on (mkFilterMap None) asked streams a /\
    Forall2 (new_connection max_size_bytes tls receive_clone (listened (incoming_events asked)))
      cs streams.

(** What the stream hands over in polls: an interleaving of what the connections
    give that were accepted in them, each of which has a socket of its own among
    those that were offered, and a receiver of its own. The open ones are
    [conns]. *)
Definition tcp_given (polls : tcp_polls) (xs : list Received)
    (conns : list (TimeoutStream (FramedRead (Conn Raw Tls) (TcpState Closure)))) : Prop :=
  accounted keep_alive max_size_bytes tls receive_clone
    (asked_for keep_alive max_size_bytes tls receive_clone polls) xs conns.

Lemma tcp_gives polls items o :
  polled (S := TcpListener) tcp_build polls items o ->
  exists xs conns, items = inl <$> xs /\ tcp_given polls xs conns /\
    forall l, o = Some l -> connections l = conns.
Proof. apply (tcp_hands_over keep_alive max_size_bytes tls receive_clone Hmax). Qed.

(** No line can be made of a message that it hands over. *)
Definition tcp_panics (polls : tcp_polls) (self : Process) (n : nat) : Prop :=
  exists before xs msg conns, before `prefix_of` polls /\
    tcp_given before (xs ++ [Complete msg]) conns /\
    is_panic (printed self (now (n + length (completes xs))) msg) = true.

Lemma clones_steady :
  debug_assertions = false -> (forall raw, in_time config (clocks raw).1) ->
  forall raw, steady (receive_clone raw).
Proof. intros Hrel Hin raw. split; [exact Hrel|exact (Hin raw)]. Qed.

(** A poll does not end the stream, nor panics. *)
Lemma tcp_poll_keeps i (l : TcpListener) g :
  (forall raw, steady (receive_clone raw)) -> listen_ok max_size_bytes l ->
  wp (poll_next i l)
    (fun '(p, l') g' => listen_ok max_size_bytes l' /\ p <> Ready None /\
       DIAGNOSTICS g' = DIAGNOSTICS g)
    (fun _ _ => False) g.
Proof. intros Hsteady Hl. by apply (listen_poll_total keep_alive). Qed.

Lemma tcp_panicked (p0 : Printer) polls :
  (forall raw, steady (receive_clone raw)) -> panicked (L := TcpListener) tcp_build p0 polls ->
  tcp_panics polls (pr_process p0) (pr_turn p0).
Proof.
  intros Hsteady (before & items & msg & o & Hu & Hg & Hw)
    %(panicked_why (listen_ok max_size_bytes));
    [|intros i l g Hl; eapply wp_mono; [by apply tcp_poll_keeps| |done];
      by intros [] g' (? & ? & ?)|apply listen_ok_build].
  apply tcp_gives in Hg as (xs & conns & Hxs & Hg & _).
  symmetry in Hxs. apply fmap_app_inv in Hxs as (xs1 & [|x [|y xs2]] & -> & [= Hx] & ->).
  rewrite process_all_panic, oks_inl in Hw. subst x. by exists before, xs1, msg, conns.
Qed.

(** What a run that returned has printed. *)
Lemma tcp_serve_given wakes (p0 : Printer) b l p :
  tcp_serve wakes (tcp_build, p0) = (Ok b, (l, p)) ->
  (exists xs, tcp_given (run_polls wakes p0) xs (connections l) /\
     pr_stdout p = pr_stdout p0 ++ printed_all (pr_process p0) (pr_turn p0) (completes xs)) /\
  (b = false -> existsb is_shutdown wakes = true).
Proof.
  intros E. pose proof (serve_served tcp_build p0 wakes [] (tcp_build, p0) []
    ltac:(split; [exact (polled_start tcp_build)|done])) as Hs.
  apply (fun H => wp_ok _ _ _ _ _ _ H E) in Hs as (items & [Hg Hs] & Hstop).
  cbn [app fst snd] in *. apply tcp_gives in Hg as (xs & conns & -> & Hg & Hl).
  rewrite oks_inl in Hs. rewrite (Hl l eq_refl). split.
  - exists xs. split; [done|]. rewrite <- process_all_printed.
    unfold same_state in Hs. by injection Hs.
  - intros Hb. destruct (Hstop Hb) as [?|[e He]]; [done|].
    apply list_elem_of_fmap in He as (? & ? & _). done.
Qed.

End Printing.

(** ** A witness *)

Section Witnesses.
#[local] Existing Instances Release bytes_model libflate_fixture decimal_model
  humantime_fixture Z_json_number clef_json_fixture gelf_json_fixture timeouts_model.
#[local] Instance closure_framed : FramedReadApi (Conn Socket Socket) (TcpState Closure) Received :=
  framed_model.

Definition still (_ : Socket) : (nat -> SystemTime) * (nat -> SystemTime) :=
  (fun _ => nanos_per_sec, fun _ => nanos_per_sec).
Abbreviation SampleFramed := (FramedRead (Conn Socket Socket) (TcpState Closure)).
#[local] Instance sample_tcp : Stream (FilterMap Socket) (TimeoutStream SampleFramed) :=
  tcp_incoming (Addr := unit) 60%Z 16%Z false sample_config still.
#[local] Instance sample_tcp_conn : Stream (TimeoutStream SampleFramed) (Received + error) :=
  TimeoutStream_Stream.
Abbreviation SampleListen := (Listen (FilterMap Socket) (TimeoutStream SampleFramed)).
Definition wake_incoming (script : list (outcome (FilterMap Socket) (TimeoutStream SampleFramed) Received)) :
    wake SampleListen := WakeIncoming (L := SampleListen) script.

(** A peer that sends a message, which arrives in two parts; then the handle is
    closed. *)
Definition text_peer : Socket := mkSocket (String.list_byte_of_string "text" ++ [Byte.x00]).
Definition accept_text : poll_input (FilterMap Socket) (TimeoutStream SampleFramed) :=
  (0%Z, [Listener (Ready (inl (text_peer, tt)))]).
Definition no_accept : poll_input (FilterMap Socket) (TimeoutStream SampleFramed) := (1%Z, []).
Definition read_some (n : nat) : poll_input (TimeoutStream SampleFramed) (Received + error) :=
  @mkTimeoutInput SampleFramed _ _ 1%Z false [(Arrived n, Arrived n)].
Definition sample_wakes : list (wake SampleListen) :=
  [wake_incoming [Accept accept_text; Accept no_accept; Polled 0 (read_some 1); Accept no_accept; Idle];
   wake_incoming [Accept no_accept; Polled 0 (read_some 9)];
   WakeClose].

Definition sample_serve : M (SampleListen * Printer) bool :=
  tcp_serve (Number := Z) 16 (CachedString := string) id (fun _ => replicate 5 1)
    (fun _ => nanos_per_sec) 60%Z 16%Z false sample_config still sample_wakes.
Definition sample_printer : Printer := mkPrinter (mkProcess false) Globals_initial [] 0.
Definition sample_polls : list (poll SampleListen (Received + error)) :=
  run_polls (Number := Z) 16 (CachedString := string) id (fun _ => replicate 5 1)
    (fun _ => nanos_per_sec) 60%Z 16%Z false sample_config still sample_wakes sample_printer.


(** What was sent once is given once at most. *)
Lemma given_once_example xs conns :
  tcp_given (Tls := Socket) (Addr := unit) 60%Z 16%Z false sample_config still sample_polls xs conns ->
  (length xs <= 1)%nat.
Proof.
  intros (cs & es & a & _ & _ & Hsub & Hs & Hi & _).
  apply interleaves_concat, Permutation_length in Hi. rewrite Hi. clear Hi.
  assert (E : offered 60%Z 16%Z false sample_config still sample_polls
    = [PlainConn (Tls := Socket) text_peer]) by (vm_compute; reflexivity).
  unfold offered in E. rewrite E in Hsub. clear E.
  destruct Hs as [|c e cs es Hs Hss]; [simpl; lia|].
  assert (c.1 = PlainConn text_peer /\ cs = []) as [Hc ->].
  { cbn in Hsub. apply sublist_cons_l in Hsub as ([|k1 k2] & k & E & Hk); injection E as Ec Ek.
    - subst k. apply sublist_nil_r, fmap_nil_inv in Hk. by split.
    - by destruct k2. }
  apply Forall2_nil_inv_l in Hss as ->. cbn. rewrite app_nil_r.
  destruct (Hs (sock_content text_peer)) as (I & D & Hat & Hys); [by rewrite Hc|].
  apply (f_equal length) in Hys. rewrite length_fmap in Hys. rewrite Hys.
  apply attended_prefix in Hat as [[k HI] HD]. apply prefix_length in HD.
  assert (Hfs : (length (Framing.frames_eof 16 I) <= 1)%nat).
  { assert (E : I = take (length I) (sock_content text_peer))
      by (rewrite HI; symmetry; apply take_app_length).
    assert (Hlen : (length I <= 5)%nat)
      by (apply (f_equal length) in HI; rewrite length_app in HI; simpl in HI; lia).
    rewrite E. clear E HI HD. destruct (length I) as [|[|[|[|[|[|n]]]]]]; [..|lia];
      apply leb_complete; reflexivity. }
  rewrite receive_all_length. lia.
Qed.
End Witnesses.
