(* ===== verification/TcpText.v ===== *)
(** The program over TCP in terms of the text that peers send: frames that are
    not chunked are messages as they are. *)

From S2P Require Import Prelude Diagnostics Io Message ChunkRead Gelf GelfInv Received Stream.
From S2P Require Import Framed TcpDecode TcpFraming Connection TcpListen Interleaving Pipeline.
From S2P Require Import Json Str Clef Process Fixtures ServerThms Serve AppThms TcpApp.

(** ** Frames that are not chunked *)

(** A payload that is not a chunk of a message, and the message that it is. *)
Definition unchunked (f : Bytes) : Prop := peek_magic_bytes f <> Some MAGIC_CHUNKED.
Definition single (f : Bytes) : Message := mkMessage (Single (detect_bytes f) f).

(** The messages of frames that are not chunked, an empty one being none. *)
Definition singles (fs : list Bytes) : list Message := single <$> filter (fun f => f <> []) fs.

Section Frames.
Context `{Profile} `{BytesApi}.

Lemma receive_unchunked f (c : Closure) :
  unchunked f -> (receive f c).1 = Ok (if decide (f = []) then None else Some (single f)).
Proof.
  intros Hf. cbn [receive Closure_Receiver]. unfold closure_receive.
  rewrite decode_eq, decide_False by done. simpl. unfold Message_single.
  destruct f as [|b f]; [done|]. rewrite bool_decide_true by done. by rewrite andb_false_r.
Qed.

Lemma receive_all_unchunked fs (c : Closure) xs :
  Forall unchunked fs -> ((fun x => Ok (Some x)) <$> xs) = (receive_all fs c).1 ->
  completes xs = singles fs.
Proof.
  intros Hfs. revert c xs. induction Hfs as [|f fs Hf _ IH]; intros c xs; cbn [receive_all].
  { by intros ->%fmap_nil_inv. }
  pose proof (receive_unchunked f c Hf) as Hr. destruct (receive f c) as [x c1]. simpl in Hr.
  specialize (IH c1). destruct (receive_all fs c1) as [rs c2]. subst x.
  destruct xs as [|x xs]; [by case_decide|]. intros [= Hx Hxs].
  specialize (IH xs Hxs). unfold singles in *. destruct (decide (f = [])) as [->|Hne].
  - injection Hx as ->. rewrite filter_cons_False by (intros Hn; by apply Hn). exact IH.
  - injection Hx as ->. rewrite filter_cons_True by done.
    change (completes (Complete (single f) :: xs)) with (single f :: completes xs). by rewrite IH.
Qed.
End Frames.

(** ** Interleavings of messages *)

Lemma interleaves_completes yss xs :
  interleaves yss xs -> interleaves (completes <$> yss) (completes xs).
Proof.
  induction 1 as [|ls l _ IH|ls l j ys x _ IH Hj]; [apply interleaves_nil|..].
  - rewrite fmap_app. by apply interleaves_new.
  - rewrite list_fmap_insert, !completes_app.
    assert (Hcj : (completes <$> ls) !! j = Some (completes ys)) by by rewrite list_lookup_fmap, Hj.
    destruct x as [|msg|e]; cbn; [|by apply interleaves_item|]; rewrite !app_nil_r;
      by rewrite list_insert_id.
Qed.

(** ** The server *)

Section Text.
Context `{Profile} `{BytesApi} `{Libflate} `{DecimalApi} `{Humantime} {Number : Type}
  `{JsonNumber Number} `{ClefJson Number} `{!GelfJson Number}.
Context (INLINE_STRING_CAPACITY : nat) {CachedString : Type}
  `{AsRef CachedString} `{FromStr CachedString}.
Context (str_debug : string -> string) (buffers : Message -> list nat) (now : nat -> SystemTime).
Context `{Timeouts} {Raw Tls Addr : Type} `{AsyncReadSpec Raw} `{AsyncReadSpec Tls}
  `{!FramedReadApi (Conn Raw Tls) (TcpState Closure) Received}.
Context (keep_alive : Duration) (max_size_bytes : Z) (tls : bool) (config : Gelf.Config)
  (clocks : Raw -> (nat -> SystemTime) * (nat -> SystemTime)).
Context (Hmax : (0 <= max_size_bytes <= usize_max)%Z).

#[local] Instance text_incoming :
    Stream (FilterMap Raw) (TimeoutStream (FramedRead (Conn Raw Tls) (TcpState Closure))) :=
  tcp_incoming (Addr := Addr) keep_alive max_size_bytes tls config clocks.
Abbreviation TcpListener :=
  (Listen (FilterMap Raw) (TimeoutStream (FramedRead (Conn Raw Tls) (TcpState Closure)))).

(** A text without chunks, wherever it is cut off. *)
Definition no_chunks (text : Bytes) : Prop := forall I,
  I `prefix_of` text -> Forall unchunked (Framing.frames_eof max_size_bytes I).

(** A connection as its peer sees it: its socket and receiver, what was read of the
    text, the frames of it that were handed over, and the connection, while it is
    open. *)
Record speech := mkSpeech {
  sp_conn : Conn Raw Tls;
  sp_receive : Closure;
  sp_read : Bytes;
  sp_frames : list Bytes;
  sp_open : option (TimeoutStream (FramedRead (Conn Raw Tls) (TcpState Closure)))
}.

(** ... when the peer sends [text]. *)
Definition heard (text : Bytes) (sp : speech) : Prop :=
  attended max_size_bytes (sp_conn sp, sp_receive sp) text (sp_read sp) (sp_frames sp) (sp_open sp).

Lemma serves_heard text c e :
  serves max_size_bytes c e -> delivers c.1 text -> no_chunks text ->
  exists sp, heard text sp /\ (sp_conn sp, sp_receive sp) = c /\ sp_open sp = open e /\
    completes (oks (given e)) = singles (sp_frames sp).
Proof.
  intros Hs Ht Hun. destruct (Hs text Ht) as (I & D & Hat & Hys).
  exists (mkSpeech c.1 c.2 I D (open e)). split; [by destruct c|].
  split; [by destruct c|]. split; [done|]. eapply receive_all_unchunked; [|exact Hys].
  apply attended_prefix in Hat as [HI [D' HD]]. pose proof (Hun I HI) as HF. rewrite HD in HF.
  by apply Forall_app in HF as [? _].
Qed.

End Text.

(** ** A witness *)

Section Witnesses.
#[local] Existing Instances Release bytes_model libflate_fixture decimal_model
  humantime_fixture Z_json_number clef_json_fixture gelf_json_fixture timeouts_model
  closure_framed.

(** The peer of the sample sends a frame, which is printed. *)
Definition sent_text (conn : Conn Socket Socket) : Bytes :=
  match conn with PlainConn so => sock_content so | TlsConn so => sock_content (qc_inner so) end.

Lemma sample_no_chunks : no_chunks 16%Z (sock_content text_peer).
Proof.
  intros I [k HI]. assert (E : I = take (length I) (sock_content text_peer))
    by (rewrite HI; symmetry; apply take_app_length).
  assert (Hlen : (length I <= 5)%nat)
    by (apply (f_equal length) in HI; rewrite length_app in HI; simpl in HI; lia).
  rewrite E. clear E HI. destruct (length I) as [|[|[|[|[|[|n]]]]]]; [..|lia].
  all: repeat constructor; intros [=].
Qed.

End Witnesses.
