(* ===== verification/UdpApp.v ===== *)
(** The program over UDP: the datagrams of the socket through the [receive] and
    the [process] closure come out as lines ([sqelf/src/main.rs],
    [sqelf/src/server]). *)

From S2P Require Import Prelude Diagnostics Io Message ChunkRead Gelf GelfInv ReceiveTypes.
From S2P Require Import Received Stream Interleaving UdpListen Json Str Clef Process Fixtures.
From S2P Require Import Server ServerThms Serve AppThms TcpApp.

Section Udp.
Context `{Profile} `{BytesApi} `{Libflate} `{DecimalApi} `{Humantime} {Number : Type}
  `{JsonNumber Number} `{ClefJson Number} `{!GelfJson Number}.
Context (INLINE_STRING_CAPACITY : nat) {CachedString : Type}
  `{AsRef CachedString} `{FromStr CachedString}.
Context (str_debug : string -> string) (buffers : Message -> list nat) (now : nat -> SystemTime).

#[local] Instance process_closure : Processor Printer :=
  Printer_Processor INLINE_STRING_CAPACITY (CachedString := CachedString) str_debug buffers now.
#[local] Instance process_closure_statics : ProcessorStatics Printer :=
  Printer_ProcessorStatics INLINE_STRING_CAPACITY (CachedString := CachedString) str_debug buffers
    now.

Abbreviation printed :=
  (printed INLINE_STRING_CAPACITY (CachedString := CachedString) str_debug buffers).
Abbreviation printed_all :=
  (printed_all INLINE_STRING_CAPACITY (CachedString := CachedString) str_debug buffers now).

Context {So Addr : Type} `{UdpRecvSpec So Addr}
  `{!UdpFramedApi So Addr (UdpState Closure) Received}.
Context (config : Gelf.Config) (clocks : (nat -> SystemTime) * (nat -> SystemTime)).

(** [receive], with the readings of the clock its calls will make. *)
Definition udp_receive_closure : Closure :=
  mkClosure (Gelf.build config) Globals_initial 0 clocks.1 clocks.2.

Abbreviation UdpSocket := (UdpFramed So (UdpState Closure)).

Definition udp_serve (wakes : list (wake UdpSocket)) : M (UdpSocket * Printer) bool :=
  serve wakes.

(** What the stream has given: what [receive] makes of the first of the datagrams
    that arrive, and errors of the socket. *)
Definition udp_gave (ds : list Bytes) (items : list (Received + error)) : Prop :=
  exists got, got `prefix_of` ds /\
    ((fun x => Ok (Some x)) <$> oks items) = results udp_receive_closure got.

Context (so : So) (ds : list Bytes) (Harrives : arrives so ds).

Lemma udp_given_gave items fr : udp_given udp_receive_closure ds items fr -> udp_gave ds items.
Proof. intros (got & (rest & Hds & _) & Hi). exists got. split; [by exists rest|done]. Qed.

Lemma udp_gives_all items o :
  gives (udp_build so udp_receive_closure) items o -> udp_gave ds items.
Proof.
  intros (fr & _ & Hg)%(udp_gives udp_receive_closure so ds); [|done]. by eapply udp_given_gave.
Qed.

(** A stream that may be polled. *)
Definition udp_ok (fr : UdpSocket) : Prop :=
  exists items, udp_given udp_receive_closure ds items fr.

Lemma udp_ok_build : udp_ok (udp_build so udp_receive_closure).
Proof. exists [], []. split; [by apply udp_at_new|done]. Qed.

Lemma udp_poll_keeps i (fr : UdpSocket) g :
  debug_assertions = false -> in_time config clocks.1 -> udp_ok fr ->
  wp (poll_next i fr)
    (fun '(p, fr') g' => udp_ok fr' /\ p <> Ready None /\ DIAGNOSTICS g' = DIAGNOSTICS g)
    (fun _ _ => False) g.
Proof.
  intros Hrel Hin [items Hg].
  pose proof (udp_poll_total udp_receive_closure ds items fr i g (conj Hrel Hin) Hg) as Ht.
  pose proof (udp_poll_diagnostics i fr g) as Hd. unfold wp.
  destruct (poll_next i fr g) as [[[p fr']|e|w] g']; [|done..]. by destruct Ht as [? ?].
Qed.

(** No line can be made of a message that it gives. *)
Definition udp_panics (self : Process) (n : nat) : Prop :=
  exists items msg, udp_gave ds (items ++ [inl (Complete msg)]) /\
    is_panic (printed self (now (n + length (completes (oks items)))) msg) = true.

Lemma udp_panicked (p0 : Printer) polls :
  debug_assertions = false -> in_time config clocks.1 ->
  panicked (udp_build so udp_receive_closure) p0 polls ->
  udp_panics (pr_process p0) (pr_turn p0).
Proof.
  intros Hrel Hin (used & items & msg & o & _ & Hg & Hw)%(panicked_why udp_ok);
    [|intros i l g Hl; eapply wp_mono; [by apply udp_poll_keeps| |done];
      by intros [] g' (? & ? & ?)|apply udp_ok_build].
  apply polled_gives, udp_gives_all in Hg. unfold process_closure in Hw. rewrite process_all_panic in Hw.
  by exists items, msg.
Qed.

End Udp.

(** ** A witness *)

Section Witnesses.
#[local] Existing Instances Release bytes_model libflate_fixture decimal_model
  humantime_fixture Z_json_number clef_json_fixture gelf_json_fixture.
#[local] Instance closure_udp :
    UdpFramedApi DatagramSocket unit (UdpState Closure) Received := udp_framed_model.

(** A message in two chunks, the second of which arrives first, around one that
    has no chunks and an empty datagram. *)
Definition sample_socket : DatagramSocket :=
  mkDatagramSocket
    [chunk 7 1 2 (String.list_byte_of_string "xt"); []; String.list_byte_of_string "text";
     chunk 7 0 2 (String.list_byte_of_string "te")].
Abbreviation SampleUdp := (UdpFramed DatagramSocket (UdpState Closure)).
Definition wake_udp (inputs : list datagram_input) : wake SampleUdp :=
  WakeIncoming (L := SampleUdp) inputs.

(** The socket is polled; it fails in the end. *)
Definition sample_udp_wakes : list (wake SampleUdp) :=
  [wake_udp [Datagram; NoDatagram]; wake_udp [Datagram; Datagram]; wake_udp [Datagram];
   wake_udp [Datagram]; wake_udp [NoDatagram]; wake_udp [RecvFailed (mkIoError OtherKind "down")]].

Definition sample_clocks : (nat -> SystemTime) * (nat -> SystemTime) :=
  (fun _ => nanos_per_sec, fun _ => nanos_per_sec).
Definition sample_udp_serve : M (SampleUdp * Printer) bool :=
  udp_serve (Number := Z) 16 (CachedString := string) id (fun _ => replicate 5 1)
    (fun _ => nanos_per_sec) sample_udp_wakes.

End Witnesses.
