(* ===== verification/Sqelf.v ===== *)
(** The whole program, over UDP and over TCP: [main] with the closures of [run],
    the stream that the configuration asks for, and the threads
    ([sqelf/src/main.rs], [sqelf/src/server]). *)

From S2P Require Import Prelude Diagnostics Io Message ChunkRead Gelf GelfInv ReceiveTypes.
From S2P Require Import Received Stream Framed.
From S2P Require Import TcpDecode TcpFraming Connection TcpListen ListenThms Interleaving Listener.
From S2P Require Import Pipeline UdpListen Json Str Clef Process Fixtures ServerConfig AppConfig.
From S2P Require Import ConfigThms.
From S2P Require Import Server ServerThms Serve AppThms TcpApp UdpApp Main Program.

(** ** From the environment to the loop *)

(** What is left alone until the loop runs: all but the events and counters. *)
Definition quiet {P} `{Statics P} (p p' : P) : Prop :=
  same_state p' p /\ DIAGNOSTICS (globals_of p') = DIAGNOSTICS (globals_of p).

Section Quiet.
Context {P : Type} `{Statics P}.

#[export] Instance quiet_preorder : PreOrder (quiet (P := P)).
Proof.
  split; [by intros p|]. intros p1 p2 p3 [Hs Hd] [Hs' Hd']. split; [by etrans|congruence].
Qed.

Lemma quiet_on f (p : P) :
  (forall g, DIAGNOSTICS (f g) = DIAGNOSTICS g) -> quiet p (on_globals f p).
Proof. intros Hf. split; [apply same_state_on|]. by rewrite globals_of_on. Qed.

Lemma quiet_emit msg (p : P) : quiet p (on_globals (emit msg) p).
Proof. apply quiet_on. apply DIAGNOSTICS_emit. Qed.
End Quiet.

Section Start.
Context `{ServerIo} {P : Type} `{Statics P}.

(** The server takes connections over TLS. *)
Definition serves_tls (config : ServerConfig.Config) : bool :=
  bool_decide (is_Some (certificate config)).

(** The stream is the one that the configuration asks for. *)
Definition kind_of (config : ServerConfig.Config) (kind : Incoming_kind) : Prop :=
  match bind_protocol (bind config) with
  | Udp => kind = UdpIncoming
  | Tcp => exists tls, kind =
      TcpIncoming_of (Duration_from_secs (tcp_keep_alive_secs config))
        (tcp_max_size_bytes config) tls /\ bool_decide (is_Some tls) = serves_tls config
  end.

Lemma tls_config_quiet cert (p : P) :
  wp (tls_config cert) (fun _ p' => quiet p p') (fun _ p' => quiet p p') p.
Proof.
  unfold tls_config. apply wp_bind, wp_modify. unfold wp, m_bind, m_lift.
  destruct (read_certs _); [|apply quiet_emit..].
  destruct (read_pkcs8_keys _) as [[|key keys]|e|w]; try apply quiet_emit.
  destruct (with_single_cert _ _); apply quiet_emit.
Qed.

Lemma start_quiet config addr (p : P) :
  wp (start config addr) (fun kind p' => quiet p p' /\ kind_of config kind)
    (fun _ p' => quiet p p') p.
Proof.
  unfold start, kind_of. destruct (bind_protocol (bind config)).
  - destruct (certificate config); [done|]. unfold wp, m_bind, m_lift.
    destruct (udp_bind addr); [|done..]. split; [apply quiet_emit|done].
  - assert (Hrest : forall tls p1, quiet p p1 -> bool_decide (is_Some tls) = serves_tls config ->
      wp (let! _bound := m_lift (tcp_bind addr) in
          on_statics (emit "Setting up for TCP") ;;;
          m_ret (TcpIncoming_of (Duration_from_secs (tcp_keep_alive_secs config))
                   (tcp_max_size_bytes config) tls))
        (fun kind p' => quiet p p' /\ exists tls, kind =
           TcpIncoming_of (Duration_from_secs (tcp_keep_alive_secs config))
             (tcp_max_size_bytes config) tls /\ bool_decide (is_Some tls) = serves_tls config)
        (fun _ p' => quiet p p') p1).
    { intros tls p1 Hp1 Htls. unfold wp, m_bind, m_lift. destruct (tcp_bind addr); [|done..].
      split; [|by exists tls]. etrans; [exact Hp1|apply quiet_emit]. }
    apply wp_bind. unfold serves_tls in *. destruct (certificate config) as [cert|];
      [|by apply wp_ret, Hrest].
    apply wp_bind. eapply wp_mono; [apply tls_config_quiet| |done].
    intros tls p1 Hp1. apply wp_ret, Hrest; [done|]. by rewrite !bool_decide_true by eauto.
Qed.

(** How the start ends is up to the operating system, whatever the statics are. *)
Lemma start_result config addr (p q : P) : (start config addr p).1 = (start config addr q).1.
Proof.
  unfold start, tls_config. destruct (bind_protocol (bind config)), (certificate config) as [cert|];
    unfold m_bind, m_lift, on_statics, m_modify, m_ret, m_throw; [done|..].
  - by destruct (udp_bind addr).
  - destruct (read_certs _); [|done..]. destruct (read_pkcs8_keys _) as [[|key keys]| |]; try done.
    destruct (with_single_cert _ _); [|done..]. by destruct (tcp_bind addr).
  - by destruct (tcp_bind addr).
Qed.
End Start.

(** ** The life cycle around the loop *)

(** Diagnostics that have been initialised, and can be stopped. *)
Definition diagnosing (g : Globals) : Prop :=
  exists metrics, DIAGNOSTICS g = Some (mkDiagnostics metrics) /\ metrics <> Some false.

Lemma init_diagnosing config g :
  DIAGNOSTICS g = None -> exists g', init config g = (Ok tt, g') /\ diagnosing g'.
Proof.
  intros Hg. unfold init, m_bind, m_get, m_modify. rewrite Hg. eexists. split; [done|].
  eexists. split; [done|]. by destruct (MinLevel_includes _ _).
Qed.

(** Nothing is taken back from the self-log. *)
Definition log_grows (g g' : Globals) : Prop := stderr g `prefix_of` stderr g'.

Lemma log_grows_emit msg g : log_grows g (emit msg g).
Proof. unfold log_grows, emit. destruct (MinLevel_includes _ _); [|done]. by apply prefix_app_r. Qed.

Lemma log_grows_emit_metrics g : log_grows g (emit_metrics g).
Proof.
  unfold log_grows, emit_metrics. destruct (MinLevel_includes _ _); [|done].
  by apply prefix_app_r.
Qed.

Lemma stop_diagnosing g :
  diagnosing g -> exists g', stop g = (Ok tt, g') /\ log_grows g g'.
Proof.
  intros ([[]|] & Hd & Hm); unfold stop, m_bind, m_get; rewrite Hd; [|done|];
    eexists; (split; [reflexivity|]); [|by unfold log_grows].
  exact (log_grows_emit_metrics (set_diagnostics None g)).
Qed.

Lemma diagnosing_quiet {P} `{Statics P} (p p' : P) :
  quiet p p' -> diagnosing (globals_of p) -> diagnosing (globals_of p').
Proof. intros [_ Hd] (m & E & Hm). exists m. by rewrite Hd. Qed.

Section Sqelf.
Context `{Profile} `{BytesApi} `{Libflate} `{DecimalApi} `{Humantime} {Number : Type}
  `{JsonNumber Number} `{ClefJson Number} `{!GelfJson Number}.
Context (INLINE_STRING_CAPACITY : nat) {CachedString : Type}
  `{AsRef CachedString} `{FromStr CachedString}.
Context (str_debug : string -> string) (buffers : Message -> list nat) (now : nat -> SystemTime).

(** ** The loop on a stream *)

#[local] Instance sqelf_process : Processor Printer :=
  Printer_Processor INLINE_STRING_CAPACITY (CachedString := CachedString) str_debug buffers now.
#[local] Instance sqelf_process_statics : ProcessorStatics Printer :=
  Printer_ProcessorStatics INLINE_STRING_CAPACITY (CachedString := CachedString) str_debug buffers
    now.

Abbreviation printed_all :=
  (printed_all INLINE_STRING_CAPACITY (CachedString := CachedString) str_debug buffers now).

Section LoopOn.
Context {L : Type} `{Stream L (Received + error)}.

(** The loop of the main thread on the stream [l0], with the other threads. *)
Definition loop_on (l0 : L) (ts : list (turn L)) (listening : bool) : M Printer bool := fun p =>
  let '(r, s) := threads ts (mkRunning (l0, p) listening false) in (r, (rn_server s).2).

Context (linv : L -> Prop) (Hpoll : forall i l g, linv l ->
  wp (poll_next i l)
    (fun '(p, l') g' => linv l' /\ p <> Ready None /\ DIAGNOSTICS g' = DIAGNOSTICS g)
    (fun _ _ => False) g).

Lemma process_keeps_life msg (p : Printer) :
  DIAGNOSTICS (globals_of (process msg p).2) = DIAGNOSTICS (globals_of p).
Proof. unfold sqelf_process. rewrite printer_process_eq. apply DIAGNOSTICS_increment. Qed.

Lemma loop_on_prints (l0 : L) ts listening (p : Printer) :
  linv l0 ->
  wp (loop_on l0 ts listening)
    (fun b p' => DIAGNOSTICS (globals_of p') = DIAGNOSTICS (globals_of p) /\
       exists items o,
         polled l0 (threads_polls ts (mkRunning (l0, p) listening false)) items o /\
         pr_stdout p' =
           pr_stdout p ++ printed_all (pr_process p) (pr_turn p) (completes (oks items)) /\
         (b = false -> stops listening false ts items))
    (fun o _ => o = None /\
       panicked l0 p (threads_polls ts (mkRunning (l0, p) listening false))) p.
Proof.
  intros Hl0. unfold wp, loop_on. set (s0 := mkRunning (l0, p) listening false).
  pose proof (threads_total linv Hpoll process_keeps_life (DIAGNOSTICS (globals_of p)) ts s0
    ltac:(by split)) as Ht.
  pose proof (threads_served l0 p ts [] s0 []
    ltac:(split; [exact (polled_start l0)|done])) as Hs.
  unfold wp in Ht, Hs. destruct (threads ts s0) as [[b|e|w] s]; [| |by auto].
  - destruct Ht as [_ Hd], Hs as (items & [Hg Hs] & Hstop).
    split; [exact Hd|]. exists items, (Some (rn_server s).1). split; [exact Hg|]. split; [|exact Hstop].
    rewrite <- process_all_printed. unfold same_state in Hs. by injection Hs.
  - by destruct Ht.
Qed.
End LoopOn.

(** ** [run] *)

Context `{ServerIo}.

(** [move |msg| process.read_as_clef(msg)], on the statics and stdout there are. *)
Definition setup (config : AppConfig.Config) (p : Printer) : Printer :=
  mkPrinter (Process.build (AppConfig.process config)) (pr_globals p) (pr_stdout p) (pr_turn p).

Section Run.
Context (loop : AppConfig.Config -> bool -> Incoming_kind -> M Printer bool).
Context (env : Env) (config : AppConfig.Config) (addr : SocketAddr).
Context (Henv : from_env env = Ok config)
  (Haddr : parse_addr (bind_addr (bind (server config))) = Ok addr).

(** The state in which the loop starts, of a program that was in [p]. *)
Definition started (p q : Printer) : Prop :=
  same_state q (setup config p) /\ diagnosing (globals_of q).

(** The loop keeps the life cycle, and comes to no error. *)
Definition loop_runs (p : Printer) : Prop := forall kind q,
  kind_of (server config) kind -> started p q ->
  match loop config (is_seq_app env) kind q with
  | (Ok _, q') => DIAGNOSTICS (globals_of q') = DIAGNOSTICS (globals_of q)
  | (Err _, _) => False
  | (Panic _, _) => True
  end.

(** The loop, on the stream that was set up, ends, or has come so far. *)
Definition loop_returns (p : Printer) (kind : Incoming_kind) (b : bool) (p' : Printer) : Prop :=
  exists q q', started p q /\ loop config (is_seq_app env) kind q = (Ok b, q') /\
    same_state p' q'.
Definition loop_panics (p : Printer) (kind : Incoming_kind) : Prop :=
  exists q, started p q /\ is_panic (loop config (is_seq_app env) kind q).1 = true.

(** The error of a start that failed is in the self-log. *)
Definition failure_logged (e : error) (g : Globals) : Prop :=
  mkEvent "ERROR" (Some (format_error e)) "GELF server failed" None ∈ stderr g.

Lemma failure_logged_grows e g g' :
  log_grows g g' -> failure_logged e g -> failure_logged e g'.
Proof. intros [log Hg]. unfold failure_logged. rewrite Hg, elem_of_app. auto. Qed.

Lemma failure_logged_emit_err e g : failure_logged e (emit_err e "GELF server failed" g).
Proof.
  unfold failure_logged, emit_err, MinLevel_includes.
  destruct (MinLevel_get g); cbn; apply elem_of_app; right; by left.
Qed.

(** How the server ends, by how its start does. *)
Definition server_ends (p : Printer) (b : bool) (p' : Printer) : Prop :=
  match (start (server config) addr p).1 with
  | Ok kind => loop_returns p kind b p'
  | Err e => b = false /\ same_state p' (setup config p) /\ failure_logged e (globals_of p')
  | Panic _ => False
  end.
Definition server_panics (p : Printer) : Prop :=
  match (start (server config) addr p).1 with
  | Ok kind => loop_panics p kind
  | Err _ => False
  | Panic _ => True
  end.

Lemma server_ends_on p b p' f :
  log_grows (globals_of p') (f (globals_of p')) -> server_ends p b p' ->
  server_ends p b (on_globals f p').
Proof.
  intros Hf. unfold server_ends. destruct (start _ _ p).1 as [kind|e|w]; [| |done].
  - intros (q & q' & Hq & El & Hs). exists q, q'. split; [done|]. split; [done|].
    etrans; [apply same_state_on|exact Hs].
  - intros (Hb & Hs & Hl). split; [done|]. split; [etrans; [apply same_state_on|exact Hs]|].
    rewrite globals_of_on. by eapply failure_logged_grows.
Qed.

(** The future of the server. *)
Lemma server_run_spec (handle : bool) (p q : Printer) :
  loop_runs p -> started p q ->
  wp (server_run (mkServer (server config) addr handle) (loop config (is_seq_app env)))
    (fun b p' => diagnosing (globals_of p') /\ server_ends p b p')
    (fun o _ => o = None /\ server_panics p) q.
Proof.
  intros Hloop [Hs Hd]. unfold wp, server_run, m_bind at 1. cbn [server_config server_addr].
  pose proof (start_quiet (server config) addr q) as Hst. unfold wp in Hst.
  unfold server_ends, server_panics. rewrite (start_result (server config) addr p q).
  destruct (start (server config) addr q) as [[kind|e|w] q0] eqn:E; cbn [fst]; [| |done].
  - destruct Hst as [Hq Hk]. assert (Hq0 : started p q0).
    { split; [etrans; [apply Hq|exact Hs]|by eapply diagnosing_quiet]. }
    unfold m_bind at 1. pose proof (Hloop kind q0 Hk Hq0) as Hl.
    destruct (loop config (is_seq_app env) kind q0) as [[[]|e|w] q'] eqn:El; [| |done|].
    + split; [|by exists q0, q'].
      destruct Hq0 as [_ (m & Em & Hm)]. exists m. by rewrite Hl.
    + assert (Hq' : quiet q' (on_globals (emit "Stopping GELF server") q')) by apply quiet_emit.
      split; [|exists q0, q'; split; [done|]; split; [done|apply Hq']].
      eapply diagnosing_quiet; [exact Hq'|]. destruct Hq0 as [_ (m & Em & Hm)]. exists m.
      cbn in *. by rewrite Hl.
    + split; [done|]. exists q0. by rewrite El.
  - assert (Hq' : quiet q0 (on_globals (emit_err e "GELF server failed") q0))
      by (apply quiet_on, DIAGNOSTICS_emit_err).
    split.
    + eapply diagnosing_quiet; [exact Hq'|]. by eapply diagnosing_quiet.
    + split; [done|]. split; [etrans; [apply Hq'|]; etrans; [apply Hst|exact Hs]|].
      cbn. apply failure_logged_emit_err.
Qed.

(** [run], around it. *)
Lemma run_spec (p : Printer) :
  DIAGNOSTICS (globals_of p) = None -> loop_runs p ->
  wp (run setup loop env) (server_ends p) (fun o _ => o = None /\ server_panics p) p.
Proof.
  intros Hd Hloop. unfold run.
  apply wp_bind. unfold wp at 1, m_lift. rewrite Henv.
  apply wp_bind, wp_zoom.
  destruct (init_diagnosing (diagnostics config) (globals_of p) Hd) as (g1 & Ei & Hg1).
  unfold wp at 1. rewrite Ei. apply wp_bind, wp_modify.
  set (q := on_globals (emit "Starting GELF server") (setup config (on_globals (fun _ => g1) p))).
  assert (Hq : started p q).
  { split; [done|]. unfold q. rewrite globals_of_on. destruct Hg1 as (m & Em & Hm). exists m.
    by rewrite DIAGNOSTICS_emit. }
  apply wp_bind. unfold build. apply wp_bind, wp_modify. fold q.
  apply wp_bind. unfold wp at 1, m_lift. rewrite Haddr. apply wp_ret.
  assert (Hrest : forall handle, wp
    (let! waiting :=
       server_run (mkServer (server config) addr handle) (loop config (is_seq_app env)) in
     if waiting : bool then m_ret true else on_diagnostics stop ;;; m_ret false)
    (server_ends p) (fun o _ => o = None /\ server_panics p) q).
  { intros handle. apply wp_bind. eapply wp_mono; [by apply server_run_spec| |done].
    intros [] q1 [Hd1 Hq1]; [by apply wp_ret|].
    apply wp_bind, wp_zoom. destruct (stop_diagnosing _ Hd1) as (g' & E & Hlog).
    unfold wp. rewrite E. by apply server_ends_on. }
  apply wp_bind. destruct (is_seq_app env); apply wp_ret; apply Hrest.
Qed.
End Run.

(** ** The streams *)

(** The UDP socket that is bound, on which [ds] will arrive. *)
Context {So Addr : Type} `{UdpRecvSpec So Addr}
  `{!UdpFramedApi So Addr (UdpState Closure) Received}
  (so : So) (ds : list Bytes) (Harrives : arrives so ds)
  (udp_clocks : (nat -> SystemTime) * (nat -> SystemTime)).
Abbreviation UdpSocket := (UdpFramed So (UdpState Closure)).

Definition udp_loop (config : Gelf.Config) (ts : list (turn UdpSocket)) (listening : bool) :
    M Printer bool :=
  loop_on (udp_build so (udp_receive_closure config udp_clocks)) ts listening.

(** The connections that are accepted. *)
Context `{Timeouts} {Raw Tls TcpAddr : Type} `{AsyncReadSpec Raw} `{AsyncReadSpec Tls}
  `{!FramedReadApi (Conn Raw Tls) (TcpState Closure) Received}
  (tcp_clocks : Raw -> (nat -> SystemTime) * (nat -> SystemTime)).
Abbreviation TcpListener :=
  (Listen (FilterMap Raw) (TimeoutStream (FramedRead (Conn Raw Tls) (TcpState Closure)))).

Section TcpLoop.
Context (keep_alive : Duration) (max_size_bytes : Z) (tls : bool) (config : Gelf.Config).

#[local] Instance tcp_accepted :
    Stream (FilterMap Raw) (TimeoutStream (FramedRead (Conn Raw Tls) (TcpState Closure))) :=
  tcp_incoming (Addr := TcpAddr) keep_alive max_size_bytes tls config tcp_clocks.

Definition tcp_turn : Type := turn TcpListener.
Definition tcp_loop (ts : list tcp_turn) (listening : bool) : M Printer bool :=
  loop_on (L := TcpListener) tcp_build ts listening.

(** Its polls, when it starts in [q]. *)
Definition tcp_loop_polls (ts : list tcp_turn) (listening : bool) (q : Printer) :
    list (poll TcpListener (Received + error)) :=
  threads_polls (L := TcpListener) ts (mkRunning (tcp_build, q) listening false).
End TcpLoop.

(** ** The program *)

(** The turns of the threads, which the stream that is set up tells apart. *)
Context (udp_turns : list (turn UdpSocket))
  (tcp_turns : forall keep_alive max_size_bytes tls config,
     list (tcp_turn keep_alive max_size_bytes tls config)).

Definition program_loop (config : AppConfig.Config) (listening : bool) (kind : Incoming_kind) :
    M Printer bool :=
  match kind with
  | UdpIncoming => udp_loop (receive config) udp_turns listening
  | TcpIncoming_of keep_alive max_size_bytes tls =>
      tcp_loop keep_alive max_size_bytes (bool_decide (is_Some tls)) (receive config)
        (tcp_turns _ _ _ _) listening
  end.

(** The turns of a server over TCP, which has a certificate or not. *)
Definition tcp_run_turns (config : AppConfig.Config) :=
  tcp_turns (Duration_from_secs (tcp_keep_alive_secs (server config)))
    (tcp_max_size_bytes (server config)) (serves_tls (server config)) (receive config).

(** The polls of the TCP stream, when the loop starts in [q]. *)
Definition tcp_run_polls (config : AppConfig.Config) (listening : bool) (q : Printer) :=
  tcp_loop_polls (Duration_from_secs (tcp_keep_alive_secs (server config)))
    (tcp_max_size_bytes (server config)) (serves_tls (server config)) (receive config)
    (tcp_run_turns config) listening q.

(** What the stream may give in the run; over TCP there are no errors. *)
Definition delivered (config : AppConfig.Config) (listening : bool) (q : Printer)
    (items : list (Received + error)) : Prop :=
  match bind_protocol (bind (server config)) with
  | Udp => udp_gave (receive config) udp_clocks ds items
  | Tcp => exists xs conns, items = inl <$> xs /\
      tcp_given (Duration_from_secs (tcp_keep_alive_secs (server config)))
        (tcp_max_size_bytes (server config)) (serves_tls (server config)) (receive config)
        tcp_clocks (tcp_run_polls config listening q) xs conns
  end.

(** Why the loop stops: stdin was closed, a signal came, or the socket failed. *)
Definition told (config : AppConfig.Config) (listening : bool) (items : list (Received + error)) :
    Prop :=
  match bind_protocol (bind (server config)) with
  | Udp => stops listening false udp_turns items
  | Tcp => stops listening false (tcp_run_turns config) items
  end.

(** No line can be made of a message that is given. *)
Definition no_line (config : AppConfig.Config) (listening : bool) (q : Printer) : Prop :=
  match bind_protocol (bind (server config)) with
  | Udp =>
      udp_panics INLINE_STRING_CAPACITY (CachedString := CachedString) str_debug buffers now
        (receive config) udp_clocks ds (pr_process q) (pr_turn q)
  | Tcp =>
      tcp_panics INLINE_STRING_CAPACITY (CachedString := CachedString) str_debug buffers now
        (Duration_from_secs (tcp_keep_alive_secs (server config)))
        (tcp_max_size_bytes (server config)) (serves_tls (server config)) (receive config)
        tcp_clocks (tcp_run_polls config listening q) (pr_process q) (pr_turn q)
  end.

Lemma program_loop_prints config listening kind (p : Printer) :
  debug_assertions = false -> in_time (receive config) udp_clocks.1 ->
  (forall raw, in_time (receive config) (tcp_clocks raw).1) ->
  (0 <= tcp_max_size_bytes (server config) <= usize_max)%Z ->
  kind_of (server config) kind ->
  wp (program_loop config listening kind)
    (fun b p' => DIAGNOSTICS (globals_of p') = DIAGNOSTICS (globals_of p) /\
       exists items, delivered config listening p items /\
         pr_stdout p' =
           pr_stdout p ++ printed_all (pr_process p) (pr_turn p) (completes (oks items)) /\
         (b = false -> told config listening items))
    (fun o _ => o = None /\ no_line config listening p) p.
Proof.
  intros Hrel Hudp Htcp Hmax Hk. unfold kind_of in Hk. unfold delivered, told, no_line.
  destruct (bind_protocol (bind (server config))); [subst kind|destruct Hk as (tls & -> & Htls)];
    cbn [program_loop].
  - eapply wp_mono.
    + apply (loop_on_prints (udp_ok (receive config) udp_clocks ds)); [|by apply udp_ok_build].
      intros i l g Hl. by apply udp_poll_keeps.
    + intros b p' (Hd & items & o & Hg%polled_gives & Hout & Hstop).
      split; [done|]. exists items. split; [by eapply udp_gives_all|by split].
    + intros o s [-> Hp]. split; [done|].
      by eapply (udp_panicked INLINE_STRING_CAPACITY (CachedString := CachedString)) in Hp.
  - rewrite Htls. eapply wp_mono.
    + apply (loop_on_prints (L := TcpListener) (listen_ok (tcp_max_size_bytes (server config))));
        [|apply listen_ok_build].
      intros i l g Hl. by apply tcp_poll_keeps; [|apply clones_steady|].
    + intros b p' (Hd & items & o & Hg & Hout & Hstop). split; [done|]. exists items.
      apply tcp_gives in Hg as (xs & conns & -> & Hg & _); [|done].
      split; [|by split]. by exists xs, conns.
    + intros o s [-> Hp]. split; [done|].
      eapply (tcp_panicked INLINE_STRING_CAPACITY (CachedString := CachedString)) in Hp;
        [exact Hp|done|by apply clones_steady].
Qed.

(** What the program has printed, whose loop started in [q], and why it stops if
    [waiting] is false. *)
Definition has_printed (config : AppConfig.Config) (listening : bool) (q : Printer)
    (waiting : bool) (p : Printer) : Prop :=
  exists items, delivered config listening q items /\
    pr_stdout p = pr_stdout q ++ printed_all (pr_process q) (pr_turn q) (completes (oks items)) /\
    (waiting = false -> told config listening items).

Lemma has_printed_same config listening q waiting p p' :
  same_state p' p -> has_printed config listening q waiting p ->
  has_printed config listening q waiting p'.
Proof.
  intros Hs (items & Hg & Hout & Hstop). exists items. split; [done|]. split; [|done].
  rewrite <- Hout. unfold same_state in Hs. by injection Hs.
Qed.

(** The loop, as it is started. *)
Lemma program_loop_started env config kind (q : Printer) :
  from_env env = Ok config -> debug_assertions = false ->
  in_time Gelf.Config_default udp_clocks.1 ->
  (forall raw, in_time Gelf.Config_default (tcp_clocks raw).1) ->
  kind_of (server config) kind ->
  wp (program_loop config (is_seq_app env) kind)
    (fun b q' => DIAGNOSTICS (globals_of q') = DIAGNOSTICS (globals_of q) /\
       has_printed config (is_seq_app env) q b q')
    (fun o _ => o = None /\ no_line config (is_seq_app env) q) q.
Proof.
  intros (Hrc & _ & Hmax)%from_env_limits Hrel Hudp Htcp Hk. unfold has_printed.
  apply program_loop_prints; rewrite ?Hrc, ?Hmax; done.
Qed.

End Sqelf.

(** ** A witness *)

Section Witnesses.
#[local] Existing Instances Release bytes_model libflate_fixture decimal_model
  humantime_fixture Z_json_number clef_json_fixture gelf_json_fixture timeouts_model
  closure_udp closure_framed.
Abbreviation SampleUdp := (UdpFramed DatagramSocket (UdpState Closure)).

(** An operating system on which every socket can be bound. *)
#[local] Instance sample_io : ServerIo := {|
  SocketAddr := string;
  parse_addr := Ok;
  udp_bind _ := Ok tt;
  tcp_bind _ := Ok tt;
  Cert := unit;
  Key := unit;
  TlsConfig := unit;
  read_certs _ := Ok [tt];
  read_pkcs8_keys _ := Ok [tt];
  with_single_cert _ _ := Ok tt
|}.

(** A Seq app with diagnostics on; its messages arrive while the metrics are
    reported, and then its stdin is closed. *)
Definition sample_env : Env :=
  {["SEQ_APP_ID"%string := Some "app"%string;
    "SEQ_APP_SETTING_ENABLEDIAGNOSTICS"%string := Some "true"%string]}.
Definition sample_turns : list (turn SampleUdp) :=
  [MainTurn (wake_udp [Datagram]); MainTurn (wake_udp [Datagram; Datagram]); MetricsTurn;
   StdinTurn (inl 1%nat); MainTurn WakeClose; MainTurn (wake_udp [Datagram; NoDatagram]);
   StdinTurn (inl 0%nat); MetricsTurn; MainTurn WakeClose].
Definition late_clocks : (nat -> SystemTime) * (nat -> SystemTime) :=
  (fun _ => 100 * nanos_per_sec, fun _ => 100 * nanos_per_sec)%Z.
Definition sample_main : option Z * Printer :=
  main setup
    (program_loop (Number := Z) (TcpAddr := unit) 16 (CachedString := string) id
       (fun _ => replicate 5 1) (fun _ => nanos_per_sec) sample_socket late_clocks
       (fun _ : Socket => late_clocks)
       sample_turns (fun _ _ _ _ => []))
    sample_env sample_printer.

End Witnesses.
